(** * Verification of the openclaw secrets subsystem

    A shallow embedding of the TypeScript sources of the secrets subsystem
    (path engine, target registry, plan validation, audit exit codes,
    resolver collectors, gateway handlers, apply engine) and of the Tlon
    outbound session resolver, together with the properties the
    specification states about them.

    Conventions of the embedding:
    - a JavaScript value of the configuration tree is a [Value]; an object
      is the list of its own enumerable properties in [Object.entries]
      order, an array is the list of its elements;
    - a JavaScript string is a [string]; each character stands for one code
      unit in the range 0..255;
    - a function that mutates its argument returns the mutated argument;
    - a function that throws returns a sum whose left side is the error. *)

From Stdlib Require Import ZArith Lia Bool Ascii String DecimalString.
From Stdlib Require DecimalNat.
From stdpp Require Import base option list strings gmap.

Local Open Scope string_scope.
Local Open Scope list_scope.

(** * The embedding of the sources *)

(** ** JavaScript string helpers *)

Module JsString.

(** [\d] of the regular expressions of the sources. *)
Definition isDigit (c : ascii) : bool :=
  (48 <=? nat_of_ascii c)%nat && (nat_of_ascii c <=? 57)%nat.

Fixpoint allDigits (s : string) : bool :=
  match s with
  | EmptyString => true
  | String c rest => isDigit c && allDigits rest
  end.

(** [/^\d+$/.test(s)] *)
Definition isDigitString (s : string) : bool :=
  match s with
  | EmptyString => false
  | String _ _ => allDigits s
  end.

Fixpoint parseDigits (acc : nat) (s : string) : nat :=
  match s with
  | EmptyString => acc
  | String c rest => parseDigits (10 * acc + (nat_of_ascii c - 48)) rest
  end.

(** [Number.parseInt(s, 10)] on a string accepted by [/^\d+$/]. *)
Definition parseInt (s : string) : nat := parseDigits 0 s.

(** [String(index)] for a non-negative integer. *)
Definition natToString (n : nat) : string :=
  NilZero.string_of_uint (Nat.to_uint n).

(** Truthiness of a string: [Boolean(s)], as in [if (!value)]. *)
Definition truthy (s : string) : bool :=
  match s with
  | EmptyString => false
  | String _ _ => true
  end.

(** White space removed by [String.prototype.trim], among the code units
    0..255: TAB, LF, VT, FF, CR, SPACE and NBSP. *)
Definition isWhite (c : ascii) : bool :=
  let n := nat_of_ascii c in
  ((9 <=? n)%nat && (n <=? 13)%nat) || (n =? 32)%nat || (n =? 160)%nat.

Fixpoint trimStart (s : string) : string :=
  match s with
  | EmptyString => EmptyString
  | String c rest => if isWhite c then trimStart rest else s
  end.

(** Removes trailing white space: a character is kept when it is not
    white space or when something is kept after it. *)
Fixpoint trimEnd (s : string) : string :=
  match s with
  | EmptyString => EmptyString
  | String c rest =>
      match trimEnd rest with
      | EmptyString => if isWhite c then EmptyString else String c EmptyString
      | kept => String c kept
      end
  end.

Definition trim (s : string) : string := trimEnd (trimStart s).

(** [s.trim().length > 0] *)
Definition isBlank (s : string) : bool := negb (truthy (trim s)).

Fixpoint startsWith (s prefix : string) : bool :=
  match prefix, s with
  | EmptyString, _ => true
  | String p prefix', String c s' => Ascii.eqb p c && startsWith s' prefix'
  | String _ _, EmptyString => false
  end.

Fixpoint dropChars (n : nat) (s : string) : string :=
  match n, s with
  | O, _ => s
  | S n', String _ s' => dropChars n' s'
  | S _, EmptyString => EmptyString
  end.

(** [s.slice(n)] for [0 <= n]. *)
Definition sliceFrom (n : nat) (s : string) : string := dropChars n s.

(** ASCII lower-casing: the prefixes tested in the sources contain only
    letters that no other code unit lower-cases to. *)
Definition lowerChar (c : ascii) : ascii :=
  let n := nat_of_ascii c in
  if (65 <=? n)%nat && (n <=? 90)%nat then ascii_of_nat (n + 32) else c.

Fixpoint toLowerCase (s : string) : string :=
  match s with
  | EmptyString => EmptyString
  | String c rest => String (lowerChar c) (toLowerCase rest)
  end.

(** [s.split(sep)] for a one-character separator: the current piece is
    accumulated in reverse in [cur]. *)
Fixpoint splitLoop (sep : ascii) (cur : list ascii) (s : string) : list string :=
  match s with
  | EmptyString => [string_of_list_ascii (rev cur)]
  | String c rest =>
      if Ascii.eqb c sep
      then string_of_list_ascii (rev cur) :: splitLoop sep [] rest
      else splitLoop sep (c :: cur) rest
  end.

Definition split (sep : ascii) (s : string) : list string := splitLoop sep [] s.

(** [parts.join(sep)] *)
Fixpoint join (sep : string) (parts : list string) : string :=
  match parts with
  | [] => ""
  | [p] => p
  | p :: rest => p +:+ sep +:+ join sep rest
  end.

(** [s.endsWith(suffix)] *)
Definition endsWith (s suffix : string) : bool :=
  let n := String.length s in
  let m := String.length suffix in
  (m <=? n)%nat && String.eqb (dropChars (n - m) s) suffix.

Fixpoint takeChars (n : nat) (s : string) : string :=
  match n, s with
  | O, _ => EmptyString
  | S n', String c s' => String c (takeChars n' s')
  | S _, EmptyString => EmptyString
  end.

(** [s.includes(c)] for a single character. *)
Fixpoint includesChar (c : ascii) (s : string) : bool :=
  match s with
  | EmptyString => false
  | String d rest => Ascii.eqb c d || includesChar c rest
  end.

End JsString.

(** ** The configuration tree *)

Module Json.

#[local] Set Warnings "-register-all".

Inductive Value : Type :=
| VUndefined
| VNull
| VBool (b : bool)
| VNum (n : Z)
| VStr (s : string)
| VArr (items : list Value)
| VObj (fields : list (string * Value)).

(** [isRecord] of shared.ts: an object that is neither null nor an array. *)
Definition isRecord (v : Value) : bool :=
  match v with VObj _ => true | _ => false end.

(** [Array.isArray] *)
Definition isArray (v : Value) : bool :=
  match v with VArr _ => true | _ => false end.

(** [value === undefined || value === null] *)
Definition isNullish (v : Value) : bool :=
  match v with VUndefined | VNull => true | _ => false end.

Fixpoint assoc (key : string) (fields : list (string * Value)) : option Value :=
  match fields with
  | [] => None
  | (k, v) :: rest => if String.eqb k key then Some v else assoc key rest
  end.

(** [record[key]]: an absent property reads as [undefined]. *)
Definition getProp (fields : list (string * Value)) (key : string) : Value :=
  default VUndefined (assoc key fields).

(** [Object.prototype.hasOwnProperty.call(record, key)] *)
Definition hasOwn (fields : list (string * Value)) (key : string) : bool :=
  match assoc key fields with Some _ => true | None => false end.

(** The names of the properties that every record inherits from
    [Object.prototype]. The engine reads and writes [record[key]]
    through the prototype chain when the record has no own property
    [key]: for one of these names it finds a built-in function, or the
    accessor [__proto__]. A value lists own properties only, so that
    [getProp] and [setProp] are [record[key]] and [record[key] = value]
    for every key that is none of these names, and for every own
    property. *)
Definition OBJECT_PROTOTYPE_KEYS : list string :=
  ["constructor"; "__defineGetter__"; "__defineSetter__"; "hasOwnProperty";
   "__lookupGetter__"; "__lookupSetter__"; "isPrototypeOf"; "propertyIsEnumerable";
   "toString"; "valueOf"; "__proto__"; "toLocaleString"].

(** None of the keys is the name of an inherited property. *)
Definition ownKeysOnly (keys : list string) : bool :=
  forallb (fun key => negb (existsb (String.eqb key) OBJECT_PROTOTYPE_KEYS)) keys.

(** [record[key] = value]: an existing property keeps its position, a new
    one is added last. *)
Fixpoint setProp (fields : list (string * Value)) (key : string) (value : Value)
  : list (string * Value) :=
  match fields with
  | [] => [(key, value)]
  | (k, v) :: rest =>
      if String.eqb k key then (k, value) :: rest
      else (k, v) :: setProp rest key value
  end.

(** [delete record[key]] *)
Fixpoint deleteProp (fields : list (string * Value)) (key : string)
  : list (string * Value) :=
  match fields with
  | [] => []
  | (k, v) :: rest =>
      if String.eqb k key then deleteProp rest key
      else (k, v) :: deleteProp rest key
  end.

(** [array[index]]: out of range reads as [undefined]. *)
Definition arrGet (items : list Value) (index : nat) : Value :=
  default VUndefined (items !! index).

(** [array[index] = value]: writing past the end extends the array, the
    skipped slots read as [undefined]. *)
Definition arrSet (items : list Value) (index : nat) (value : Value) : list Value :=
  if (index <? length items)%nat then <[index := value]> items
  else items ++ replicate (index - length items) VUndefined ++ [value].

(** [array.splice(index, 1)] *)
Definition arrSplice (items : list Value) (index : nat) : list Value :=
  delete index items.

(** [isDeepStrictEqual] on configuration values: arrays element-wise,
    objects by own keys regardless of their order. *)
Fixpoint deepEq (a b : Value) : bool :=
  match a, b with
  | VUndefined, VUndefined => true
  | VNull, VNull => true
  | VBool x, VBool y => Bool.eqb x y
  | VNum x, VNum y => Z.eqb x y
  | VStr x, VStr y => String.eqb x y
  | VArr xs, VArr ys =>
      (fix elems (xs ys : list Value) : bool :=
         match xs, ys with
         | [], [] => true
         | x :: xs', y :: ys' => deepEq x y && elems xs' ys'
         | _, _ => false
         end) xs ys
  | VObj xs, VObj ys =>
      (length xs =? length ys)%nat &&
      (fix props (xs : list (string * Value)) : bool :=
         match xs with
         | [] => true
         | (k, x) :: xs' =>
             match assoc k ys with
             | Some y => deepEq x y
             | None => false
             end && props xs'
         end) xs
  | _, _ => false
  end.

(** [typeof value === "string"] with the string. *)
Definition asString (v : Value) : option string :=
  match v with VStr s => Some s | _ => None end.

(** Decimal rendering of an integer, as [String(n)] does. *)
Definition intToString (n : Z) : string :=
  match n with
  | Z0 => "0"
  | Zpos p => NilZero.string_of_uint (Pos.to_uint p)
  | Zneg p => "-" +:+ NilZero.string_of_uint (Pos.to_uint p)
  end.

(** [String(value)]; inside an array, [null] and [undefined] render as
    the empty string. *)
Fixpoint toStringValue (v : Value) : string :=
  match v with
  | VUndefined => "undefined"
  | VNull => "null"
  | VBool true => "true"
  | VBool false => "false"
  | VNum n => intToString n
  | VStr s => s
  | VArr items =>
      (fix elems (items : list Value) : string :=
         match items with
         | [] => ""
         | [item] => if isNullish item then "" else toStringValue item
         | item :: rest =>
             (if isNullish item then "" else toStringValue item) +:+ "," +:+ elems rest
         end) items
  | VObj _ => "[object Object]"
  end.

End Json.

(** ** Strict path operations (path-utils.ts) *)

Module PathUtils.
Import JsString Json.

(** [parseDotPath] and [toDotPath] of shared.ts. *)
Definition parseDotPath (pathname : string) : list string :=
  filter (fun segment => truthy segment = true) (map trim (split "." pathname)).

Definition toDotPath (segments : list string) : string := join "." segments.

Definition isArrayIndexSegment (segment : string) : bool := isDigitString segment.

Inductive Container := ArrayContainer | ObjectContainer.

Definition expectedContainer (nextSegment : string) : Container :=
  if isArrayIndexSegment nextSegment then ArrayContainer else ObjectContainer.

(** [needs === "array" ? [] : {}] *)
Definition emptyContainer (needs : Container) : Value :=
  match needs with ArrayContainer => VArr [] | ObjectContainer => VObj [] end.

(** [needs === "array" ? Array.isArray(existing) : isRecord(existing)] *)
Definition hasShape (needs : Container) (existing : Value) : bool :=
  match needs with
  | ArrayContainer => isArray existing
  | ObjectContainer => isRecord existing
  end.

(** The errors thrown by the strict operations, with the data their
    messages are built from. *)
Inductive PathError :=
| ErrEmptyPath
| ErrInvalidArrayIndex (segment : string) (at_path : string)
| ErrInvalidPathShape (at_path : string)
| ErrSegmentMissing (at_path : string).

Definition errorMessage (e : PathError) : string :=
  match e with
  | ErrEmptyPath => "Target path is empty."
  | ErrInvalidArrayIndex segment at_path =>
      "Invalid array index segment " +:+ String "034" segment +:+ String "034" " at "
        +:+ at_path +:+ "."
  | ErrInvalidPathShape at_path => "Invalid path shape at " +:+ at_path +:+ "."
  | ErrSegmentMissing at_path => "Path segment does not exist at " +:+ at_path +:+ "."
  end.

(** [segments.slice(0, n).join(".") || "<root>"] *)
Definition prefixOrRoot (segments : list string) (n : nat) : string :=
  let p := toDotPath (take n segments) in
  if truthy p then p else "<root>".

(** The result of a strict mutation: the tree as the call leaves it, and
    either the thrown error or the returned [changed] flag. *)
Definition Outcome : Type := Value * (PathError + bool).

(** [getPath], [setPathCreateStrict] and [deletePathStrict] walk with
    [cursor[segment]], which is [getProp] on the segments of
    [ownKeysOnly] paths (see [OBJECT_PROTOTYPE_KEYS]); the statements
    that depend on what such a read or write does carry that condition.
    [setPathExistingStrict] tests [hasOwnProperty] before every read. *)
Fixpoint getPathFrom (cursor : Value) (segments : list string) : Value :=
  match segments with
  | [] => cursor
  | segment :: rest =>
      match cursor with
      | VArr items =>
          if isArrayIndexSegment segment
          then getPathFrom (arrGet items (parseInt segment)) rest
          else VUndefined
      | VObj fields => getPathFrom (getProp fields segment) rest
      | _ => VUndefined
      end
  end.

Definition getPath (root : Value) (segments : list string) : Value :=
  match segments with
  | [] => VUndefined
  | _ :: _ => getPathFrom root segments
  end.

(** The loop of [setPathCreateStrict] from position [index], where
    [segment] is [segments[index]] and [rest] the segments after it; the
    last segment is the leaf. *)
Fixpoint createFrom (segments : list string) (value : Value) (index : nat)
    (changed : bool) (cursor : Value) (segment : string) (rest : list string)
    {struct rest} : Outcome :=
  match rest with
  | [] =>
      match cursor with
      | VArr items =>
          if isArrayIndexSegment segment then
            let arrayIndex := parseInt segment in
            if deepEq (arrGet items arrayIndex) value then (cursor, inr changed)
            else (VArr (arrSet items arrayIndex value), inr true)
          else (cursor, inl (ErrInvalidArrayIndex segment (toDotPath segments)))
      | VObj fields =>
          if deepEq (getProp fields segment) value then (cursor, inr changed)
          else (VObj (setProp fields segment value), inr true)
      | _ =>
          (cursor, inl (ErrInvalidPathShape (prefixOrRoot segments (length segments - 1))))
      end
  | nextSegment :: rest' =>
      let needs := expectedContainer nextSegment in
      match cursor with
      | VArr items =>
          if isArrayIndexSegment segment then
            let arrayIndex := parseInt segment in
            let existing := arrGet items arrayIndex in
            if isNullish existing then
              let '(child, result) :=
                createFrom segments value (S index) true (emptyContainer needs)
                  nextSegment rest' in
              (VArr (arrSet items arrayIndex child), result)
            else if hasShape needs existing then
              let '(child, result) :=
                createFrom segments value (S index) changed existing nextSegment rest' in
              (VArr (arrSet items arrayIndex child), result)
            else (cursor, inl (ErrInvalidPathShape (toDotPath (take (S index) segments))))
          else (cursor, inl (ErrInvalidArrayIndex segment (toDotPath segments)))
      | VObj fields =>
          let existing := getProp fields segment in
          if isNullish existing then
            let '(child, result) :=
              createFrom segments value (S index) true (emptyContainer needs)
                nextSegment rest' in
            (VObj (setProp fields segment child), result)
          else if hasShape needs existing then
            let '(child, result) :=
              createFrom segments value (S index) changed existing nextSegment rest' in
            (VObj (setProp fields segment child), result)
          else (cursor, inl (ErrInvalidPathShape (toDotPath (take (S index) segments))))
      | _ => (cursor, inl (ErrInvalidPathShape (prefixOrRoot segments index)))
      end
  end.

Definition setPathCreateStrict (root : Value) (segments : list string) (value : Value)
  : Outcome :=
  match segments with
  | [] => (root, inl ErrEmptyPath)
  | segment :: rest => createFrom segments value 0 false root segment rest
  end.

Fixpoint existingFrom (segments : list string) (value : Value) (index : nat)
    (cursor : Value) (segment : string) (rest : list string) {struct rest} : Outcome :=
  match rest with
  | [] =>
      match cursor with
      | VArr items =>
          if isArrayIndexSegment segment then
            let arrayIndex := parseInt segment in
            if (length items <=? arrayIndex)%nat
            then (cursor, inl (ErrSegmentMissing (toDotPath segments)))
            else if deepEq (arrGet items arrayIndex) value then (cursor, inr false)
            else (VArr (arrSet items arrayIndex value), inr true)
          else (cursor, inl (ErrInvalidArrayIndex segment (toDotPath segments)))
      | VObj fields =>
          if hasOwn fields segment then
            if deepEq (getProp fields segment) value then (cursor, inr false)
            else (VObj (setProp fields segment value), inr true)
          else (cursor, inl (ErrSegmentMissing (toDotPath segments)))
      | _ =>
          (cursor, inl (ErrInvalidPathShape (prefixOrRoot segments (length segments - 1))))
      end
  | nextSegment :: rest' =>
      match cursor with
      | VArr items =>
          if isArrayIndexSegment segment then
            let arrayIndex := parseInt segment in
            if (length items <=? arrayIndex)%nat
            then (cursor, inl (ErrSegmentMissing (toDotPath (take (S index) segments))))
            else
              let '(child, result) :=
                existingFrom segments value (S index) (arrGet items arrayIndex)
                  nextSegment rest' in
              (VArr (arrSet items arrayIndex child), result)
          else (cursor, inl (ErrInvalidArrayIndex segment (toDotPath segments)))
      | VObj fields =>
          if hasOwn fields segment then
            let '(child, result) :=
              existingFrom segments value (S index) (getProp fields segment)
                nextSegment rest' in
            (VObj (setProp fields segment child), result)
          else (cursor, inl (ErrSegmentMissing (toDotPath (take (S index) segments))))
      | _ => (cursor, inl (ErrInvalidPathShape (prefixOrRoot segments index)))
      end
  end.

Definition setPathExistingStrict (root : Value) (segments : list string) (value : Value)
  : Outcome :=
  match segments with
  | [] => (root, inl ErrEmptyPath)
  | segment :: rest => existingFrom segments value 0 root segment rest
  end.

(** The loop of [deletePathStrict]. An intermediate step reads
    [cursor[segment]] without checking that it exists: the value read,
    possibly [undefined], is examined by the next step. *)
Fixpoint deleteFrom (segments : list string) (index : nat)
    (cursor : Value) (segment : string) (rest : list string) {struct rest} : Outcome :=
  match rest with
  | [] =>
      match cursor with
      | VArr items =>
          if isArrayIndexSegment segment then
            let arrayIndex := parseInt segment in
            if (length items <=? arrayIndex)%nat then (cursor, inr false)
            else (VArr (arrSplice items arrayIndex), inr true)
          else (cursor, inl (ErrInvalidArrayIndex segment (toDotPath segments)))
      | VObj fields =>
          if hasOwn fields segment then (VObj (deleteProp fields segment), inr true)
          else (cursor, inr false)
      | _ =>
          (cursor, inl (ErrInvalidPathShape (prefixOrRoot segments (length segments - 1))))
      end
  | nextSegment :: rest' =>
      match cursor with
      | VArr items =>
          if isArrayIndexSegment segment then
            let arrayIndex := parseInt segment in
            let '(child, result) :=
              deleteFrom segments (S index) (arrGet items arrayIndex) nextSegment rest' in
            if (arrayIndex <? length items)%nat
            then (VArr (arrSet items arrayIndex child), result)
            else (cursor, result)
          else (cursor, inl (ErrInvalidArrayIndex segment (toDotPath segments)))
      | VObj fields =>
          let '(child, result) :=
            deleteFrom segments (S index) (getProp fields segment) nextSegment rest' in
          if hasOwn fields segment
          then (VObj (setProp fields segment child), result)
          else (cursor, result)
      | _ => (cursor, inl (ErrInvalidPathShape (prefixOrRoot segments index)))
      end
  end.

Definition deletePathStrict (root : Value) (segments : list string) : Outcome :=
  match segments with
  | [] => (root, inl ErrEmptyPath)
  | segment :: rest => deleteFrom segments 0 root segment rest
  end.

End PathUtils.

(** ** Path patterns (target-registry-pattern.ts) *)

Module TargetRegistryPattern.
Import JsString Json PathUtils.

Inductive PathPatternToken :=
| Literal (value : string)
| Wildcard
| ArrayToken (field : string).

Record ExpandedPathMatch := mkMatch {
  segments : list string;
  captures : list string;
  value : Value
}.

Definition isDynamic (token : PathPatternToken) : bool :=
  match token with Literal _ => false | _ => true end.

Definition countDynamicPatternTokens (tokens : list PathPatternToken) : nat :=
  length (filter (fun token => isDynamic token = true) tokens).

(** One segment of a pattern; [None] is the thrown
    "Invalid target path pattern". *)
Definition parsePatternSegment (segment : string) : option PathPatternToken :=
  if String.eqb segment "*" then Some Wildcard
  else if endsWith segment "[]" then
    let field := trim (takeChars (String.length segment - 2) segment) in
    if truthy field then Some (ArrayToken field) else None
  else Some (Literal segment).

Definition parsePathPattern (pathPattern : string) : option (list PathPatternToken) :=
  mapM parsePatternSegment (parseDotPath pathPattern).

(** [matchPathTokens]: [segments] are the segments from [index] on. *)
Fixpoint matchFrom (tokens : list PathPatternToken) (segments captures : list string)
  : option (list string) :=
  match tokens with
  | [] =>
      match segments with
      | [] => Some captures
      | _ :: _ => None
      end
  | Literal value :: tokens' =>
      match segments with
      | segment :: segments' =>
          if String.eqb segment value then matchFrom tokens' segments' captures else None
      | [] => None
      end
  | Wildcard :: tokens' =>
      match segments with
      | value :: segments' =>
          if truthy value then matchFrom tokens' segments' (captures ++ [value]) else None
      | [] => None
      end
  | ArrayToken field :: tokens' =>
      match segments with
      | segment :: next :: segments' =>
          if String.eqb segment field then
            if truthy next && isDigitString next
            then matchFrom tokens' segments' (captures ++ [next])
            else None
          else None
      | [segment] => None
      | [] => None
      end
  end.

Definition matchPathTokens (segments : list string) (tokens : list PathPatternToken)
  : option (list string) :=
  matchFrom tokens segments [].

(** [materializePathTokens]: [captures] are the captures from
    [captureIndex] on. *)
Fixpoint materializeFrom (tokens : list PathPatternToken) (captures out : list string)
  : option (list string) :=
  match tokens with
  | [] =>
      match captures with
      | [] => Some out
      | _ :: _ => None
      end
  | Literal value :: tokens' => materializeFrom tokens' captures (out ++ [value])
  | Wildcard :: tokens' =>
      match captures with
      | value :: captures' =>
          if truthy value then materializeFrom tokens' captures' (out ++ [value]) else None
      | [] => None
      end
  | ArrayToken field :: tokens' =>
      match captures with
      | arrayIndex :: captures' =>
          if truthy arrayIndex && isDigitString arrayIndex
          then materializeFrom tokens' captures' (out ++ [field; arrayIndex])
          else None
      | [] => None
      end
  end.

Definition materializePathTokens (tokens : list PathPatternToken) (captures : list string)
  : option (list string) :=
  materializeFrom tokens captures [].

Definition isLeafToken (rest : list PathPatternToken) : bool :=
  match rest with [] => true | _ :: _ => false end.

(** The items of an array with their indices, from [index] on. *)
Fixpoint indexedFrom (index : nat) (items : list Value) : list (nat * Value) :=
  match items with
  | [] => []
  | item :: items' => (index, item) :: indexedFrom (S index) items'
  end.

(** [walk] of [expandPathTokens]: [tokens] are the tokens from
    [tokenIndex] on; the matches are returned in the order they are
    pushed. *)
Fixpoint walk (tokens : list PathPatternToken) (node : Value)
    (segs caps : list string) : list ExpandedPathMatch :=
  match tokens with
  | [] => [mkMatch segs caps node]
  | Literal value :: rest =>
      match node with
      | VObj fields =>
          if isLeafToken rest
          then [mkMatch (segs ++ [value]) caps (getProp fields value)]
          else if hasOwn fields value
               then walk rest (getProp fields value) (segs ++ [value]) caps
               else []
      | _ => []
      end
  | Wildcard :: rest =>
      match node with
      | VObj fields =>
          flat_map (fun entry : string * Value =>
            if isLeafToken rest
            then [mkMatch (segs ++ [entry.1]) (caps ++ [entry.1]) entry.2]
            else walk rest entry.2 (segs ++ [entry.1]) (caps ++ [entry.1])) fields
      | _ => []
      end
  | ArrayToken field :: rest =>
      match node with
      | VObj fields =>
          match getProp fields field with
          | VArr items =>
              flat_map (fun entry : nat * Value =>
                let indexString := natToString entry.1 in
                if isLeafToken rest
                then [mkMatch (segs ++ [field; indexString]) (caps ++ [indexString]) entry.2]
                else walk rest entry.2 (segs ++ [field; indexString])
                       (caps ++ [indexString])) (indexedFrom 0 items)
          | _ => []
          end
      | _ => []
      end
  end.

Definition expandPathTokens (root : Value) (tokens : list PathPatternToken)
  : list ExpandedPathMatch :=
  walk tokens root [] [].

End TargetRegistryPattern.

(** ** The target registry (target-registry-types.ts, target-registry-pattern.ts,
    target-registry-query.ts) *)

Module TargetRegistry.
Import JsString Json PathUtils TargetRegistryPattern.

Inductive SecretTargetConfigFile := OpenclawJson | AuthProfilesJson.
Inductive SecretTargetShape := SecretInput | SiblingRef.
Inductive SecretTargetExpected := ExpectString | ExpectStringOrObject.
Inductive AuthProfileType := ApiKeyProfile | TokenProfile.

Record SecretTargetRegistryEntry := {
  id : string;
  targetType : string;
  targetTypeAliases : list string;
  configFile : SecretTargetConfigFile;
  pathPattern : string;
  refPathPattern : option string;
  secretShape : SecretTargetShape;
  expectedResolvedValue : SecretTargetExpected;
  includeInPlan : bool;
  includeInConfigure : bool;
  includeInAudit : bool;
  providerIdPathSegmentIndex : option nat;
  accountIdPathSegmentIndex : option nat;
  authProfileType : option AuthProfileType;
  trackProviderShadowing : bool
}.

Record CompiledTargetRegistryEntry := {
  entry : SecretTargetRegistryEntry;
  pathTokens : list PathPatternToken;
  pathDynamicTokenCount : nat;
  refPathTokens : option (list PathPatternToken);
  refPathDynamicTokenCount : nat
}.

Definition isSiblingRef (shape : SecretTargetShape) : bool :=
  match shape with SiblingRef => true | SecretInput => false end.

(** [compileTargetRegistryEntry]; [None] stands for any of its thrown
    errors. An empty [refPathPattern] counts as absent, as in
    [entry.refPathPattern ? ... : undefined]. *)
Definition compileTargetRegistryEntry (e : SecretTargetRegistryEntry)
  : option CompiledTargetRegistryEntry :=
  tokens ← parsePathPattern (pathPattern e);
  refTokens ←
    match refPathPattern e with
    | Some pattern =>
        if truthy pattern then Some <$> parsePathPattern pattern else Some None
    | None => Some None
    end;
  let count := countDynamicPatternTokens tokens in
  let refCount := from_option countDynamicPatternTokens 0 refTokens in
  match refTokens with
  | None =>
      if isSiblingRef (secretShape e) then None
      else Some {| entry := e; pathTokens := tokens; pathDynamicTokenCount := count;
                   refPathTokens := None; refPathDynamicTokenCount := refCount |}
  | Some _ =>
      if (refCount =? count)%nat
      then Some {| entry := e; pathTokens := tokens; pathDynamicTokenCount := count;
                   refPathTokens := refTokens; refPathDynamicTokenCount := refCount |}
      else None
  end.

Record ResolvedPlanTarget := {
  resolvedEntry : CompiledTargetRegistryEntry;
  pathSegments : list string;
  refPathSegments : option (list string);
  providerId : option string;
  accountId : option string
}.

(** [value ? { key: value } : {}]: a string kept only when it is truthy. *)
Definition keepTruthy (value : option string) : option string :=
  match value with
  | Some s => if truthy s then Some s else None
  | None => None
  end.

(** [index !== undefined ? pathSegments[index] : undefined] *)
Definition segmentAt (index : option nat) (segments : list string) : option string :=
  index ≫= fun i => segments !! i.

Definition toResolvedPlanTarget (e : CompiledTargetRegistryEntry)
    (segments captures : list string) : option ResolvedPlanTarget :=
  let providerId := segmentAt (providerIdPathSegmentIndex (entry e)) segments in
  let accountId := segmentAt (accountIdPathSegmentIndex (entry e)) segments in
  match refPathTokens e with
  | Some refTokens =>
      match materializePathTokens refTokens captures with
      | Some refSegments =>
          Some {| resolvedEntry := e; pathSegments := segments;
                  refPathSegments := Some refSegments;
                  providerId := keepTruthy providerId;
                  accountId := keepTruthy accountId |}
      | None => None
      end
  | None =>
      Some {| resolvedEntry := e; pathSegments := segments;
              refPathSegments := None;
              providerId := keepTruthy providerId;
              accountId := keepTruthy accountId |}
  end.

(** The TypeError of [candidate.providerId.trim()] on a value that has
    no [trim]. *)
Inductive PlanTypeError := TrimIsNotAFunction.

(** [candidate.providerId && candidate.providerId.trim().length > 0] on
    the value the caller passed, whatever its type: the id to compare
    for a string that is not blank; nothing to compare for a blank
    string and for a falsy value; the TypeError for a truthy value that
    is not a string. *)
Definition suppliedId (value : Value) : PlanTypeError + option string :=
  match value with
  | VStr s => inr (if isBlank s then None else Some s)
  | VUndefined | VNull | VBool false | VNum 0 => inr None
  | VBool true | VNum _ | VArr _ | VObj _ => inl TrimIsNotAFunction
  end.

(** [!resolved.providerId || resolved.providerId !== candidate.providerId]
    negated: the resolved id is present and equal to the supplied one. *)
Definition idAgrees (supplied resolved : option string) : bool :=
  match supplied with
  | None => true
  | Some wanted =>
      match resolved with
      | Some found => String.eqb found wanted
      | None => false
      end
  end.

Section Registry.
(** [COMPILED_SECRET_TARGET_REGISTRY]: the compiled entries of
    target-registry-data.ts, which is not part of the sources at hand. *)
Variable registry : list CompiledTargetRegistryEntry.

(** [TARGETS_BY_TYPE.get(type)]: an entry is listed once under its
    target type and once under each alias, in registry order. *)
Definition entriesForType (type : string) : list CompiledTargetRegistryEntry :=
  flat_map (fun e =>
    (if String.eqb (targetType (entry e)) type then [e] else [])
    ++ flat_map (fun alias => if String.eqb alias type then [e] else [])
         (targetTypeAliases (entry e))) registry.

(** [isKnownSecretTargetType]; [None] is a value that is not a string. *)
Definition isKnownSecretTargetType (value : option string) : bool :=
  match value with
  | Some type => negb (bool_decide (entriesForType type = []))
  | None => false
  end.

(** [KNOWN_TARGET_IDS.has(value)] *)
Definition isKnownSecretTargetId (value : option string) : bool :=
  match value with
  | Some targetId => existsb (fun e => String.eqb (id (entry e)) targetId) registry
  | None => false
  end.

(** One of the two id checks of the loop: [false] is [continue]. *)
Definition idCheck (candidateId : Value) (resolved : option string)
  : PlanTypeError + bool :=
  match suppliedId candidateId with
  | inl err => inl err
  | inr supplied => inr (idAgrees supplied resolved)
  end.

(** The loop of [resolvePlanTargetAgainstRegistry] over the entries of
    the type: the target resolved, null, or the TypeError thrown by the
    first entry that reaches an id check on a value without [trim]. *)
Fixpoint resolveAmong (entries : list CompiledTargetRegistryEntry)
    (segments : list string) (candidateProviderId candidateAccountId : Value)
  : PlanTypeError + option ResolvedPlanTarget :=
  match entries with
  | [] => inr None
  | e :: rest =>
      let next := resolveAmong rest segments candidateProviderId candidateAccountId in
      if includeInPlan (entry e) then
        match matchPathTokens segments (pathTokens e) with
        | Some captures =>
            match toResolvedPlanTarget e segments captures with
            | Some resolved =>
                match idCheck candidateProviderId (providerId resolved) with
                | inl err => inl err
                | inr false => next
                | inr true =>
                    match idCheck candidateAccountId (accountId resolved) with
                    | inl err => inl err
                    | inr false => next
                    | inr true => inr (Some resolved)
                    end
                end
            | None => next
            end
        | None => next
        end
      else next
  end.

Definition resolvePlanTargetAgainstRegistry (type : string) (segments : list string)
    (candidateProviderId candidateAccountId : Value)
  : PlanTypeError + option ResolvedPlanTarget :=
  resolveAmong (entriesForType type) segments candidateProviderId candidateAccountId.

End Registry.

End TargetRegistry.

(** ** Plan validation (plan.ts) *)

Module Plan.
Import JsString Json PathUtils TargetRegistryPattern TargetRegistry.

(** The argument of [resolveValidatedPlanTarget]; every field is
    optional. [type] and [path] are tested with [typeof] before use and
    [pathSegments] goes through [String]; [providerId] and [accountId]
    are passed on as they come, so that they are kept as values: the
    declared type, a string, is not checked on a parsed plan file. *)
Record PlanTargetCandidate := {
  c_type : option string;
  c_path : option string;
  c_pathSegments : option (list string);
  c_agentId : option string;
  c_providerId : Value;
  c_accountId : Value;
  c_authProfileProvider : option string
}.

Definition FORBIDDEN_PATH_SEGMENTS : list string :=
  ["__proto__"; "prototype"; "constructor"].

Definition hasForbiddenPathSegment (segments : list string) : bool :=
  existsb (fun segment => existsb (String.eqb segment) FORBIDDEN_PATH_SEGMENTS) segments.

(** [typeof candidate.path === "string" ? candidate.path.trim() : ""] *)
Definition planPath (c : PlanTargetCandidate) : string :=
  match c_path c with
  | Some p => trim p
  | None => ""
  end.

(** The [segments] of [resolveValidatedPlanTarget]: the given segments,
    trimmed and without the empty ones, when a non-empty array is given;
    the segments of the path otherwise. *)
Definition planSegments (c : PlanTargetCandidate) : list string :=
  match c_pathSegments c with
  | Some (segment :: rest) =>
      filter (fun s => truthy s = true) (map trim (segment :: rest))
  | _ => parseDotPath (planPath c)
  end.

Section Registry.
Variable registry : list CompiledTargetRegistryEntry.

(** [resolveValidatedPlanTarget]: the resolved target, null, or the
    TypeError of [resolvePlanTargetAgainstRegistry]. *)
Definition resolveValidatedPlanTarget (c : PlanTargetCandidate)
  : PlanTypeError + option ResolvedPlanTarget :=
  if isKnownSecretTargetType registry (c_type c) then
    let path := planPath c in
    if truthy path then
      let segments := planSegments c in
      if bool_decide (segments = []) || hasForbiddenPathSegment segments
         || negb (String.eqb path (toDotPath segments))
      then inr None
      else resolvePlanTargetAgainstRegistry registry (default "" (c_type c)) segments
             (c_providerId c) (c_accountId c)
    else inr None
  else inr None.

(** A plan target as [isSecretsApplyPlan] reads it from the parsed plan
    file. [type], [path], [agentId] and [authProfileProvider] are used
    under a [typeof] test only: a field of another type counts as
    absent. [providerId] and [accountId] are passed on untested. *)
Definition candidateOf (target : list (string * Value)) : PlanTargetCandidate :=
  {| c_type := asString (getProp target "type");
     c_path := asString (getProp target "path");
     c_pathSegments :=
       match getProp target "pathSegments" with
       | VArr items => Some (map toStringValue items)
       | _ => None
       end;
     c_agentId := asString (getProp target "agentId");
     c_providerId := getProp target "providerId";
     c_accountId := getProp target "accountId";
     c_authProfileProvider := asString (getProp target "authProfileProvider") |}.

(** [typeof value === "string" && value.trim().length > 0] *)
Definition isNonBlankString (v : Value) : bool :=
  match v with
  | VStr s => negb (isBlank s)
  | _ => false
  end.

(** The checks of [isSecretsApplyPlan] on [candidate.ref]. *)
Definition refLooksValid (ref : Value) : bool :=
  match ref with
  | VObj fields =>
      match getProp fields "source" with
      | VStr source =>
          (String.eqb source "env" || String.eqb source "file" || String.eqb source "exec")
          && isNonBlankString (getProp fields "provider")
          && isNonBlankString (getProp fields "id")
      | _ => false
      end
  | _ => false
  end.

Definition isAuthProfilesFile (file : SecretTargetConfigFile) : bool :=
  match file with AuthProfilesJson => true | OpenclawJson => false end.

(** The body of the loop over [typed.targets]: [true] when the target
    passes, [false] when the loop returns false; the call of
    [resolveValidatedPlanTarget] comes first and may throw. *)
Definition targetPasses (target : Value) : PlanTypeError + bool :=
  match target with
  | VObj fields =>
      let candidate := candidateOf fields in
      match resolveValidatedPlanTarget candidate with
      | inl err => inl err
      | inr (Some resolved) =>
          inr (
          isKnownSecretTargetType registry (c_type candidate)
          && isNonBlankString (getProp fields "path")
          && (match getProp fields "pathSegments" with
              | VUndefined | VArr _ => true
              | _ => false
              end)
          && refLooksValid (getProp fields "ref")
          && (if isAuthProfilesFile (configFile (entry (resolvedEntry resolved)))
              then isNonBlankString (getProp fields "agentId")
                   && (match getProp fields "authProfileProvider" with
                       | VUndefined => true
                       | other => isNonBlankString other
                       end)
              else true))
      | inr None => inr false
      end
  | _ => inr false
  end.

(** The loop over [typed.targets]: it stops at the first target that
    does not pass. *)
Fixpoint targetsPass (targets : list Value) : PlanTypeError + bool :=
  match targets with
  | [] => inr true
  | target :: rest =>
      match targetPasses target with
      | inl err => inl err
      | inr false => inr false
      | inr true => targetsPass rest
      end
  end.

(** [isValidSecretProviderAlias] of ref-contract.ts and the provider
    schema of zod-schema.core.ts are not part of the sources at hand. *)
Variable isValidSecretProviderAlias : string -> bool.
Variable isSecretProviderConfigShape : Value -> bool.

Definition providerUpsertsPass (upserts : Value) : bool :=
  match upserts with
  | VUndefined => true
  | VObj entries =>
      forallb (fun item : string * Value =>
        isValidSecretProviderAlias item.1 && isSecretProviderConfigShape item.2) entries
  | _ => false
  end.

Definition providerDeletesPass (deletes : Value) : bool :=
  match deletes with
  | VUndefined => true
  | VArr aliases =>
      forallb (fun alias =>
        match alias with
        | VStr s => isValidSecretProviderAlias s
        | _ => false
        end) aliases
  | _ => false
  end.

Definition isOne (v : Value) : bool :=
  match v with VNum 1 => true | _ => false end.

(** [isSecretsApplyPlan]: the boolean returned, or the TypeError thrown
    while a target is validated. *)
Definition isSecretsApplyPlan (value : Value) : PlanTypeError + bool :=
  match value with
  | VObj typed =>
      if isOne (getProp typed "version") && isOne (getProp typed "protocolVersion") then
        match getProp typed "targets" with
        | VArr targets =>
            match targetsPass targets with
            | inr true =>
                inr (providerUpsertsPass (getProp typed "providerUpserts")
                     && providerDeletesPass (getProp typed "providerDeletes"))
            | stopped => stopped
            end
        | _ => inr false
        end
      else inr false
  | _ => inr false
  end.

End Registry.

End Plan.

(** ** Audit report and exit code (audit.ts) *)

Module Audit.

Inductive SecretsAuditCode :=
| PLAINTEXT_FOUND | REF_UNRESOLVED | REF_SHADOWED | LEGACY_RESIDUE.

Inductive SecretsAuditSeverity := SeverityInfo | SeverityWarn | SeverityError.

Inductive SecretsAuditStatus := StatusClean | StatusFindings | StatusUnresolved.

Record SecretsAuditFinding := {
  code : SecretsAuditCode;
  severity : SecretsAuditSeverity;
  file : string;
  jsonPath : string;
  message : string;
  provider : option string;
  profileId : option string
}.

Record AuditSummary := {
  plaintextCount : nat;
  unresolvedRefCount : nat;
  shadowedRefCount : nat;
  legacyResidueCount : nat
}.

Record SecretsAuditReport := {
  version : nat;
  status : SecretsAuditStatus;
  filesScanned : list string;
  summary : AuditSummary;
  findings : list SecretsAuditFinding
}.

Definition codeEqb (a b : SecretsAuditCode) : bool :=
  match a, b with
  | PLAINTEXT_FOUND, PLAINTEXT_FOUND
  | REF_UNRESOLVED, REF_UNRESOLVED
  | REF_SHADOWED, REF_SHADOWED
  | LEGACY_RESIDUE, LEGACY_RESIDUE => true
  | _, _ => false
  end.

(** [findings.filter((entry) => entry.code === c).length] *)
Fixpoint countCode (c : SecretsAuditCode) (entries : list SecretsAuditFinding) : nat :=
  match entries with
  | [] => 0
  | entry :: rest =>
      if codeEqb (code entry) c then S (countCode c rest) else countCode c rest
  end.

Definition summarizeFindings (entries : list SecretsAuditFinding) : AuditSummary :=
  {| plaintextCount := countCode PLAINTEXT_FOUND entries;
     unresolvedRefCount := countCode REF_UNRESOLVED entries;
     shadowedRefCount := countCode REF_SHADOWED entries;
     legacyResidueCount := countCode LEGACY_RESIDUE entries |}.

(** The end of [runSecretsAudit]: the report built from the findings of
    the collector and the sorted list of scanned files. *)
Definition buildAuditReport (sortedFiles : list string)
    (entries : list SecretsAuditFinding) : SecretsAuditReport :=
  let summary := summarizeFindings entries in
  let status :=
    if (0 <? unresolvedRefCount summary)%nat then StatusUnresolved
    else if (0 <? length entries)%nat then StatusFindings
    else StatusClean in
  {| version := 1; status := status; filesScanned := sortedFiles;
     summary := summary; findings := entries |}.

Definition resolveSecretsAuditExitCode (report : SecretsAuditReport) (check : bool) : Z :=
  if (0 <? unresolvedRefCount (summary report))%nat then 2%Z
  else if check && (0 <? length (findings report))%nat then 1%Z
  else 0%Z.

End Audit.

(** ** Tlon outbound sessions (extensions/tlon/src/outbound-session.ts) *)

Module Tlon.
Import JsString.

Inductive PeerKind := Group | Direct.

Record Peer := { kind : PeerKind; peerId : string }.

Record ChannelOutboundSessionResolveResult := {
  peer : Peer;
  chatType : PeerKind;
  from : string;
  to : string
}.

Definition normalizeTlonShip (raw : string) : string :=
  let trimmed := trim raw in
  if truthy trimmed then
    if startsWith trimmed "~" then trimmed else "~" +:+ trimmed
  else trimmed.

(** [s.replace(/^prefix/i, "")] for a lower-case ASCII prefix. *)
Definition stripPrefixIgnoreCase (prefix s : string) : string :=
  if startsWith (toLowerCase s) prefix then dropChars (String.length prefix) s else s.

(** [s.replace(/^(group|room):/i, "")] *)
Definition stripGroupPrefix (s : string) : string :=
  if startsWith (toLowerCase s) "group:" then dropChars 6 s
  else if startsWith (toLowerCase s) "room:" then dropChars 5 s
  else s.

(** [s.split("/").filter(Boolean)] *)
Definition slashParts (s : string) : list string :=
  filter (fun part => truthy part = true) (split "/" s).

(** The peer id of a two-part [host/channel] target, or [fallback]. *)
Definition chatPeerId (s fallback : string) : string :=
  match slashParts s with
  | [host; channel] => "chat/" +:+ normalizeTlonShip host +:+ "/" +:+ channel
  | _ => fallback
  end.

(** The branches that decide [isGroup] and [peerId] for a non-blank
    target without its [tlon:] prefix. *)
Definition classifyTarget (trimmed : string) : bool * string :=
  let lower := toLowerCase trimmed in
  if startsWith lower "group:" || startsWith lower "room:" then
    let peerId := trim (stripGroupPrefix trimmed) in
    (true, if startsWith peerId "chat/" then peerId else chatPeerId peerId peerId)
  else if startsWith lower "dm:" then
    (false, normalizeTlonShip (sliceFrom 3 trimmed))
  else if startsWith lower "chat/" then
    (true, trimmed)
  else if includesChar "/" trimmed then
    match slashParts trimmed with
    | [host; channel] => (true, "chat/" +:+ normalizeTlonShip host +:+ "/" +:+ channel)
    | _ => (false, trimmed)
    end
  else (false, normalizeTlonShip trimmed).

Definition resolveTlonOutboundSession (target : string)
  : option ChannelOutboundSessionResolveResult :=
  let trimmed := trim target in
  if truthy trimmed then
    let trimmed := trim (stripPrefixIgnoreCase "tlon:" trimmed) in
    if truthy trimmed then
      let '(isGroup, peerId) := classifyTarget trimmed in
      let kind := if isGroup then Group else Direct in
      Some {| peer := {| kind := kind; peerId := peerId |};
              chatType := kind;
              from := if isGroup then "tlon:group:" +:+ peerId else "tlon:" +:+ peerId;
              to := "tlon:" +:+ peerId |}
    else None
  else None.

End Tlon.

(** ** The resolver context (runtime-shared.ts, secret-value.ts) *)

Module RuntimeShared.
Import JsString Json.

Record SecretRef := mkSecretRef {
  source : string;
  provider : string;
  id : string
}.

(** Modelled from the spec: [secretRefKey] of ref-contract.ts, which is
    not part of the sources at hand; the specification gives the key of a
    ref as [source:provider:id]. *)
Definition secretRefKey (ref : SecretRef) : string :=
  source ref +:+ ":" +:+ provider ref +:+ ":" +:+ id ref.

Inductive SecretResolverWarningCode :=
| SECRETS_REF_OVERRIDES_PLAINTEXT
| SECRETS_REF_IGNORED_INACTIVE_SURFACE.

Definition codeName (code : SecretResolverWarningCode) : string :=
  match code with
  | SECRETS_REF_OVERRIDES_PLAINTEXT => "SECRETS_REF_OVERRIDES_PLAINTEXT"
  | SECRETS_REF_IGNORED_INACTIVE_SURFACE => "SECRETS_REF_IGNORED_INACTIVE_SURFACE"
  end.

Record SecretResolverWarning := mkWarning {
  code : SecretResolverWarningCode;
  path : string;
  message : string
}.

Inductive SecretExpectedResolvedValue := ExpectString | ExpectStringOrObject.

(** What the [apply] closure of an assignment writes to: the property, at
    the end of [location], of an object of the resolved configuration or
    of the auth-profile store of an agent directory. The closures of the
    auth-profile collectors store [String(value)]. *)
Inductive ApplyTarget :=
| ConfigField (location : list string)
| AuthStoreField (agentDir : string) (location : list string).

Record SecretAssignment := mkAssignment {
  ref : SecretRef;
  assignmentPath : string;
  expected : SecretExpectedResolvedValue;
  apply : ApplyTarget
}.

(** The fields of the context the collectors use; [env] and [cache] are
    read by the providers only. *)
Record ResolverContext := mkContext {
  sourceConfig : Value;
  warnings : list SecretResolverWarning;
  warningKeys : gset string;
  assignments : list SecretAssignment
}.

Definition createResolverContext (config : Value) : ResolverContext :=
  {| sourceConfig := config; warnings := []; warningKeys := ∅; assignments := [] |}.

Definition pushAssignment (context : ResolverContext) (assignment : SecretAssignment)
  : ResolverContext :=
  {| sourceConfig := sourceConfig context;
     warnings := warnings context;
     warningKeys := warningKeys context;
     assignments := assignments context ++ [assignment] |}.

Definition warningKey (warning : SecretResolverWarning) : string :=
  codeName (code warning) +:+ ":" +:+ path warning +:+ ":" +:+ message warning.

Definition pushWarning (context : ResolverContext) (warning : SecretResolverWarning)
  : ResolverContext :=
  if bool_decide (warningKey warning ∈ warningKeys context) then context
  else {| sourceConfig := sourceConfig context;
          warnings := warnings context ++ [warning];
          warningKeys := {[ warningKey warning ]} ∪ warningKeys context;
          assignments := assignments context |}.

Definition inactiveSurfaceMessage (path : string) (details : option string) : string :=
  match details with
  | Some text =>
      if isBlank text
      then path +:+ ": secret ref is configured on an inactive surface; skipping resolution until it becomes active."
      else path +:+ ": " +:+ text
  | None =>
      path +:+ ": secret ref is configured on an inactive surface; skipping resolution until it becomes active."
  end.

Definition pushInactiveSurfaceWarning (context : ResolverContext) (path : string)
    (details : option string) : ResolverContext :=
  pushWarning context
    {| code := SECRETS_REF_IGNORED_INACTIVE_SURFACE;
       path := path;
       message := inactiveSurfaceMessage path details |}.

(** [isNonEmptyString] of shared.ts *)
Definition isNonEmptyString (v : Value) : bool :=
  match v with
  | VStr s => negb (isBlank s)
  | _ => false
  end.

(** [isExpectedResolvedSecretValue] of secret-value.ts *)
Definition isExpectedResolvedSecretValue (v : Value)
    (expected : SecretExpectedResolvedValue) : bool :=
  match expected with
  | ExpectString => isNonEmptyString v
  | ExpectStringOrObject => isNonEmptyString v || isRecord v
  end.

(** [record.enabled !== false] *)
Definition notDisabled (fields : list (string * Value)) : bool :=
  match getProp fields "enabled" with
  | VBool false => false
  | _ => true
  end.

Definition isEnabledFlag (v : Value) : bool :=
  match v with
  | VObj fields => notDisabled fields
  | _ => true
  end.

Definition isChannelAccountEffectivelyEnabled (channel account : Value) : bool :=
  isEnabledFlag channel && isEnabledFlag account.

(** [value?.[key]] where [value] is typed as a record: a property of
    anything else than a record reads as [undefined]. *)
Definition prop (v : Value) (key : string) : Value :=
  match v with
  | VObj fields => getProp fields key
  | _ => VUndefined
  end.

(** [typeof v === "string" ? v.trim() : ""] *)
Definition trimmedString (v : Value) : string :=
  match v with
  | VStr s => trim s
  | _ => ""
  end.

Section SecretInput.
(** [coerceSecretRef] and [hasConfiguredSecretInput] of
    config/types.secrets.ts, which is not part of the sources at hand;
    both take the value and the [secrets.defaults] of the
    configuration. *)
Variable coerceSecretRef : Value -> Value -> option SecretRef.
Variable hasConfiguredSecretInput : Value -> Value -> bool.

(** Modelled from the spec: [resolveSecretInputRef] of
    config/types.secrets.ts, which is not part of the sources at hand.
    If [refValue] is a valid ref then [explicitRef = ref = refValue];
    else if [value] is itself a ref then [ref = value] and
    [explicitRef = null]; else [ref = null]. *)
Definition resolveSecretInputRef (value refValue defaults : Value)
  : option SecretRef * option SecretRef :=
  match coerceSecretRef refValue defaults with
  | Some explicitRef => (Some explicitRef, Some explicitRef)
  | None => (None, coerceSecretRef value defaults)
  end.

Definition collectSecretInputAssignment (value : Value) (path : string)
    (expected : SecretExpectedResolvedValue) (defaults : Value)
    (active : option bool) (inactiveReason : option string) (apply : ApplyTarget)
    (context : ResolverContext) : ResolverContext :=
  match coerceSecretRef value defaults with
  | None => context
  | Some ref =>
      match active with
      | Some false => pushInactiveSurfaceWarning context path inactiveReason
      | _ =>
          pushAssignment context
            {| ref := ref; assignmentPath := path; expected := expected; apply := apply |}
      end
  end.

End SecretInput.

End RuntimeShared.

(** ** Collectors of the core configuration
    (runtime-config-collectors-core.ts, runtime-config-collectors-tts.ts)

    The configuration has passed its schema: where the sources type a value
    as a record and iterate over it, the model iterates over records
    only. *)

Module CoreCollectors.
Import JsString Json RuntimeShared.

(** [v !== false] *)
Definition notFalse (v : Value) : bool :=
  match v with VBool false => false | _ => true end.

(** [v === "text"] *)
Definition isText (v : Value) (text : string) : bool :=
  match v with VStr s => String.eqb s text | _ => false end.

Section Collectors.
Variable coerceSecretRef : Value -> Value -> option SecretRef.
Variable hasConfiguredSecretInput : Value -> Value -> bool.

Local Abbreviation collect := (collectSecretInputAssignment coerceSecretRef).

Definition collectTtsApiKeyAssignments (tts : list (string * Value))
    (pathPrefix : string) (location : list string) (defaults : Value)
    (active : option bool) (inactiveReason : option string)
    (context : ResolverContext) : ResolverContext :=
  let context :=
    match getProp tts "elevenlabs" with
    | VObj elevenlabs =>
        collect (getProp elevenlabs "apiKey") (pathPrefix +:+ ".elevenlabs.apiKey")
          ExpectString defaults active inactiveReason
          (ConfigField (location ++ ["elevenlabs"; "apiKey"])) context
    | _ => context
    end in
  match getProp tts "openai" with
  | VObj openai =>
      collect (getProp openai "apiKey") (pathPrefix +:+ ".openai.apiKey")
        ExpectString defaults active inactiveReason
        (ConfigField (location ++ ["openai"; "apiKey"])) context
  | _ => context
  end.

Definition collectModelProviderAssignments (providers : list (string * Value))
    (defaults : Value) (context : ResolverContext) : ResolverContext :=
  fold_left (fun context (item : string * Value) =>
    let providerId := item.1 in
    let provider := item.2 in
    collect (prop provider "apiKey")
      ("models.providers." +:+ providerId +:+ ".apiKey")
      ExpectString defaults
      (Some (notFalse (prop provider "enabled"))) (Some "provider is disabled.")
      (ConfigField ["models"; "providers"; providerId; "apiKey"]) context)
    providers context.

Definition collectSkillAssignments (entries : list (string * Value))
    (defaults : Value) (context : ResolverContext) : ResolverContext :=
  fold_left (fun context (item : string * Value) =>
    let skillKey := item.1 in
    let entry := item.2 in
    collect (prop entry "apiKey")
      ("skills.entries." +:+ skillKey +:+ ".apiKey")
      ExpectString defaults
      (Some (notFalse (prop entry "enabled"))) (Some "skill entry is disabled.")
      (ConfigField ["skills"; "entries"; skillKey; "apiKey"]) context)
    entries context.

(** [isRecord(v) ? v : undefined] *)
Definition recordOrUndefined (v : Value) : Value :=
  if isRecord v then v else VUndefined.

(** The body of the first loop over [agents.list]: the agent is enabled
    and leaves [memorySearch.remote.apiKey] to the defaults. *)
Definition agentInheritsRemoteApiKey (rawAgent : Value) : bool :=
  match rawAgent with
  | VObj agent =>
      if notFalse (getProp agent "enabled") then
        match recordOrUndefined (getProp agent "memorySearch") with
        | VObj memorySearch =>
            if notFalse (getProp memorySearch "enabled") then
              if hasOwn memorySearch "remote" then
                match getProp memorySearch "remote" with
                | VObj remote => negb (hasOwn remote "apiKey")
                | _ => true
                end
              else true
            else false
        | _ => true
        end
      else false
  | _ => false
  end.

(** The body of [list.forEach] in [collectAgentMemorySearchAssignments]. *)
Definition collectAgentOverride (defaults : Value) (context : ResolverContext)
    (item : nat * Value) : ResolverContext :=
  let index := item.1 in
  match item.2 with
  | VObj agent =>
      match getProp agent "memorySearch" with
      | VObj memorySearch =>
          match getProp memorySearch "remote" with
          | VObj remote =>
              if hasOwn remote "apiKey" then
                let enabled :=
                  notFalse (getProp agent "enabled")
                  && notFalse (getProp memorySearch "enabled") in
                collect (getProp remote "apiKey")
                  ("agents.list." +:+ natToString index +:+ ".memorySearch.remote.apiKey")
                  ExpectString defaults (Some enabled)
                  (Some "agent or memorySearch override is disabled.")
                  (ConfigField ["agents"; "list"; natToString index;
                                "memorySearch"; "remote"; "apiKey"]) context
              else context
          | _ => context
          end
      | _ => context
      end
  | _ => context
  end.

Definition collectAgentMemorySearchAssignments (config defaults : Value)
    (context : ResolverContext) : ResolverContext :=
  match prop config "agents" with
  | VObj agents =>
      let defaultsConfig := recordOrUndefined (getProp agents "defaults") in
      let defaultsMemorySearch :=
        recordOrUndefined (prop defaultsConfig "memorySearch") in
      let defaultsEnabled := notFalse (prop defaultsMemorySearch "enabled") in
      let list := match getProp agents "list" with VArr items => items | _ => [] end in
      let hasEnabledAgentWithoutOverride := existsb agentInheritsRemoteApiKey list in
      let context :=
        match prop defaultsMemorySearch "remote" with
        | VObj remote =>
            collect (getProp remote "apiKey")
              "agents.defaults.memorySearch.remote.apiKey"
              ExpectString defaults
              (Some (defaultsEnabled
                     && (hasEnabledAgentWithoutOverride || (length list =? 0)%nat)))
              (if hasEnabledAgentWithoutOverride then None
               else Some "all enabled agents override memorySearch.remote.apiKey.")
              (ConfigField ["agents"; "defaults"; "memorySearch"; "remote"; "apiKey"])
              context
        | _ => context
        end in
      fold_left (collectAgentOverride defaults)
        (TargetRegistryPattern.indexedFrom 0 list) context
  | _ => context
  end.

Definition collectTalkAssignments (config defaults : Value)
    (context : ResolverContext) : ResolverContext :=
  match prop config "talk" with
  | VObj talk =>
      let context :=
        collect (getProp talk "apiKey") "talk.apiKey" ExpectString defaults None None
          (ConfigField ["talk"; "apiKey"]) context in
      match getProp talk "providers" with
      | VObj providers =>
          fold_left (fun context (item : string * Value) =>
            let providerId := item.1 in
            match item.2 with
            | VObj providerConfig =>
                collect (getProp providerConfig "apiKey")
                  ("talk.providers." +:+ providerId +:+ ".apiKey")
                  ExpectString defaults None None
                  (ConfigField ["talk"; "providers"; providerId; "apiKey"]) context
            | _ => context
            end) providers context
      | _ => context
      end
  | _ => context
  end.

(** The activeness of [gateway.remote.token] and
    [gateway.remote.password], as [collectGatewayAssignments] computes
    it: [remoteEnabled && (remoteMode || remoteUrlConfigured ||
    !localConfigured)]. *)
Definition remoteSecretActive (gateway remote : list (string * Value))
    (defaults : Value) (localField : string) : bool :=
  let localConfigured :=
    hasConfiguredSecretInput (prop (getProp gateway "auth") localField) defaults in
  let remoteMode := isText (getProp gateway "mode") "remote" in
  let remoteUrlConfigured := truthy (trimmedString (getProp remote "url")) in
  let remoteEnabled := notFalse (getProp remote "enabled") in
  remoteEnabled && (remoteMode || remoteUrlConfigured || negb localConfigured).

Definition remoteInactiveReason (remote : list (string * Value)) (field : string)
  : string :=
  if notFalse (getProp remote "enabled")
  then "gateway.remote." +:+ field +:+ " is inactive because local gateway auth "
         +:+ field +:+ " is configured."
  else "gateway.remote is disabled.".

(** ['gateway.auth.mode is not "password".'] *)
Definition authPasswordInactiveReason : string :=
  "gateway.auth.mode is not " +:+ String "034" "password" +:+ String "034" ".".

Definition collectGatewayAssignments (config defaults : Value)
    (context : ResolverContext) : ResolverContext :=
  match prop config "gateway" with
  | VObj gateway =>
      let context :=
        match getProp gateway "auth" with
        | VObj auth =>
            collect (getProp auth "password") "gateway.auth.password"
              ExpectString defaults
              (Some (isText (getProp auth "mode") "password"))
              (Some authPasswordInactiveReason)
              (ConfigField ["gateway"; "auth"; "password"]) context
        | _ => context
        end in
      match getProp gateway "remote" with
      | VObj remote =>
          let context :=
            collect (getProp remote "token") "gateway.remote.token"
              ExpectString defaults
              (Some (remoteSecretActive gateway remote defaults "token"))
              (Some (remoteInactiveReason remote "token"))
              (ConfigField ["gateway"; "remote"; "token"]) context in
          collect (getProp remote "password") "gateway.remote.password"
            ExpectString defaults
            (Some (remoteSecretActive gateway remote defaults "password"))
            (Some (remoteInactiveReason remote "password"))
            (ConfigField ["gateway"; "remote"; "password"]) context
      | _ => context
      end
  | _ => context
  end.

Definition collectMessagesTtsAssignments (config defaults : Value)
    (context : ResolverContext) : ResolverContext :=
  match prop (prop config "messages") "tts" with
  | VObj tts =>
      collectTtsApiKeyAssignments tts "messages.tts" ["messages"; "tts"] defaults
        None None context
  | _ => context
  end.

(** The constant [paths] of [collectToolsWebSearchAssignments], each
    split into its scope and field. *)
Definition webSearchPaths : list (option string * string) :=
  [(None, "apiKey"); (Some "gemini", "apiKey"); (Some "grok", "apiKey");
   (Some "kimi", "apiKey"); (Some "perplexity", "apiKey")].

Definition collectWebSearchPath (search : list (string * Value)) (defaults : Value)
    (context : ResolverContext) (item : option string * string) : ResolverContext :=
  let searchEnabled := notFalse (getProp search "enabled") in
  let field := item.2 in
  match item.1 with
  | Some scope =>
      match getProp search scope with
      | VObj target =>
          collect (getProp target field)
            ("tools.web.search." +:+ scope +:+ "." +:+ field)
            ExpectString defaults
            (Some (searchEnabled && notFalse (getProp target "enabled")))
            (Some ("tools.web.search." +:+ scope
                   +:+ " is disabled or parent search is disabled."))
            (ConfigField ["tools"; "web"; "search"; scope; field]) context
      | _ => context
      end
  | None =>
      collect (getProp search field) ("tools.web.search." +:+ field)
        ExpectString defaults (Some searchEnabled)
        (Some "tools.web.search is disabled.")
        (ConfigField ["tools"; "web"; "search"; field]) context
  end.

Definition collectToolsWebSearchAssignments (config defaults : Value)
    (context : ResolverContext) : ResolverContext :=
  match prop (prop (prop config "tools") "web") "search" with
  | VObj search => fold_left (collectWebSearchPath search defaults) webSearchPaths context
  | _ => context
  end.

Definition collectCronAssignments (config defaults : Value)
    (context : ResolverContext) : ResolverContext :=
  match prop config "cron" with
  | VObj cron =>
      collect (getProp cron "webhookToken") "cron.webhookToken" ExpectString defaults
        None None (ConfigField ["cron"; "webhookToken"]) context
  | _ => context
  end.

Definition collectCoreConfigAssignments (config defaults : Value)
    (context : ResolverContext) : ResolverContext :=
  let context :=
    match prop (prop config "models") "providers" with
    | VObj providers => collectModelProviderAssignments providers defaults context
    | _ => context
    end in
  let context :=
    match prop (prop config "skills") "entries" with
    | VObj entries => collectSkillAssignments entries defaults context
    | _ => context
    end in
  let context := collectAgentMemorySearchAssignments config defaults context in
  let context := collectTalkAssignments config defaults context in
  let context := collectGatewayAssignments config defaults context in
  let context := collectMessagesTtsAssignments config defaults context in
  let context := collectToolsWebSearchAssignments config defaults context in
  collectCronAssignments config defaults context.

End Collectors.
End CoreCollectors.

(** ** Collectors of the channel configuration
    (runtime-config-collectors-channels.ts) *)

Module ChannelCollectors.
Import JsString Json RuntimeShared CoreCollectors.

Record ChannelAccountEntry := {
  accountId : string;
  account : list (string * Value);
  enabled : bool
}.

Record ChannelAccountSurface := {
  hasExplicitAccounts : bool;
  channelEnabled : bool;
  accounts : list ChannelAccountEntry
}.

(** The loop over [Object.entries(accounts)]: the entries that are
    records. *)
Definition accountEntries (channel : list (string * Value))
    (accounts : list (string * Value)) : list ChannelAccountEntry :=
  flat_map (fun item : string * Value =>
    match item.2 with
    | VObj account =>
        [{| accountId := item.1; account := account;
            enabled := isChannelAccountEffectivelyEnabled (VObj channel) (VObj account) |}]
    | _ => []
    end) accounts.

Definition resolveChannelAccountSurface (channel : list (string * Value))
  : ChannelAccountSurface :=
  let channelEnabled := isEnabledFlag (VObj channel) in
  match getProp channel "accounts" with
  | VObj (first :: rest) =>
      {| hasExplicitAccounts := true;
         channelEnabled := channelEnabled;
         accounts := accountEntries channel (first :: rest) |}
  | _ =>
      {| hasExplicitAccounts := false;
         channelEnabled := channelEnabled;
         accounts := [{| accountId := "default"; account := channel;
                         enabled := channelEnabled |}] |}
  end.

Definition isBaseFieldActiveForChannelSurface (surface : ChannelAccountSurface)
    (rootKey : string) : bool :=
  if channelEnabled surface then
    if hasExplicitAccounts surface then
      existsb (fun entry => enabled entry && negb (hasOwn (account entry) rootKey))
        (accounts surface)
    else true
  else false.

Section Collectors.
Variable coerceSecretRef : Value -> Value -> option SecretRef.

Local Abbreviation collect := (collectSecretInputAssignment coerceSecretRef).

Definition collectSimpleChannelFieldAssignments (channelKey field : string)
    (channel : list (string * Value)) (surface : ChannelAccountSurface)
    (defaults : Value) (topInactiveReason accountInactiveReason : string)
    (context : ResolverContext) : ResolverContext :=
  let context :=
    collect (getProp channel field) ("channels." +:+ channelKey +:+ "." +:+ field)
      ExpectString defaults
      (Some (isBaseFieldActiveForChannelSurface surface field))
      (Some topInactiveReason)
      (ConfigField ["channels"; channelKey; field]) context in
  if hasExplicitAccounts surface then
    fold_left (fun context entry =>
      if hasOwn (account entry) field then
        collect (getProp (account entry) field)
          ("channels." +:+ channelKey +:+ ".accounts." +:+ accountId entry
             +:+ "." +:+ field)
          ExpectString defaults (Some (enabled entry)) (Some accountInactiveReason)
          (ConfigField ["channels"; channelKey; "accounts"; accountId entry; field])
          context
      else context) (accounts surface) context
  else context.

(** [hasOwnProperty(account, "webhookUrl") ? (typeof account.webhookUrl
    === "string" ? account.webhookUrl.trim() : "") : baseWebhookUrl] *)
Definition accountWebhookUrl (account : list (string * Value)) (baseWebhookUrl : string)
  : string :=
  if hasOwn account "webhookUrl" then trimmedString (getProp account "webhookUrl")
  else baseWebhookUrl.

Definition collectTelegramAssignments (config defaults : Value)
    (context : ResolverContext) : ResolverContext :=
  match prop (prop config "channels") "telegram" with
  | VObj telegram =>
      let surface := resolveChannelAccountSurface telegram in
      let context :=
        collectSimpleChannelFieldAssignments "telegram" "botToken" telegram surface
          defaults "no enabled account inherits this top-level Telegram botToken."
          "Telegram account is disabled." context in
      let baseWebhookUrl := trimmedString (getProp telegram "webhookUrl") in
      let topLevelWebhookSecretActive :=
        if channelEnabled surface then
          if hasExplicitAccounts surface then
            existsb (fun entry =>
              enabled entry
              && negb (hasOwn (account entry) "webhookSecret")
              && truthy (accountWebhookUrl (account entry) baseWebhookUrl))
              (accounts surface)
          else truthy baseWebhookUrl
        else false in
      let context :=
        collect (getProp telegram "webhookSecret") "channels.telegram.webhookSecret"
          ExpectString defaults (Some topLevelWebhookSecretActive)
          (Some "no enabled Telegram webhook surface inherits this top-level webhookSecret (webhook mode is not active).")
          (ConfigField ["channels"; "telegram"; "webhookSecret"]) context in
      if hasExplicitAccounts surface then
        fold_left (fun context entry =>
          if hasOwn (account entry) "webhookSecret" then
            collect (getProp (account entry) "webhookSecret")
              ("channels.telegram.accounts." +:+ accountId entry +:+ ".webhookSecret")
              ExpectString defaults
              (Some (enabled entry
                     && truthy (accountWebhookUrl (account entry) baseWebhookUrl)))
              (Some "Telegram account is disabled or webhook mode is not active for this account.")
              (ConfigField ["channels"; "telegram"; "accounts"; accountId entry;
                            "webhookSecret"]) context
          else context) (accounts surface) context
      else context
  | _ => context
  end.

Definition collectSlackAssignments (config defaults : Value)
    (context : ResolverContext) : ResolverContext :=
  match prop (prop config "channels") "slack" with
  | VObj slack =>
      let surface := resolveChannelAccountSurface slack in
      fold_left (fun context field =>
        collectSimpleChannelFieldAssignments "slack" field slack surface defaults
          ("no enabled account inherits this top-level Slack " +:+ field +:+ ".")
          "Slack account is disabled." context)
        ["botToken"; "appToken"; "userToken"; "signingSecret"] context
  | _ => context
  end.

(** The loop of [collectDiscordAssignments] over the accounts. *)
Definition collectDiscordAccount (defaults : Value) (context : ResolverContext)
    (entry : ChannelAccountEntry) : ResolverContext :=
  let context :=
    match getProp (account entry) "pluralkit" with
    | VObj pluralkit =>
        collect (getProp pluralkit "token")
          ("channels.discord.accounts." +:+ accountId entry +:+ ".pluralkit.token")
          ExpectString defaults (Some (enabled entry))
          (Some "Discord account is disabled.")
          (ConfigField ["channels"; "discord"; "accounts"; accountId entry;
                        "pluralkit"; "token"]) context
    | _ => context
    end in
  match prop (getProp (account entry) "voice") "tts" with
  | VObj tts =>
      collectTtsApiKeyAssignments coerceSecretRef tts
        ("channels.discord.accounts." +:+ accountId entry +:+ ".voice.tts")
        ["channels"; "discord"; "accounts"; accountId entry; "voice"; "tts"]
        defaults (Some (enabled entry)) (Some "Discord account is disabled.") context
  | _ => context
  end.

Definition collectDiscordAssignments (config defaults : Value)
    (context : ResolverContext) : ResolverContext :=
  match prop (prop config "channels") "discord" with
  | VObj discord =>
      let surface := resolveChannelAccountSurface discord in
      let context :=
        collectSimpleChannelFieldAssignments "discord" "token" discord surface
          defaults "no enabled account inherits this top-level Discord token."
          "Discord account is disabled." context in
      let context :=
        match getProp discord "pluralkit" with
        | VObj pluralkit =>
            collect (getProp pluralkit "token") "channels.discord.pluralkit.token"
              ExpectString defaults
              (Some (isBaseFieldActiveForChannelSurface surface "pluralkit"))
              (Some "no enabled account inherits this top-level Discord pluralkit config.")
              (ConfigField ["channels"; "discord"; "pluralkit"; "token"]) context
        | _ => context
        end in
      let context :=
        match prop (getProp discord "voice") "tts" with
        | VObj tts =>
            collectTtsApiKeyAssignments coerceSecretRef tts
              "channels.discord.voice.tts" ["channels"; "discord"; "voice"; "tts"]
              defaults
              (Some (isBaseFieldActiveForChannelSurface surface "voice"))
              (Some "no enabled account inherits this top-level Discord voice config.")
              context
        | _ => context
        end in
      if hasExplicitAccounts surface
      then fold_left (collectDiscordAccount defaults) (accounts surface) context
      else context
  | _ => context
  end.

Definition collectIrcAssignments (config defaults : Value)
    (context : ResolverContext) : ResolverContext :=
  match prop (prop config "channels") "irc" with
  | VObj irc =>
      let surface := resolveChannelAccountSurface irc in
      let context :=
        collectSimpleChannelFieldAssignments "irc" "password" irc surface
          defaults "no enabled account inherits this top-level IRC password."
          "IRC account is disabled." context in
      let context :=
        match getProp irc "nickserv" with
        | VObj nickserv =>
            collect (getProp nickserv "password") "channels.irc.nickserv.password"
              ExpectString defaults
              (Some (isBaseFieldActiveForChannelSurface surface "nickserv"))
              (Some "no enabled account inherits this top-level IRC nickserv config.")
              (ConfigField ["channels"; "irc"; "nickserv"; "password"]) context
        | _ => context
        end in
      if hasExplicitAccounts surface then
        fold_left (fun context entry =>
          match getProp (account entry) "nickserv" with
          | VObj nickserv =>
              collect (getProp nickserv "password")
                ("channels.irc.accounts." +:+ accountId entry +:+ ".nickserv.password")
                ExpectString defaults (Some (enabled entry))
                (Some "IRC account is disabled.")
                (ConfigField ["channels"; "irc"; "accounts"; accountId entry;
                              "nickserv"; "password"]) context
          | _ => context
          end) (accounts surface) context
      else context
  | _ => context
  end.

Definition collectBlueBubblesAssignments (config defaults : Value)
    (context : ResolverContext) : ResolverContext :=
  match prop (prop config "channels") "bluebubbles" with
  | VObj bluebubbles =>
      collectSimpleChannelFieldAssignments "bluebubbles" "password" bluebubbles
        (resolveChannelAccountSurface bluebubbles) defaults
        "no enabled account inherits this top-level BlueBubbles password."
        "BlueBubbles account is disabled." context
  | _ => context
  end.

Definition collectMSTeamsAssignments (config defaults : Value)
    (context : ResolverContext) : ResolverContext :=
  match prop (prop config "channels") "msteams" with
  | VObj msteams =>
      collect (getProp msteams "appPassword") "channels.msteams.appPassword"
        ExpectString defaults (Some (notFalse (getProp msteams "enabled")))
        (Some "Microsoft Teams channel is disabled.")
        (ConfigField ["channels"; "msteams"; "appPassword"]) context
  | _ => context
  end.

Definition overridesPlaintextWarning (path : string) : SecretResolverWarning :=
  {| code := SECRETS_REF_OVERRIDES_PLAINTEXT;
     path := path;
     message := path
       +:+ ": serviceAccountRef is set; runtime will ignore plaintext serviceAccount." |}.

(** [explicitRef && target.serviceAccount !== undefined &&
    !coerceSecretRef(target.serviceAccount, defaults)] *)
Definition refOverridesPlaintext (explicitRef : option SecretRef)
    (serviceAccount defaults : Value) : bool :=
  match explicitRef with
  | Some _ =>
      match serviceAccount with
      | VUndefined => false
      | _ =>
          match coerceSecretRef serviceAccount defaults with
          | Some _ => false
          | None => true
          end
      end
  | None => false
  end.

(** [target] is the record that holds [serviceAccount] and
    [serviceAccountRef], [location] its place in the resolved
    configuration. *)
Definition collectGoogleChatAccountAssignment (target : list (string * Value))
    (path : string) (location : list string) (defaults : Value)
    (active : option bool) (inactiveReason : option string)
    (context : ResolverContext) : ResolverContext :=
  let '(explicitRef, ref) :=
    resolveSecretInputRef coerceSecretRef (getProp target "serviceAccount")
      (getProp target "serviceAccountRef") defaults in
  match ref with
  | None => context
  | Some ref =>
      match active with
      | Some false =>
          pushInactiveSurfaceWarning context (path +:+ ".serviceAccount") inactiveReason
      | _ =>
          let context :=
            if refOverridesPlaintext explicitRef (getProp target "serviceAccount") defaults
            then pushWarning context (overridesPlaintextWarning path)
            else context in
          pushAssignment context
            {| ref := ref;
               assignmentPath := path +:+ ".serviceAccount";
               expected := ExpectStringOrObject;
               apply := ConfigField (location ++ ["serviceAccount"]) |}
      end
  end.

Definition collectGoogleChatAssignments (googleChat : list (string * Value))
    (defaults : Value) (context : ResolverContext) : ResolverContext :=
  let surface := resolveChannelAccountSurface googleChat in
  let topLevelServiceAccountActive :=
    if channelEnabled surface then
      if hasExplicitAccounts surface then
        existsb (fun entry =>
          enabled entry
          && negb (hasOwn (account entry) "serviceAccount")
          && negb (hasOwn (account entry) "serviceAccountRef")) (accounts surface)
      else true
    else false in
  let context :=
    collectGoogleChatAccountAssignment googleChat "channels.googlechat"
      ["channels"; "googlechat"] defaults (Some topLevelServiceAccountActive)
      (Some "no enabled account inherits this top-level Google Chat serviceAccount.")
      context in
  if hasExplicitAccounts surface then
    fold_left (fun context entry =>
      if hasOwn (account entry) "serviceAccount"
         || hasOwn (account entry) "serviceAccountRef"
      then
        collectGoogleChatAccountAssignment (account entry)
          ("channels.googlechat.accounts." +:+ accountId entry)
          ["channels"; "googlechat"; "accounts"; accountId entry] defaults
          (Some (enabled entry)) (Some "Google Chat account is disabled.") context
      else context) (accounts surface) context
  else context.

Definition collectChannelConfigAssignments (config defaults : Value)
    (context : ResolverContext) : ResolverContext :=
  let context :=
    match prop (prop config "channels") "googlechat" with
    | VObj googleChat => collectGoogleChatAssignments googleChat defaults context
    | _ => context
    end in
  let context := collectTelegramAssignments config defaults context in
  let context := collectSlackAssignments config defaults context in
  let context := collectDiscordAssignments config defaults context in
  let context := collectIrcAssignments config defaults context in
  let context := collectBlueBubblesAssignments config defaults context in
  collectMSTeamsAssignments config defaults context.

End Collectors.
End ChannelCollectors.

(** ** A model of the secret input helpers (config/types.secrets.ts) *)

Module SecretInputModel.
Import JsString Json RuntimeShared.

Definition isSecretSource (source : string) : bool :=
  String.eqb source "env" || String.eqb source "file" || String.eqb source "exec".

(** [defaults?.[source] ?? "default"]: the provider alias of a ref that
    names none. *)
Definition defaultProvider (defaults : Value) (source : string) : string :=
  match prop defaults source with
  | VStr alias => alias
  | _ => "default"
  end.

(** Modelled from the spec: [coerceSecretRef] of config/types.secrets.ts,
    which is not part of the sources at hand. It returns a ref if the
    value matches the ref shape [{source, provider, id}] with a source
    among env, file and exec, the provider being filled from the
    defaults when missing; else null. *)
Definition coerceSecretRef (value defaults : Value) : option SecretRef :=
  match value with
  | VObj fields =>
      match getProp fields "source", getProp fields "id" with
      | VStr source, VStr id =>
          if isSecretSource source && negb (isBlank id) then
            match getProp fields "provider" with
            | VStr provider =>
                if isBlank provider then None else Some (mkSecretRef source provider id)
            | VUndefined => Some (mkSecretRef source (defaultProvider defaults source) id)
            | _ => None
            end
          else None
      | _, _ => None
      end
  | _ => None
  end.

(** Modelled from the spec: [hasConfiguredSecretInput] of
    config/types.secrets.ts, which is not part of the sources at hand. It
    is true iff the value is a non-empty string or a valid ref. *)
Definition hasConfiguredSecretInput (value defaults : Value) : bool :=
  match value with
  | VStr s => truthy s
  | _ => match coerceSecretRef value defaults with Some _ => true | None => false end
  end.

Definition envRef (name : string) : Value :=
  VObj [("source", VStr "env"); ("provider", VStr "default"); ("id", VStr name)].

End SecretInputModel.

(** ** The Telegram collector of the second copy of the channel collectors

    The sources hold a second copy of the channel collectors, after
    target-registry-types.ts, whose [collectTelegramAssignments] takes
    [tokenFile] into account. *)

Module ChannelCollectorsTokenFile.
Import JsString Json RuntimeShared CoreCollectors ChannelCollectors.

Section Collectors.
Variable coerceSecretRef : Value -> Value -> option SecretRef.

Local Abbreviation collect := (collectSecretInputAssignment coerceSecretRef).

(** [!hasOwnProperty(account, "tokenFile") || !(typeof account.tokenFile
    === "string" && account.tokenFile.trim().length > 0)] *)
Definition accountHasNoTokenFile (account : list (string * Value)) : bool :=
  negb (hasOwn account "tokenFile")
  || negb (truthy (trimmedString (getProp account "tokenFile"))).

Definition collectTelegramAssignments (config defaults : Value)
    (context : ResolverContext) : ResolverContext :=
  match prop (prop config "channels") "telegram" with
  | VObj telegram =>
      let surface := resolveChannelAccountSurface telegram in
      let baseTokenFile := trimmedString (getProp telegram "tokenFile") in
      let topLevelBotTokenActive :=
        if channelEnabled surface then
          if hasExplicitAccounts surface then
            existsb (fun entry =>
              enabled entry
              && negb (hasOwn (account entry) "botToken")
              && accountHasNoTokenFile (account entry)
              && negb (truthy baseTokenFile)) (accounts surface)
          else negb (truthy baseTokenFile)
        else false in
      let context :=
        collect (getProp telegram "botToken") "channels.telegram.botToken"
          ExpectString defaults (Some topLevelBotTokenActive)
          (Some "no enabled Telegram surface inherits this top-level botToken (tokenFile is configured).")
          (ConfigField ["channels"; "telegram"; "botToken"]) context in
      let context :=
        if hasExplicitAccounts surface then
          fold_left (fun context entry =>
            if hasOwn (account entry) "botToken" then
              let accountTokenFile :=
                trimmedString (getProp (account entry) "tokenFile") in
              collect (getProp (account entry) "botToken")
                ("channels.telegram.accounts." +:+ accountId entry +:+ ".botToken")
                ExpectString defaults
                (Some (enabled entry && negb (truthy accountTokenFile)))
                (Some "Telegram account is disabled or tokenFile is configured.")
                (ConfigField ["channels"; "telegram"; "accounts"; accountId entry;
                              "botToken"]) context
            else context) (accounts surface) context
        else context in
      let baseWebhookUrl := trimmedString (getProp telegram "webhookUrl") in
      let topLevelWebhookSecretActive :=
        if channelEnabled surface then
          if hasExplicitAccounts surface then
            existsb (fun entry =>
              enabled entry
              && negb (hasOwn (account entry) "webhookSecret")
              && truthy (accountWebhookUrl (account entry) baseWebhookUrl))
              (accounts surface)
          else truthy baseWebhookUrl
        else false in
      let context :=
        collect (getProp telegram "webhookSecret") "channels.telegram.webhookSecret"
          ExpectString defaults (Some topLevelWebhookSecretActive)
          (Some "no enabled Telegram webhook surface inherits this top-level webhookSecret (webhook mode is not active).")
          (ConfigField ["channels"; "telegram"; "webhookSecret"]) context in
      if hasExplicitAccounts surface then
        fold_left (fun context entry =>
          if hasOwn (account entry) "webhookSecret" then
            collect (getProp (account entry) "webhookSecret")
              ("channels.telegram.accounts." +:+ accountId entry +:+ ".webhookSecret")
              ExpectString defaults
              (Some (enabled entry
                     && truthy (accountWebhookUrl (account entry) baseWebhookUrl)))
              (Some "Telegram account is disabled or webhook mode is not active for this account.")
              (ConfigField ["channels"; "telegram"; "accounts"; accountId entry;
                            "webhookSecret"]) context
          else context) (accounts surface) context
      else context
  | _ => context
  end.

End Collectors.
End ChannelCollectorsTokenFile.

(** ** Discovery of targets and command secrets
    (target-registry-query.ts, command-config.ts, runtime.ts) *)

Module CommandSecrets.
Import JsString Json PathUtils TargetRegistryPattern TargetRegistry RuntimeShared.

Record DiscoveredConfigSecretTarget := {
  discoveredEntry : CompiledTargetRegistryEntry;
  discoveredPath : string;
  discoveredSegments : list string;
  discoveredRefSegments : option (list string);
  discoveredValue : Value;
  discoveredRefValue : Value;
  discoveredProviderId : option string;
  discoveredAccountId : option string
}.

Record CommandSecretAssignment := {
  commandPath : string;
  commandSegments : list string;
  commandValue : Value
}.

Record ResolveAssignmentsResult := {
  resultAssignments : list CommandSecretAssignment;
  resultDiagnostics : list string
}.

(** [new Set(values)] in iteration order: the first occurrence of each
    value. *)
Fixpoint uniqueStrings (seen values : list string) : list string :=
  match values with
  | [] => []
  | v :: rest =>
      if bool_decide (v ∈ seen) then uniqueStrings seen rest
      else v :: uniqueStrings (v :: seen) rest
  end.

(** The snapshot the activator holds; the auth stores play no part in the
    resolution of command secrets. *)
Record PreparedSecretsRuntimeSnapshot := {
  snapshotSourceConfig : Value;
  snapshotConfig : Value;
  snapshotAuthStores : list (string * Value);
  snapshotWarnings : list SecretResolverWarning
}.

Definition isOpenclawJson (file : SecretTargetConfigFile) : bool :=
  match file with OpenclawJson => true | AuthProfilesJson => false end.

Definition toExpected (e : SecretTargetExpected) : SecretExpectedResolvedValue :=
  match e with
  | TargetRegistry.ExpectString => RuntimeShared.ExpectString
  | TargetRegistry.ExpectStringOrObject => RuntimeShared.ExpectStringOrObject
  end.

Section Registry.
Variable registry : list CompiledTargetRegistryEntry.
Variable coerceSecretRef : Value -> Value -> option SecretRef.

(** [OPENCLAW_TARGETS_BY_ID.get(targetId) ?? []] *)
Definition openclawTargetsById (targetId : string) : list CompiledTargetRegistryEntry :=
  filter (fun e => isOpenclawJson (configFile (entry e)) = true
                   /\ TargetRegistry.id (entry e) = targetId) registry.

(** The targets one entry discovers in the tree, before the removal of
    duplicates. *)
Definition discoverEntry (config : Value) (e : CompiledTargetRegistryEntry)
  : list DiscoveredConfigSecretTarget :=
  flat_map (fun m : ExpandedPathMatch =>
    match toResolvedPlanTarget e (segments m) (captures m) with
    | Some resolved =>
        [{| discoveredEntry := e;
            discoveredPath := toDotPath (pathSegments resolved);
            discoveredSegments := pathSegments resolved;
            discoveredRefSegments := refPathSegments resolved;
            discoveredValue := value m;
            discoveredRefValue :=
              match refPathSegments resolved with
              | Some refSegments => getPath config refSegments
              | None => VUndefined
              end;
            discoveredProviderId := providerId resolved;
            discoveredAccountId := accountId resolved |}]
    | None => []
    end) (expandPathTokens config (pathTokens e)).

Definition discoveryKey (target : DiscoveredConfigSecretTarget) : string :=
  TargetRegistry.id (entry (discoveredEntry target)) +:+ ":" +:+ discoveredPath target.

(** The [seen] set of the discovery loop: a target is kept when no earlier
    target has its key. *)
Fixpoint dropSeen (seen : list string) (targets : list DiscoveredConfigSecretTarget)
  : list DiscoveredConfigSecretTarget :=
  match targets with
  | [] => []
  | target :: rest =>
      if bool_decide (discoveryKey target ∈ seen) then dropSeen seen rest
      else target :: dropSeen (discoveryKey target :: seen) rest
  end.

(** [discoverConfigSecretTargetsByIds] with a set of target ids. *)
Definition discoverConfigSecretTargetsByIds (config : Value) (targetIds : list string)
  : list DiscoveredConfigSecretTarget :=
  let allowedTargetIds :=
    uniqueStrings [] (filter (fun s => truthy s = true) (map trim targetIds)) in
  let discoveryEntries := flat_map openclawTargetsById allowedTargetIds in
  dropSeen [] (flat_map (discoverEntry config) discoveryEntries).

(** The body of the loop of [collectCommandSecretAssignmentsFromSnapshot]
    for one target; the left side is the message of the thrown error. *)
Definition collectCommandTarget (defaults resolvedConfig : Value) (commandName : string)
    (inactiveRefPaths : list string) (acc : ResolveAssignmentsResult)
    (target : DiscoveredConfigSecretTarget) : string + ResolveAssignmentsResult :=
  let '(explicitRef, ref) :=
    resolveSecretInputRef coerceSecretRef (discoveredValue target)
      (discoveredRefValue target) defaults in
  let inlineCandidateRef :=
    match explicitRef with
    | Some _ => coerceSecretRef (discoveredValue target) defaults
    | None => None
    end in
  match ref with
  | None => inr acc
  | Some _ =>
      let resolved := getPath resolvedConfig (discoveredSegments target) in
      let expected := toExpected (expectedResolvedValue (entry (discoveredEntry target))) in
      if isExpectedResolvedSecretValue resolved expected then
        let assignment :=
          {| commandPath := discoveredPath target;
             commandSegments := discoveredSegments target;
             commandValue := resolved |} in
        let diagnostics :=
          if isSiblingRef (secretShape (entry (discoveredEntry target)))
             && bool_decide (is_Some explicitRef) && bool_decide (is_Some inlineCandidateRef)
          then resultDiagnostics acc
                 ++ [discoveredPath target
                     +:+ ": both inline and sibling ref were present; sibling ref took precedence."]
          else resultDiagnostics acc in
        inr {| resultAssignments := resultAssignments acc ++ [assignment];
               resultDiagnostics := diagnostics |}
      else if bool_decide (discoveredPath target ∈ inactiveRefPaths) then
        inr {| resultAssignments := resultAssignments acc;
               resultDiagnostics := resultDiagnostics acc
                 ++ [discoveredPath target
                     +:+ ": secret ref is configured on an inactive surface; skipping command-time assignment."] |}
      else inl (commandName +:+ ": " +:+ discoveredPath target
                +:+ " is unresolved in the active runtime snapshot.")
  end.

Fixpoint collectCommandTargets (defaults resolvedConfig : Value) (commandName : string)
    (inactiveRefPaths : list string) (acc : ResolveAssignmentsResult)
    (targets : list DiscoveredConfigSecretTarget) : string + ResolveAssignmentsResult :=
  match targets with
  | [] => inr acc
  | target :: rest =>
      match collectCommandTarget defaults resolvedConfig commandName inactiveRefPaths
              acc target with
      | inl message => inl message
      | inr acc' =>
          collectCommandTargets defaults resolvedConfig commandName inactiveRefPaths acc' rest
      end
  end.

Definition collectCommandSecretAssignmentsFromSnapshot (sourceConfig resolvedConfig : Value)
    (commandName : string) (targetIds inactiveRefPaths : list string)
  : string + ResolveAssignmentsResult :=
  let defaults := prop (prop sourceConfig "secrets") "defaults" in
  collectCommandTargets defaults resolvedConfig commandName inactiveRefPaths
    {| resultAssignments := []; resultDiagnostics := [] |}
    (discoverConfigSecretTargetsByIds sourceConfig targetIds).

(** [resolveCommandSecretsFromActiveRuntimeSnapshot]: the module variable
    [activeSnapshot] is the first argument, [targetIds] the elements of the
    set in iteration order. *)
Definition resolveCommandSecretsFromActiveRuntimeSnapshot
    (activeSnapshot : option PreparedSecretsRuntimeSnapshot)
    (commandName : string) (targetIds : list string)
  : string + ResolveAssignmentsResult :=
  match activeSnapshot with
  | None => inl "Secrets runtime snapshot is not active."
  | Some snapshot =>
      match targetIds with
      | [] => inr {| resultAssignments := []; resultDiagnostics := [] |}
      | _ :: _ =>
          collectCommandSecretAssignmentsFromSnapshot (snapshotSourceConfig snapshot)
            (snapshotConfig snapshot) commandName targetIds []
      end
  end.

End Registry.
End CommandSecrets.

(** ** The gateway handler of [secrets.resolve]
    (gateway/server-methods/secrets.ts) *)

Module GatewayHandlers.
Import JsString Json TargetRegistry CommandSecrets.

Inductive ErrorCode := INVALID_REQUEST | UNAVAILABLE.

Record ErrorShape := { errorCode : ErrorCode; errorMessage : string }.

(** The arguments of [respond]: a payload on success, an error shape
    otherwise. *)
Inductive Response :=
| RespondOk (assignments : list CommandSecretAssignment) (diagnostics : list string)
| RespondError (error : ErrorShape).

(** An error of the schema validator, with the fields the handler reads. *)
Record ErrorObject := {
  instancePath : string;
  missingProperty : option string
}.

Record SecretsResolveParams := {
  paramCommandName : string;
  paramTargetIds : list string
}.

Definition invalidSecretsResolveField (errors : list ErrorObject) : string :=
  if existsb (fun issue =>
       String.eqb (instancePath issue) "/commandName"
       || (String.eqb (instancePath issue) ""
           && match missingProperty issue with
              | Some name => String.eqb name "commandName"
              | None => false
              end)) errors
  then "commandName" else "targetIds".

(** [String(err)] for an [Error] with the given message. *)
Definition errorToString (message : string) : string := "Error: " +:+ message.

(** [validateSecretsResolveResult] on the payload the handler builds, after
    [SecretsResolveResultSchema]: every path, path segment and diagnostic
    is a non-empty string. *)
Definition payloadValid (result : ResolveAssignmentsResult) : bool :=
  forallb (fun a =>
    truthy (commandPath a) && forallb truthy (commandSegments a)) (resultAssignments result)
  && forallb truthy (resultDiagnostics result).

Section Handlers.
(** [KNOWN_TARGET_IDS] comes from the registry. *)
Variable registry : list CompiledTargetRegistryEntry.

(** [validateSecretsResolveParams] of gateway/protocol, compiled from
    [SecretsResolveParamsSchema]; it is not part of the sources at hand.
    The left side holds its [errors]. *)
Variable validateSecretsResolveParams : Value -> list ErrorObject + SecretsResolveParams.

(** [params.resolveSecrets]; the left side is the message of the error it
    throws. *)
Variable resolveSecrets : string -> list string -> string + ResolveAssignmentsResult.

Definition invalidRequest (message : string) : Response :=
  RespondError {| errorCode := INVALID_REQUEST; errorMessage := message |}.

Definition unavailable (message : string) : Response :=
  RespondError {| errorCode := UNAVAILABLE; errorMessage := message |}.

(** [requestParams.targetIds.map((entry) => entry.trim()).filter((entry) =>
    entry.length > 0)] *)
Definition requestedTargetIds (params : SecretsResolveParams) : list string :=
  filter (fun s => truthy s = true) (map trim (paramTargetIds params)).

(** The first target id the loop over [targetIds] refuses. *)
Definition firstUnknownTargetId (targetIds : list string) : option string :=
  List.find (fun targetId => negb (isKnownSecretTargetId registry (Some targetId))) targetIds.

(** The handler of [secrets.resolve]: its response, and the calls of
    [resolveSecrets] it made. *)
Definition secretsResolve (requestParams : Value)
  : Response * list (string * list string) :=
  match validateSecretsResolveParams requestParams with
  | inl errors =>
      (invalidRequest ("invalid secrets.resolve params: "
                       +:+ invalidSecretsResolveField errors), [])
  | inr params =>
      let commandName := trim (paramCommandName params) in
      if truthy commandName then
        let targetIds := requestedTargetIds params in
        match firstUnknownTargetId targetIds with
        | Some targetId =>
            (invalidRequest ("invalid secrets.resolve params: unknown target id "
                             +:+ String "034" targetId +:+ String "034" ""), [])
        | None =>
            match resolveSecrets commandName targetIds with
            | inr result =>
                if payloadValid result
                then (RespondOk (resultAssignments result) (resultDiagnostics result),
                      [(commandName, targetIds)])
                else (unavailable (errorToString "secrets.resolve returned invalid payload."),
                      [(commandName, targetIds)])
            | inl message =>
                (unavailable (errorToString message), [(commandName, targetIds)])
            end
        end
      else (invalidRequest "invalid secrets.resolve params: commandName", [])
  end.

End Handlers.

(** Modelled from the spec: the wiring of the handler to the activator,
    done by the gateway server outside the sources at hand. The
    specification has [secrets.resolve] invoke the resolution of command
    secrets from the active snapshot with the requested ids. *)
Definition gatewaySecretsResolve (registry : list CompiledTargetRegistryEntry)
    (coerceSecretRef : Value -> Value -> option RuntimeShared.SecretRef)
    (validateSecretsResolveParams : Value -> list ErrorObject + SecretsResolveParams)
    (activeSnapshot : option PreparedSecretsRuntimeSnapshot)
    (requestParams : Value) : Response * list (string * list string) :=
  secretsResolve registry validateSecretsResolveParams
    (fun commandName targetIds =>
       resolveCommandSecretsFromActiveRuntimeSnapshot registry coerceSecretRef
         activeSnapshot commandName (uniqueStrings [] targetIds))
    requestParams.

End GatewayHandlers.

(** ** The commit step of [runSecretsApply] (apply.ts, shared.ts) *)

Module Apply.
Import JsString Json.

#[local] Set Warnings "-register-all".

(** A thrown [Error]: its message and its [cause]. *)
Inductive JsError : Type :=
| MkError (message : string) (cause : option JsError).

Definition errorCause (err : JsError) : option JsError :=
  match err with MkError _ cause => cause end.

(** [String(err)]. *)
Definition errorString (err : JsError) : string :=
  match err with
  | MkError message _ => if truthy message then "Error: " +:+ message else "Error"
  end.

Record File : Type := { fileContent : string; fileMode : Z }.

Abbreviation Files := (gmap string File).

(** The calls of [node:fs] that can throw, and the call of the config
    writer. *)
Inductive FsCall : Type :=
| MkdirSync (filePath : string)
| StatSync (pathname : string)
| ReadFileSync (pathname : string)
| WriteFileSync (pathname : string) (content : string)
| ChmodSync (pathname : string) (mode : Z)
| RenameSync (oldPath newPath : string)
| RmSync (pathname : string)
| WriteConfigFile (config : Value).

(** The files, and the calls made so far. *)
Record World : Type := { files : Files; calls : list FsCall }.

(** A failure injected into a call: the error thrown, and what a failed
    [writeFileSync] had already written. *)
Record Fault : Type := { faultError : JsError; faultResidue : option string }.

(** Code that reads and writes files and may throw. *)
Definition Fs (A : Type) : Type := World -> (JsError + A) * World.

#[export] Instance fs_ret : MRet Fs := fun A (a : A) w => (inr a, w).

#[export] Instance fs_bind : MBind Fs := fun A B (f : A -> Fs B) (m : Fs A) w =>
  match m w with
  | (inr a, w') => f a w'
  | (inl err, w') => (inl err, w')
  end.

(** [try { m } catch { }]. *)
Definition attempt (m : Fs unit) : Fs bool := fun w =>
  match m w with
  | (inr _, w') => (inr true, w')
  | (inl _, w') => (inr false, w')
  end.

Definition enoent : JsError := MkError "ENOENT: no such file or directory" None.

Record FileSnapshot : Type := { existed : bool; content : string; mode : Z }.

Record ApplyWrite : Type := { writePath : string; writeContent : string; writeMode : Z }.

Record ProjectedState : Type := {
  nextConfig : Value;
  configPath : string;
  configWriteOptions : Value;
  authStoreByPath : list (string * Value);
  authJsonByPath : list (string * Value);
  envRawByPath : list (string * string);
  changedFiles : list string;
  warnings : list string
}.

Inductive ApplyMode : Type := DryRun | WriteMode.

Record SecretsApplyResult : Type := {
  resultMode : ApplyMode;
  changed : bool;
  resultChangedFiles : list string;
  warningCount : nat;
  resultWarnings : list string
}.

Record ApplyParams : Type := { plan : Value; write : bool }.

(** [Array.prototype.toSorted] on strings. *)
Fixpoint insertSorted (s : string) (sorted : list string) : list string :=
  match sorted with
  | [] => [s]
  | t :: rest => if String.leb s t then s :: sorted else t :: insertSorted s rest
  end.

Definition toSorted (items : list string) : list string :=
  foldr insertSorted [] items.

Section Machine.
(** The failure injected into the n-th call, if any. *)
Variable fault : nat -> option Fault.
(** [process.pid], and [Date.now()] at the n-th call. *)
Variable pid : nat.
Variable now : nat -> nat.
(** The mode of a file that [writeFileSync] creates. *)
Variable createMode : Z.
(** [io.writeConfigFile] of config-io.ts: the files it leaves, and the error
    it throws if it fails. *)
Variable writeConfigFile : Value -> Value -> Files -> Files * option JsError.
(** [JSON.stringify(value, null, 2)]. *)
Variable stringifyJson : Value -> string.
(** [projectPlanState]: it reads the files and computes the projected
    state; none of its steps writes. *)
Variable projectPlanState : Value -> Files -> JsError + ProjectedState.

Definition perform {A : Type} (call : FsCall) (run : Files -> option (A * Files))
    (partial : option string -> Files -> Files) : Fs A := fun w =>
  let log := calls w ++ [call] in
  match fault (length (calls w)) with
  | Some f => (inl (faultError f), {| files := partial (faultResidue f) (files w); calls := log |})
  | None =>
      match run (files w) with
      | Some (a, files') => (inr a, {| files := files'; calls := log |})
      | None => (inl enoent, {| files := files w; calls := log |})
      end
  end.

Definition untouched : option string -> Files -> Files := fun _ fs => fs.

Definition existsSync (pathname : string) : Fs bool := fun w =>
  (inr (bool_decide (is_Some (files w !! pathname))), w).

Definition dateNow : Fs nat := fun w => (inr (now (length (calls w))), w).

Definition statSync (pathname : string) : Fs Z :=
  perform (StatSync pathname)
    (fun fs => f ← fs !! pathname; Some (fileMode f, fs)) untouched.

Definition readFileSync (pathname : string) : Fs string :=
  perform (ReadFileSync pathname)
    (fun fs => f ← fs !! pathname; Some (fileContent f, fs)) untouched.

Definition written (pathname content : string) (fs : Files) : Files :=
  <[pathname := {| fileContent := content;
                   fileMode := from_option fileMode createMode (fs !! pathname) |}]> fs.

Definition writeFileSync (pathname content : string) : Fs unit :=
  perform (WriteFileSync pathname content)
    (fun fs => Some (tt, written pathname content fs))
    (fun residue fs => from_option (fun partial => written pathname partial fs) fs residue).

Definition chmodSync (pathname : string) (mode : Z) : Fs unit :=
  perform (ChmodSync pathname mode)
    (fun fs => f ← fs !! pathname;
               Some (tt, <[pathname := {| fileContent := fileContent f; fileMode := mode |}]> fs))
    untouched.

Definition renameSync (oldPath newPath : string) : Fs unit :=
  perform (RenameSync oldPath newPath)
    (fun fs => f ← fs !! oldPath; Some (tt, <[newPath := f]> (delete oldPath fs)))
    untouched.

(** [fs.rmSync(pathname, { force: true })]. *)
Definition rmSync (pathname : string) : Fs unit :=
  perform (RmSync pathname) (fun fs => Some (tt, delete pathname fs)) untouched.

(** Directories are not part of the model: [mkdirSync] succeeds or throws. *)
Definition ensureDirForFile (filePath : string) : Fs unit :=
  perform (MkdirSync filePath) (fun fs => Some (tt, fs)) untouched.

Definition tempPathFor (pathname : string) (time : nat) : string :=
  pathname +:+ ".tmp-" +:+ natToString pid +:+ "-" +:+ natToString time.

Definition writeTextFileAtomic (pathname value : string) (mode : Z) : Fs unit :=
  ensureDirForFile pathname;;
  time ← dateNow;
  let tempPath := tempPathFor pathname time in
  writeFileSync tempPath value;;
  chmodSync tempPath mode;;
  renameSync tempPath pathname.

(** 0o600 is 384, 0o777 is 511. *)
Definition captureFileSnapshot (pathname : string) : Fs FileSnapshot :=
  present ← existsSync pathname;
  if negb present then mret {| existed := false; content := ""; mode := 384 |}
  else
    statMode ← statSync pathname;
    text ← readFileSync pathname;
    mret {| existed := true; content := text; mode := Z.land statMode 511 |}.

Definition restoreFileSnapshot (pathname : string) (snapshot : FileSnapshot) : Fs unit :=
  if negb (existed snapshot) then
    present ← existsSync pathname;
    if (present : bool) then rmSync pathname else mret tt
  else
    writeTextFileAtomic pathname (content snapshot)
      (if Z.eqb (mode snapshot) 0 then 384 else mode snapshot).

Definition toJsonWrite (pathname : string) (value : Value) : ApplyWrite :=
  {| writePath := pathname;
     writeContent := stringifyJson value +:+ String "010" "";
     writeMode := 384 |}.

Definition Snapshots : Type := list (string * FileSnapshot).

Definition hasSnapshot (snapshots : Snapshots) (pathname : string) : bool :=
  existsb (fun item => String.eqb item.1 pathname) snapshots.

(** [capture]: the first snapshot of a path is kept. *)
Definition capture (pathname : string) (snapshots : Snapshots) : Fs Snapshots :=
  if hasSnapshot snapshots pathname then mret snapshots
  else
    snapshot ← captureFileSnapshot pathname;
    mret (snapshots ++ [(pathname, snapshot)]).

Fixpoint captureAll (pathnames : list string) (snapshots : Snapshots) : Fs Snapshots :=
  match pathnames with
  | [] => mret snapshots
  | pathname :: rest =>
      snapshots' ← capture pathname snapshots;
      captureAll rest snapshots'
  end.

(** The paths captured, in the order of the captures. *)
Definition capturedPaths (projected : ProjectedState) : list string :=
  configPath projected
    :: (authStoreByPath projected).*1 ++ (authJsonByPath projected).*1
       ++ (envRawByPath projected).*1.

Definition plannedWrites (projected : ProjectedState) : list ApplyWrite :=
  map (fun item => toJsonWrite item.1 item.2) (authStoreByPath projected)
  ++ map (fun item => toJsonWrite item.1 item.2) (authJsonByPath projected)
  ++ map (fun item => {| writePath := item.1; writeContent := item.2; writeMode := 384 |})
       (envRawByPath projected).

Definition ioWriteConfigFile (config options : Value) : Fs unit := fun w =>
  let log := calls w ++ [WriteConfigFile config] in
  match writeConfigFile config options (files w) with
  | (files', Some err) => (inl err, {| files := files'; calls := log |})
  | (files', None) => (inr tt, {| files := files'; calls := log |})
  end.

Fixpoint writeEach (writes : list ApplyWrite) : Fs unit :=
  match writes with
  | [] => mret tt
  | item :: rest =>
      writeTextFileAtomic (writePath item) (writeContent item) (writeMode item);;
      writeEach rest
  end.

(** The body of the [try]. *)
Definition commit (projected : ProjectedState) : Fs unit :=
  ioWriteConfigFile (nextConfig projected) (configWriteOptions projected);;
  writeEach (plannedWrites projected).

(** The body of the [catch] before the [throw]: every snapshot is restored,
    a failing restore is skipped. The paths whose restore failed are
    returned for the statements below; the source drops them. *)
Fixpoint restoreEach (snapshots : Snapshots) : World -> list string * World := fun w =>
  match snapshots with
  | [] => ([], w)
  | (pathname, snapshot) :: rest =>
      match attempt (restoreFileSnapshot pathname snapshot) w with
      | (inr true, w') => restoreEach rest w'
      | (_, w') => let '(failed, w'') := restoreEach rest w' in (pathname :: failed, w'')
      end
  end.

Definition applyFailed (err : JsError) : JsError :=
  MkError ("Secrets apply failed: " +:+ errorString err) (Some err).

Definition applyResult (resultMode : ApplyMode) (changedFiles : list string)
    (projected : ProjectedState) : SecretsApplyResult :=
  {| resultMode := resultMode;
     changed := negb (Nat.eqb (length changedFiles) 0);
     resultChangedFiles := changedFiles;
     warningCount := length (warnings projected);
     resultWarnings := warnings projected |}.

Definition runSecretsApply (params : ApplyParams) : Fs SecretsApplyResult := fun w =>
  match projectPlanState (plan params) (files w) with
  | inl err => (inl err, w)
  | inr projected =>
      let changedFiles := toSorted (changedFiles projected) in
      if negb (write params) then (inr (applyResult DryRun changedFiles projected), w)
      else if Nat.eqb (length changedFiles) 0
      then (inr (applyResult WriteMode [] projected), w)
      else
        match captureAll (capturedPaths projected) [] w with
        | (inl err, w1) => (inl err, w1)
        | (inr snapshots, w1) =>
            match commit projected w1 with
            | (inl err, w2) => (inl (applyFailed err), (restoreEach snapshots w2).2)
            | (inr _, w2) => (inr (applyResult WriteMode changedFiles projected), w2)
            end
        end
  end.

End Machine.

End Apply.

(** ** Collectors of the auth-profile stores (runtime-auth-collectors.ts)

    The store has passed its schema: [profiles] is a record of records. *)

Module AuthCollectors.
Import JsString Json RuntimeShared.

Section Collectors.
Variable coerceSecretRef : Value -> Value -> option SecretRef.

Definition collectApiKeyProfileAssignment (profile : list (string * Value))
    (profileId agentDir : string) (defaults : Value) (context : ResolverContext)
  : ResolverContext :=
  let '(keyRef, resolvedKeyRef) :=
    resolveSecretInputRef coerceSecretRef (getProp profile "key")
      (getProp profile "keyRef") defaults in
  match resolvedKeyRef with
  | None => context
  | Some ref =>
      let context :=
        if bool_decide (is_Some keyRef) && isNonEmptyString (getProp profile "key")
        then pushWarning context
               {| code := SECRETS_REF_OVERRIDES_PLAINTEXT;
                  path := agentDir +:+ ".auth-profiles." +:+ profileId +:+ ".key";
                  message := "auth-profiles " +:+ profileId
                    +:+ ": keyRef is set; runtime will ignore plaintext key." |}
        else context in
      pushAssignment context
        {| ref := ref;
           assignmentPath := agentDir +:+ ".auth-profiles." +:+ profileId +:+ ".key";
           expected := ExpectString;
           apply := AuthStoreField agentDir ["profiles"; profileId; "key"] |}
  end.

Definition collectTokenProfileAssignment (profile : list (string * Value))
    (profileId agentDir : string) (defaults : Value) (context : ResolverContext)
  : ResolverContext :=
  let '(tokenRef, resolvedTokenRef) :=
    resolveSecretInputRef coerceSecretRef (getProp profile "token")
      (getProp profile "tokenRef") defaults in
  match resolvedTokenRef with
  | None => context
  | Some ref =>
      let context :=
        if bool_decide (is_Some tokenRef) && isNonEmptyString (getProp profile "token")
        then pushWarning context
               {| code := SECRETS_REF_OVERRIDES_PLAINTEXT;
                  path := agentDir +:+ ".auth-profiles." +:+ profileId +:+ ".token";
                  message := "auth-profiles " +:+ profileId
                    +:+ ": tokenRef is set; runtime will ignore plaintext token." |}
        else context in
      pushAssignment context
        {| ref := ref;
           assignmentPath := agentDir +:+ ".auth-profiles." +:+ profileId +:+ ".token";
           expected := ExpectString;
           apply := AuthStoreField agentDir ["profiles"; profileId; "token"] |}
  end.

(** The body of the loop over [Object.entries(store.profiles)]. *)
Definition collectProfile (agentDir : string) (defaults : Value)
    (context : ResolverContext) (item : string * Value) : ResolverContext :=
  match item.2 with
  | VObj profile =>
      match getProp profile "type" with
      | VStr "api_key" =>
          collectApiKeyProfileAssignment profile item.1 agentDir defaults context
      | VStr "token" =>
          collectTokenProfileAssignment profile item.1 agentDir defaults context
      | _ => context
      end
  | _ => context
  end.

Definition collectAuthStoreAssignments (store : Value) (agentDir : string)
    (context : ResolverContext) : ResolverContext :=
  let defaults := prop (prop (sourceConfig context) "secrets") "defaults" in
  match prop store "profiles" with
  | VObj profiles => fold_left (collectProfile agentDir defaults) profiles context
  | _ => context
  end.

End Collectors.
End AuthCollectors.

(** ** Preparation of the runtime snapshot (runtime.ts, runtime-shared.ts,
    runtime-config-collectors.ts) *)

Module RuntimeSnapshot.
Import JsString Json RuntimeShared CoreCollectors ChannelCollectors AuthCollectors
  CommandSecrets.

(** What the [apply] closure of an assignment does: the collector read
    the object it captured at the front of [location], and the closure
    sets the property named last in [location] on it. *)
Fixpoint assignAt (location : list string) (value : Value) (tree : Value) : Value :=
  match location with
  | [] => tree
  | key :: rest =>
      match rest with
      | [] =>
          match tree with
          | VObj fields => VObj (setProp fields key value)
          | _ => tree
          end
      | _ :: _ =>
          match tree with
          | VObj fields =>
              if hasOwn fields key
              then VObj (setProp fields key (assignAt rest value (getProp fields key)))
              else tree
          | VArr items =>
              if PathUtils.isArrayIndexSegment key && (parseInt key <? length items)%nat
              then VArr (<[parseInt key := assignAt rest value (arrGet items (parseInt key))]>
                           items)
              else tree
          | _ => tree
          end
      end
  end.

(** The objects the closures write to: the resolved configuration and the
    store of each agent directory. *)
Record RuntimeTrees := {
  treeConfig : Value;
  treeAuthStores : list (string * Value)
}.

Definition applyTo (target : ApplyTarget) (value : Value) (trees : RuntimeTrees)
  : RuntimeTrees :=
  match target with
  | ConfigField location =>
      {| treeConfig := assignAt location value (treeConfig trees);
         treeAuthStores := treeAuthStores trees |}
  | AuthStoreField agentDir location =>
      {| treeConfig := treeConfig trees;
         treeAuthStores :=
           map (fun item : string * Value =>
                  if String.eqb item.1 agentDir
                  then (item.1, assignAt location (VStr (toStringValue value)) item.2)
                  else item) (treeAuthStores trees) |}
  end.

Definition noValueMessage (key : string) : string :=
  "Secret reference " +:+ String "034" key +:+ String "034" " resolved to no value.".

Definition unexpectedValueMessage (assignment : SecretAssignment) : string :=
  match expected assignment with
  | ExpectString => assignmentPath assignment +:+ " resolved to a non-string or empty value."
  | ExpectStringOrObject =>
      assignmentPath assignment +:+ " resolved to an unsupported value type."
  end.

(** [applyResolvedAssignments]: the trees after the loop, or the message
    of the error thrown. *)
Fixpoint applyResolvedAssignments (assignments : list SecretAssignment)
    (resolved : gmap string Value) (trees : RuntimeTrees) : string + RuntimeTrees :=
  match assignments with
  | [] => inr trees
  | assignment :: rest =>
      let key := secretRefKey (ref assignment) in
      match resolved !! key with
      | None => inl (noValueMessage key)
      | Some value =>
          if isExpectedResolvedSecretValue value (expected assignment)
          then applyResolvedAssignments rest resolved (applyTo (apply assignment) value trees)
          else inl (unexpectedValueMessage assignment)
      end
  end.

Section Prepare.
Variable coerceSecretRef : Value -> Value -> option SecretRef.
Variable hasConfiguredSecretInput : Value -> Value -> bool.
(** [resolveSecretRefValues] of resolve.ts: the values by ref key, or the
    message of the error thrown. *)
Variable resolveSecretRefValues : list SecretRef -> Value -> string + gmap string Value.
(** [loadAuthProfileStoreForSecretsRuntime], or the loader passed in. *)
Variable loadAuthStore : string -> Value.
Variable resolveUserPath : string -> string.
(** The helpers of agents/agent-paths.ts and agents/agent-scope.ts. *)
Variable resolveOpenClawAgentDir : string.
Variable listAgentIds : Value -> list string.
Variable resolveAgentDir : Value -> string -> string.

Definition collectConfigAssignments (config : Value) (context : ResolverContext)
  : ResolverContext :=
  let defaults := prop (prop (sourceConfig context) "secrets") "defaults" in
  let context :=
    collectCoreConfigAssignments coerceSecretRef hasConfiguredSecretInput config defaults
      context in
  collectChannelConfigAssignments coerceSecretRef config defaults context.

Definition collectCandidateAgentDirs (config : Value) : list string :=
  uniqueStrings []
    (resolveUserPath resolveOpenClawAgentDir
       :: map (fun agentId => resolveUserPath (resolveAgentDir config agentId))
            (listAgentIds config)).

(** The loop over [candidateDirs]. *)
Definition collectAuthStore (state : ResolverContext * list (string * Value))
    (agentDir : string) : ResolverContext * list (string * Value) :=
  let store := loadAuthStore agentDir in
  (collectAuthStoreAssignments coerceSecretRef store agentDir state.1,
   state.2 ++ [(agentDir, store)]).

Definition prepareSecretsRuntimeSnapshot (config : Value)
    (agentDirs : option (list string)) : string + PreparedSecretsRuntimeSnapshot :=
  let sourceConfig := config in
  let resolvedConfig := config in
  let context := createResolverContext sourceConfig in
  let context := collectConfigAssignments resolvedConfig context in
  let candidateDirs :=
    match agentDirs with
    | Some (first :: rest) => uniqueStrings [] (map resolveUserPath (first :: rest))
    | _ => collectCandidateAgentDirs resolvedConfig
    end in
  let '(context, authStores) := fold_left collectAuthStore candidateDirs (context, []) in
  match assignments context with
  | [] =>
      inr {| snapshotSourceConfig := sourceConfig;
             snapshotConfig := resolvedConfig;
             snapshotAuthStores := authStores;
             snapshotWarnings := warnings context |}
  | _ :: _ =>
      match resolveSecretRefValues (map ref (assignments context)) sourceConfig with
      | inl err => inl err
      | inr resolved =>
          match applyResolvedAssignments (assignments context) resolved
                  {| treeConfig := resolvedConfig; treeAuthStores := authStores |} with
          | inl err => inl err
          | inr trees =>
              inr {| snapshotSourceConfig := sourceConfig;
                     snapshotConfig := treeConfig trees;
                     snapshotAuthStores := treeAuthStores trees;
                     snapshotWarnings := warnings context |}
          end
      end
  end.

End Prepare.
End RuntimeSnapshot.

(** ** The mutations a plan projects (apply.ts)

    [applyProviderPlanMutations], [applyConfigTargetMutations] and the
    functions of the auth-profile branch. The configuration has passed
    its schema ([projectPlanState] refuses an invalid snapshot first):
    [secrets], when present, is a record. A [Map] is the list of its
    entries and a [Set] the list of its elements, both in insertion
    order. *)

Module PlanMutations.
Import JsString Json PathUtils TargetRegistryPattern TargetRegistry Plan.

(** A target of the plan: the fields that [resolveValidatedPlanTarget]
    reads, and the ref to write. *)
Record SecretsPlanTarget := {
  targetCandidate : PlanTargetCandidate;
  targetRef : Value
}.

(** The errors thrown, with the data their messages are built from. *)
Inductive ApplyError :=
| InvalidPlanTargetPath (target : SecretsPlanTarget)
| MissingAgentId (target : SecretsPlanTarget)
| MissingSiblingRefPath (target : SecretsPlanTarget)
| MissingAuthSiblingRefPath (target : SecretsPlanTarget)
| InvalidAuthProfileTargetPath (target : SecretsPlanTarget)
| AuthProfileTypeMismatch (profileId : string) (target : SecretsPlanTarget)
    (expectedType got : string)
| MissingAuthProfileType (target : SecretsPlanTarget)
| MissingAuthProfileProvider (profileId : string) (target : SecretsPlanTarget)
| PathFailure (e : PathError)
| SecretsNotARecord
| IdNotAString (e : PlanTypeError).

Definition andThen {A B : Type} (m : ApplyError + A) (f : A -> ApplyError + B)
  : ApplyError + B :=
  match m with
  | inl e => inl e
  | inr a => f a
  end.

(** A strict path operation that throws aborts the caller. *)
Definition strict (outcome : Outcome) : ApplyError + (Value * bool) :=
  match outcome with
  | (root, inr changed) => inr (root, changed)
  | (_, inl e) => inl (PathFailure e)
  end.

(** [set.add(value)] *)
Definition setAdd (values : list string) (value : string) : list string :=
  if bool_decide (value ∈ values) then values else values ++ [value].

(** [isRecord(config.secrets?.providers) ? structuredClone(...) : {}] *)
Definition currentProviders (config : list (string * Value)) : list (string * Value) :=
  match RuntimeShared.prop (getProp config "secrets") "providers" with
  | VObj providers => providers
  | _ => []
  end.

(** The body of the loop over [deletes]. *)
Definition deleteProvider (state : list (string * Value) * bool) (providerAlias : string)
  : list (string * Value) * bool :=
  if hasOwn state.1 providerAlias then (deleteProp state.1 providerAlias, true) else state.

(** The body of the loop over [Object.entries(upserts)]. The source
    reads and assigns [currentProviders[providerAlias]]: for the alias
    [__proto__] the assignment runs the inherited setter and creates no
    own property, so the statements about upserts are for aliases that
    are none of [OBJECT_PROTOTYPE_KEYS]. *)
Definition upsertProvider (state : list (string * Value) * bool) (item : string * Value)
  : list (string * Value) * bool :=
  if deepEq (getProp state.1 item.1) item.2 then state
  else (setProp state.1 item.1 item.2, true).

(** [applyProviderPlanMutations]: the configuration as the call leaves
    it, and the flag returned. On a [secrets] that is a primitive the
    source throws a TypeError; an array there is outside the model. *)
Definition applyProviderPlanMutations (config : list (string * Value))
    (upserts : option (list (string * Value))) (deletes : option (list string))
  : ApplyError + (list (string * Value) * bool) :=
  let '(providers, changed) :=
    fold_left upsertProvider (default [] upserts)
      (fold_left deleteProvider (default [] deletes) (currentProviders config, false)) in
  if negb changed then inr (config, false)
  else
    let config :=
      if isNullish (getProp config "secrets") then setProp config "secrets" (VObj [])
      else config in
    match getProp config "secrets" with
    | VObj secrets =>
        match providers with
        | [] =>
            inr (setProp config "secrets"
                   (VObj (if hasOwn secrets "providers"
                          then deleteProp secrets "providers" else secrets)), true)
        | _ :: _ =>
            inr (setProp config "secrets"
                   (VObj (setProp secrets "providers" (VObj providers))), true)
        end
    | _ => inl SecretsNotARecord
    end.

(** [if (isNonEmptyString(previous)) scrubbedValues.add(previous.trim())] *)
Definition scrubPrevious (previous : Value) (scrubbedValues : list string) : list string :=
  if RuntimeShared.isNonEmptyString previous
  then setAdd scrubbedValues (RuntimeShared.trimmedString previous)
  else scrubbedValues.

Definition authProfileTypeName (type : AuthProfileType) : string :=
  match type with
  | ApiKeyProfile => "api_key"
  | TokenProfile => "token"
  end.

(** [typeof value === "number" && Number.isFinite(value)] *)
Definition isFiniteNumber (v : Value) : bool :=
  match v with VNum _ => true | _ => false end.

(** [isNonEmptyString] on an optional string field of the target. *)
Definition nonEmptyField (field : option string) : bool :=
  match field with
  | Some s => negb (isBlank s)
  | None => false
  end.

Section Mutations.
Variable registry : list CompiledTargetRegistryEntry.
(** [AUTH_STORE_VERSION] of agents/auth-profiles/constants.ts. *)
Variable AUTH_STORE_VERSION : Z.
(** [resolveAuthStorePathForAgent] with the state directory of the call:
    the path for a configuration and an agent id. It rests on
    agents/agent-scope.ts, routing/session-key.ts and utils.ts, which are
    not part of the sources at hand. *)
Variable resolveAuthStorePathForAgent : Value -> string -> string.
(** [readJsonObjectIfExists(path).value]: the files are not written
    during the projection. *)
Variable readJsonObjectIfExists : string -> Value.
(** [normalizeProviderId] of agents/model-selection.ts. *)
Variable normalizeProviderId : string -> string.

Definition resolveTarget (target : SecretsPlanTarget) : ApplyError + ResolvedPlanTarget :=
  match resolveValidatedPlanTarget registry (targetCandidate target) with
  | inr (Some resolved) => inr resolved
  | inr None => inl (InvalidPlanTargetPath target)
  | inl err => inl (IdNotAString err)
  end.

Definition ensureMutableAuthStore (store : option (list (string * Value)))
  : list (string * Value) :=
  let next := default [] store in
  let next :=
    if isRecord (getProp next "profiles") then next
    else setProp next "profiles" (VObj []) in
  if isFiniteNumber (getProp next "version") then next
  else setProp next "version" (VNum AUTH_STORE_VERSION).

(** [String(target.agentId ?? "").trim()] *)
Definition targetAgentId (target : SecretsPlanTarget) : string :=
  trim (default "" (c_agentId (targetCandidate target))).

(** [resolveAuthStoreForTarget]: the path and the store; the caller
    records the store in [authStoreByPath] once it has mutated it, the
    map of the source holding the very object that is mutated. *)
Definition resolveAuthStoreForTarget (target : SecretsPlanTarget) (nextConfig : Value)
    (authStoreByPath : list (string * Value))
  : ApplyError + (string * list (string * Value)) :=
  let agentId := targetAgentId target in
  if truthy agentId then
    let authStorePath := resolveAuthStorePathForAgent nextConfig agentId in
    let loaded :=
      match assoc authStorePath authStoreByPath with
      | Some existing =>
          if isNullish existing then readJsonObjectIfExists authStorePath else existing
      | None => readJsonObjectIfExists authStorePath
      end in
    inr (authStorePath,
         ensureMutableAuthStore
           match loaded with
           | VObj fields => Some fields
           | _ => None
           end)
  else inl (MissingAgentId target).

Definition ensureAuthProfileContainer (target : SecretsPlanTarget)
    (resolved : ResolvedPlanTarget) (store : Value) : ApplyError + (Value * bool) :=
  let profilePathSegments := take 2 (pathSegments resolved) in
  match profilePathSegments !! 1%nat with
  | Some profileId =>
      if truthy profileId then
        let current := getPath store profilePathSegments in
        let expectedType := authProfileType (entry (resolvedEntry resolved)) in
        match current with
        | VObj profile =>
            let mismatch :=
              match expectedType, getProp profile "type" with
              | Some expected, VStr got =>
                  if String.eqb got (authProfileTypeName expected) then None
                  else Some (AuthProfileTypeMismatch profileId target
                               (authProfileTypeName expected) got)
              | _, _ => None
              end in
            match mismatch with
            | Some e => inl e
            | None =>
                if negb (RuntimeShared.isNonEmptyString (getProp profile "provider"))
                   && nonEmptyField (c_authProfileProvider (targetCandidate target))
                then
                  strict (setPathCreateStrict store (profilePathSegments ++ ["provider"])
                            (VStr (default ""
                                     (c_authProfileProvider (targetCandidate target)))))
                else inr (store, false)
            end
        | _ =>
            match expectedType with
            | None => inl (MissingAuthProfileType target)
            | Some expected =>
                let provider :=
                  trim (default "" (c_authProfileProvider (targetCandidate target))) in
                if truthy provider then
                  strict (setPathCreateStrict store profilePathSegments
                            (VObj [("type", VStr (authProfileTypeName expected));
                                   ("provider", VStr provider)]))
                else inl (MissingAuthProfileProvider profileId target)
            end
        end
      else inl (InvalidAuthProfileTargetPath target)
  | None => inl (InvalidAuthProfileTargetPath target)
  end.

(** [applyAuthProfileTargetMutation]: the map of stores and the set of
    scrubbed values as the call leaves them, and the flag returned. *)
Definition applyAuthProfileTargetMutation (target : SecretsPlanTarget)
    (resolved : ResolvedPlanTarget) (nextConfig : Value)
    (authStoreByPath : list (string * Value)) (scrubbedValues : list string)
  : ApplyError + (list (string * Value) * list string * bool) :=
  if negb (isAuthProfilesFile (configFile (entry (resolvedEntry resolved))))
  then inr (authStoreByPath, scrubbedValues, false)
  else
    andThen (resolveAuthStoreForTarget target nextConfig authStoreByPath)
      (fun '(authStorePath, store) =>
    andThen (ensureAuthProfileContainer target resolved (VObj store))
      (fun '(store, changed) =>
    let targetPathSegments := pathSegments resolved in
    let scrubbedValues := scrubPrevious (getPath store targetPathSegments) scrubbedValues in
    if isSiblingRef (secretShape (entry (resolvedEntry resolved))) then
      match refPathSegments resolved with
      | None => inl (MissingAuthSiblingRefPath target)
      | Some refPathSegments =>
          andThen (strict (setPathCreateStrict store refPathSegments (targetRef target)))
            (fun '(store, wroteRef) =>
          andThen (strict (deletePathStrict store targetPathSegments))
            (fun '(store, deletedPlaintext) =>
          inr (setProp authStoreByPath authStorePath store, scrubbedValues,
               changed || wroteRef || deletedPlaintext)))
      end
    else
      andThen (strict (setPathCreateStrict store targetPathSegments (targetRef target)))
        (fun '(store, wroteRef) =>
      inr (setProp authStoreByPath authStorePath store, scrubbedValues,
           changed || wroteRef)))).

Record ResolvedPlanTargetEntry := {
  entryTarget : SecretsPlanTarget;
  entryResolved : ResolvedPlanTarget
}.

(** What [applyConfigTargetMutations] returns, and the arguments it
    mutates: [nextConfig] and [changedFiles]. *)
Record ConfigTargetMutationResult := {
  resolvedTargets : list ResolvedPlanTargetEntry;
  scrubbedValues : list string;
  providerTargets : list string;
  configChanged : bool;
  authStoreByPath : list (string * Value);
  nextConfig : Value;
  changedFiles : list string
}.

(** [planTargets.map((target) => ({ target, resolved: resolveTarget(target) }))]:
    the first target that does not resolve throws. *)
Fixpoint resolveTargets (planTargets : list SecretsPlanTarget)
  : ApplyError + list ResolvedPlanTargetEntry :=
  match planTargets with
  | [] => inr []
  | target :: rest =>
      andThen (resolveTarget target) (fun resolved =>
      andThen (resolveTargets rest) (fun entries =>
      inr ({| entryTarget := target; entryResolved := resolved |} :: entries)))
  end.

(** The body of the loop over [resolvedTargets]. *)
Definition mutateTarget (state : ConfigTargetMutationResult)
    (item : ResolvedPlanTargetEntry) : ApplyError + ConfigTargetMutationResult :=
  let target := entryTarget item in
  let resolved := entryResolved item in
  if isAuthProfilesFile (configFile (entry (resolvedEntry resolved))) then
    andThen (applyAuthProfileTargetMutation target resolved (nextConfig state)
               (authStoreByPath state) (scrubbedValues state))
      (fun '(stores, scrubbed, authStoreChanged) =>
    if authStoreChanged then
      let agentId := targetAgentId target in
      if truthy agentId then
        inr {| resolvedTargets := resolvedTargets state;
               scrubbedValues := scrubbed;
               providerTargets := providerTargets state;
               configChanged := configChanged state;
               authStoreByPath := stores;
               nextConfig := nextConfig state;
               changedFiles :=
                 setAdd (changedFiles state)
                   (resolveAuthStorePathForAgent (nextConfig state) agentId) |}
      else inl (MissingAgentId target)
    else
      inr {| resolvedTargets := resolvedTargets state;
             scrubbedValues := scrubbed;
             providerTargets := providerTargets state;
             configChanged := configChanged state;
             authStoreByPath := stores;
             nextConfig := nextConfig state;
             changedFiles := changedFiles state |})
  else
    let targetPathSegments := pathSegments resolved in
    let scrubbed :=
      scrubPrevious (getPath (nextConfig state) targetPathSegments) (scrubbedValues state) in
    if isSiblingRef (secretShape (entry (resolvedEntry resolved))) then
      match refPathSegments resolved with
      | None => inl (MissingSiblingRefPath target)
      | Some refPathSegments =>
          andThen (strict (setPathCreateStrict (nextConfig state) refPathSegments
                             (targetRef target)))
            (fun '(config, wroteRef) =>
          andThen (strict (deletePathStrict config targetPathSegments))
            (fun '(config, deletedLegacy) =>
          inr {| resolvedTargets := resolvedTargets state;
                 scrubbedValues := scrubbed;
                 providerTargets := providerTargets state;
                 configChanged := configChanged state || (wroteRef || deletedLegacy);
                 authStoreByPath := authStoreByPath state;
                 nextConfig := config;
                 changedFiles := changedFiles state |}))
      end
    else
      andThen (strict (setPathCreateStrict (nextConfig state) targetPathSegments
                         (targetRef target)))
        (fun '(config, wroteRef) =>
      inr {| resolvedTargets := resolvedTargets state;
             scrubbedValues := scrubbed;
             providerTargets :=
               match providerId resolved with
               | Some provider =>
                   if trackProviderShadowing (entry (resolvedEntry resolved))
                   then setAdd (providerTargets state) (normalizeProviderId provider)
                   else providerTargets state
               | None => providerTargets state
               end;
             configChanged := configChanged state || wroteRef;
             authStoreByPath := authStoreByPath state;
             nextConfig := config;
             changedFiles := changedFiles state |}).

Fixpoint mutateTargets (state : ConfigTargetMutationResult)
    (items : list ResolvedPlanTargetEntry) : ApplyError + ConfigTargetMutationResult :=
  match items with
  | [] => inr state
  | item :: rest => andThen (mutateTarget state item) (fun state => mutateTargets state rest)
  end.

Definition applyConfigTargetMutations (planTargets : list SecretsPlanTarget)
    (nextConfig : Value) (authStoreByPath : list (string * Value))
    (changedFiles : list string) : ApplyError + ConfigTargetMutationResult :=
  andThen (resolveTargets planTargets) (fun resolvedTargets =>
  mutateTargets
    {| resolvedTargets := resolvedTargets;
       scrubbedValues := [];
       providerTargets := [];
       configChanged := false;
       authStoreByPath := authStoreByPath;
       nextConfig := nextConfig;
       changedFiles := changedFiles |}
    resolvedTargets).

End Mutations.

End PlanMutations.

(** ** Scrubbing .env files (apply.ts, storage-scan.ts) *)

Module EnvScrub.
Import JsString.

(** [parseEnvAssignmentValue] of storage-scan.ts; [slice(1, -1)] drops
    the first and the last character, and gives the empty string on a
    string of one character. *)
Definition parseEnvAssignmentValue (raw : string) : string :=
  let trimmed := trim raw in
  if (startsWith trimmed (String "034" "") && endsWith trimmed (String "034" ""))
     || (startsWith trimmed "'" && endsWith trimmed "'")
  then takeChars (String.length trimmed - 2) (dropChars 1 trimmed)
  else trimmed.

(** [raw.split(/\r?\n/)]: the current line is accumulated in reverse in
    [cur]; a carriage return belongs to the separator only when a line
    feed follows it. *)
Fixpoint splitLines (cur : list ascii) (s : string) : list string :=
  match s with
  | EmptyString => [string_of_list_ascii (rev cur)]
  | String c rest =>
      if Ascii.eqb c "010" then string_of_list_ascii (rev cur) :: splitLines [] rest
      else
        match rest with
        | String d rest' =>
            if Ascii.eqb c "013" && Ascii.eqb d "010"
            then string_of_list_ascii (rev cur) :: splitLines [] rest'
            else splitLines (c :: cur) rest
        | EmptyString => splitLines (c :: cur) rest
        end
  end.

(** [[A-Za-z_]] and [[A-Za-z0-9_]] *)
Definition isNameStart (c : ascii) : bool :=
  let n := nat_of_ascii c in
  ((65 <=? n)%nat && (n <=? 90)%nat) || ((97 <=? n)%nat && (n <=? 122)%nat)
  || (n =? 95)%nat.

Definition isNameChar (c : ascii) : bool := isNameStart c || isDigit c.

(** The longest prefix of name characters, and what follows it. *)
Fixpoint spanName (s : string) : string * string :=
  match s with
  | EmptyString => (EmptyString, EmptyString)
  | String c rest =>
      if isNameChar c then let '(name, after) := spanName rest in (String c name, after)
      else (EmptyString, s)
  end.

(** [.] of a regular expression without the [s] flag: any character but
    a line terminator. *)
Definition isLineTerminator (c : ascii) : bool := Ascii.eqb c "010" || Ascii.eqb c "013".

Fixpoint noLineTerminator (s : string) : bool :=
  match s with
  | EmptyString => true
  | String c rest => negb (isLineTerminator c) && noLineTerminator rest
  end.

(** The part of the expression of [scrubEnvRaw] after the optional
    [export]: a name (group 1), white space, [=], white space, and
    characters other than line terminators up to the end (group 2). Each
    greedy quantifier can only keep all it took: what follows a shorter
    name or a shorter run of white space is a character that the next
    item of the expression refuses. *)
Definition matchAssignment (s : string) : option (string * string) :=
  match s with
  | String c _ =>
      if isNameStart c then
        let '(name, after) := spanName s in
        match trimStart after with
        | String e afterEquals =>
            if Ascii.eqb e "=" then
              let value := trimStart afterEquals in
              if noLineTerminator value then Some (name, value) else None
            else None
        | EmptyString => None
        end
      else None
  | EmptyString => None
  end.

(** [line.match] on the expression of [scrubEnvRaw]: leading white
    space, optionally [export] and white space, then the assignment; the
    groups 1 and 2. The optional group is tried first; when the rest
    does not match after it, the expression is matched without it, which
    reads [export] as the name. *)
Definition matchEnvLine (line : string) : option (string * string) :=
  let s := trimStart line in
  let afterExport :=
    if startsWith s "export" then
      match dropChars 6 s with
      | String c rest => if isWhite c then matchAssignment (trimStart rest) else None
      | EmptyString => None
      end
    else None in
  match afterExport with
  | Some groups => Some groups
  | None => matchAssignment s
  end.

(** The loop of [scrubEnvRaw] over the lines: the lines kept, and the
    number of lines removed. *)
Fixpoint scrubLines (migratedValues allowedEnvKeys : list string) (lines : list string)
  : list string * nat :=
  match lines with
  | [] => ([], 0%nat)
  | line :: rest =>
      let '(nextLines, removed) := scrubLines migratedValues allowedEnvKeys rest in
      match matchEnvLine line with
      | None => (line :: nextLines, removed)
      | Some (envKey, rawValue) =>
          if bool_decide (envKey ∈ allowedEnvKeys) then
            if bool_decide (parseEnvAssignmentValue rawValue ∈ migratedValues)
            then (nextLines, S removed)
            else (line :: nextLines, removed)
          else (line :: nextLines, removed)
      end
  end.

(** [scrubEnvRaw]: [nextRaw] and [removed]; the sets are given by their
    elements. *)
Definition scrubEnvRaw (raw : string) (migratedValues allowedEnvKeys : list string)
  : string * nat :=
  match migratedValues, allowedEnvKeys with
  | [], _ | _, [] => (raw, 0%nat)
  | _ :: _, _ :: _ =>
      let '(nextLines, removed) :=
        scrubLines migratedValues allowedEnvKeys (splitLines [] raw) in
      let hadTrailingNewline := endsWith raw (String "010" "") in
      let joined := join (String "010" "") nextLines in
      (if hadTrailingNewline || (String.length joined =? 0)%nat
       then joined +:+ (if endsWith joined (String "010" "") then "" else String "010" "")
       else joined,
       removed)
  end.

End EnvScrub.


(** * Properties of the embedded program *)

(** ** Properties of the strict path operations *)

Module PathUtilsFacts.
Import JsString Json PathUtils.








(** Scenarios of path-utils.test.ts. *)
Example deletePathStrict_compacts :
  deletePathStrict
    (VObj [("agents", VObj [("list",
       VArr [VObj [("id", VStr "a")]; VObj [("id", VStr "b")]; VObj [("id", VStr "c")]])])])
    ["agents"; "list"; "1"]
  = (VObj [("agents", VObj [("list",
       VArr [VObj [("id", VStr "a")]; VObj [("id", VStr "c")]])])], inr true).
Proof. reflexivity. Qed.

Example setPathCreateStrict_creates :
  setPathCreateStrict (VObj []) ["talk"; "provider"; "apiKey"] (VStr "x")
  = (VObj [("talk", VObj [("provider", VObj [("apiKey", VStr "x")])])], inr true).
Proof. reflexivity. Qed.

Example setPathExistingStrict_missing :
  (setPathExistingStrict
     (VObj [("agents", VObj [("list", VArr [VObj [("id", VStr "a")]])])])
     ["agents"; "list"; "0"; "memorySearch"; "remote"; "apiKey"] (VStr "x")).2
  = inl (ErrSegmentMissing "agents.list.0.memorySearch").
Proof. reflexivity. Qed.

Example getPath_invalid_array_segment :
  getPath (VObj [("agents", VObj [("list", VArr [VObj [("id", VStr "a")]])])])
    ["agents"; "list"; "foo"] = VUndefined.
Proof. reflexivity. Qed.



End PathUtilsFacts.

(** ** Round trip of capture and materialisation *)

Module PatternFacts.
Import JsString Json PathUtils TargetRegistryPattern.

Lemma allDigits_uint (d : Decimal.uint) :
  allDigits (NilEmpty.string_of_uint d) = true.
Proof. induction d; cbn; auto. Qed.

Lemma natToString_digits (n : nat) : isDigitString (natToString n) = true.
Proof.
  unfold natToString, NilZero.string_of_uint.
  destruct (Nat.to_uint n); try reflexivity;
    unfold isDigitString; cbn [allDigits]; rewrite allDigits_uint; reflexivity.
Qed.

Lemma isDigitString_truthy (s : string) : isDigitString s = true -> truthy s = true.
Proof. by destruct s. Qed.

Lemma leaf_branch rest value segs caps :
  (if isLeafToken rest then [mkMatch segs caps value] else walk rest value segs caps)
  = walk rest value segs caps.
Proof. by destruct rest. Qed.

(** What a match of [walk] is made of: the segments and captures it was
    started with, extended by a suffix that the tokens match and
    rebuild. *)
Definition Rebuilds (tokens : list PathPatternToken) (s' c' : list string) : Prop :=
  (forall acc, matchFrom tokens s' acc = Some (acc ++ c'))
  /\ (forall out, materializeFrom tokens c' out = Some (out ++ s')).

Lemma rebuilds_nil : Rebuilds [] [] [].
Proof. split; intros; cbn; by rewrite app_nil_r. Qed.

Lemma rebuilds_literal value tokens s' c' :
  Rebuilds tokens s' c' -> Rebuilds (Literal value :: tokens) (value :: s') c'.
Proof.
  intros [Hm Hb]. split; intros; cbn.
  - by rewrite String.eqb_refl.
  - rewrite Hb. by rewrite <- app_assoc.
Qed.

Lemma rebuilds_wildcard key tokens s' c' :
  truthy key = true ->
  Rebuilds tokens s' c' -> Rebuilds (Wildcard :: tokens) (key :: s') (key :: c').
Proof.
  intros Hk [Hm Hb]. split; intros; cbn; rewrite Hk.
  - rewrite Hm. by rewrite <- app_assoc.
  - rewrite Hb. by rewrite <- app_assoc.
Qed.

Lemma rebuilds_array field index tokens s' c' :
  Rebuilds tokens s' c' ->
  Rebuilds (ArrayToken field :: tokens)
    (field :: natToString index :: s') (natToString index :: c').
Proof.
  intros [Hm Hb]. pose proof (natToString_digits index) as Hd.
  pose proof (isDigitString_truthy _ Hd) as Ht.
  split; intros; cbn.
  - rewrite String.eqb_refl, Ht, Hd. cbn. rewrite Hm. by rewrite <- app_assoc.
  - rewrite Ht, Hd. cbn. rewrite Hb. by rewrite <- app_assoc.
Qed.

Lemma walk_rebuilds tokens : forall node segs caps m,
  m ∈ walk tokens node segs caps ->
  exists s' c',
    segments m = segs ++ s' /\ captures m = caps ++ c'
    /\ (Forall (fun c => truthy c = true) c' -> Rebuilds tokens s' c').
Proof.
  induction tokens as [|token rest IH]; intros node segs caps m Hm.
  - cbn in Hm. apply list_elem_of_singleton in Hm. subst m.
    exists [], []. cbn. rewrite !app_nil_r. auto using rebuilds_nil.
  - destruct token as [value| |field]; cbn [walk] in Hm.
    + destruct node; try (by apply elem_of_nil in Hm).
      destruct rest as [|token' rest'].
      * cbn in Hm. apply list_elem_of_singleton in Hm. subst m.
        exists [value], []. cbn. rewrite app_nil_r.
        auto using rebuilds_literal, rebuilds_nil.
      * cbn [isLeafToken] in Hm. destruct (hasOwn fields value);
          [|by apply elem_of_nil in Hm].
        apply IH in Hm as (s' & c' & Hs & Hc & Hr).
        exists (value :: s'), c'. rewrite Hs, Hc, <- app_assoc.
        auto using rebuilds_literal.
    + destruct node; try (by apply elem_of_nil in Hm).
      apply list_elem_of_In, in_flat_map in Hm as ([key item] & _ & Hm).
      rewrite leaf_branch in Hm. apply list_elem_of_In, IH in Hm as (s' & c' & Hs & Hc & Hr).
      cbn in Hs, Hc. exists (key :: s'), (key :: c').
      rewrite Hs, Hc, <- !app_assoc. split; [done|split; [done|]].
      intros Hall. apply Forall_cons in Hall as [Hk Hall].
      auto using rebuilds_wildcard.
    + destruct node; try (by apply elem_of_nil in Hm).
      destruct (getProp fields field); try (by apply elem_of_nil in Hm).
      apply list_elem_of_In, in_flat_map in Hm as ([index item] & _ & Hm).
      cbn [fst snd] in Hm.
      rewrite leaf_branch in Hm. apply list_elem_of_In, IH in Hm as (s' & c' & Hs & Hc & Hr).
      exists (field :: natToString index :: s'), (natToString index :: c').
      rewrite Hs, Hc, <- !app_assoc. split; [done|split; [done|]].
      intros Hall. apply Forall_cons in Hall as [_ Hall].
      auto using rebuilds_array.
Qed.

(** The round trip the specification states for a list of tokens and a
    tree: every match of the expansion is matched by the tokens, and the
    captures of that match rebuild its segments. *)
Definition RoundTrip (tokens : list PathPatternToken) (root : Value) : Prop :=
  forall m, m ∈ expandPathTokens root tokens ->
    exists caps, matchPathTokens (segments m) tokens = Some caps
                 /\ materializePathTokens tokens caps = Some (segments m).

(** The pattern of the model provider keys, [models.providers.*.apiKey]. *)
Definition providerApiKeyTokens : list PathPatternToken :=
  [Literal "models"; Literal "providers"; Wildcard; Literal "apiKey"].

Example providerApiKeyTokens_parsed :
  parsePathPattern "models.providers.*.apiKey" = Some providerApiKeyTokens.
Proof. reflexivity. Qed.

Example parsePathPattern_array :
  parsePathPattern "agents.list[].memorySearch.remote.apiKey"
  = Some [Literal "agents"; ArrayToken "list"; Literal "memorySearch";
          Literal "remote"; Literal "apiKey"].
Proof. reflexivity. Qed.

(** A provider whose key is the empty string. *)
Definition emptyKeyConfig : Value :=
  VObj [("models", VObj [("providers",
    VObj [("", VObj [("apiKey", VStr "sk-test")])])])].

(** C5, as stated, fails: the expansion follows a property whose key is
    the empty string, and [matchPathTokens] refuses the empty segment. *)
Lemma roundtrip_fails_on_empty_key :
  ~ RoundTrip providerApiKeyTokens emptyKeyConfig.
Proof.
  intros H.
  destruct (H (mkMatch ["models"; "providers"; ""; "apiKey"] [""] (VStr "sk-test")))
    as (caps & Hmatch & _).
  - cbn. apply list_elem_of_singleton. reflexivity.
  - cbn in Hmatch. discriminate.
Qed.

(** C5, amended. For every list of tokens, every tree and every match of
    the expansion whose captures are all non-empty strings, the tokens
    match the segments of the match with exactly its captures, and the
    captures rebuild exactly its segments. *)
Theorem expand_match_materialize_roundtrip :
  forall (tokens : list PathPatternToken) (root : Value) (m : ExpandedPathMatch),
    m ∈ expandPathTokens root tokens ->
    Forall (fun c => truthy c = true) (captures m) ->
    matchPathTokens (segments m) tokens = Some (captures m)
    /\ materializePathTokens tokens (captures m) = Some (segments m).
Proof.
  intros tokens root m Hm Hall.
  apply walk_rebuilds in Hm as (s' & c' & Hs & Hc & Hr).
  cbn in Hs, Hc. rewrite Hs, Hc in *.
  destruct (Hr Hall) as [Hmatch Hbuild].
  unfold matchPathTokens, materializePathTokens.
  by rewrite Hmatch, Hbuild.
Qed.

Definition twoProviderConfig : Value :=
  VObj [("models", VObj [("providers",
    VObj [("openai", VObj [("apiKey", VStr "sk-a")]);
          ("anthropic", VObj [("enabled", VBool false)])])])].

Lemma expand_match_materialize_roundtrip_witness :
  let m := mkMatch ["models"; "providers"; "anthropic"; "apiKey"] ["anthropic"] VUndefined in
  matchPathTokens (segments m) providerApiKeyTokens = Some (captures m)
  /\ materializePathTokens providerApiKeyTokens (captures m) = Some (segments m).
Proof.
  apply (expand_match_materialize_roundtrip providerApiKeyTokens twoProviderConfig).
  - vm_compute. apply list_elem_of_In. right. left. reflexivity.
  - repeat constructor.
Defined.

End PatternFacts.

(** ** Properties of plan validation *)

Module PlanFacts.
Import JsString Json PathUtils TargetRegistryPattern TargetRegistry Plan.

(** Sample registry entries, after the entries that plan.test.ts and the
    plan contract document exercise. *)
Definition providerApiKeyEntry : SecretTargetRegistryEntry :=
  {| id := "models.providers.*.apiKey";
     targetType := "models.providers.apiKey";
     targetTypeAliases := [];
     configFile := OpenclawJson;
     pathPattern := "models.providers.*.apiKey";
     refPathPattern := None;
     secretShape := SecretInput;
     expectedResolvedValue := ExpectString;
     includeInPlan := true;
     includeInConfigure := true;
     includeInAudit := true;
     providerIdPathSegmentIndex := Some 2;
     accountIdPathSegmentIndex := None;
     authProfileType := None;
     trackProviderShadowing := true |}.

Definition talkApiKeyEntry : SecretTargetRegistryEntry :=
  {| id := "talk.apiKey";
     targetType := "talk.apiKey";
     targetTypeAliases := [];
     configFile := OpenclawJson;
     pathPattern := "talk.apiKey";
     refPathPattern := None;
     secretShape := SecretInput;
     expectedResolvedValue := ExpectString;
     includeInPlan := true;
     includeInConfigure := true;
     includeInAudit := true;
     providerIdPathSegmentIndex := None;
     accountIdPathSegmentIndex := None;
     authProfileType := None;
     trackProviderShadowing := false |}.

Definition googleChatAccountEntry : SecretTargetRegistryEntry :=
  {| id := "channels.googlechat.accounts.*.serviceAccount";
     targetType := "channels.googlechat.accounts.*.serviceAccount";
     targetTypeAliases := ["channels.googlechat.serviceAccount"];
     configFile := OpenclawJson;
     pathPattern := "channels.googlechat.accounts.*.serviceAccount";
     refPathPattern := Some "channels.googlechat.accounts.*.serviceAccountRef";
     secretShape := SiblingRef;
     expectedResolvedValue := ExpectStringOrObject;
     includeInPlan := true;
     includeInConfigure := true;
     includeInAudit := true;
     providerIdPathSegmentIndex := None;
     accountIdPathSegmentIndex := Some 3;
     authProfileType := None;
     trackProviderShadowing := false |}.

Definition authProfileKeyEntry : SecretTargetRegistryEntry :=
  {| id := "auth-profiles.api_key.key";
     targetType := "auth-profiles.api_key.key";
     targetTypeAliases := [];
     configFile := AuthProfilesJson;
     pathPattern := "profiles.*.key";
     refPathPattern := Some "profiles.*.keyRef";
     secretShape := SiblingRef;
     expectedResolvedValue := ExpectString;
     includeInPlan := true;
     includeInConfigure := true;
     includeInAudit := true;
     providerIdPathSegmentIndex := None;
     accountIdPathSegmentIndex := None;
     authProfileType := Some ApiKeyProfile;
     trackProviderShadowing := false |}.

Definition sampleRegistry : list CompiledTargetRegistryEntry :=
  omap compileTargetRegistryEntry
    [providerApiKeyEntry; talkApiKeyEntry; googleChatAccountEntry; authProfileKeyEntry].

Example sampleRegistry_compiles : length sampleRegistry = 4.
Proof. reflexivity. Qed.

(** Scenarios of plan.test.ts. *)
Definition legacyProviderTarget : PlanTargetCandidate :=
  {| c_type := Some "models.providers.apiKey";
     c_path := Some "models.providers.openai.apiKey";
     c_pathSegments := Some ["models"; "providers"; "openai"; "apiKey"];
     c_agentId := None; c_providerId := VStr "openai"; c_accountId := VUndefined;
     c_authProfileProvider := None |}.

Example accepts_legacy_provider_target :
  match resolveValidatedPlanTarget sampleRegistry legacyProviderTarget with
  | inr (Some resolved) => pathSegments resolved
  | _ => []
  end = ["models"; "providers"; "openai"; "apiKey"].
Proof. reflexivity. Qed.

Example rejects_path_of_other_shape :
  resolveValidatedPlanTarget sampleRegistry
    {| c_type := Some "talk.apiKey";
       c_path := Some "channels.telegram.webhookSecret";
       c_pathSegments := Some ["channels"; "telegram"; "webhookSecret"];
       c_agentId := None; c_providerId := VUndefined; c_accountId := VUndefined;
       c_authProfileProvider := None |} = inr None.
Proof. reflexivity. Qed.

Definition jsonRef : Value :=
  VObj [("source", VStr "env"); ("provider", VStr "default"); ("id", VStr "OPENAI_API_KEY")].

Definition authProfilePlan (withAgent : bool) : Value :=
  VObj [("version", VNum 1); ("protocolVersion", VNum 1);
        ("generatedAt", VStr "2026-02-28T00:00:00.000Z");
        ("generatedBy", VStr "manual");
        ("targets", VArr [VObj (
           [("type", VStr "auth-profiles.api_key.key");
            ("path", VStr "profiles.openai:default.key");
            ("pathSegments", VArr [VStr "profiles"; VStr "openai:default"; VStr "key"])]
           ++ (if withAgent then [("agentId", VStr "main")] else [])
           ++ [("ref", jsonRef)])])].

Example auth_profile_target_requires_agentId :
  isSecretsApplyPlan sampleRegistry (fun _ => true) (fun _ => true) (authProfilePlan false)
  = inr false
  /\ isSecretsApplyPlan sampleRegistry (fun _ => true) (fun _ => true) (authProfilePlan true)
     = inr true.
Proof. split; reflexivity. Qed.

Section Registry.
Variable registry : list CompiledTargetRegistryEntry.

















End Registry.




Example rejects_other_provider_id :
  resolveValidatedPlanTarget sampleRegistry
    {| c_type := Some "models.providers.apiKey";
       c_path := Some "models.providers.openai.apiKey";
       c_pathSegments := None;
       c_agentId := None; c_providerId := VStr "anthropic"; c_accountId := VUndefined;
       c_authProfileProvider := None |} = inr None.
Proof. reflexivity. Qed.




End PlanFacts.

Module AuditFacts.
Import Audit.

Definition hasUnresolved (entries : list SecretsAuditFinding) : bool :=
  existsb (fun entry => codeEqb (code entry) REF_UNRESOLVED) entries.

Lemma countCode_positive c entries :
  (0 <? countCode c entries)%nat = existsb (fun entry => codeEqb (code entry) c) entries.
Proof.
  induction entries as [|entry rest IH]; [reflexivity|]. cbn.
  destruct (codeEqb (code entry) c); [reflexivity | exact IH].
Qed.

(** C6. For every report whose summary counts the REF_UNRESOLVED findings
    of the report, as the reports of [runSecretsAudit] do, and for every
    check flag: the exit code is 2 when the report has a REF_UNRESOLVED
    finding; otherwise 1 when the check flag is set and the report has a
    finding; otherwise 0. *)
Theorem audit_exit_code_policy (report : SecretsAuditReport) (check : bool) :
  unresolvedRefCount (summary report) = countCode REF_UNRESOLVED (findings report) ->
  resolveSecretsAuditExitCode report check =
    if hasUnresolved (findings report) then 2%Z
    else if check && negb (bool_decide (findings report = [])) then 1%Z
    else 0%Z.
Proof.
  intros Hsummary. unfold resolveSecretsAuditExitCode, hasUnresolved.
  rewrite Hsummary, countCode_positive.
  destruct (existsb _ _); [reflexivity|].
  destruct (findings report); destruct check; reflexivity.
Qed.

Lemma buildAuditReport_summary files entries :
  unresolvedRefCount (summary (buildAuditReport files entries))
  = countCode REF_UNRESOLVED (findings (buildAuditReport files entries)).
Proof. reflexivity. Qed.

Definition plaintextFinding : SecretsAuditFinding :=
  {| code := PLAINTEXT_FOUND; severity := SeverityWarn;
     file := "/home/user/.openclaw/openclaw.json";
     jsonPath := "talk.apiKey";
     message := "talk.apiKey is stored as plaintext.";
     provider := None; profileId := None |}.

Definition unresolvedFinding : SecretsAuditFinding :=
  {| code := REF_UNRESOLVED; severity := SeverityError;
     file := "/home/user/.openclaw/openclaw.json";
     jsonPath := "<root>";
     message := "Config is invalid; cannot validate secret references reliably.";
     provider := None; profileId := None |}.

Lemma audit_exit_code_policy_witness :
  resolveSecretsAuditExitCode
    (buildAuditReport ["/home/user/.openclaw/openclaw.json"] [plaintextFinding]) true = 1%Z
  /\ resolveSecretsAuditExitCode
       (buildAuditReport ["/home/user/.openclaw/openclaw.json"]
          [plaintextFinding; unresolvedFinding]) false = 2%Z.
Proof.
  split.
  - rewrite (audit_exit_code_policy _ true (buildAuditReport_summary _ _)). reflexivity.
  - rewrite (audit_exit_code_policy _ false (buildAuditReport_summary _ _)). reflexivity.
Defined.

Example exit_codes_of_reports :
  resolveSecretsAuditExitCode (buildAuditReport [] []) true = 0%Z
  /\ resolveSecretsAuditExitCode (buildAuditReport [] [plaintextFinding]) false = 0%Z
  /\ status (buildAuditReport [] [plaintextFinding; unresolvedFinding]) = StatusUnresolved.
Proof. repeat split. Qed.

End AuditFacts.

(** ** The model of the secret input helpers on examples *)

Module SecretInputFacts.
Import JsString Json RuntimeShared SecretInputModel.

Example coerceSecretRef_env :
  coerceSecretRef (envRef "OPENAI_API_KEY") VUndefined
  = Some (mkSecretRef "env" "default" "OPENAI_API_KEY")
  /\ coerceSecretRef (VStr "sk-plain") VUndefined = None
  /\ coerceSecretRef (VObj [("source", VStr "file"); ("id", VStr "/providers/openai")])
       (VObj [("file", VStr "vault")])
     = Some (mkSecretRef "file" "vault" "/providers/openai").
Proof. repeat split. Qed.

End SecretInputFacts.

(** ** Facts about strings and warning keys *)

Module StringFacts.
Import JsString.

Lemma app_nil_l (s : string) : "" +:+ s = s.
Proof. reflexivity. Qed.

Lemma app_cons (c : ascii) (s t : string) : String c s +:+ t = String c (s +:+ t).
Proof. reflexivity. Qed.

Lemma app_assoc (a b c : string) : (a +:+ b) +:+ c = a +:+ (b +:+ c).
Proof. induction a as [|x a IH]; [reflexivity|]. rewrite !app_cons, IH. reflexivity. Qed.

Lemma app_length (a b : string) :
  String.length (a +:+ b) = String.length a + String.length b.
Proof. induction a as [|x a IH]; [reflexivity|]. rewrite app_cons. cbn. by rewrite IH. Qed.

Lemma app_inj_length (a a' b b' : string) :
  a +:+ b = a' +:+ b' -> String.length a = String.length a' -> a = a' /\ b = b'.
Proof.
  revert a'. induction a as [|x a IH]; intros [|x' a'] Heq Hlen; try discriminate Hlen.
  - by rewrite !app_nil_l in Heq.
  - rewrite !app_cons in Heq. injection Heq as -> Heq. injection Hlen as Hlen.
    destruct (IH _ Heq Hlen) as [-> ->]. done.
Qed.

(** The string has no colon. *)
Fixpoint noColon (s : string) : bool :=
  match s with
  | EmptyString => true
  | String c rest => negb (Ascii.eqb c ":") && noColon rest
  end.

(** What follows the last colon of a string determines what precedes
    it. *)
Lemma last_colon_inj (x x' r r' : string) :
  x +:+ ":" +:+ r = x' +:+ ":" +:+ r' ->
  noColon r = true -> noColon r' = true -> x = x' /\ r = r'.
Proof.
  revert x'. induction x as [|c x IH]; intros [|c' x'] Heq Hr Hr';
    rewrite ?app_cons, ?app_nil_l in Heq.
  - by injection Heq as ->.
  - injection Heq as <- Heq. subst r. exfalso.
    clear -Hr. induction x' as [|d x' IH]; [discriminate Hr|].
    rewrite app_cons in Hr. cbn in Hr. apply andb_true_iff in Hr as [_ Hr]. auto.
  - injection Heq as -> Heq. subst r'. exfalso.
    clear -Hr'. induction x as [|d x IH]; [discriminate Hr'|].
    rewrite app_cons in Hr'. cbn in Hr'. apply andb_true_iff in Hr' as [_ Hr']. auto.
  - injection Heq as -> Heq.
    destruct (IH _ Heq Hr Hr') as [-> ->]. done.
Qed.

(** [p:p] determines [p]. *)
Lemma doubled_inj (p p' : string) : p +:+ ":" +:+ p = p' +:+ ":" +:+ p' -> p = p'.
Proof.
  intros Heq. apply (app_inj_length p p' (":" +:+ p) (":" +:+ p')); [exact Heq|].
  apply (f_equal String.length) in Heq. rewrite !app_length in Heq. cbn in Heq. lia.
Qed.

End StringFacts.

(** ** The Tlon outbound session resolver *)

Module TlonFacts.
Import JsString Tlon.

(** The words of the claim, written on the target itself: a string of
    white space only, and the strings [tlon:] in any letter case, which
    are what [/^tlon:/i] matches. *)
Fixpoint allWhite (s : string) : bool :=
  match s with
  | EmptyString => true
  | String c rest => isWhite c && allWhite rest
  end.

Definition isLetter (lower upper c : ascii) : bool := Ascii.eqb c lower || Ascii.eqb c upper.

Definition isTlonPrefix (p : string) : bool :=
  match p with
  | String t (String l (String o (String n (String colon EmptyString)))) =>
      isLetter "t" "T" t && isLetter "l" "L" l && isLetter "o" "O" o && isLetter "n" "N" n
      && Ascii.eqb colon ":"
  | _ => false
  end.

(** The target is blank after trimming, or it is blank after trimming
    once its leading [tlon:] is taken away: white space, [tlon:], white
    space. *)
Definition BlankTarget (target : string) : Prop :=
  allWhite target = true
  \/ exists lead p rest,
       target = lead +:+ p +:+ rest
       /\ allWhite lead = true /\ isTlonPrefix p = true /\ allWhite rest = true.

Definition session (k : PeerKind) (peerId from to : string)
  : ChannelOutboundSessionResolveResult :=
  {| peer := {| kind := k; peerId := peerId |}; chatType := k; from := from; to := to |}.

(** The cases of outbound-session.test.ts. *)
Example tlon_test_cases :
  resolveTlonOutboundSession "~sampel-palnet"
    = Some (session Direct "~sampel-palnet" "tlon:~sampel-palnet" "tlon:~sampel-palnet")
  /\ resolveTlonOutboundSession "dm:sampel-palnet"
    = Some (session Direct "~sampel-palnet" "tlon:~sampel-palnet" "tlon:~sampel-palnet")
  /\ resolveTlonOutboundSession "chat/~host-ship/general"
    = Some (session Group "chat/~host-ship/general"
              "tlon:group:chat/~host-ship/general" "tlon:chat/~host-ship/general")
  /\ resolveTlonOutboundSession "~host-ship/general"
    = Some (session Group "chat/~host-ship/general"
              "tlon:group:chat/~host-ship/general" "tlon:chat/~host-ship/general")
  /\ resolveTlonOutboundSession "group:opaque-channel-id"
    = Some (session Group "opaque-channel-id"
              "tlon:group:opaque-channel-id" "tlon:opaque-channel-id")
  /\ resolveTlonOutboundSession "tlon:dm:~marzod"
    = Some (session Direct "~marzod" "tlon:~marzod" "tlon:~marzod")
  /\ resolveTlonOutboundSession "   " = None
  /\ resolveTlonOutboundSession " TLON:  " = None.
Proof. repeat split. Qed.

Lemma append_empty_r (s : string) : s +:+ "" = s.
Proof. induction s as [|c s IH]; [reflexivity|]. by rewrite StringFacts.app_cons, IH. Qed.

Lemma allWhite_app a b : allWhite (a +:+ b) = allWhite a && allWhite b.
Proof.
  induction a as [|c a IH]; [by rewrite StringFacts.app_nil_l|].
  rewrite StringFacts.app_cons. cbn [allWhite]. by rewrite IH, andb_assoc.
Qed.

Lemma trimStart_white lead s : allWhite lead = true -> trimStart (lead +:+ s) = trimStart s.
Proof.
  induction lead as [|c lead IH]; intros Hlead; [by rewrite StringFacts.app_nil_l|].
  cbn [allWhite] in Hlead. apply andb_true_iff in Hlead as [Hc Hlead].
  rewrite StringFacts.app_cons. cbn [trimStart]. rewrite Hc. by apply IH.
Qed.

Lemma trimStart_blank s : allWhite s = true -> trimStart s = "".
Proof.
  induction s as [|c s IH]; [done|]. cbn [allWhite trimStart].
  intros [Hc Hs]%andb_true_iff. rewrite Hc. by apply IH.
Qed.

(** What [trimStart] removes is white space, and what it leaves is empty
    or begins with another character. *)
Lemma trimStart_split s :
  exists lead, s = lead +:+ trimStart s /\ allWhite lead = true.
Proof.
  induction s as [|c s (lead & Hs & Hlead)]; [by exists ""|].
  cbn [trimStart]. destruct (isWhite c) eqn:Hc.
  - exists (String c lead). rewrite StringFacts.app_cons, <- Hs. cbn [allWhite].
    by rewrite Hc, Hlead.
  - by exists "".
Qed.

Lemma trimStart_head s :
  match trimStart s with
  | EmptyString => True
  | String c _ => isWhite c = false
  end.
Proof.
  induction s as [|c s IH]; [done|]. cbn [trimStart].
  destruct (isWhite c) eqn:Hc; [exact IH|exact Hc].
Qed.

Lemma trimEnd_blank s : allWhite s = true -> trimEnd s = "".
Proof.
  induction s as [|c s IH]; [done|]. cbn [allWhite trimEnd].
  intros [Hc Hs]%andb_true_iff. by rewrite IH, Hc.
Qed.

Lemma trimEnd_split s :
  exists trail, s = trimEnd s +:+ trail /\ allWhite trail = true.
Proof.
  induction s as [|c s (trail & Hs & Htrail)]; [by exists ""|].
  cbn [trimEnd]. destruct (trimEnd s) as [|d kept] eqn:Hkept.
  - rewrite StringFacts.app_nil_l in Hs. subst trail.
    destruct (isWhite c) eqn:Hc.
    + exists (String c s). rewrite StringFacts.app_nil_l. cbn [allWhite].
      by rewrite Hc, Htrail.
    + exists s. by rewrite StringFacts.app_cons, StringFacts.app_nil_l.
  - exists trail. by rewrite StringFacts.app_cons, <- Hs.
Qed.

Lemma trimEnd_head c s :
  isWhite c = false -> exists kept, trimEnd (String c s) = String c kept.
Proof.
  intros Hc. cbn [trimEnd]. destruct (trimEnd s); [|by eexists].
  rewrite Hc. by eexists.
Qed.

(** The end of a string is kept when white space follows it. *)
Lemma trimEnd_white s trail :
  allWhite trail = true -> trimEnd (s +:+ trail) = trimEnd s.
Proof.
  intros Htrail. induction s as [|c s IH].
  - rewrite StringFacts.app_nil_l. by apply trimEnd_blank.
  - rewrite StringFacts.app_cons. cbn [trimEnd]. by rewrite IH.
Qed.

Lemma trim_blank s : allWhite s = true -> trim s = "".
Proof. intros Hs. unfold trim. by rewrite trimStart_blank. Qed.

Lemma trim_split s :
  exists lead trail,
    s = lead +:+ trim s +:+ trail /\ allWhite lead = true /\ allWhite trail = true.
Proof.
  destruct (trimStart_split s) as (lead & Hs & Hlead).
  destruct (trimEnd_split (trimStart s)) as (trail & Hstart & Htrail).
  exists lead, trail. unfold trim. by rewrite <- Hstart, <- Hs.
Qed.

Lemma trim_head s :
  match trim s with
  | EmptyString => True
  | String c _ => isWhite c = false
  end.
Proof.
  unfold trim. pose proof (trimStart_head s) as Hhead.
  destruct (trimStart s) as [|c rest]; [done|].
  destruct (trimEnd_head c rest Hhead) as [kept ->]. exact Hhead.
Qed.

Lemma blank_of_trim s : truthy (trim s) = false -> allWhite s = true.
Proof.
  intros Hempty. destruct (trim_split s) as (lead & trail & Hs & Hlead & Htrail).
  destruct (trim s); [|done].
  rewrite Hs, StringFacts.app_nil_l, allWhite_app. by rewrite Hlead, Htrail.
Qed.

(** The sixteen spellings of the prefix. *)
Lemma tlonPrefix_spec p :
  isTlonPrefix p = true ->
  toLowerCase p = "tlon:" /\ trimEnd p = p
  /\ exists t q, p = String t q /\ isWhite t = false.
Proof.
  destruct p as [|t [|l [|o [|n [|colon [|]]]]]]; try done.
  unfold isTlonPrefix, isLetter.
  intros ((((Ht & Hl)%andb_true_iff & Ho)%andb_true_iff & Hn)%andb_true_iff
          & Hcolon)%andb_true_iff.
  apply Ascii.eqb_eq in Hcolon as ->.
  apply orb_true_iff in Ht as [->%Ascii.eqb_eq | ->%Ascii.eqb_eq];
    apply orb_true_iff in Hl as [->%Ascii.eqb_eq | ->%Ascii.eqb_eq];
    apply orb_true_iff in Ho as [->%Ascii.eqb_eq | ->%Ascii.eqb_eq];
    apply orb_true_iff in Hn as [->%Ascii.eqb_eq | ->%Ascii.eqb_eq];
    (split; [reflexivity|split; [reflexivity|eexists _, _; split; reflexivity]]).
Qed.

Lemma lower_is_letter c :
  Ascii.eqb "t" (lowerChar c) = isLetter "t" "T" c
  /\ Ascii.eqb "l" (lowerChar c) = isLetter "l" "L" c
  /\ Ascii.eqb "o" (lowerChar c) = isLetter "o" "O" c
  /\ Ascii.eqb "n" (lowerChar c) = isLetter "n" "N" c
  /\ Ascii.eqb ":" (lowerChar c) = Ascii.eqb c ":".
Proof. destruct c as [[] [] [] [] [] [] [] []]; repeat split; reflexivity. Qed.

(** A string whose lower-case form begins with [tlon:] begins with one
    of the spellings of the prefix. *)
Lemma tlonPrefix_found s :
  startsWith (toLowerCase s) "tlon:" = true ->
  exists p, s = p +:+ dropChars 5 s /\ isTlonPrefix p = true.
Proof.
  destruct s as [|t [|l [|o [|n [|colon rest]]]]]; cbn [toLowerCase startsWith];
    rewrite ?andb_false_r; try discriminate.
  destruct (lower_is_letter t) as (-> & _).
  destruct (lower_is_letter l) as (_ & -> & _).
  destruct (lower_is_letter o) as (_ & _ & -> & _).
  destruct (lower_is_letter n) as (_ & _ & _ & -> & _).
  destruct (lower_is_letter colon) as (_ & _ & _ & _ & ->).
  intros Hprefix.
  exists (String t (String l (String o (String n (String colon ""))))).
  split; [reflexivity|]. cbn [isTlonPrefix].
  destruct (toLowerCase rest); by rewrite ?andb_true_r, ?andb_assoc in *.
Qed.

Lemma tlonPrefix_stripped p :
  isTlonPrefix p = true -> stripPrefixIgnoreCase "tlon:" p = "".
Proof.
  intros Hp. destruct (tlonPrefix_spec p Hp) as (Hlower & _ & _).
  unfold stripPrefixIgnoreCase. rewrite Hlower. cbn [startsWith Ascii.eqb Bool.eqb andb].
  destruct p as [|t [|l [|o [|n [|colon [|]]]]]]; done.
Qed.

(** C9. The target ["group:~host-ship/general"] resolves to the group
    peer [chat/~host-ship/general] with the from and to fields of the
    specification, and the resolver returns null exactly for the blank
    targets: those of white space only, and those made of white space,
    [tlon:] in any letter case, and white space. *)
Theorem tlon_outbound_session_resolution :
  resolveTlonOutboundSession "group:~host-ship/general"
    = Some (session Group "chat/~host-ship/general"
              "tlon:group:chat/~host-ship/general" "tlon:chat/~host-ship/general")
  /\ forall target : string,
       resolveTlonOutboundSession target = None <-> BlankTarget target.
Proof.
  split; [reflexivity|].
  intros target. unfold resolveTlonOutboundSession, BlankTarget. split.
  - destruct (truthy (trim target)) eqn:Htrimmed; [|left; by apply blank_of_trim].
    destruct (truthy (trim (stripPrefixIgnoreCase "tlon:" (trim target)))) eqn:Hrest;
      [by destruct (classifyTarget _)|].
    intros _. right. apply blank_of_trim in Hrest.
    unfold stripPrefixIgnoreCase in Hrest.
    destruct (startsWith (toLowerCase (trim target)) "tlon:") eqn:Hprefix.
    + destruct (tlonPrefix_found _ Hprefix) as (p & Hsplit & Hp).
      destruct (trim_split target) as (lead & trail & Htarget & Hlead & Htrail).
      exists lead, p, (dropChars 5 (trim target) +:+ trail).
      split; [|split; [done|split; [done|]]].
      * rewrite Htarget at 1. rewrite Hsplit at 1. by rewrite !StringFacts.app_assoc.
      * rewrite allWhite_app. cbn [String.length] in Hrest. by rewrite Hrest, Htrail.
    + pose proof (trim_head target) as Hhead.
      destruct (trim target) as [|c kept]; [done|].
      cbn [allWhite] in Hrest. by rewrite Hhead in Hrest.
  - intros [Hblank | (lead & p & rest & -> & Hlead & Hp & Hrest)].
    + by rewrite trim_blank.
    + destruct (tlonPrefix_spec p Hp) as (_ & Hend & t & q & Hsplit & Hhead).
      assert (Htrimmed : trim (lead +:+ p +:+ rest) = p).
      { unfold trim. rewrite trimStart_white by done.
        assert (Hstart : trimStart (p +:+ rest) = p +:+ rest).
        { rewrite Hsplit, StringFacts.app_cons. cbn [trimStart]. by rewrite Hhead. }
        by rewrite Hstart, trimEnd_white. }
      rewrite Htrimmed.
      assert (Htruthy : truthy p = true) by (by destruct p).
      rewrite Htruthy, tlonPrefix_stripped by done. reflexivity.
Qed.

End TlonFacts.

(** ** Invariants of the resolver context *)

Module ContextFacts.
Import JsString Json RuntimeShared StringFacts.

Lemma codeName_inj c c' x y :
  codeName c +:+ ":" +:+ x = codeName c' +:+ ":" +:+ y -> c = c' /\ x = y.
Proof.
  destruct c, c'; unfold codeName; rewrite !app_cons, !app_nil_l;
    intros H; (by injection H) || congruence.
Qed.

(** A warning whose message is its path, a colon and a reason without
    colon: every warning of the configuration collectors has this
    shape. *)
Definition Canonical (w : SecretResolverWarning) : Prop :=
  exists reason, noColon reason = true /\ message w = path w +:+ ": " +:+ reason.

(** The message of the warnings of the auth-profile collectors. *)
Definition authProfileMessage (profileId field : string) : string :=
  "auth-profiles " +:+ profileId +:+ ": " +:+ field
    +:+ "Ref is set; runtime will ignore plaintext " +:+ field +:+ ".".

Definition AuthProfileWarning (w : SecretResolverWarning) : Prop :=
  code w = SECRETS_REF_OVERRIDES_PLAINTEXT
  /\ exists profileId field,
       (field = "key" \/ field = "token") /\ message w = authProfileMessage profileId field.

Definition Allowed (w : SecretResolverWarning) : Prop :=
  Canonical w \/ AuthProfileWarning w.

(** The reason of the warning of a sibling ref that overrides
    plaintext. *)
Definition overridesReason : string :=
  "serviceAccountRef is set; runtime will ignore plaintext serviceAccount.".

(** A canonical warning that no auth-profile warning shares its key
    with. *)
Definition Distinguished (w : SecretResolverWarning) : Prop :=
  (code w = SECRETS_REF_IGNORED_INACTIVE_SURFACE /\ Canonical w)
  \/ (code w = SECRETS_REF_OVERRIDES_PLAINTEXT
      /\ message w = path w +:+ ": " +:+ overridesReason).

Lemma distinguished_canonical w : Distinguished w -> Canonical w.
Proof.
  intros [[_ H]|[_ H]]; [exact H|]. exists overridesReason. split; [reflexivity|exact H].
Qed.

Lemma canonical_body w reason :
  message w = path w +:+ ": " +:+ reason ->
  path w +:+ ":" +:+ message w = (path w +:+ ":" +:+ path w) +:+ ":" +:+ (" " +:+ reason).
Proof. intros ->. rewrite !app_assoc. reflexivity. Qed.

Lemma canonical_key_inj w w' :
  Canonical w -> Canonical w' -> warningKey w = warningKey w' -> w = w'.
Proof.
  intros (r & Hr & Hm) (r' & Hr' & Hm') Hkey.
  apply codeName_inj in Hkey as [Hcode Hbody].
  rewrite (canonical_body w r Hm), (canonical_body w' r' Hm') in Hbody.
  apply last_colon_inj in Hbody as [Hpath Hreason]; [|by cbn; rewrite ?Hr, ?Hr'..].
  apply doubled_inj in Hpath.
  rewrite !app_cons, !app_nil_l in Hreason. injection Hreason as Hreason.
  destruct w, w'; cbn in *. congruence.
Qed.

Lemma auth_profile_body w profileId field :
  message w = authProfileMessage profileId field ->
  path w +:+ ":" +:+ message w
  = (path w +:+ ":auth-profiles " +:+ profileId) +:+ ":"
      +:+ (" " +:+ field +:+ "Ref is set; runtime will ignore plaintext " +:+ field +:+ ".").
Proof. intros ->. unfold authProfileMessage. rewrite !app_assoc. reflexivity. Qed.

Lemma distinguished_key_inj w w' :
  Distinguished w -> Allowed w' -> warningKey w' = warningKey w -> w' = w.
Proof.
  intros Hw [Hcanonical|[Hcode (profileId & field & Hfield & Hm)]] Hkey.
  - symmetry. apply canonical_key_inj; auto using distinguished_canonical.
  - exfalso. apply codeName_inj in Hkey as [Hc Hbody].
    destruct Hw as [[Hinactive _]|[_ Hmsg]]; [congruence|].
    rewrite (auth_profile_body w' _ _ Hm), (canonical_body w _ Hmsg) in Hbody.
    apply last_colon_inj in Hbody as [_ Hreason].
    + destruct Hfield as [-> | ->]; vm_compute in Hreason; discriminate.
    + destruct Hfield as [-> | ->]; reflexivity.
    + reflexivity.
Qed.

(** The key set of a context indexes its warnings, which are pairwise
    distinct by key and of the shapes the collectors produce. *)
Record Inv (ctx : ResolverContext) : Prop := {
  inv_indexed : forall key, key ∈ warningKeys ctx <-> key ∈ map warningKey (warnings ctx);
  inv_nodup : NoDup (map warningKey (warnings ctx));
  inv_allowed : Forall Allowed (warnings ctx)
}.

Lemma inv_fresh config : Inv (createResolverContext config).
Proof.
  split; cbn.
  - intros key. split; [set_solver | intros H; by apply elem_of_nil in H].
  - constructor.
  - constructor.
Qed.

Lemma pushAssignment_inv ctx a : Inv ctx -> Inv (pushAssignment ctx a).
Proof. intros [H1 H2 H3]. split; assumption. Qed.

Lemma pushWarning_inv ctx w : Allowed w -> Inv ctx -> Inv (pushWarning ctx w).
Proof.
  intros Hw [Hindexed Hnodup Hallowed]. unfold pushWarning.
  case_bool_decide as Hin; [by split|].
  split; cbn.
  - intros key. rewrite map_app, elem_of_app, elem_of_union, elem_of_singleton.
    cbn. rewrite list_elem_of_singleton, Hindexed. tauto.
  - rewrite map_app. apply NoDup_app. split; [exact Hnodup|].
    split; [|apply NoDup_singleton].
    intros key Hkey Hkey'. cbn in Hkey'. apply list_elem_of_singleton in Hkey'. subst key.
    apply Hin, Hindexed, Hkey.
  - apply Forall_app. split; [exact Hallowed|]. by constructor.
Qed.

(** Once pushed, a distinguished warning is in the list, whether it was
    added or found by its key. *)
Lemma pushWarning_elem ctx w :
  Distinguished w -> Inv ctx -> w ∈ warnings (pushWarning ctx w).
Proof.
  intros Hw [Hindexed _ Hallowed]. unfold pushWarning.
  case_bool_decide as Hin; cbn.
  - apply Hindexed, list_elem_of_fmap in Hin as (w' & Hkey & Hin').
    rewrite Forall_forall in Hallowed.
    rewrite <- (distinguished_key_inj w w' Hw); auto.
  - apply elem_of_app. right. by apply list_elem_of_singleton.
Qed.

Lemma inv_warnings_nodup ctx : Inv ctx -> NoDup (warnings ctx).
Proof. intros [_ Hnodup _]. by apply NoDup_fmap_1 in Hnodup. Qed.

End ContextFacts.

(** ** What a call of [collectSecretInputAssignment] does to a context *)

Module CollectFacts.
Import JsString Json RuntimeShared StringFacts ContextFacts.

(** The assignments and the warnings of a context for one path. *)
Definition assignmentsAt (p : string) (ctx : ResolverContext) : list SecretAssignment :=
  filter (fun a => assignmentPath a = p) (assignments ctx).

Definition warningsAt (p : string) (ctx : ResolverContext) : list SecretResolverWarning :=
  filter (fun w => path w = p) (warnings ctx).

Definition inactiveWarning (p : string) (details : option string) : SecretResolverWarning :=
  {| code := SECRETS_REF_IGNORED_INACTIVE_SURFACE;
     path := p;
     message := inactiveSurfaceMessage p details |}.

(** The reason given for an inactive surface has no colon. *)
Definition PlainReason (details : option string) : Prop :=
  match details with
  | Some text => noColon text = true
  | None => True
  end.

Lemma inactiveWarning_distinguished p details :
  PlainReason details -> Distinguished (inactiveWarning p details).
Proof.
  intros Hplain. left. split; [reflexivity|].
  unfold Canonical, inactiveWarning, inactiveSurfaceMessage. cbn.
  destruct details as [text|]; [destruct (isBlank text)|];
    (by eexists; split; [|reflexivity]).
Qed.

Lemma pushWarning_assignments ctx w : assignments (pushWarning ctx w) = assignments ctx.
Proof. unfold pushWarning. by case_bool_decide. Qed.

Lemma pushWarning_warnings ctx w :
  warnings (pushWarning ctx w) = warnings ctx
  \/ warnings (pushWarning ctx w) = warnings ctx ++ [w].
Proof. unfold pushWarning. case_bool_decide; auto. Qed.

Lemma pushWarning_warningsAt_other ctx w p :
  path w <> p -> warningsAt p (pushWarning ctx w) = warningsAt p ctx.
Proof.
  intros Hne. unfold warningsAt.
  destruct (pushWarning_warnings ctx w) as [-> | ->]; [reflexivity|].
  rewrite filter_app, filter_cons_False, filter_nil, app_nil_r; done.
Qed.

Section Collect.
Variable coerceSecretRef : Value -> Value -> option SecretRef.

Local Abbreviation collect := (collectSecretInputAssignment coerceSecretRef).

Lemma collect_inv value p expected defaults active reason target ctx :
  PlainReason reason -> Inv ctx ->
  Inv (collect value p expected defaults active reason target ctx).
Proof.
  intros Hplain Hinv. unfold collectSecretInputAssignment.
  destruct (coerceSecretRef value defaults); [|exact Hinv].
  destruct active as [[|]|]; try (by apply pushAssignment_inv).
  apply pushWarning_inv; [|exact Hinv].
  left. apply distinguished_canonical, inactiveWarning_distinguished, Hplain.
Qed.

(** A call for another path leaves the assignments and warnings of
    path [p] as they are. *)
Lemma collect_other value q expected defaults active reason target ctx p :
  q <> p ->
  assignmentsAt p (collect value q expected defaults active reason target ctx)
    = assignmentsAt p ctx
  /\ warningsAt p (collect value q expected defaults active reason target ctx)
    = warningsAt p ctx.
Proof.
  intros Hne. unfold collectSecretInputAssignment.
  destruct (coerceSecretRef value defaults); [|done].
  destruct active as [[|]|]; unfold assignmentsAt;
    try (cbn; rewrite filter_app, filter_cons_False, filter_nil, app_nil_r; done).
  unfold pushInactiveSurfaceWarning.
  rewrite pushWarning_assignments, pushWarning_warningsAt_other; done.
Qed.

(** A call for path [p] with a ref on an active surface adds the
    assignment and no warning. *)
Lemma collect_active value p expected defaults active reason target ctx ref :
  coerceSecretRef value defaults = Some ref -> active <> Some false ->
  assignmentsAt p (collect value p expected defaults active reason target ctx)
    = assignmentsAt p ctx ++ [mkAssignment ref p expected target]
  /\ warnings (collect value p expected defaults active reason target ctx)
    = warnings ctx.
Proof.
  intros Hcoerce Hactive. unfold collectSecretInputAssignment. rewrite Hcoerce.
  destruct active as [[|]|]; try done;
    unfold assignmentsAt; cbn; rewrite filter_app, filter_cons_True; done.
Qed.

(** A call for path [p] with a ref on an inactive surface adds no
    assignment and records the inactive-surface warning. *)
Lemma collect_inactive value p expected defaults reason target ctx ref :
  coerceSecretRef value defaults = Some ref -> PlainReason reason -> Inv ctx ->
  assignments (collect value p expected defaults (Some false) reason target ctx)
    = assignments ctx
  /\ inactiveWarning p reason
       ∈ warnings (collect value p expected defaults (Some false) reason target ctx).
Proof.
  intros Hcoerce Hplain Hinv. unfold collectSecretInputAssignment. rewrite Hcoerce.
  unfold pushInactiveSurfaceWarning. split; [apply pushWarning_assignments|].
  apply (pushWarning_elem ctx (inactiveWarning p reason));
    auto using inactiveWarning_distinguished.
Qed.

Lemma collect_warnings_grow value q expected defaults active reason target ctx w :
  w ∈ warnings ctx ->
  w ∈ warnings (collect value q expected defaults active reason target ctx).
Proof.
  intros Hin. unfold collectSecretInputAssignment.
  destruct (coerceSecretRef value defaults); [|done].
  destruct active as [[|]|]; try done.
  unfold pushInactiveSurfaceWarning.
  destruct (pushWarning_warnings ctx (mkWarning SECRETS_REF_IGNORED_INACTIVE_SURFACE q
              (inactiveSurfaceMessage q reason))) as [-> | ->]; [done|].
  apply elem_of_app. by left.
Qed.

End Collect.
End CollectFacts.

(** ** Gateway secrets (collectGatewayAssignments) *)

Module GatewayFacts.
Import JsString Json RuntimeShared StringFacts ContextFacts CollectFacts CoreCollectors.

Definition remotePath (field : string) : string := "gateway.remote." +:+ field.

Definition remoteAssignment (field : string) (ref : SecretRef) : SecretAssignment :=
  mkAssignment ref (remotePath field) ExpectString (ConfigField ["gateway"; "remote"; field]).

Section Gateway.
Variable coerceSecretRef : Value -> Value -> option SecretRef.
Variable hasConfiguredSecretInput : Value -> Value -> bool.

Lemma remoteInactiveReason_plain remote field :
  field = "token" \/ field = "password" ->
  PlainReason (Some (remoteInactiveReason remote field)).
Proof.
  intros [-> | ->]; unfold PlainReason, remoteInactiveReason;
    destruct (notFalse _); reflexivity.
Qed.

(** C2, amended. For every configuration with a [gateway.remote]
    section and a secret ref at [gateway.remote.token] (respectively
    [gateway.remote.password]): the collector adds the assignment for
    the ref, and no diagnostic, exactly when [gateway.remote.enabled] is
    not false and either [gateway.mode] is "remote", or
    [gateway.remote.url] is a non-blank string, or no local
    [gateway.auth] token (respectively password) is configured;
    otherwise it adds no assignment and records the inactive-surface
    diagnostic for the path. *)
Theorem gateway_remote_secret_activeness
    (config defaults : Value) (ctx : ResolverContext)
    (gateway remote : list (string * Value)) (field : string) (ref : SecretRef) :
  Inv ctx ->
  prop config "gateway" = VObj gateway ->
  getProp gateway "remote" = VObj remote ->
  field = "token" \/ field = "password" ->
  coerceSecretRef (getProp remote field) defaults = Some ref ->
  let ctx' :=
    collectGatewayAssignments coerceSecretRef hasConfiguredSecretInput
      config defaults ctx in
  if remoteSecretActive hasConfiguredSecretInput gateway remote defaults field
  then assignmentsAt (remotePath field) ctx'
         = assignmentsAt (remotePath field) ctx ++ [remoteAssignment field ref]
       /\ warningsAt (remotePath field) ctx' = warningsAt (remotePath field) ctx
  else assignmentsAt (remotePath field) ctx' = assignmentsAt (remotePath field) ctx
       /\ inactiveWarning (remotePath field) (Some (remoteInactiveReason remote field))
            ∈ warnings ctx'.
Proof.
  intros Hinv Hgateway Hremote Hfield Hcoerce ctx'. subst ctx'.
  unfold collectGatewayAssignments. rewrite Hgateway, Hremote.
  set (ctx1 := match getProp gateway "auth" with VObj _ => _ | _ => ctx end).
  assert (Hinv1 : Inv ctx1).
  { subst ctx1. destruct (getProp gateway "auth"); try exact Hinv.
    by apply collect_inv. }
  assert (Hsame1 : forall p, p <> "gateway.auth.password" ->
    assignmentsAt p ctx1 = assignmentsAt p ctx /\ warningsAt p ctx1 = warningsAt p ctx).
  { intros p Hp. subst ctx1. destruct (getProp gateway "auth"); try done.
    apply collect_other. congruence. }
  pose proof (remoteInactiveReason_plain remote "token" (or_introl eq_refl)) as Hplain_t.
  pose proof (remoteInactiveReason_plain remote "password" (or_intror eq_refl)) as Hplain_p.
  set (ctx2 := collectSecretInputAssignment _ (getProp remote "token") _ _ _ _ _ _ ctx1).
  assert (Hinv2 : Inv ctx2) by (by apply collect_inv).
  destruct Hfield as [-> | ->].
  - (* token: the second call is the one for the path *)
    destruct (Hsame1 (remotePath "token")) as [Ha1 Hw1]; [done|].
    destruct (collect_other coerceSecretRef (getProp remote "password")
      "gateway.remote.password" ExpectString defaults
      (Some (remoteSecretActive hasConfiguredSecretInput gateway remote defaults "password"))
      (Some (remoteInactiveReason remote "password"))
      (ConfigField ["gateway"; "remote"; "password"]) ctx2 (remotePath "token"))
      as [Ha3 Hw3]; [done|].
    rewrite Ha3, Hw3. subst ctx2.
    destruct (remoteSecretActive _ gateway remote defaults "token").
    + destruct (collect_active coerceSecretRef (getProp remote "token")
        "gateway.remote.token" ExpectString defaults (Some true)
        (Some (remoteInactiveReason remote "token"))
        (ConfigField ["gateway"; "remote"; "token"]) ctx1 ref Hcoerce) as [Ha2 Hw2];
        [done|].
      split.
      * change (remotePath "token") with "gateway.remote.token" in *.
        rewrite Ha2, Ha1. reflexivity.
      * unfold warningsAt in *. rewrite Hw2. exact Hw1.
    + destruct (collect_inactive coerceSecretRef (getProp remote "token")
        "gateway.remote.token" ExpectString defaults
        (Some (remoteInactiveReason remote "token"))
        (ConfigField ["gateway"; "remote"; "token"]) ctx1 ref Hcoerce Hplain_t Hinv1)
        as [Ha2 Hw2].
      split.
      * unfold assignmentsAt in *. rewrite Ha2. exact Ha1.
      * apply collect_warnings_grow. exact Hw2.
  - (* password: the third call is the one for the path *)
    destruct (Hsame1 (remotePath "password")) as [Ha1 Hw1]; [done|].
    destruct (collect_other coerceSecretRef (getProp remote "token")
      "gateway.remote.token" ExpectString defaults
      (Some (remoteSecretActive hasConfiguredSecretInput gateway remote defaults "token"))
      (Some (remoteInactiveReason remote "token"))
      (ConfigField ["gateway"; "remote"; "token"]) ctx1 (remotePath "password"))
      as [Ha2 Hw2]; [done|].
    fold ctx2 in Ha2, Hw2.
    destruct (remoteSecretActive _ gateway remote defaults "password").
    + destruct (collect_active coerceSecretRef (getProp remote "password")
        "gateway.remote.password" ExpectString defaults (Some true)
        (Some (remoteInactiveReason remote "password"))
        (ConfigField ["gateway"; "remote"; "password"]) ctx2 ref Hcoerce) as [Ha3 Hw3];
        [done|].
      split.
      * change (remotePath "password") with "gateway.remote.password" in *.
        rewrite Ha3, Ha2, Ha1. reflexivity.
      * unfold warningsAt in *. rewrite Hw3. rewrite Hw2. exact Hw1.
    + destruct (collect_inactive coerceSecretRef (getProp remote "password")
        "gateway.remote.password" ExpectString defaults
        (Some (remoteInactiveReason remote "password"))
        (ConfigField ["gateway"; "remote"; "password"]) ctx2 ref Hcoerce Hplain_p Hinv2)
        as [Ha3 Hw3].
      split.
      * unfold assignmentsAt in *. rewrite Ha3. rewrite Ha2. exact Ha1.
      * exact Hw3.
Qed.

End Gateway.

(** The test "treats gateway.remote refs as inactive when local auth
    credentials are configured" of runtime.test.ts. *)
Definition localGatewayConfig : Value :=
  VObj [("gateway", VObj [
    ("mode", VStr "local");
    ("auth", VObj [("mode", VStr "password"); ("token", VStr "local-token");
                   ("password", VStr "local-password")]);
    ("remote", VObj [("enabled", VBool true);
                     ("token", SecretInputModel.envRef "MISSING_REMOTE_TOKEN");
                     ("password", SecretInputModel.envRef "MISSING_REMOTE_PASSWORD")])])].

Definition collectGateway (config : Value) : ResolverContext :=
  collectGatewayAssignments SecretInputModel.coerceSecretRef
    SecretInputModel.hasConfiguredSecretInput config VUndefined
    (createResolverContext config).

Example local_gateway_suppresses_remote_refs :
  assignments (collectGateway localGatewayConfig) = []
  /\ map path (warnings (collectGateway localGatewayConfig))
     = ["gateway.remote.token"; "gateway.remote.password"].
Proof. split; reflexivity. Qed.

(** A gateway in remote mode that also has a local auth token. *)
Definition remoteModeConfig : Value :=
  VObj [("gateway", VObj [
    ("mode", VStr "remote");
    ("auth", VObj [("token", VStr "local-token")]);
    ("remote", VObj [("token", SecretInputModel.envRef "REMOTE_GATEWAY_TOKEN")])])].

(** The claim as the specification words it: with a local gateway auth
    token configured, the ref at [gateway.remote.token] produces no
    assignment. *)
Definition SuppressedByLocalToken : Prop :=
  forall (config : Value) (gateway remote : list (string * Value)) (ref : SecretRef),
    prop config "gateway" = VObj gateway ->
    getProp gateway "remote" = VObj remote ->
    SecretInputModel.coerceSecretRef (getProp remote "token") VUndefined = Some ref ->
    SecretInputModel.hasConfiguredSecretInput
      (prop (getProp gateway "auth") "token") VUndefined = true ->
    assignmentsAt "gateway.remote.token" (collectGateway config) = [].

(** C2, as stated, fails: in remote mode the ref at
    [gateway.remote.token] is assigned although a local gateway auth
    token is configured, and no diagnostic is recorded. *)
Lemma remote_mode_keeps_remote_token_active :
  ~ SuppressedByLocalToken.
Proof.
  intros Hclaim.
  specialize (Hclaim remoteModeConfig
    [("mode", VStr "remote"); ("auth", VObj [("token", VStr "local-token")]);
     ("remote", VObj [("token", SecretInputModel.envRef "REMOTE_GATEWAY_TOKEN")])]
    [("token", SecretInputModel.envRef "REMOTE_GATEWAY_TOKEN")]
    (mkSecretRef "env" "default" "REMOTE_GATEWAY_TOKEN")
    eq_refl eq_refl eq_refl eq_refl).
  vm_compute in Hclaim. discriminate.
Qed.

Lemma gateway_remote_secret_activeness_witness :
  assignmentsAt "gateway.remote.token" (collectGateway remoteModeConfig)
    = [remoteAssignment "token" (mkSecretRef "env" "default" "REMOTE_GATEWAY_TOKEN")]
  /\ warningsAt "gateway.remote.token" (collectGateway remoteModeConfig) = [].
Proof.
  exact (gateway_remote_secret_activeness SecretInputModel.coerceSecretRef
           SecretInputModel.hasConfiguredSecretInput remoteModeConfig VUndefined
           (createResolverContext remoteModeConfig)
           [("mode", VStr "remote"); ("auth", VObj [("token", VStr "local-token")]);
            ("remote", VObj [("token", SecretInputModel.envRef "REMOTE_GATEWAY_TOKEN")])]
           [("token", SecretInputModel.envRef "REMOTE_GATEWAY_TOKEN")]
           "token" (mkSecretRef "env" "default" "REMOTE_GATEWAY_TOKEN")
           (inv_fresh remoteModeConfig) eq_refl eq_refl (or_introl eq_refl) eq_refl).
Defined.

End GatewayFacts.

(** ** Telegram bot tokens and token files *)

Module TelegramFacts.
Import JsString Json RuntimeShared CollectFacts ChannelCollectors.

(** Scenario S3 of the specification and the test "treats top-level
    Telegram token as inactive when all enabled accounts override it". *)
Definition overriddenTelegramConfig : Value :=
  VObj [("channels", VObj [("telegram", VObj [
    ("botToken", SecretInputModel.envRef "UNUSED_TELEGRAM_BASE_TOKEN");
    ("accounts", VObj [
       ("work", VObj [("enabled", VBool true);
                      ("botToken", SecretInputModel.envRef "TELEGRAM_WORK_TOKEN")]);
       ("disabled", VObj [("enabled", VBool false)])])])])].

Definition collectTelegram (config : Value) : ResolverContext :=
  collectTelegramAssignments SecretInputModel.coerceSecretRef config VUndefined
    (createResolverContext config).

Definition collectTelegramTokenFile (config : Value) : ResolverContext :=
  ChannelCollectorsTokenFile.collectTelegramAssignments
    SecretInputModel.coerceSecretRef config VUndefined (createResolverContext config).

Example overridden_top_level_botToken_inactive :
  map assignmentPath (assignments (collectTelegram overriddenTelegramConfig))
    = ["channels.telegram.accounts.work.botToken"]
  /\ map path (warnings (collectTelegram overriddenTelegramConfig))
    = ["channels.telegram.botToken"].
Proof. split; reflexivity. Qed.

(** A Telegram channel that reads its token from a file and also holds a
    secret ref at [botToken]. *)
Definition tokenFileConfig : Value :=
  VObj [("channels", VObj [("telegram", VObj [
    ("tokenFile", VStr "/run/secrets/telegram-token");
    ("botToken", SecretInputModel.envRef "TELEGRAM_BOT_TOKEN")])])].

(** C3 fails on [collectTelegramAssignments] of
    runtime-config-collectors-channels.ts: with a [tokenFile] configured,
    the ref at [channels.telegram.botToken] is still assigned and no
    diagnostic is recorded, whereas the second copy of the collector
    emits no assignment and records the inactive-surface diagnostic. *)
Theorem telegram_tokenFile_botToken_still_assigned :
  assignments (collectTelegram tokenFileConfig)
    = [mkAssignment (mkSecretRef "env" "default" "TELEGRAM_BOT_TOKEN")
         "channels.telegram.botToken" ExpectString
         (ConfigField ["channels"; "telegram"; "botToken"])]
  /\ warnings (collectTelegram tokenFileConfig) = []
  /\ assignments (collectTelegramTokenFile tokenFileConfig) = []
  /\ warnings (collectTelegramTokenFile tokenFileConfig)
     = [inactiveWarning "channels.telegram.botToken"
          (Some "no enabled Telegram surface inherits this top-level botToken (tokenFile is configured).")].
Proof. repeat split. Qed.

End TelegramFacts.

(** ** Properties of the [secrets.resolve] handler *)

Module GatewayHandlerFacts.
Import JsString Json TargetRegistry RuntimeShared CommandSecrets GatewayHandlers.

Definition responseCode (response : Response) : option ErrorCode :=
  match response with
  | RespondOk _ _ => None
  | RespondError error => Some (errorCode error)
  end.

(** A validator after [SecretsResolveParamsSchema]: an object with exactly
    the properties [commandName], a string of at least one character, and
    [targetIds], an array of such strings. One error is reported per
    offending property. *)
Definition nonEmptyString (v : Value) : option string :=
  match v with
  | VStr s => if truthy s then Some s else None
  | _ => None
  end.

Definition schemaErrors (fields : list (string * Value)) : list ErrorObject :=
  (if hasOwn fields "commandName" then
     match nonEmptyString (getProp fields "commandName") with
     | Some _ => []
     | None => [{| instancePath := "/commandName"; missingProperty := None |}]
     end
   else [{| instancePath := ""; missingProperty := Some "commandName" |}])
  ++ (if hasOwn fields "targetIds" then
        match getProp fields "targetIds" with
        | VArr ids =>
            if forallb (fun id => bool_decide (is_Some (nonEmptyString id))) ids then []
            else [{| instancePath := "/targetIds"; missingProperty := None |}]
        | _ => [{| instancePath := "/targetIds"; missingProperty := None |}]
        end
      else [{| instancePath := ""; missingProperty := Some "targetIds" |}])
  ++ (if forallb (fun item : string * Value =>
            String.eqb item.1 "commandName" || String.eqb item.1 "targetIds") fields
      then [] else [{| instancePath := ""; missingProperty := None |}]).

Definition schemaValidate (requestParams : Value) : list ErrorObject + SecretsResolveParams :=
  match requestParams with
  | VObj fields =>
      match schemaErrors fields with
      | [] =>
          inr {| paramCommandName := default "" (asString (getProp fields "commandName"));
                 paramTargetIds :=
                   match getProp fields "targetIds" with
                   | VArr ids => omap asString ids
                   | _ => []
                   end |}
      | errors => inl errors
      end
  | _ => inl [{| instancePath := ""; missingProperty := None |}]
  end.

Definition resolveRequest (commandName : Value) (targetIds : Value) : Value :=
  VObj [("commandName", commandName); ("targetIds", targetIds)].

(** Scenario S6 of the specification: the snapshot resolves [talk.apiKey]
    to "sk-live". *)
Definition talkSnapshot : PreparedSecretsRuntimeSnapshot :=
  {| snapshotSourceConfig :=
       VObj [("talk", VObj [("apiKey", SecretInputModel.envRef "TALK_API_KEY")])];
     snapshotConfig := VObj [("talk", VObj [("apiKey", VStr "sk-live")])];
     snapshotAuthStores := [];
     snapshotWarnings := [] |}.

Definition resolveWith (activeSnapshot : option PreparedSecretsRuntimeSnapshot)
    (requestParams : Value) : Response * list (string * list string) :=
  gatewaySecretsResolve PlanFacts.sampleRegistry SecretInputModel.coerceSecretRef
    schemaValidate activeSnapshot requestParams.

Definition talkAssignment : CommandSecretAssignment :=
  {| commandPath := "talk.apiKey"; commandSegments := ["talk"; "apiKey"];
     commandValue := VStr "sk-live" |}.

(** The scenarios of the handler tests and S6. *)
Example secrets_resolve_scenarios :
  (resolveWith (Some talkSnapshot)
     (resolveRequest (VStr "memory status") (VArr [VStr "talk.apiKey"]))).1
    = RespondOk [talkAssignment] []
  /\ resolveWith (Some talkSnapshot)
       (resolveRequest (VStr "memory status") (VArr [VStr "unknown.target"]))
     = (RespondError
          {| errorCode := INVALID_REQUEST;
             errorMessage := "invalid secrets.resolve params: unknown target id "
               +:+ String "034" "unknown.target" +:+ String "034" "" |}, [])
  /\ resolveWith (Some talkSnapshot)
       (resolveRequest (VStr "memory status") (VArr [VStr "talk.apiKey"; VNum 12]))
     = (RespondError
          {| errorCode := INVALID_REQUEST;
             errorMessage := "invalid secrets.resolve params: targetIds" |}, [])
  /\ (resolveWith None
        (resolveRequest (VStr "memory status") (VArr [VStr "talk.apiKey"]))).1
     = RespondError
         {| errorCode := UNAVAILABLE;
            errorMessage := "Error: Secrets runtime snapshot is not active." |}.
Proof. repeat split. Qed.

Section Handlers.
Variable registry : list CompiledTargetRegistryEntry.
Variable coerceSecretRef : Value -> Value -> option SecretRef.
Variable validateSecretsResolveParams : Value -> list ErrorObject + SecretsResolveParams.

Local Abbreviation handler :=
  (gatewaySecretsResolve registry coerceSecretRef validateSecretsResolveParams).

Lemma firstUnknownTargetId_found targetIds targetId :
  targetId ∈ targetIds ->
  isKnownSecretTargetId registry (Some targetId) = false ->
  exists unknown, firstUnknownTargetId registry targetIds = Some unknown.
Proof.
  intros Hin Hunknown. unfold firstUnknownTargetId.
  destruct (List.find _ targetIds) as [unknown|] eqn:Hfind; [eauto|].
  apply list_elem_of_In in Hin.
  pose proof (find_none _ _ Hfind targetId Hin) as Hknown. cbn beta in Hknown.
  rewrite Hunknown in Hknown. discriminate.
Qed.

(** C8, amended. The handler answers INVALID_REQUEST without invoking the
    resolver when the request fails the schema, when the trimmed command
    name is empty, and when a requested target id, once trimmed, is
    non-empty and unknown to the registry. For
    a request that passes the schema, with a non-blank command name and
    only known ids: without an active snapshot the answer is UNAVAILABLE;
    when the resolution succeeds with a valid payload the answer is
    [{ok:true, assignments, diagnostics}] of the resolution. *)
Theorem secrets_resolve_responses
    (activeSnapshot : option PreparedSecretsRuntimeSnapshot) (requestParams : Value) :
  (forall errors,
     validateSecretsResolveParams requestParams = inl errors ->
     responseCode (handler activeSnapshot requestParams).1 = Some INVALID_REQUEST
     /\ (handler activeSnapshot requestParams).2 = [])
  /\ (forall params,
        validateSecretsResolveParams requestParams = inr params ->
        truthy (trim (paramCommandName params)) = false ->
        responseCode (handler activeSnapshot requestParams).1 = Some INVALID_REQUEST
        /\ (handler activeSnapshot requestParams).2 = [])
  /\ (forall params targetId,
        validateSecretsResolveParams requestParams = inr params ->
        targetId ∈ requestedTargetIds params ->
        isKnownSecretTargetId registry (Some targetId) = false ->
        responseCode (handler activeSnapshot requestParams).1 = Some INVALID_REQUEST
        /\ (handler activeSnapshot requestParams).2 = [])
  /\ (forall params,
        validateSecretsResolveParams requestParams = inr params ->
        truthy (trim (paramCommandName params)) = true ->
        firstUnknownTargetId registry (requestedTargetIds params) = None ->
        (activeSnapshot = None ->
         responseCode (handler activeSnapshot requestParams).1 = Some UNAVAILABLE)
        /\ (forall result,
              resolveCommandSecretsFromActiveRuntimeSnapshot registry coerceSecretRef
                activeSnapshot (trim (paramCommandName params))
                (uniqueStrings [] (requestedTargetIds params)) = inr result ->
              payloadValid result = true ->
              (handler activeSnapshot requestParams).1
                = RespondOk (resultAssignments result) (resultDiagnostics result))).
Proof.
  unfold gatewaySecretsResolve, secretsResolve. split; [|split; [|split]].
  - intros errors Hinvalid. rewrite Hinvalid. split; reflexivity.
  - intros params Hvalid Hblank. rewrite Hvalid, Hblank. split; reflexivity.
  - intros params targetId Hvalid Hin Hunknown. rewrite Hvalid.
    destruct (truthy _); [|split; reflexivity].
    destruct (firstUnknownTargetId_found _ _ Hin Hunknown) as [unknown ->].
    split; reflexivity.
  - intros params Hvalid Hname Hknown. rewrite Hvalid, Hname, Hknown. split.
    + intros ->. reflexivity.
    + intros result Hresult Hpayload. rewrite Hresult, Hpayload. reflexivity.
Qed.

End Handlers.

Lemma secrets_resolve_responses_witness :
  responseCode
    (resolveWith None
       (resolveRequest (VStr "memory status") (VArr [VStr "unknown.target"]))).1
    = Some INVALID_REQUEST
  /\ responseCode
       (resolveWith None (resolveRequest (VStr "memory status") (VArr [VStr "talk.apiKey"]))).1
     = Some UNAVAILABLE
  /\ (resolveWith (Some talkSnapshot)
        (resolveRequest (VStr "memory status") (VArr [VStr "talk.apiKey"]))).1
     = RespondOk [talkAssignment] [].
Proof.
  split; [|split].
  - destruct (secrets_resolve_responses PlanFacts.sampleRegistry
                SecretInputModel.coerceSecretRef schemaValidate None
                (resolveRequest (VStr "memory status") (VArr [VStr "unknown.target"])))
      as (_ & _ & Hunknown & _).
    apply (Hunknown {| paramCommandName := "memory status";
                       paramTargetIds := ["unknown.target"] |} "unknown.target").
    + reflexivity.
    + vm_compute. apply list_elem_of_In. left. reflexivity.
    + reflexivity.
  - destruct (secrets_resolve_responses PlanFacts.sampleRegistry
                SecretInputModel.coerceSecretRef schemaValidate None
                (resolveRequest (VStr "memory status") (VArr [VStr "talk.apiKey"])))
      as (_ & _ & _ & Hknown).
    destruct (Hknown {| paramCommandName := "memory status";
                        paramTargetIds := ["talk.apiKey"] |}
                eq_refl eq_refl eq_refl) as [Hnone _].
    exact (Hnone eq_refl).
  - destruct (secrets_resolve_responses PlanFacts.sampleRegistry
                SecretInputModel.coerceSecretRef schemaValidate (Some talkSnapshot)
                (resolveRequest (VStr "memory status") (VArr [VStr "talk.apiKey"])))
      as (_ & _ & _ & Hknown).
    destruct (Hknown {| paramCommandName := "memory status";
                        paramTargetIds := ["talk.apiKey"] |}
                eq_refl eq_refl eq_refl) as [_ Hok].
    exact (Hok {| resultAssignments := [talkAssignment]; resultDiagnostics := [] |}
             eq_refl eq_refl).
Defined.

(** The claim as the specification words it: a request that lists a target
    id unknown to the registry is answered INVALID_REQUEST. *)
Definition RejectsEveryUnknownId : Prop :=
  forall activeSnapshot requestParams params targetId,
    schemaValidate requestParams = inr params ->
    targetId ∈ paramTargetIds params ->
    isKnownSecretTargetId PlanFacts.sampleRegistry (Some targetId) = false ->
    responseCode (resolveWith activeSnapshot requestParams).1 = Some INVALID_REQUEST.

(** C8, as stated, fails: the handler trims the requested ids (and drops
    those that are blank) before it looks them up, so a request for the
    id " talk.apiKey ", which is not an id of the registry, is resolved. *)
Lemma padded_target_ids_are_resolved : ~ RejectsEveryUnknownId.
Proof.
  intros Hclaim.
  specialize (Hclaim (Some talkSnapshot)
    (resolveRequest (VStr "memory status") (VArr [VStr " talk.apiKey "]))
    {| paramCommandName := "memory status"; paramTargetIds := [" talk.apiKey "] |}
    " talk.apiKey " eq_refl).
  assert (Hin : " talk.apiKey " ∈ [" talk.apiKey "])
    by (apply list_elem_of_In; left; reflexivity).
  specialize (Hclaim Hin eq_refl). vm_compute in Hclaim. discriminate.
Qed.

(** The padded request gets the assignment of [talk.apiKey]; a request
    whose only id is blank is answered with no assignment. *)
Example padded_and_blank_target_ids :
  (resolveWith (Some talkSnapshot)
     (resolveRequest (VStr "memory status") (VArr [VStr " talk.apiKey "])))
    = (RespondOk [talkAssignment] [], [("memory status", ["talk.apiKey"])])
  /\ (resolveWith (Some talkSnapshot)
        (resolveRequest (VStr "memory status") (VArr [VStr "   "])))
     = (RespondOk [] [], [("memory status", [])]).
Proof. split; reflexivity. Qed.

End GatewayHandlerFacts.

(** ** Properties of the commit step *)

Module ApplyFacts.
Import JsString Json Apply.

Definition contentAt (fs : Files) (pathname : string) : option string :=
  fileContent <$> fs !! pathname.

Definition snapshotContent (snapshot : FileSnapshot) : option string :=
  if existed snapshot then Some (content snapshot) else None.

(** [m] leaves every file outside [touched] as it is, whether it returns
    or throws. *)
Definition Frames {A : Type} (m : Fs A) (touched : string -> Prop) : Prop :=
  forall w r w', m w = (r, w') ->
    forall pathname, ~ touched pathname -> files w' !! pathname = files w !! pathname.

Lemma bind_inv {A B : Type} (m : Fs A) (f : A -> Fs B) w r w' :
  (m ≫= f) w = (r, w') ->
  (exists err, m w = (inl err, w') /\ r = inl err)
  \/ (exists a w1, m w = (inr a, w1) /\ f a w1 = (r, w')).
Proof.
  unfold mbind, fs_bind. destruct (m w) as [[err|a] w1]; intros Hrun.
  - left. exists err. by simplify_eq.
  - right. eauto.
Qed.

Lemma frames_ret {A : Type} (a : A) touched : Frames (mret a) touched.
Proof. intros w r w' Hrun. unfold mret, fs_ret in Hrun. by simplify_eq. Qed.

Lemma frames_bind {A B : Type} (m : Fs A) (f : A -> Fs B) touched :
  Frames m touched -> (forall a, Frames (f a) touched) -> Frames (m ≫= f) touched.
Proof.
  intros Hm Hf w r w' Hrun pathname Hout.
  destruct (bind_inv _ _ _ _ _ Hrun) as [(err & Hfail & _)|(a & w1 & Hfirst & Hrest)].
  - by apply (Hm _ _ _ Hfail).
  - rewrite (Hf a _ _ _ Hrest pathname Hout). by apply (Hm _ _ _ Hfirst).
Qed.

Lemma frames_weaken {A : Type} (m : Fs A) (touched touched' : string -> Prop) :
  Frames m touched -> (forall pathname, touched pathname -> touched' pathname) ->
  Frames m touched'.
Proof. intros Hm Hsub w r w' Hrun pathname Hout. apply (Hm _ _ _ Hrun). auto. Qed.

Lemma frames_attempt (m : Fs unit) touched : Frames m touched -> Frames (attempt m) touched.
Proof.
  intros Hm w r w' Hrun pathname Hout. unfold attempt in Hrun.
  destruct (m w) as [[err|a] w1] eqn:Hbody; simplify_eq; by apply (Hm _ _ _ Hbody).
Qed.

Section Machine.
Variable fault : nat -> option Fault.
Variable pid : nat.
Variable now : nat -> nat.
Variable createMode : Z.
Variable writeConfigFile : Value -> Value -> Files -> Files * option JsError.
Variable stringifyJson : Value -> string.
Variable projectPlanState : Value -> Files -> JsError + ProjectedState.

Local Abbreviation tempPath := (tempPathFor pid).

(** The files a restore or an atomic write of [target] can touch. *)
Definition OwnedBy (target : string) (pathname : string) : Prop :=
  pathname = target \/ exists time, pathname = tempPath target time.

(** No captured path is the temporary file of a captured path. *)
Definition TempFree (pathnames : list string) : Prop :=
  forall p q time, p ∈ pathnames -> q ∈ pathnames -> tempPath q time <> p.

Lemma perform_inv {A : Type} call (run : Files -> option (A * Files)) partial w r w' :
  perform fault call run partial w = (r, w') ->
  calls w' = calls w ++ [call]
  /\ ((exists f, fault (length (calls w)) = Some f /\ r = inl (faultError f)
                 /\ files w' = partial (faultResidue f) (files w))
      \/ (exists a, run (files w) = Some (a, files w') /\ r = inr a)
      \/ (run (files w) = None /\ r = inl enoent /\ files w' = files w)).
Proof.
  unfold perform. intros Hrun.
  destruct (fault _) as [f|]; [simplify_eq/=; by eauto 10|].
  destruct (run _) as [[a fs']|]; simplify_eq/=; eauto 10.
Qed.

Lemma frames_perform {A : Type} call (run : Files -> option (A * Files)) partial
    (touched : string -> Prop) :
  (forall fs a fs' pathname, run fs = Some (a, fs') -> ~ touched pathname ->
     fs' !! pathname = fs !! pathname) ->
  (forall fs residue pathname, ~ touched pathname ->
     partial residue fs !! pathname = fs !! pathname) ->
  Frames (perform fault call run partial) touched.
Proof.
  intros Hrun Hpartial w r w' Hperform pathname Hout.
  destruct (perform_inv _ _ _ _ _ _ Hperform)
    as [_ [(f & _ & _ & ->)|[(a & Hok & _)|(_ & _ & ->)]]]; eauto.
Qed.

Lemma frames_existsSync pathname touched : Frames (existsSync pathname) touched.
Proof. intros w r w' Hrun. unfold existsSync in Hrun. by simplify_eq. Qed.

Lemma frames_dateNow touched : Frames (dateNow now) touched.
Proof. intros w r w' Hrun. unfold dateNow in Hrun. by simplify_eq. Qed.

Lemma frames_statSync pathname touched : Frames (statSync fault pathname) touched.
Proof.
  apply frames_perform; [|done]. intros fs a fs' p Hrun _.
  destruct (fs !! pathname); by simplify_eq/=.
Qed.

Lemma frames_readFileSync pathname touched : Frames (readFileSync fault pathname) touched.
Proof.
  apply frames_perform; [|done]. intros fs a fs' p Hrun _.
  destruct (fs !! pathname); by simplify_eq/=.
Qed.

Lemma frames_ensureDirForFile pathname touched :
  Frames (ensureDirForFile fault pathname) touched.
Proof. apply frames_perform; [|done]. intros fs a fs' p Hrun _. by simplify_eq. Qed.

Lemma written_other target text fs pathname :
  pathname <> target -> written createMode target text fs !! pathname = fs !! pathname.
Proof. intros Hne. unfold written. by rewrite lookup_insert_ne. Qed.

Lemma frames_writeFileSync target text :
  Frames (writeFileSync fault createMode target text) (fun pathname => pathname = target).
Proof.
  apply frames_perform.
  - intros fs a fs' p Hrun Hne. simplify_eq. by apply written_other.
  - intros fs [partial|] p Hne; [by apply written_other|done].
Qed.

Lemma frames_chmodSync target mode :
  Frames (chmodSync fault target mode) (fun pathname => pathname = target).
Proof.
  apply frames_perform; [|done]. intros fs a fs' p Hrun Hne.
  destruct (fs !! target); simplify_eq/=. by rewrite lookup_insert_ne.
Qed.

Lemma frames_renameSync oldPath newPath :
  Frames (renameSync fault oldPath newPath)
    (fun pathname => pathname = oldPath \/ pathname = newPath).
Proof.
  apply frames_perform; [|done]. intros fs a fs' p Hrun Hne.
  destruct (fs !! oldPath); simplify_eq/=.
  rewrite lookup_insert_ne, lookup_delete_ne; [done| |]; intros ->; tauto.
Qed.

Lemma frames_rmSync target :
  Frames (rmSync fault target) (fun pathname => pathname = target).
Proof.
  apply frames_perform; [|done]. intros fs a fs' p Hrun Hne.
  simplify_eq. by rewrite lookup_delete_ne.
Qed.

Lemma frames_writeTextFileAtomic target text mode :
  Frames (writeTextFileAtomic fault pid now createMode target text mode) (OwnedBy target).
Proof.
  unfold writeTextFileAtomic.
  apply frames_bind; [apply frames_ensureDirForFile|intros _].
  apply frames_bind; [apply frames_dateNow|intros time].
  apply frames_bind; [|intros _; apply frames_bind; [|intros _]].
  - eapply frames_weaken; [apply frames_writeFileSync|]. intros p ->. right. eauto.
  - eapply frames_weaken; [apply frames_chmodSync|]. intros p ->. right. eauto.
  - eapply frames_weaken; [apply frames_renameSync|].
    intros p [->| ->]; [right; eauto|by left].
Qed.

Lemma frames_restoreFileSnapshot target snapshot :
  Frames (restoreFileSnapshot fault pid now createMode target snapshot) (OwnedBy target).
Proof.
  unfold restoreFileSnapshot. destruct (negb (existed snapshot)).
  - apply frames_bind; [apply frames_existsSync|intros [|]]; [|apply frames_ret].
    eapply frames_weaken; [apply frames_rmSync|]. intros p ->. by left.
  - apply frames_writeTextFileAtomic.
Qed.

Lemma frames_captureFileSnapshot pathname touched :
  Frames (captureFileSnapshot fault pathname) touched.
Proof.
  unfold captureFileSnapshot.
  apply frames_bind; [apply frames_existsSync|intros present].
  destruct (negb present); [apply frames_ret|].
  apply frames_bind; [apply frames_statSync|intros statMode].
  apply frames_bind; [apply frames_readFileSync|intros text]. apply frames_ret.
Qed.

Ltac fs_step H :=
  let Hfirst := fresh "Hfirst" in
  apply bind_inv in H as [(? & ? & ?)|(? & ? & Hfirst & H)]; [discriminate|].

Lemma perform_ok {A : Type} call (run : Files -> option (A * Files)) partial w a w' :
  perform fault call run partial w = (inr a, w') -> run (files w) = Some (a, files w').
Proof.
  intros Hrun.
  apply perform_inv in Hrun as [_ [(f & _ & Hr & _)|[(b & Hok & Hr)|(_ & Hr & _)]]];
    [discriminate| |discriminate].
  by injection Hr as <-.
Qed.

Lemma writeFileSync_ok pathname text w u w' :
  writeFileSync fault createMode pathname text w = (inr u, w') ->
  files w' = written createMode pathname text (files w).
Proof. intros Hrun. apply perform_ok in Hrun. by simplify_eq. Qed.

Lemma chmodSync_ok pathname mode w u w' :
  chmodSync fault pathname mode w = (inr u, w') ->
  exists f, files w !! pathname = Some f
    /\ files w' = <[pathname := {| fileContent := fileContent f; fileMode := mode |}]> (files w).
Proof.
  intros Hrun. apply perform_ok in Hrun.
  destruct (files w !! pathname) as [f|]; simplify_eq/=. eauto.
Qed.

Lemma renameSync_ok oldPath newPath w u w' :
  renameSync fault oldPath newPath w = (inr u, w') ->
  exists f, files w !! oldPath = Some f
    /\ files w' = <[newPath := f]> (delete oldPath (files w)).
Proof.
  intros Hrun. apply perform_ok in Hrun.
  destruct (files w !! oldPath) as [f|]; simplify_eq/=. eauto.
Qed.

Lemma rmSync_ok pathname w u w' :
  rmSync fault pathname w = (inr u, w') -> files w' = delete pathname (files w).
Proof. intros Hrun. apply perform_ok in Hrun. by simplify_eq. Qed.

Lemma statSync_ok pathname w statMode w' :
  statSync fault pathname w = (inr statMode, w') ->
  files w' = files w /\ exists f, files w !! pathname = Some f /\ statMode = fileMode f.
Proof.
  intros Hrun. apply perform_ok in Hrun.
  destruct (files w !! pathname) as [f|]; simplify_eq/=. eauto.
Qed.

Lemma readFileSync_ok pathname w text w' :
  readFileSync fault pathname w = (inr text, w') ->
  files w' = files w /\ exists f, files w !! pathname = Some f /\ text = fileContent f.
Proof.
  intros Hrun. apply perform_ok in Hrun.
  destruct (files w !! pathname) as [f|]; simplify_eq/=. eauto.
Qed.

Lemma existsSync_inv pathname w r w' :
  existsSync pathname w = (r, w') ->
  w' = w /\ r = inr (bool_decide (is_Some (files w !! pathname))).
Proof. unfold existsSync. intros Hrun. by simplify_eq. Qed.

Lemma ret_inv {A : Type} (a : A) w r w' :
  (mret a : Fs A) w = (r, w') -> w' = w /\ r = inr a.
Proof. unfold mret, fs_ret. intros Hrun. by simplify_eq. Qed.

Lemma writeTextFileAtomic_ok target text mode w u w' :
  writeTextFileAtomic fault pid now createMode target text mode w = (inr u, w') ->
  contentAt (files w') target = Some text.
Proof.
  unfold writeTextFileAtomic, contentAt. intros Hrun.
  fs_step Hrun. fs_step Hrun. fs_step Hrun. fs_step Hrun.
  apply writeFileSync_ok in Hfirst1.
  apply chmodSync_ok in Hfirst2 as (f & Htemp & Hmode).
  apply renameSync_ok in Hrun as (f' & Htemp' & ->).
  rewrite lookup_insert_eq. cbn.
  rewrite Hmode, lookup_insert_eq in Htemp'. injection Htemp' as <-. cbn.
  rewrite Hfirst1 in Htemp. unfold written in Htemp. rewrite lookup_insert_eq in Htemp.
  by injection Htemp as <-.
Qed.

Lemma restoreFileSnapshot_ok target snapshot w u w' :
  restoreFileSnapshot fault pid now createMode target snapshot w = (inr u, w') ->
  contentAt (files w') target = snapshotContent snapshot.
Proof.
  unfold restoreFileSnapshot, snapshotContent. destruct (existed snapshot); cbn [negb].
  - apply writeTextFileAtomic_ok.
  - intros Hrun. fs_step Hrun. apply existsSync_inv in Hfirst as [-> Hpresent].
    injection Hpresent as ->. unfold contentAt. case_bool_decide as Hfile.
    + apply rmSync_ok in Hrun as ->. by rewrite lookup_delete_eq.
    + apply ret_inv in Hrun as [-> _].
      destruct (files w !! target) eqn:Hlookup; [|done]. destruct Hfile. eauto.
Qed.

Lemma captureFileSnapshot_files pathname w r w' :
  captureFileSnapshot fault pathname w = (r, w') -> files w' = files w.
Proof.
  intros Hrun. apply map_eq. intros p.
  apply (frames_captureFileSnapshot pathname (fun _ => False) _ _ _ Hrun). tauto.
Qed.

Lemma captureFileSnapshot_ok pathname w snapshot w' :
  captureFileSnapshot fault pathname w = (inr snapshot, w') ->
  snapshotContent snapshot = contentAt (files w) pathname.
Proof.
  unfold captureFileSnapshot, snapshotContent, contentAt. intros Hrun.
  fs_step Hrun. apply existsSync_inv in Hfirst as [-> Hpresent].
  injection Hpresent as ->. case_bool_decide as Hfile; cbn [negb] in Hrun.
  - fs_step Hrun. fs_step Hrun.
    apply statSync_ok in Hfirst as (Hsame & f & Hlookup & ->).
    apply readFileSync_ok in Hfirst0 as (_ & f' & Hlookup' & ->).
    apply ret_inv in Hrun as [_ Hresult]. injection Hresult as ->. cbn.
    rewrite Hsame, Hlookup in Hlookup'. injection Hlookup' as <-. by rewrite Hlookup.
  - apply ret_inv in Hrun as [_ Hresult]. injection Hresult as ->. cbn.
    destruct (files w !! pathname) eqn:Hlookup; [|done]. destruct Hfile. eauto.
Qed.

(** What [snapshots] records is what [fs] holds. *)
Definition Records (snapshots : Snapshots) (fs : Files) : Prop :=
  NoDup snapshots.*1
  /\ forall pathname snapshot, (pathname, snapshot) ∈ snapshots ->
       snapshotContent snapshot = contentAt fs pathname.

Lemma hasSnapshot_false snapshots pathname :
  hasSnapshot snapshots pathname = false -> pathname ∉ snapshots.*1.
Proof.
  unfold hasSnapshot. intros Hnone Hin.
  apply list_elem_of_fmap in Hin as ([p s] & -> & Hin).
  assert (Hsome : existsb (fun item : string * FileSnapshot => String.eqb item.1 p) snapshots
                  = true).
  { apply existsb_exists. exists (p, s). split; [by apply list_elem_of_In|].
    apply String.eqb_refl. }
  cbn in Hnone. congruence.
Qed.

Lemma hasSnapshot_true snapshots pathname :
  hasSnapshot snapshots pathname = true -> pathname ∈ snapshots.*1.
Proof.
  unfold hasSnapshot. intros Hsome.
  apply existsb_exists in Hsome as ([p s] & Hin & Heq).
  apply String.eqb_eq in Heq. cbn in Heq. subst.
  apply list_elem_of_fmap. exists (pathname, s). split; [done|by apply list_elem_of_In].
Qed.

Lemma capture_records pathname snapshots w snapshots' w' :
  capture fault pathname snapshots w = (inr snapshots', w') ->
  Records snapshots (files w) ->
  files w' = files w /\ Records snapshots' (files w)
  /\ forall p, p ∈ snapshots'.*1 <-> p = pathname \/ p ∈ snapshots.*1.
Proof.
  unfold capture. intros Hrun [Hnodup Hrecords].
  destruct (hasSnapshot snapshots pathname) eqn:Hhas.
  - apply ret_inv in Hrun as [-> Hresult]. injection Hresult as ->.
    split; [done|]. split; [by split|]. intros p. split; [tauto|].
    intros [->|Hin]; [by apply hasSnapshot_true|done].
  - fs_step Hrun. apply ret_inv in Hrun as [-> Hresult]. injection Hresult as ->.
    split; [by eapply captureFileSnapshot_files|]. split; [split|].
    + rewrite fmap_app. apply NoDup_app. split; [done|]. split; [|apply NoDup_singleton].
      intros p Hin Hp. apply list_elem_of_singleton in Hp. cbn in Hp. subst.
      by apply hasSnapshot_false in Hhas.
    + intros p s Hin. apply elem_of_app in Hin as [Hin|Hin]; [by apply Hrecords|].
      apply list_elem_of_singleton in Hin. injection Hin as -> ->.
      by eapply captureFileSnapshot_ok.
    + intros p. rewrite fmap_app, elem_of_app. cbn. rewrite list_elem_of_singleton. tauto.
Qed.

Lemma captureAll_records pathnames : forall snapshots w snapshots' w',
  captureAll fault pathnames snapshots w = (inr snapshots', w') ->
  Records snapshots (files w) ->
  files w' = files w /\ Records snapshots' (files w)
  /\ forall p, p ∈ snapshots'.*1 <-> p ∈ pathnames \/ p ∈ snapshots.*1.
Proof.
  induction pathnames as [|pathname rest IH]; intros snapshots w snapshots' w' Hrun Hrecords.
  - cbn in Hrun. apply ret_inv in Hrun as [-> Hresult]. injection Hresult as ->.
    split; [done|]. split; [done|]. intros p. rewrite elem_of_nil. tauto.
  - cbn [captureAll] in Hrun. fs_step Hrun.
    destruct (capture_records _ _ _ _ _ Hfirst Hrecords) as (Hfiles & Hrecords' & Hkeys).
    rewrite <- Hfiles in Hrecords'.
    destruct (IH _ _ _ _ Hrun Hrecords') as (Hfiles' & Hrecords'' & Hkeys').
    rewrite Hfiles in Hfiles', Hrecords''. split; [done|]. split; [done|].
    intros p. rewrite Hkeys', Hkeys, elem_of_cons. tauto.
Qed.

Lemma restoreEach_other snapshots : forall w pathname,
  pathname ∉ snapshots.*1 ->
  (forall q time, q ∈ snapshots.*1 -> tempPath q time <> pathname) ->
  files (restoreEach fault pid now createMode snapshots w).2 !! pathname
    = files w !! pathname.
Proof.
  induction snapshots as [|[q snapshot] rest IH]; intros w pathname Hout Htemp; [done|].
  cbn [restoreEach].
  destruct (attempt _ w) as [r w1] eqn:Hattempt.
  assert (Hstep : files w1 !! pathname = files w !! pathname).
  { apply (frames_attempt _ _ (frames_restoreFileSnapshot q snapshot) _ _ _ Hattempt).
    intros [->|(time & ->)].
    - apply Hout. cbn. apply elem_of_cons. by left.
    - apply (Htemp q time); [|done]. cbn. apply elem_of_cons. by left. }
  assert (Hrest : files (restoreEach fault pid now createMode rest w1).2 !! pathname
                  = files w1 !! pathname).
  { apply IH.
    - intros Hin. apply Hout. cbn. apply elem_of_cons. by right.
    - intros q' time Hin. apply Htemp. cbn. apply elem_of_cons. by right. }
  destruct r as [err|[|]]; [| |];
    try (destruct (restoreEach fault pid now createMode rest w1) as [failed w2]);
    cbn in *; congruence.
Qed.

Lemma restoreEach_restores snapshots : forall w pathname snapshot,
  NoDup snapshots.*1 -> TempFree snapshots.*1 ->
  (pathname, snapshot) ∈ snapshots ->
  pathname ∉ (restoreEach fault pid now createMode snapshots w).1 ->
  contentAt (files (restoreEach fault pid now createMode snapshots w).2) pathname
    = snapshotContent snapshot.
Proof.
  induction snapshots as [|[q saved] rest IH]; intros w pathname snapshot Hnodup Hfree Hin Hok.
  - by apply elem_of_nil in Hin.
  - cbn in Hnodup. apply NoDup_cons in Hnodup as [Hfresh Hnodup].
    assert (Hfree' : TempFree rest.*1).
    { intros p q' time Hp Hq. apply Hfree; cbn; apply elem_of_cons; by right. }
    cbn [restoreEach] in *.
    destruct (attempt _ w) as [r w1] eqn:Hattempt.
    apply elem_of_cons in Hin as [Hhead|Hin].
    + injection Hhead as -> ->.
      assert (Hdone : r = inr true).
      { destruct r as [err|[|]]; [|done|];
          destruct (restoreEach fault pid now createMode rest w1) as [failed w2];
          cbn in Hok; destruct Hok; apply elem_of_cons; by left. }
      subst r. unfold contentAt. rewrite restoreEach_other; [| done |].
      * unfold attempt in Hattempt.
        destruct (restoreFileSnapshot _ _ _ _ _ _ w) as [[err|[]] w1'] eqn:Hrestore;
          [discriminate|]. injection Hattempt as <-.
        by apply (restoreFileSnapshot_ok _ _ _ _ _ Hrestore).
      * intros q' time Hq. apply Hfree; cbn; apply elem_of_cons; [by left|by right].
    + assert (Hok' : pathname ∉ (restoreEach fault pid now createMode rest w1).1).
      { intros Hfailed. apply Hok.
        destruct r as [err|[|]]; [|done|];
          destruct (restoreEach fault pid now createMode rest w1) as [failed w2];
          cbn in *; apply elem_of_cons; by right. }
      pose proof (IH w1 pathname snapshot Hnodup Hfree' Hin Hok') as Hrestored.
      destruct r as [err|[|]]; [|done|];
        destruct (restoreEach fault pid now createMode rest w1) as [failed w2]; done.
Qed.

Lemma toSorted_nonempty (items : list string) :
  Nat.eqb (length (toSorted items)) 0 = true -> toSorted items = [].
Proof. destruct (toSorted items); [done|discriminate]. Qed.

Local Abbreviation run := (runSecretsApply fault pid now createMode writeConfigFile
  stringifyJson projectPlanState).

(** C1. For a plan whose projection is accepted: without the write flag,
    [runSecretsApply] returns the dry-run result and leaves the files and
    the log of file calls as they were. With the write flag and files to
    change, whenever the commit throws [err], the call throws
    "Secrets apply failed: ..." with [err] as its cause, and every captured
    path (main config, auth-profile stores, legacy auth stores, .env) whose
    restore did not itself fail holds its pre-apply content again, or is
    absent again. *)
Theorem apply_failure_restores_snapshots
    (params : ApplyParams) (w : World) (projected : ProjectedState) :
  projectPlanState (plan params) (files w) = inr projected ->
  (write params = false ->
   exists result, run params w = (inr result, w) /\ resultMode result = DryRun)
  /\ (write params = true ->
      toSorted (changedFiles projected) <> [] ->
      TempFree (capturedPaths projected) ->
      forall snapshots w1 err w2,
        captureAll fault (capturedPaths projected) [] w = (inr snapshots, w1) ->
        commit fault pid now createMode writeConfigFile stringifyJson projected w1
          = (inl err, w2) ->
        exists failed final,
          restoreEach fault pid now createMode snapshots w2 = (failed, final)
          /\ run params w = (inl (applyFailed err), final)
          /\ errorCause (applyFailed err) = Some err
          /\ forall pathname,
               pathname ∈ capturedPaths projected -> pathname ∉ failed ->
               contentAt (files final) pathname = contentAt (files w) pathname).
Proof.
  intros Hprojected. unfold runSecretsApply. rewrite Hprojected. split.
  - intros ->. cbn. eauto.
  - intros -> Hchanged Hfree snapshots w1 err w2 Hcapture Hcommit. cbn [negb].
    destruct (Nat.eqb _ 0) eqn:Hnone; [by apply toSorted_nonempty in Hnone|].
    rewrite Hcapture, Hcommit.
    destruct (restoreEach fault pid now createMode snapshots w2) as [failed final] eqn:Hrestore.
    exists failed, final. split; [done|]. split; [done|]. split; [done|].
    intros pathname Hin Hok.
    assert (Hempty : Records [] (files w)).
    { split; [apply NoDup_nil_2|]. intros p s Hp. by apply elem_of_nil in Hp. }
    destruct (captureAll_records _ _ _ _ _ Hcapture Hempty) as (_ & [Hnodup Hrecords] & Hkeys).
    assert (Hkey : pathname ∈ snapshots.*1) by (apply Hkeys; by left).
    apply list_elem_of_fmap in Hkey as ([p snapshot] & Hp & Hsnapshot). cbn in Hp. subst p.
    rewrite <- (Hrecords _ _ Hsnapshot).
    replace final with (restoreEach fault pid now createMode snapshots w2).2
      by (by rewrite Hrestore).
    apply restoreEach_restores; [done| |done|by rewrite Hrestore].
    intros p q time Hp Hq. apply Hfree; apply Hkeys in Hp, Hq.
    + destruct Hp as [Hp|Hp]; [done|by apply elem_of_nil in Hp].
    + destruct Hq as [Hq|Hq]; [done|by apply elem_of_nil in Hq].
Qed.

End Machine.

(** A run in which the [chmodSync] of the second atomic write fails. *)
Definition diskError : JsError := MkError "EPERM: operation not permitted" None.

Definition sampleFault (n : nat) : option Fault :=
  if Nat.eqb n 11 then Some {| faultError := diskError; faultResidue := None |} else None.

Definition sampleConfigPath : string := "/home/u/.openclaw/openclaw.json".
Definition sampleAuthStorePath : string := "/home/u/.openclaw/agents/main/agent/auth-profiles.json".
Definition sampleEnvPath : string := "/home/u/.openclaw/.env".

Definition sampleWriter (config options : Value) (fs : Files) : Files * option JsError :=
  (<[sampleConfigPath := {| fileContent := "{new config}"; fileMode := 384 |}]> fs, None).

Definition sampleStringify (value : Value) : string := "{}".

Definition sampleProjected : ProjectedState :=
  {| nextConfig := VObj [];
     configPath := sampleConfigPath;
     configWriteOptions := VObj [];
     authStoreByPath := [(sampleAuthStorePath, VObj [])];
     authJsonByPath := [];
     envRawByPath := [(sampleEnvPath, "")];
     changedFiles := [sampleEnvPath; sampleConfigPath; sampleAuthStorePath];
     warnings := [] |}.

Definition sampleProjection (plan : Value) (fs : Files) : JsError + ProjectedState :=
  inr sampleProjected.

Definition sampleFiles : Files :=
  <[sampleConfigPath := {| fileContent := "{old config}"; fileMode := 384 |}]>
    (<[sampleEnvPath := {| fileContent := "OPENAI_API_KEY=sk-old"; fileMode := 420 |}]> ∅).

Definition sampleWorld : World := {| files := sampleFiles; calls := [] |}.

Definition sampleRun (write : bool) : (JsError + SecretsApplyResult) * World :=
  runSecretsApply sampleFault 4242 (fun n => n) 420 sampleWriter sampleStringify
    sampleProjection {| plan := VObj []; write := write |} sampleWorld.

Definition sampleCaptured : (JsError + Snapshots) * World :=
  Eval vm_compute in captureAll sampleFault (capturedPaths sampleProjected) [] sampleWorld.

Definition sampleCommitted : (JsError + unit) * World :=
  Eval vm_compute in
    commit sampleFault 4242 (fun n => n) 420 sampleWriter sampleStringify sampleProjected
      sampleCaptured.2.

Lemma sample_tempFree : TempFree 4242 (capturedPaths sampleProjected).
Proof.
  intros p q time Hp Hq.
  apply list_elem_of_In in Hp, Hq. cbn in Hp, Hq.
  destruct Hp as [<-|[<-|[<-|[]]]], Hq as [<-|[<-|[<-|[]]]];
    cbv [tempPathFor sampleConfigPath sampleAuthStorePath sampleEnvPath String.append];
    discriminate.
Qed.

Lemma apply_failure_restores_snapshots_witness :
  (sampleRun false).2 = sampleWorld
  /\ (sampleRun true).1 = inl (applyFailed diskError)
  /\ contentAt (files (sampleRun true).2) sampleConfigPath = Some "{old config}"
  /\ contentAt (files (sampleRun true).2) sampleAuthStorePath = None
  /\ contentAt (files (sampleRun true).2) sampleEnvPath = Some "OPENAI_API_KEY=sk-old".
Proof.
  pose proof (apply_failure_restores_snapshots sampleFault 4242 (fun n => n) 420 sampleWriter
                sampleStringify sampleProjection {| plan := VObj []; write := false |}
                sampleWorld sampleProjected eq_refl) as [Hdry _].
  destruct (Hdry eq_refl) as (result & Hrun & _).
  pose proof (apply_failure_restores_snapshots sampleFault 4242 (fun n => n) 420 sampleWriter
                sampleStringify sampleProjection {| plan := VObj []; write := true |}
                sampleWorld sampleProjected eq_refl) as [_ Hwrite].
  assert (Hchanged : toSorted (changedFiles sampleProjected) <> [])
    by (vm_compute; discriminate).
  assert (Hcapture : captureAll sampleFault (capturedPaths sampleProjected) [] sampleWorld
                     = (inr (match sampleCaptured.1 with
                             | inr snapshots => snapshots
                             | inl _ => []
                             end), sampleCaptured.2))
    by (vm_compute; reflexivity).
  assert (Hcommit : commit sampleFault 4242 (fun n => n) 420 sampleWriter sampleStringify
                      sampleProjected sampleCaptured.2
                    = (inl diskError, sampleCommitted.2))
    by (vm_compute; reflexivity).
  destruct (Hwrite eq_refl Hchanged sample_tempFree _ _ _ _ Hcapture Hcommit)
    as (failed & final & Hrestore & Hfailed & _ & Hrestored).
  assert (Hnone : failed = []) by (vm_compute in Hrestore; congruence).
  subst failed. unfold sampleRun. rewrite Hrun, Hfailed. cbn [fst snd].
  split; [reflexivity|]. split; [reflexivity|].
  assert (Hin : forall pathname,
            In pathname (capturedPaths sampleProjected) ->
            contentAt (files final) pathname = contentAt (files sampleWorld) pathname).
  { intros pathname Hin. apply Hrestored; [by apply list_elem_of_In|apply not_elem_of_nil]. }
  rewrite (Hin sampleConfigPath), (Hin sampleAuthStorePath), (Hin sampleEnvPath);
    [vm_compute; repeat split|cbn; tauto..].
Defined.

End ApplyFacts.

(** ** Sibling refs of Google Chat in the prepared snapshot *)

Module SnapshotFacts.
Import JsString Json RuntimeShared StringFacts ContextFacts CollectFacts CoreCollectors
  ChannelCollectors AuthCollectors CommandSecrets RuntimeSnapshot.

(** *** Reading the trees after an assignment *)











(** *** What the collectors add to a context *)

(** From [ctx] to [ctx']: the invariants are kept, the assignments grow
    by assignments that satisfy [Q], no warning is lost, and the source
    configuration is the same. *)
Record Extends (Q : SecretAssignment -> Prop) (ctx ctx' : ResolverContext) : Prop := {
  ext_inv : Inv ctx -> Inv ctx';
  ext_assignments :
    exists added, assignments ctx' = assignments ctx ++ added /\ Forall Q added;
  ext_warnings : forall w, w ∈ warnings ctx -> w ∈ warnings ctx';
  ext_source : sourceConfig ctx' = sourceConfig ctx
}.

Lemma Extends_refl Q ctx : Extends Q ctx ctx.
Proof. split; [done| |done|done]. exists []. by rewrite app_nil_r. Qed.

Lemma Extends_trans Q ctx ctx' ctx'' :
  Extends Q ctx ctx' -> Extends Q ctx' ctx'' -> Extends Q ctx ctx''.
Proof.
  intros [Hinv (added & Hadded & HQ) Hw Hs] [Hinv' (added' & Hadded' & HQ') Hw' Hs'].
  split; [auto| |auto|congruence].
  exists (added ++ added'). rewrite Hadded', Hadded, <- List.app_assoc.
  split; [done|by apply Forall_app].
Qed.


Lemma extends_pushAssignment (Q : SecretAssignment -> Prop) ctx a :
  Q a -> Extends Q ctx (pushAssignment ctx a).
Proof.
  intros Ha. split; [apply pushAssignment_inv| |done|done].
  exists [a]. split; [done|]. by constructor.
Qed.

Lemma extends_pushWarning Q ctx w : Allowed w -> Extends Q ctx (pushWarning ctx w).
Proof.
  intros Hw. split; [by apply pushWarning_inv| | |].
  - exists []. by rewrite pushWarning_assignments, app_nil_r.
  - intros w' Hin. destruct (pushWarning_warnings ctx w) as [-> | ->]; [done|].
    apply elem_of_app. by left.
  - unfold pushWarning. by case_bool_decide.
Qed.

Lemma extends_fold_left {A : Type} Q (f : ResolverContext -> A -> ResolverContext)
    (items : list A) :
  (forall ctx item, Extends Q ctx (f ctx item)) ->
  forall ctx, Extends Q ctx (fold_left f items ctx).
Proof.
  intros Hf. induction items as [|item rest IH]; intros ctx; cbn.
  - apply Extends_refl.
  - eapply Extends_trans; [apply Hf|apply IH].
Qed.


Definition InChannel (channelKey : string) (a : SecretAssignment) : Prop :=
  exists rest, apply a = ConfigField ("channels" :: channelKey :: rest).

Definition InAuthStore (a : SecretAssignment) : Prop :=
  exists agentDir location, apply a = AuthStoreField agentDir location.

Section Collectors.
Variable coerceSecretRef : Value -> Value -> option SecretRef.
Variable hasConfiguredSecretInput : Value -> Value -> bool.

Local Abbreviation collect := (collectSecretInputAssignment coerceSecretRef).

Lemma extends_collect (Q : SecretAssignment -> Prop) value p expected defaults active
    reason target ctx :
  PlainReason reason ->
  (forall ref, Q (mkAssignment ref p expected target)) ->
  Extends Q ctx (collect value p expected defaults active reason target ctx).
Proof.
  intros Hplain HQ. unfold collectSecretInputAssignment.
  destruct (coerceSecretRef value defaults) as [ref|]; [|apply Extends_refl].
  destruct active as [[|]|]; try (by apply extends_pushAssignment).
  apply extends_pushWarning. left.
  by apply distinguished_canonical, inactiveWarning_distinguished.
Qed.














Lemma extends_fold_left_elem {A : Type} Q (f : ResolverContext -> A -> ResolverContext)
    (items : list A) :
  (forall ctx item, item ∈ items -> Extends Q ctx (f ctx item)) ->
  forall ctx, Extends Q ctx (fold_left f items ctx).
Proof.
  induction items as [|item rest IH]; intros Hf ctx; cbn.
  - apply Extends_refl.
  - eapply Extends_trans; [apply Hf; by left|].
    apply IH. intros ctx' item' Hin. apply Hf. by right.
Qed.
















(** *** The auth-profile collectors *)

Lemma auth_key_warning_allowed agentDir profileId :
  Allowed {| code := SECRETS_REF_OVERRIDES_PLAINTEXT;
             path := agentDir +:+ ".auth-profiles." +:+ profileId +:+ ".key";
             message := "auth-profiles " +:+ profileId
               +:+ ": keyRef is set; runtime will ignore plaintext key." |}.
Proof. right. split; [done|]. exists profileId, "key". split; [by left|reflexivity]. Qed.

Lemma auth_token_warning_allowed agentDir profileId :
  Allowed {| code := SECRETS_REF_OVERRIDES_PLAINTEXT;
             path := agentDir +:+ ".auth-profiles." +:+ profileId +:+ ".token";
             message := "auth-profiles " +:+ profileId
               +:+ ": tokenRef is set; runtime will ignore plaintext token." |}.
Proof. right. split; [done|]. exists profileId, "token". split; [by right|reflexivity]. Qed.

Lemma extends_api_key_profile profile profileId agentDir defaults ctx :
  Extends InAuthStore ctx
    (collectApiKeyProfileAssignment coerceSecretRef profile profileId agentDir defaults ctx).
Proof.
  unfold collectApiKeyProfileAssignment.
  destruct (resolveSecretInputRef _ _ _ _) as [keyRef [ref|]]; [|apply Extends_refl].
  eapply Extends_trans; [|apply extends_pushAssignment; by eexists _, _].
  destruct (_ && _); [|apply Extends_refl].
  apply extends_pushWarning, auth_key_warning_allowed.
Qed.

Lemma extends_token_profile profile profileId agentDir defaults ctx :
  Extends InAuthStore ctx
    (collectTokenProfileAssignment coerceSecretRef profile profileId agentDir defaults ctx).
Proof.
  unfold collectTokenProfileAssignment.
  destruct (resolveSecretInputRef _ _ _ _) as [tokenRef [ref|]]; [|apply Extends_refl].
  eapply Extends_trans; [|apply extends_pushAssignment; by eexists _, _].
  destruct (_ && _); [|apply Extends_refl].
  apply extends_pushWarning, auth_token_warning_allowed.
Qed.

Lemma extends_auth_store store agentDir ctx :
  Extends InAuthStore ctx (collectAuthStoreAssignments coerceSecretRef store agentDir ctx).
Proof.
  unfold collectAuthStoreAssignments. cbv zeta.
  destruct (prop store "profiles"); try apply Extends_refl.
  apply extends_fold_left. intros ctx' item. unfold collectProfile.
  repeat case_match; first [apply Extends_refl | apply extends_api_key_profile
                           | apply extends_token_profile].
Qed.

(** *** The collector of Google Chat *)














Lemma overrides_distinguished p : Distinguished (overridesPlaintextWarning p).
Proof. right. split; reflexivity. Qed.

Lemma extends_googlechat_account (Q : SecretAssignment -> Prop) target p location defaults
    active reason ctx :
  PlainReason reason ->
  (forall ref, Q (mkAssignment ref (p +:+ ".serviceAccount") ExpectStringOrObject
                    (ConfigField (location ++ ["serviceAccount"])))) ->
  Extends Q ctx
    (collectGoogleChatAccountAssignment coerceSecretRef target p location defaults active
       reason ctx).
Proof.
  intros Hplain HQ. unfold collectGoogleChatAccountAssignment.
  destruct (resolveSecretInputRef _ _ _ _) as [explicitRef [ref|]]; [|apply Extends_refl].
  assert (Hactive : Extends Q ctx
            (pushAssignment
               (if refOverridesPlaintext coerceSecretRef explicitRef
                     (getProp target "serviceAccount") defaults
                then pushWarning ctx (overridesPlaintextWarning p) else ctx)
               (mkAssignment ref (p +:+ ".serviceAccount") ExpectStringOrObject
                  (ConfigField (location ++ ["serviceAccount"]))))).
  { eapply Extends_trans; [|by apply extends_pushAssignment].
    destruct (refOverridesPlaintext _ _ _ _); [|apply Extends_refl].
    apply extends_pushWarning. left. apply distinguished_canonical, overrides_distinguished. }
  destruct active as [[|]|]; try exact Hactive.
  apply extends_pushWarning. left.
  by apply distinguished_canonical, inactiveWarning_distinguished.
Qed.


















(** *** Applying the resolved values *)








(** *** The prepared snapshot *)


Variable resolveSecretRefValues : list SecretRef -> Value -> string + gmap string Value.
Variable loadAuthStore : string -> Value.
Variable resolveUserPath : string -> string.
Variable resolveOpenClawAgentDir : string.
Variable listAgentIds : Value -> list string.
Variable resolveAgentDir : Value -> string -> string.

Local Abbreviation prepare :=
  (prepareSecretsRuntimeSnapshot coerceSecretRef hasConfiguredSecretInput
     resolveSecretRefValues loadAuthStore resolveUserPath resolveOpenClawAgentDir
     listAgentIds resolveAgentDir).

Lemma extends_auth_stores agentDirs : forall state,
  Extends InAuthStore state.1
    (fold_left (collectAuthStore coerceSecretRef loadAuthStore) agentDirs state).1.
Proof.
  induction agentDirs as [|agentDir rest IH]; intros state; cbn [fold_left].
  - apply Extends_refl.
  - eapply Extends_trans; [|apply IH]. unfold collectAuthStore. cbn [fst].
    apply extends_auth_store.
Qed.


End Collectors.

(** A configuration whose Google Chat account "work" holds a plaintext
    service account and a ref that overrides it; the top-level service
    account is inherited by no account. *)
Definition sampleConfig : Value :=
  VObj [("channels", VObj [("googlechat", VObj [
    ("serviceAccount", VStr "top-level-plaintext");
    ("serviceAccountRef", SecretInputModel.envRef "GOOGLECHAT_SERVICE_ACCOUNT");
    ("accounts", VObj [
       ("work", VObj [
          ("serviceAccount", VObj [("client_email", VStr "old@example.com")]);
          ("serviceAccountRef", SecretInputModel.envRef "GOOGLECHAT_WORK_ACCOUNT")])])])])].


Definition sampleResolved : gmap string Value :=
  {[ "env:default:GOOGLECHAT_WORK_ACCOUNT" := VStr "resolved-work-account" ]}.

Definition samplePrepare : string + PreparedSecretsRuntimeSnapshot :=
  prepareSecretsRuntimeSnapshot SecretInputModel.coerceSecretRef
    SecretInputModel.hasConfiguredSecretInput (fun _ _ => inr sampleResolved)
    (fun _ => VObj [("profiles", VObj [])]) (fun dir => dir) "/home/u/.openclaw/agent"
    (fun _ => []) (fun _ agentId => agentId) sampleConfig None.

Example sample_snapshot_warnings :
  match samplePrepare with
  | inr snapshot => map path (snapshotWarnings snapshot)
  | inl _ => []
  end = ["channels.googlechat.serviceAccount"; "channels.googlechat.accounts.work"].
Proof. vm_compute. reflexivity. Qed.

End SnapshotFacts.

(** ** What the strict path operations leave in the tree *)

Module PathMutationFacts.
Import JsString Json PathUtils.

Lemma arrGet_arrSet items index value : arrGet (arrSet items index value) index = value.
Proof.
  unfold arrGet, arrSet. destruct (index <? length items)%nat eqn:Hin.
  - apply Nat.ltb_lt in Hin. by rewrite list_lookup_insert_eq.
  - apply Nat.ltb_ge in Hin.
    rewrite lookup_app_r by done. rewrite lookup_app_r; rewrite length_replicate; [|done].
    by rewrite Nat.sub_diag.
Qed.

Lemma arrSet_arrGet items index :
  (index < length items)%nat -> arrSet items index (arrGet items index) = items.
Proof.
  intros Hin. unfold arrGet, arrSet.
  apply Nat.ltb_lt in Hin as Hlt. rewrite Hlt.
  destruct (lookup_lt_is_Some_2 items index Hin) as [item Hitem].
  rewrite Hitem. by apply list_insert_id.
Qed.

Lemma getProp_setProp fields key value : getProp (setProp fields key value) key = value.
Proof.
  unfold getProp. induction fields as [|[k v] rest IH]; cbn.
  - by rewrite String.eqb_refl.
  - destruct (String.eqb k key) eqn:Hk; cbn; by rewrite Hk.
Qed.

Lemma setProp_getProp fields key :
  hasOwn fields key = true -> setProp fields key (getProp fields key) = fields.
Proof.
  unfold hasOwn, getProp. induction fields as [|[k v] rest IH]; cbn; [done|].
  destruct (String.eqb k key) eqn:Hk; [done|]. intros Hown. by rewrite IH.
Qed.

Lemma getProp_present fields key : isNullish (getProp fields key) = false -> hasOwn fields key = true.
Proof. unfold getProp, hasOwn. by destruct (assoc key fields). Qed.

Lemma arrGet_present items index :
  isNullish (arrGet items index) = false -> (index < length items)%nat.
Proof.
  unfold arrGet. intros Hpresent. apply lookup_lt_is_Some.
  by destruct (items !! index).
Qed.


(** *** [setPathCreateStrict] *)

Lemma expected_array segment :
  expectedContainer segment = ArrayContainer -> isArrayIndexSegment segment = true.
Proof. unfold expectedContainer. by destruct (isArrayIndexSegment segment). Qed.

(** In a container created for the next segment, the rest of the path is
    created without error. *)
Lemma createFrom_fresh rest : forall segments value index segment,
  exists cursor',
    createFrom segments value index true (emptyContainer (expectedContainer segment))
      segment rest = (cursor', inr true).
Proof.
  induction rest as [|nextSegment rest' IH]; intros segments value index segment;
    destruct (expectedContainer segment) eqn:Hneeds; cbn [createFrom emptyContainer].
  - rewrite (expected_array _ Hneeds). destruct (deepEq _ value); eauto.
  - destruct (deepEq _ value); eauto.
  - rewrite (expected_array _ Hneeds). cbn.
    destruct (IH segments value (S index) nextSegment) as [child ->]. eauto.
  - cbn. destruct (IH segments value (S index) nextSegment) as [child ->]. eauto.
Qed.

Lemma createFrom_unchanged rest : forall segments value index changed cursor segment cursor' r,
  createFrom segments value index changed cursor segment rest = (cursor', r) ->
  r <> inr true -> cursor' = cursor.
Proof.
  induction rest as [|nextSegment rest' IH];
    intros segments value index changed cursor segment cursor' r Hrun Hr;
    cbn [createFrom] in Hrun.
  - destruct cursor; try (by simplify_eq).
    + destruct (isArrayIndexSegment segment); [|by simplify_eq].
      destruct (deepEq _ value); by simplify_eq.
    + destruct (deepEq _ value); by simplify_eq.
  - destruct cursor as [| | | | |items|fields]; try (by simplify_eq).
    + destruct (isArrayIndexSegment segment); [|by simplify_eq].
      destruct (isNullish (arrGet items (parseInt segment))) eqn:Hnull.
      * destruct (createFrom_fresh rest' segments value (S index) nextSegment)
          as [child Hchild]. rewrite Hchild in Hrun. by simplify_eq.
      * destruct (hasShape _ _); [|by simplify_eq].
        destruct (createFrom _ _ _ _ _ _ _) as [child result] eqn:Hchild.
        simplify_eq. rewrite (IH _ _ _ _ _ _ _ _ Hchild Hr).
        by rewrite arrSet_arrGet by (by apply arrGet_present).
    + destruct (isNullish (getProp fields segment)) eqn:Hnull.
      * destruct (createFrom_fresh rest' segments value (S index) nextSegment)
          as [child Hchild]. rewrite Hchild in Hrun. by simplify_eq.
      * destruct (hasShape _ _); [|by simplify_eq].
        destruct (createFrom _ _ _ _ _ _ _) as [child result] eqn:Hchild.
        simplify_eq. rewrite (IH _ _ _ _ _ _ _ _ Hchild Hr).
        by rewrite setProp_getProp by (by apply getProp_present).
Qed.

(** The value read at the path is the one written, or one deep-equal to
    it that was there before. *)
Definition ReadsBack (cursor : Value) (segments : list string) (value : Value) : Prop :=
  getPathFrom cursor segments = value \/ deepEq (getPathFrom cursor segments) value = true.

Lemma createFrom_reads rest : forall segments value index changed cursor segment cursor' b,
  createFrom segments value index changed cursor segment rest = (cursor', inr b) ->
  ReadsBack cursor' (segment :: rest) value.
Proof.
  unfold ReadsBack.
  induction rest as [|nextSegment rest' IH];
    intros segments value index changed cursor segment cursor' b Hrun;
    cbn [createFrom] in Hrun.
  - destruct cursor as [| | | | |items|fields]; try (by simplify_eq).
    + destruct (isArrayIndexSegment segment) eqn:Hindex; [|by simplify_eq].
      destruct (deepEq _ value) eqn:Heq; simplify_eq; cbn; rewrite Hindex.
      * by right.
      * left. apply arrGet_arrSet.
    + destruct (deepEq _ value) eqn:Heq; simplify_eq; cbn.
      * by right.
      * left. apply getProp_setProp.
  - destruct cursor as [| | | | |items|fields]; try (by simplify_eq).
    + destruct (isArrayIndexSegment segment) eqn:Hindex; [|by simplify_eq].
      destruct (isNullish _); [|destruct (hasShape _ _); [|by simplify_eq]];
        destruct (createFrom _ _ _ _ _ _ _) as [child result] eqn:Hchild;
        simplify_eq; cbn [getPathFrom]; rewrite Hindex, arrGet_arrSet; by eapply IH.
    + destruct (isNullish _); [|destruct (hasShape _ _); [|by simplify_eq]];
        destruct (createFrom _ _ _ _ _ _ _) as [child result] eqn:Hchild;
        simplify_eq; cbn [getPathFrom]; rewrite getProp_setProp; by eapply IH.
Qed.

(** After a call of [setPathCreateStrict] that returns, on a path without
    the name of an inherited property, [getPath] reads at the path the
    value written, or a value deep-equal to it that the call found there
    and kept. *)
Theorem setPathCreateStrict_reads_back (root : Value) (segments : list string)
    (value root' : Value) (changed : bool) :
  ownKeysOnly segments = true ->
  setPathCreateStrict root segments value = (root', inr changed) ->
  getPath root' segments = value \/ deepEq (getPath root' segments) value = true.
Proof.
  intros _. destruct segments as [|segment rest]; [done|].
  cbn [setPathCreateStrict getPath]. apply createFrom_reads.
Qed.

Lemma setPathCreateStrict_reads_back_witness :
  getPath (setPathCreateStrict (VObj [("talk", VObj [])])
             ["talk"; "providers"; "0"; "apiKey"] (VStr "sk")).1
    ["talk"; "providers"; "0"; "apiKey"] = VStr "sk".
Proof.
  destruct (setPathCreateStrict_reads_back (VObj [("talk", VObj [])])
              ["talk"; "providers"; "0"; "apiKey"] (VStr "sk")
              (VObj [("talk", VObj [("providers", VArr [VObj [("apiKey", VStr "sk")]])])])
              true eq_refl eq_refl) as [Hsame|Hequal].
  - exact Hsame.
  - reflexivity.
Defined.

(** On a path without the name of an inherited property
    [setPathCreateStrict] is all or nothing: when it throws, and when it
    returns [false], the tree is as it was; no container is created on
    the way to an error. (Under a freshly created container nothing is
    found, so nothing can have the wrong shape; the built-in functions
    that every record inherits are the exception.) *)
Theorem setPathCreateStrict_all_or_nothing (root : Value) (segments : list string)
    (value root' : Value) (r : PathError + bool) :
  ownKeysOnly segments = true ->
  setPathCreateStrict root segments value = (root', r) ->
  r <> inr true -> root' = root.
Proof.
  intros _. destruct segments as [|segment rest]; cbn [setPathCreateStrict].
  - intros Hrun _. by simplify_eq.
  - apply createFrom_unchanged.
Qed.

Lemma setPathCreateStrict_all_or_nothing_witness :
  (setPathCreateStrict (VObj [("talk", VStr "x")]) ["models"; "providers"; "0"] VNull).1
    = VObj [("talk", VStr "x"); ("models", VObj [("providers", VArr [VNull])])]
  /\ (setPathCreateStrict (VObj [("talk", VStr "x")]) ["talk"; "providers"; "0"] VNull).1
     = VObj [("talk", VStr "x")].
Proof.
  split; [reflexivity|].
  apply (setPathCreateStrict_all_or_nothing (VObj [("talk", VStr "x")])
           ["talk"; "providers"; "0"] VNull _ (inl (ErrInvalidPathShape "talk")));
    [reflexivity|reflexivity|discriminate].
Defined.


(** *** [setPathExistingStrict] *)

(** Every segment names an own property of a record or an index within
    an array. *)
Fixpoint pathExists (cursor : Value) (segments : list string) : bool :=
  match segments with
  | [] => true
  | segment :: rest =>
      match cursor with
      | VArr items =>
          isArrayIndexSegment segment && (parseInt segment <? length items)%nat
          && pathExists (arrGet items (parseInt segment)) rest
      | VObj fields => hasOwn fields segment && pathExists (getProp fields segment) rest
      | _ => false
      end
  end.

Lemma existingFrom_unchanged rest : forall segments value index cursor segment cursor' r,
  existingFrom segments value index cursor segment rest = (cursor', r) ->
  r <> inr true -> cursor' = cursor.
Proof.
  induction rest as [|nextSegment rest' IH];
    intros segments value index cursor segment cursor' r Hrun Hr;
    cbn [existingFrom] in Hrun.
  - destruct cursor; try (by simplify_eq).
    + destruct (isArrayIndexSegment segment); [|by simplify_eq].
      destruct (_ <=? _)%nat; [by simplify_eq|].
      destruct (deepEq _ value); by simplify_eq.
    + destruct (hasOwn _ _); [|by simplify_eq].
      destruct (deepEq _ value); by simplify_eq.
  - destruct cursor as [| | | | |items|fields]; try (by simplify_eq).
    + destruct (isArrayIndexSegment segment); [|by simplify_eq].
      destruct (_ <=? _)%nat eqn:Hrange; [by simplify_eq|].
      destruct (existingFrom _ _ _ _ _ _) as [child result] eqn:Hchild.
      simplify_eq. rewrite (IH _ _ _ _ _ _ _ Hchild Hr).
      apply Nat.leb_gt in Hrange. by rewrite arrSet_arrGet.
    + destruct (hasOwn fields segment) eqn:Hown; [|by simplify_eq].
      destruct (existingFrom _ _ _ _ _ _) as [child result] eqn:Hchild.
      simplify_eq. rewrite (IH _ _ _ _ _ _ _ Hchild Hr). by rewrite setProp_getProp.
Qed.

Lemma existingFrom_reads rest : forall segments value index cursor segment cursor' b,
  existingFrom segments value index cursor segment rest = (cursor', inr b) ->
  ReadsBack cursor' (segment :: rest) value.
Proof.
  unfold ReadsBack.
  induction rest as [|nextSegment rest' IH];
    intros segments value index cursor segment cursor' b Hrun;
    cbn [existingFrom] in Hrun.
  - destruct cursor as [| | | | |items|fields]; try (by simplify_eq).
    + destruct (isArrayIndexSegment segment) eqn:Hindex; [|by simplify_eq].
      destruct (_ <=? _)%nat; [by simplify_eq|].
      destruct (deepEq _ value) eqn:Heq; simplify_eq; cbn; rewrite Hindex.
      * by right.
      * left. apply arrGet_arrSet.
    + destruct (hasOwn _ _); [|by simplify_eq].
      destruct (deepEq _ value) eqn:Heq; simplify_eq; cbn.
      * by right.
      * left. apply getProp_setProp.
  - destruct cursor as [| | | | |items|fields]; try (by simplify_eq).
    + destruct (isArrayIndexSegment segment) eqn:Hindex; [|by simplify_eq].
      destruct (_ <=? _)%nat; [by simplify_eq|].
      destruct (existingFrom _ _ _ _ _ _) as [child result] eqn:Hchild.
      simplify_eq. cbn [getPathFrom]. rewrite Hindex, arrGet_arrSet. by eapply IH.
    + destruct (hasOwn _ _); [|by simplify_eq].
      destruct (existingFrom _ _ _ _ _ _) as [child result] eqn:Hchild.
      simplify_eq. cbn [getPathFrom]. rewrite getProp_setProp. by eapply IH.
Qed.

Lemma pathExists_cons cursor segment rest :
  pathExists cursor (segment :: rest)
  = match cursor with
    | VArr items =>
        isArrayIndexSegment segment && (parseInt segment <? length items)%nat
        && pathExists (arrGet items (parseInt segment)) rest
    | VObj fields => hasOwn fields segment && pathExists (getProp fields segment) rest
    | _ => false
    end.
Proof. reflexivity. Qed.

Lemma existingFrom_exists rest : forall segments value index cursor segment,
  pathExists cursor (segment :: rest)
  = match (existingFrom segments value index cursor segment rest).2 with
    | inr _ => true
    | inl _ => false
    end.
Proof.
  induction rest as [|nextSegment rest' IH]; intros segments value index cursor segment;
    rewrite pathExists_cons; cbn [existingFrom].
  - destruct cursor as [| | | | |items|fields]; try done.
    + destruct (isArrayIndexSegment segment); [|done]. cbn [andb pathExists].
      rewrite Nat.ltb_antisym. destruct (_ <=? _)%nat; [done|].
      by destruct (deepEq _ value).
    + destruct (hasOwn _ _); [|done]. by destruct (deepEq _ value).
  - destruct cursor as [| | | | |items|fields]; try done.
    + destruct (isArrayIndexSegment segment); [|done]. cbn [andb].
      rewrite Nat.ltb_antisym. destruct (_ <=? _)%nat; [done|]. cbn [negb andb].
      rewrite (IH segments value (S index)).
      by destruct (existingFrom _ _ _ _ _ _) as [child result].
    + destruct (hasOwn _ _); [|done]. cbn [andb].
      rewrite (IH segments value (S index)).
      by destruct (existingFrom _ _ _ _ _ _) as [child result].
Qed.

(** [setPathExistingStrict] returns, rather than throws, exactly when the
    segment list is not empty and every segment names an own property of
    a record or an index within an array: it creates nothing. *)
Theorem setPathExistingStrict_returns_iff_exists (root : Value) (segments : list string)
    (value : Value) :
  (exists changed, (setPathExistingStrict root segments value).2 = inr changed)
  <-> segments <> [] /\ pathExists root segments = true.
Proof.
  destruct segments as [|segment rest]; cbn [setPathExistingStrict].
  - split; [intros [changed Hrun]; discriminate Hrun|intros [Hne _]; done].
  - rewrite (existingFrom_exists rest (segment :: rest) value 0).
    destruct (existingFrom _ _ _ _ _ _) as [cursor' [e|changed]]; cbn [snd].
    + split; [intros [changed Hrun]; discriminate Hrun|intros [_ Hfalse]; discriminate Hfalse].
    + split; [done|eauto].
Qed.

(** When [setPathExistingStrict] returns, [getPath] reads the value at
    the path (or a deep-equal one it kept); when it throws or returns
    [false], the tree is as it was. *)
Theorem setPathExistingStrict_effect (root : Value) (segments : list string)
    (value root' : Value) (r : PathError + bool) :
  setPathExistingStrict root segments value = (root', r) ->
  (forall changed, r = inr changed ->
     getPath root' segments = value \/ deepEq (getPath root' segments) value = true)
  /\ (r <> inr true -> root' = root).
Proof.
  destruct segments as [|segment rest]; cbn [setPathExistingStrict getPath]; intros Hrun.
  - simplify_eq. split; [intros changed Hr; discriminate Hr|done].
  - split.
    + intros changed ->. by eapply existingFrom_reads.
    + by eapply existingFrom_unchanged.
Qed.

Lemma setPathExistingStrict_effect_witness :
  getPath (setPathExistingStrict (VObj [("talk", VObj [("apiKey", VStr "old")])])
             ["talk"; "apiKey"] (VStr "new")).1 ["talk"; "apiKey"] = VStr "new"
  /\ (setPathExistingStrict (VObj [("talk", VObj [("apiKey", VStr "old")])])
        ["talk"; "token"] (VStr "new")).1
     = VObj [("talk", VObj [("apiKey", VStr "old")])].
Proof.
  split.
  - destruct (setPathExistingStrict_effect (VObj [("talk", VObj [("apiKey", VStr "old")])])
                ["talk"; "apiKey"] (VStr "new") _ (inr true) eq_refl) as [Hreads _].
    destruct (Hreads true eq_refl) as [Hsame|Hequal]; [exact Hsame|reflexivity].
  - destruct (setPathExistingStrict_effect (VObj [("talk", VObj [("apiKey", VStr "old")])])
                ["talk"; "token"] (VStr "new") _ (inl (ErrSegmentMissing "talk.token"))
                eq_refl) as [_ Hsame].
    apply Hsame. discriminate.
Defined.

(** *** [deletePathStrict] *)

Lemma getProp_deleteProp fields key : getProp (deleteProp fields key) key = VUndefined.
Proof.
  unfold getProp. induction fields as [|[k v] rest IH]; cbn; [done|].
  destruct (String.eqb k key) eqn:Hk; [done|]. cbn. by rewrite Hk.
Qed.

Lemma deleteFrom_unchanged rest : forall segments index cursor segment cursor' r,
  deleteFrom segments index cursor segment rest = (cursor', r) ->
  r <> inr true -> cursor' = cursor.
Proof.
  induction rest as [|nextSegment rest' IH];
    intros segments index cursor segment cursor' r Hrun Hr; cbn [deleteFrom] in Hrun.
  - destruct cursor; try (by simplify_eq).
    + destruct (isArrayIndexSegment segment); [|by simplify_eq].
      destruct (_ <=? _)%nat; by simplify_eq.
    + destruct (hasOwn _ _); by simplify_eq.
  - destruct cursor as [| | | | |items|fields]; try (by simplify_eq).
    + destruct (isArrayIndexSegment segment); [|by simplify_eq].
      destruct (deleteFrom _ _ _ _ _) as [child result] eqn:Hchild.
      destruct (_ <? _)%nat eqn:Hrange; simplify_eq; [|done].
      rewrite (IH _ _ _ _ _ _ Hchild Hr). apply Nat.ltb_lt in Hrange.
      by rewrite arrSet_arrGet.
    + destruct (deleteFrom _ _ _ _ _) as [child result] eqn:Hchild.
      destruct (hasOwn fields segment) eqn:Hown; simplify_eq; [|done].
      rewrite (IH _ _ _ _ _ _ Hchild Hr). by rewrite setProp_getProp.
Qed.

Lemma deleteFrom_undefined rest : forall segments index segment,
  exists e, deleteFrom segments index VUndefined segment rest = (VUndefined, inl e).
Proof. destruct rest; intros; cbn; eauto. Qed.

Lemma deleteFrom_reads rest : forall segments index cursor segment cursor',
  deleteFrom segments index cursor segment rest = (cursor', inr true) ->
  isArrayIndexSegment (List.last (segment :: rest) "") = false ->
  getPathFrom cursor' (segment :: rest) = VUndefined.
Proof.
  induction rest as [|nextSegment rest' IH];
    intros segments index cursor segment cursor' Hrun Hlast; cbn [deleteFrom] in Hrun.
  - cbn in Hlast. destruct cursor as [| | | | |items|fields]; try (by simplify_eq).
    + rewrite Hlast in Hrun. by simplify_eq.
    + destruct (hasOwn _ _); simplify_eq. cbn. apply getProp_deleteProp.
  - change (List.last (segment :: nextSegment :: rest') "")
      with (List.last (nextSegment :: rest') "") in Hlast.
    destruct cursor as [| | | | |items|fields]; try (by simplify_eq).
    + destruct (isArrayIndexSegment segment) eqn:Hindex; [|by simplify_eq].
      destruct (deleteFrom _ _ _ _ _) as [child result] eqn:Hchild.
      destruct (_ <? _)%nat eqn:Hrange; simplify_eq.
      * cbn [getPathFrom]. rewrite Hindex, arrGet_arrSet. by eapply IH.
      * apply Nat.ltb_ge in Hrange.
        assert (Hmissing : arrGet items (parseInt segment) = VUndefined).
        { unfold arrGet. by rewrite lookup_ge_None_2. }
        rewrite Hmissing in Hchild.
        destruct (deleteFrom_undefined rest' segments (S index) nextSegment) as [e He].
        congruence.
    + destruct (deleteFrom _ _ _ _ _) as [child result] eqn:Hchild.
      destruct (hasOwn fields segment) eqn:Hown; simplify_eq.
      * cbn [getPathFrom]. rewrite getProp_setProp. by eapply IH.
      * assert (Hmissing : getProp fields segment = VUndefined).
        { unfold getProp, hasOwn in *. by destruct (assoc segment fields). }
        rewrite Hmissing in Hchild.
        destruct (deleteFrom_undefined rest' segments (S index) nextSegment) as [e He].
        congruence.
Qed.

(** When [deletePathStrict] throws or returns [false], the tree is as it
    was; when it returns [true] for a path without the name of an
    inherited property whose last segment is not an array index,
    [getPath] reads [undefined] at the path afterwards. *)
Theorem deletePathStrict_effect (root : Value) (segments : list string) (root' : Value)
    (r : PathError + bool) :
  deletePathStrict root segments = (root', r) ->
  (r <> inr true -> root' = root)
  /\ (r = inr true -> ownKeysOnly segments = true ->
      isArrayIndexSegment (List.last segments "") = false ->
      getPath root' segments = VUndefined).
Proof.
  destruct segments as [|segment rest]; cbn [deletePathStrict getPath]; intros Hrun.
  - simplify_eq. split; [done|intros Hr; discriminate Hr].
  - split.
    + by eapply deleteFrom_unchanged.
    + intros -> _. by eapply deleteFrom_reads.
Qed.

Lemma deletePathStrict_effect_witness :
  (deletePathStrict (VObj [("talk", VObj [("apiKey", VStr "old")])]) ["talk"; "token"]).1
    = VObj [("talk", VObj [("apiKey", VStr "old")])]
  /\ getPath (deletePathStrict (VObj [("talk", VObj [("apiKey", VStr "old")])])
                ["talk"; "apiKey"]).1 ["talk"; "apiKey"] = VUndefined.
Proof.
  split.
  - destruct (deletePathStrict_effect (VObj [("talk", VObj [("apiKey", VStr "old")])])
                ["talk"; "token"] _ (inr false) eq_refl) as [Hsame _].
    apply Hsame. discriminate.
  - destruct (deletePathStrict_effect (VObj [("talk", VObj [("apiKey", VStr "old")])])
                ["talk"; "apiKey"] _ (inr true) eq_refl) as [_ Hgone].
    exact (Hgone eq_refl eq_refl eq_refl).
Defined.

End PathMutationFacts.

(** ** Dot paths: [parseDotPath] and [toDotPath] *)

Module DotPathFacts.
Import JsString PathUtils StringFacts.

(** The first character of the string, if any, is not white space. *)
Definition startsClean (s : string) : bool :=
  match s with
  | EmptyString => true
  | String c _ => negb (isWhite c)
  end.

Lemma trimStart_clean s : startsClean (trimStart s) = true.
Proof.
  induction s as [|c s IH]; [reflexivity|]. cbn [trimStart].
  destruct (isWhite c) eqn:Hc; [exact IH|]. cbn. by rewrite Hc.
Qed.

Lemma trimStart_id s : startsClean s = true -> trimStart s = s.
Proof. destruct s as [|c s]; [reflexivity|]. cbn. by destruct (isWhite c). Qed.

Lemma trimEnd_clean s : startsClean s = true -> startsClean (trimEnd s) = true.
Proof.
  destruct s as [|c s]; [reflexivity|]. cbn [startsClean trimEnd]. intros Hc.
  destruct (trimEnd s); [|exact Hc]. apply negb_true_iff in Hc. rewrite Hc. cbn.
  by rewrite Hc.
Qed.

Lemma trimEnd_idem s : trimEnd (trimEnd s) = trimEnd s.
Proof.
  induction s as [|c s IH]; [reflexivity|]. cbn [trimEnd].
  destruct (trimEnd s) as [|d kept] eqn:Hkept.
  - destruct (isWhite c) eqn:Hc; [reflexivity|]. cbn. by rewrite Hc.
  - cbn [trimEnd] in IH |- *. by rewrite IH.
Qed.

(** [trim] is idempotent. *)
Lemma trim_idem s : trim (trim s) = trim s.
Proof.
  unfold trim. rewrite (trimStart_id (trimEnd _)).
  - apply trimEnd_idem.
  - apply trimEnd_clean, trimStart_clean.
Qed.

Lemma includesChar_trimStart c s :
  includesChar c s = false -> includesChar c (trimStart s) = false.
Proof.
  induction s as [|d s IH]; [done|]. cbn [trimStart]. intros Hs.
  destruct (isWhite d); [|exact Hs]. cbn in Hs. apply orb_false_iff in Hs as [_ Hs]. auto.
Qed.

Lemma includesChar_trimEnd c s :
  includesChar c s = false -> includesChar c (trimEnd s) = false.
Proof.
  induction s as [|d s IH]; [done|]. cbn [trimEnd includesChar]. intros Hs.
  apply orb_false_iff in Hs as [Hd Hs]. specialize (IH Hs).
  destruct (trimEnd s) as [|e kept].
  - destruct (isWhite d); [reflexivity|]. cbn. by rewrite Hd.
  - cbn [includesChar] in IH |- *. by rewrite Hd, IH.
Qed.

Lemma includesChar_trim c s : includesChar c s = false -> includesChar c (trim s) = false.
Proof. intros Hs. by apply includesChar_trimEnd, includesChar_trimStart. Qed.

Lemma string_of_rev_cons c cur :
  string_of_list_ascii (rev (c :: cur)) = string_of_list_ascii (rev cur) +:+ String c "".
Proof.
  cbn [rev]. induction (rev cur) as [|d l IH]; [reflexivity|].
  cbn [app string_of_list_ascii]. by rewrite app_cons, IH.
Qed.

Lemma includesChar_app c a b :
  includesChar c (a +:+ b) = includesChar c a || includesChar c b.
Proof.
  induction a as [|d a IH]; [reflexivity|]. rewrite app_cons. cbn. by rewrite IH, orb_assoc.
Qed.

(** No piece of [split] contains the separator. *)
Lemma splitLoop_pieces sep s : forall cur piece,
  includesChar sep (string_of_list_ascii (rev cur)) = false ->
  piece ∈ splitLoop sep cur s -> includesChar sep piece = false.
Proof.
  induction s as [|c s IH]; intros cur piece Hcur Hin; cbn [splitLoop] in Hin.
  - apply list_elem_of_singleton in Hin. by subst.
  - destruct (Ascii.eqb c sep) eqn:Hc.
    + apply elem_of_cons in Hin as [->|Hin]; [exact Hcur|].
      by apply (IH [] piece).
    + apply (IH (c :: cur) piece); [|exact Hin].
      rewrite string_of_rev_cons, includesChar_app, Hcur. cbn.
      rewrite Ascii.eqb_sym, Hc. reflexivity.
Qed.

Lemma splitLoop_last sep s : forall cur,
  includesChar sep s = false ->
  splitLoop sep cur s = [string_of_list_ascii (rev cur) +:+ s].
Proof.
  induction s as [|c s IH]; intros cur Hs; cbn [splitLoop].
  - f_equal. induction (string_of_list_ascii (rev cur)) as [|d t IHt]; [reflexivity|].
    by rewrite app_cons, <- IHt.
  - cbn in Hs. apply orb_false_iff in Hs as [Hc Hs].
    rewrite Ascii.eqb_sym, Hc, (IH _ Hs), string_of_rev_cons, app_assoc. reflexivity.
Qed.

Lemma splitLoop_piece sep s rest : forall cur,
  includesChar sep s = false ->
  splitLoop sep cur (s +:+ String sep rest)
  = (string_of_list_ascii (rev cur) +:+ s) :: splitLoop sep [] rest.
Proof.
  induction s as [|c s IH]; intros cur Hs.
  - rewrite app_nil_l. cbn [splitLoop]. rewrite Ascii.eqb_refl. f_equal.
    induction (string_of_list_ascii (rev cur)) as [|d t IHt]; [reflexivity|].
    by rewrite app_cons, <- IHt.
  - cbn in Hs. apply orb_false_iff in Hs as [Hc Hs].
    rewrite app_cons. cbn [splitLoop].
    rewrite Ascii.eqb_sym, Hc, (IH _ Hs), string_of_rev_cons, app_assoc. reflexivity.
Qed.

(** A segment that [parseDotPath] returns unchanged: not empty, without
    white space at either end, without a dot. *)
Definition cleanSegment (segment : string) : bool :=
  truthy segment && String.eqb (trim segment) segment && negb (includesChar "." segment).

Lemma cleanSegment_spec segment :
  cleanSegment segment = true
  <-> truthy segment = true /\ trim segment = segment /\ includesChar "." segment = false.
Proof.
  unfold cleanSegment. rewrite !andb_true_iff, String.eqb_eq, negb_true_iff. tauto.
Qed.

Lemma split_join segments :
  segments <> [] -> Forall (fun segment => includesChar "." segment = false) segments ->
  split "." (join "." segments) = segments.
Proof.
  unfold split. induction segments as [|segment rest IH]; [done|]. intros _ Hall.
  apply Forall_cons in Hall as [Hsegment Hrest]. destruct rest as [|next rest'].
  - cbn [join]. by rewrite splitLoop_last.
  - change (join "." (segment :: next :: rest'))
      with (segment +:+ "." +:+ join "." (next :: rest')).
    change ("." +:+ join "." (next :: rest')) with (String "." (join "." (next :: rest'))).
    rewrite splitLoop_piece by exact Hsegment. cbn [rev string_of_list_ascii].
    rewrite app_nil_l, IH; [reflexivity|discriminate|exact Hrest].
Qed.

Lemma parsed_segments_clean pathname :
  Forall (fun segment => cleanSegment segment = true) (parseDotPath pathname).
Proof.
  unfold parseDotPath. apply Forall_forall. intros segment Hin.
  apply list_elem_of_filter in Hin as [Htruthy Hin].
  apply list_elem_of_fmap in Hin as [piece [-> Hpiece]].
  apply cleanSegment_spec. split; [exact Htruthy|]. split; [apply trim_idem|].
  apply includesChar_trim. apply (splitLoop_pieces "." pathname [] piece); [reflexivity|exact Hpiece].
Qed.

Lemma filter_trim_clean segments :
  Forall (fun segment => cleanSegment segment = true) segments ->
  filter (fun segment => truthy segment = true) (map trim segments) = segments.
Proof.
  induction 1 as [|s l Hs Hl IH]; [reflexivity|].
  apply cleanSegment_spec in Hs as (Htruthy & Htrim & _).
  cbn [map]. rewrite Htrim. rewrite filter_cons_True by exact Htruthy. by rewrite IH.
Qed.

Lemma parse_joined_clean segments :
  Forall (fun segment => cleanSegment segment = true) segments ->
  parseDotPath (toDotPath segments) = segments.
Proof.
  intros Hclean. destruct segments as [|segment rest]; [reflexivity|].
  unfold parseDotPath, toDotPath. rewrite split_join; [|discriminate|].
  - by apply filter_trim_clean.
  - eapply Forall_impl; [exact Hclean|]. intros s Hs.
    apply cleanSegment_spec in Hs as (_ & _ & Hdot). exact Hdot.
Qed.

(** Every segment that [parseDotPath] returns is not empty, has no white
    space at either end and contains no dot; parsing is a normalisation:
    joining the parsed segments with [toDotPath] and parsing again gives
    the same segments. *)
Theorem parseDotPath_normalises (pathname : string) :
  Forall (fun segment =>
            truthy segment = true /\ trim segment = segment
            /\ includesChar "." segment = false) (parseDotPath pathname)
  /\ parseDotPath (toDotPath (parseDotPath pathname)) = parseDotPath pathname.
Proof.
  split.
  - eapply Forall_impl; [apply parsed_segments_clean|].
    intros segment Hclean. by apply cleanSegment_spec.
  - apply parse_joined_clean, parsed_segments_clean.
Qed.

(** [parseDotPath] undoes [toDotPath] on segments that are not empty,
    have no white space at either end and contain no dot. *)
Theorem parseDotPath_toDotPath (segments : list string) :
  Forall (fun segment =>
            truthy segment = true /\ trim segment = segment
            /\ includesChar "." segment = false) segments ->
  parseDotPath (toDotPath segments) = segments.
Proof.
  intros Hclean. apply parse_joined_clean.
  eapply Forall_impl; [exact Hclean|]. intros segment Hsegment. by apply cleanSegment_spec.
Qed.

Lemma parseDotPath_toDotPath_witness :
  parseDotPath (toDotPath ["channels"; "telegram"; "bot token"])
  = ["channels"; "telegram"; "bot token"].
Proof.
  apply parseDotPath_toDotPath. repeat constructor.
Defined.

End DotPathFacts.

(** ** Path patterns: matching, rebuilding and expanding *)

Module PatternExpansionFacts.
Import JsString Json PathUtils TargetRegistryPattern.

Lemma parseDigits_uint (d : Decimal.uint) : forall acc,
  parseDigits acc (NilEmpty.string_of_uint d) = Nat.of_uint_acc d acc.
Proof.
  induction d as [|d IH|d IH|d IH|d IH|d IH|d IH|d IH|d IH|d IH|d IH]; intros acc;
    [reflexivity|..];
    cbn [NilEmpty.string_of_uint parseDigits Nat.of_uint_acc];
    rewrite IH, Nat.tail_mul_spec; f_equal;
    match goal with |- context [nat_of_ascii ?c - 48] =>
      let k := eval vm_compute in (nat_of_ascii c - 48) in
      change (nat_of_ascii c - 48) with k
    end; lia.
Qed.

(** [Number.parseInt(String(index), 10) === index] *)
Lemma parseInt_natToString (n : nat) : parseInt (natToString n) = n.
Proof.
  unfold parseInt, natToString, NilZero.string_of_uint.
  rewrite <- (DecimalNat.Unsigned.of_to n) at 2. unfold Nat.of_uint.
  destruct (Nat.to_uint n); try apply parseDigits_uint. reflexivity.
Qed.

Lemma match_rebuilds tokens : forall segs acc result,
  matchFrom tokens segs acc = Some result ->
  exists caps, result = acc ++ caps
    /\ forall out, materializeFrom tokens caps out = Some (out ++ segs).
Proof.
  induction tokens as [|token tokens' IH]; intros segs acc result Hmatch;
    cbn [matchFrom] in Hmatch.
  - destruct segs; [|discriminate Hmatch]. injection Hmatch as <-.
    exists []. rewrite app_nil_r. split; [reflexivity|]. intros out. cbn.
    by rewrite app_nil_r.
  - destruct token as [value| |field].
    + destruct segs as [|segment segs']; [discriminate Hmatch|].
      destruct (String.eqb segment value) eqn:Hsegment; [|discriminate Hmatch].
      apply String.eqb_eq in Hsegment as ->.
      apply IH in Hmatch as (caps & -> & Hbuild). exists caps. split; [reflexivity|].
      intros out. cbn [materializeFrom]. rewrite Hbuild, <- List.app_assoc. reflexivity.
    + destruct segs as [|segment segs']; [discriminate Hmatch|].
      destruct (truthy segment) eqn:Htruthy; [|discriminate Hmatch].
      apply IH in Hmatch as (caps & -> & Hbuild). exists (segment :: caps).
      rewrite <- List.app_assoc. split; [reflexivity|].
      intros out. cbn [materializeFrom]. rewrite Htruthy, Hbuild, <- List.app_assoc.
      reflexivity.
    + destruct segs as [|segment [|next segs']]; try discriminate Hmatch.
      destruct (String.eqb segment field) eqn:Hsegment; [|discriminate Hmatch].
      apply String.eqb_eq in Hsegment as ->.
      destruct (truthy next && isDigitString next) eqn:Hindex; [|discriminate Hmatch].
      apply IH in Hmatch as (caps & -> & Hbuild). exists (next :: caps).
      rewrite <- List.app_assoc. split; [reflexivity|].
      intros out. cbn [materializeFrom]. rewrite Hindex, Hbuild, <- List.app_assoc.
      reflexivity.
Qed.

Lemma rebuild_matches tokens : forall caps out result,
  materializeFrom tokens caps out = Some result ->
  exists segs, result = out ++ segs
    /\ forall acc, matchFrom tokens segs acc = Some (acc ++ caps).
Proof.
  induction tokens as [|token tokens' IH]; intros caps out result Hbuild;
    cbn [materializeFrom] in Hbuild.
  - destruct caps; [|discriminate Hbuild]. injection Hbuild as <-.
    exists []. rewrite app_nil_r. split; [reflexivity|]. intros acc. cbn.
    by rewrite app_nil_r.
  - destruct token as [value| |field].
    + apply IH in Hbuild as (segs & -> & Hmatch). exists (value :: segs).
      rewrite <- List.app_assoc. split; [reflexivity|].
      intros acc. cbn [matchFrom]. by rewrite String.eqb_refl.
    + destruct caps as [|capture caps']; [discriminate Hbuild|].
      destruct (truthy capture) eqn:Htruthy; [|discriminate Hbuild].
      apply IH in Hbuild as (segs & -> & Hmatch). exists (capture :: segs).
      rewrite <- List.app_assoc. split; [reflexivity|].
      intros acc. cbn [matchFrom]. rewrite Htruthy, Hmatch, <- List.app_assoc.
      reflexivity.
    + destruct caps as [|capture caps']; [discriminate Hbuild|].
      destruct (truthy capture && isDigitString capture) eqn:Hindex; [|discriminate Hbuild].
      apply IH in Hbuild as (segs & -> & Hmatch). exists (field :: capture :: segs).
      rewrite <- List.app_assoc. split; [reflexivity|].
      intros acc. cbn [matchFrom]. rewrite String.eqb_refl, Hindex, Hmatch,
        <- List.app_assoc. reflexivity.
Qed.

(** [matchPathTokens] and [materializePathTokens] are inverse to each
    other: the tokens match a list of segments with some captures exactly
    when those captures rebuild these segments. *)
Theorem match_iff_materialize (tokens : list PathPatternToken)
    (segs caps : list string) :
  matchPathTokens segs tokens = Some caps
  <-> materializePathTokens tokens caps = Some segs.
Proof.
  unfold matchPathTokens, materializePathTokens. split; intros Hrun.
  - apply match_rebuilds in Hrun as (caps' & -> & Hbuild). apply (Hbuild []).
  - apply rebuild_matches in Hrun as (segs' & -> & Hmatch). apply (Hmatch []).
Qed.

Lemma match_captures tokens : forall segs acc result,
  matchFrom tokens segs acc = Some result ->
  exists caps, result = acc ++ caps
    /\ length caps = countDynamicPatternTokens tokens
    /\ Forall (fun capture => truthy capture = true) caps.
Proof.
  unfold countDynamicPatternTokens.
  induction tokens as [|token tokens' IH]; intros segs acc result Hmatch;
    cbn [matchFrom] in Hmatch.
  - destruct segs; [|discriminate Hmatch]. injection Hmatch as <-.
    exists []. by rewrite app_nil_r.
  - destruct token as [value| |field].
    + destruct segs as [|segment segs']; [discriminate Hmatch|].
      destruct (String.eqb segment value); [|discriminate Hmatch].
      apply IH in Hmatch as (caps & -> & Hlength & Hall). exists caps.
      rewrite filter_cons_False by (cbn; discriminate). done.
    + destruct segs as [|segment segs']; [discriminate Hmatch|].
      destruct (truthy segment) eqn:Htruthy; [|discriminate Hmatch].
      apply IH in Hmatch as (caps & -> & Hlength & Hall). exists (segment :: caps).
      rewrite <- List.app_assoc, filter_cons_True by reflexivity. cbn [length].
      rewrite Hlength. repeat split. by constructor.
    + destruct segs as [|segment [|next segs']]; try discriminate Hmatch.
      destruct (String.eqb segment field); [|discriminate Hmatch].
      destruct (truthy next && isDigitString next) eqn:Hindex; [|discriminate Hmatch].
      apply andb_true_iff in Hindex as [Htruthy _].
      apply IH in Hmatch as (caps & -> & Hlength & Hall). exists (next :: caps).
      rewrite <- List.app_assoc, filter_cons_True by reflexivity. cbn [length].
      rewrite Hlength. repeat split. by constructor.
Qed.

(** When the tokens match, there is one capture for each wildcard or
    array token of the pattern, and no capture is the empty string. *)
Theorem match_captures_dynamic_tokens (tokens : list PathPatternToken)
    (segs caps : list string) :
  matchPathTokens segs tokens = Some caps ->
  length caps = countDynamicPatternTokens tokens
  /\ Forall (fun capture => truthy capture = true) caps.
Proof.
  intros Hmatch. apply match_captures in Hmatch as (caps' & -> & Hlength & Hall). done.
Qed.

Lemma match_captures_dynamic_tokens_witness :
  length ["openai"] = countDynamicPatternTokens
                        [Literal "models"; Literal "providers"; Wildcard; Literal "apiKey"]
  /\ Forall (fun capture => truthy capture = true) ["openai"].
Proof.
  apply (match_captures_dynamic_tokens
           [Literal "models"; Literal "providers"; Wildcard; Literal "apiKey"]
           ["models"; "providers"; "openai"; "apiKey"] ["openai"]).
  reflexivity.
Defined.

(** In the embedding an object is the list of its own properties: a
    value stands for a JavaScript value when no object in it lists a key
    twice. *)
Fixpoint uniqueKeys (v : Value) : bool :=
  match v with
  | VArr items => forallb uniqueKeys items
  | VObj fields =>
      bool_decide (NoDup (map fst fields))
      && forallb (fun entry : string * Value => uniqueKeys entry.2) fields
  | _ => true
  end.

Lemma assoc_unique fields : forall key item,
  NoDup (map fst fields) -> (key, item) ∈ fields -> assoc key fields = Some item.
Proof.
  induction fields as [|[k v] rest IH]; intros key item Hnodup Hin.
  - by apply elem_of_nil in Hin.
  - cbn [map fst] in Hnodup. apply NoDup_cons in Hnodup as [Hfresh Hnodup].
    cbn [assoc]. apply elem_of_cons in Hin as [Hhead|Hin].
    + injection Hhead as -> ->. by rewrite String.eqb_refl.
    + destruct (String.eqb k key) eqn:Hk; [|by apply IH].
      apply String.eqb_eq in Hk as ->. exfalso. apply Hfresh.
      apply list_elem_of_fmap. by exists (key, item).
Qed.

Lemma uniqueKeys_entry fields key item :
  uniqueKeys (VObj fields) = true -> (key, item) ∈ fields ->
  getProp fields key = item /\ uniqueKeys item = true.
Proof.
  cbn [uniqueKeys]. intros Hunique Hin. apply andb_true_iff in Hunique as [Hnodup Hall].
  apply bool_decide_eq_true in Hnodup. split.
  - unfold getProp. by rewrite (assoc_unique fields key item).
  - rewrite forallb_forall in Hall. apply list_elem_of_In in Hin. apply (Hall _ Hin).
Qed.

Lemma uniqueKeys_prop fields key :
  uniqueKeys (VObj fields) = true -> uniqueKeys (getProp fields key) = true.
Proof.
  cbn [uniqueKeys]. intros Hunique. apply andb_true_iff in Hunique as [_ Hall].
  unfold getProp. induction fields as [|[k v] rest IH]; [reflexivity|].
  cbn [forallb] in Hall. apply andb_true_iff in Hall as [Hv Hall]. cbn [assoc].
  destruct (String.eqb k key); [exact Hv|by apply IH].
Qed.

Lemma indexedFrom_lookup items : forall start index item,
  (index, item) ∈ indexedFrom start items ->
  (start <= index)%nat /\ items !! (index - start)%nat = Some item.
Proof.
  induction items as [|head items' IH]; intros start index item Hin; cbn in Hin.
  - by apply elem_of_nil in Hin.
  - apply elem_of_cons in Hin as [Hhead|Hin].
    + injection Hhead as -> ->. by rewrite Nat.sub_diag.
    + apply IH in Hin as [Hle Hlookup]. split; [lia|].
      replace (index - start)%nat with (S (index - S start)) by lia. exact Hlookup.
Qed.

Lemma uniqueKeys_item items index item :
  uniqueKeys (VArr items) = true -> items !! index = Some item -> uniqueKeys item = true.
Proof.
  cbn [uniqueKeys]. intros Hall Hlookup. rewrite forallb_forall in Hall.
  apply Hall. apply list_elem_of_In. by eapply list_elem_of_lookup_2.
Qed.

Lemma walk_reads tokens : forall node segs caps m,
  uniqueKeys node = true -> m ∈ walk tokens node segs caps ->
  exists suffix, segments m = segs ++ suffix /\ getPathFrom node suffix = value m
    /\ (tokens <> [] -> suffix <> []).
Proof.
  induction tokens as [|token rest IH]; intros node segs caps m Hunique Hm.
  - cbn in Hm. apply list_elem_of_singleton in Hm. subst m.
    exists []. cbn. by rewrite app_nil_r.
  - destruct token as [literal| |field]; cbn [walk] in Hm.
    + destruct node as [| | | | | |fields]; try (by apply elem_of_nil in Hm).
      destruct rest as [|token' rest'].
      * cbn in Hm. apply list_elem_of_singleton in Hm. subst m.
        exists [literal]. cbn. done.
      * cbn [isLeafToken] in Hm. destruct (hasOwn fields literal);
          [|by apply elem_of_nil in Hm].
        apply IH in Hm as (suffix & Hsegs & Hvalue & _);
          [|by apply uniqueKeys_prop].
        exists (literal :: suffix). rewrite Hsegs, <- List.app_assoc. done.
    + destruct node as [| | | | | |fields]; try (by apply elem_of_nil in Hm).
      apply list_elem_of_In, in_flat_map in Hm as ([key item] & Hentry & Hm).
      rewrite PatternFacts.leaf_branch in Hm. cbn [fst snd] in Hm.
      apply list_elem_of_In in Hentry.
      destruct (uniqueKeys_entry fields key item Hunique Hentry) as [Hprop Hitem].
      apply list_elem_of_In, IH in Hm as (suffix & Hsegs & Hvalue & _); [|exact Hitem].
      exists (key :: suffix). rewrite Hsegs, <- List.app_assoc. cbn [getPathFrom].
      rewrite Hprop. done.
    + destruct node as [| | | | | |fields]; try (by apply elem_of_nil in Hm).
      destruct (getProp fields field) as [| | | | |items|] eqn:Hfield;
        try (by apply elem_of_nil in Hm).
      apply list_elem_of_In, in_flat_map in Hm as ([index item] & Hentry & Hm).
      cbn [fst snd] in Hm. rewrite PatternFacts.leaf_branch in Hm.
      apply list_elem_of_In, indexedFrom_lookup in Hentry as [_ Hlookup].
      rewrite Nat.sub_0_r in Hlookup.
      assert (Hitems : uniqueKeys (VArr items) = true).
      { rewrite <- Hfield. by apply uniqueKeys_prop. }
      apply list_elem_of_In, IH in Hm as (suffix & Hsegs & Hvalue & _);
        [|by eapply uniqueKeys_item].
      exists (field :: natToString index :: suffix).
      rewrite Hsegs, <- List.app_assoc. cbn [getPathFrom].
      rewrite Hfield. unfold isArrayIndexSegment.
      rewrite PatternFacts.natToString_digits, parseInt_natToString.
      unfold arrGet. rewrite Hlookup. done.
Qed.

(** Every match of [expandPathTokens] carries the value that [getPath]
    reads in the same tree at the segments of the match. *)
Theorem expanded_value_is_read_by_getPath (root : Value)
    (tokens : list PathPatternToken) (m : ExpandedPathMatch) :
  uniqueKeys root = true -> tokens <> [] ->
  m ∈ expandPathTokens root tokens ->
  getPath root (segments m) = value m.
Proof.
  intros Hunique Htokens Hm.
  apply walk_reads in Hm as (suffix & Hsegs & Hvalue & Hsuffix); [|exact Hunique].
  cbn [app] in Hsegs. rewrite Hsegs. specialize (Hsuffix Htokens).
  destruct suffix; [done|]. exact Hvalue.
Qed.

Lemma expanded_value_is_read_by_getPath_witness :
  getPath (VObj [("agents", VObj [("list",
             VArr [VObj [("id", VStr "main")];
                   VObj [("id", VStr "ops"); ("apiKey", VStr "sk-a")]])])])
    ["agents"; "list"; "1"; "apiKey"]
  = VStr "sk-a".
Proof.
  apply (expanded_value_is_read_by_getPath
           (VObj [("agents", VObj [("list",
              VArr [VObj [("id", VStr "main")];
                    VObj [("id", VStr "ops"); ("apiKey", VStr "sk-a")]])])])
           [Literal "agents"; ArrayToken "list"; Literal "apiKey"]
           (mkMatch ["agents"; "list"; "1"; "apiKey"] ["1"] (VStr "sk-a"))).
  - reflexivity.
  - discriminate.
  - apply list_elem_of_In. right. left. reflexivity.
Defined.

End PatternExpansionFacts.

(** ** What an accepted plan target is *)

Module PlanAcceptanceFacts.
Import JsString Json PathUtils TargetRegistryPattern TargetRegistry Plan.

(** What [resolveValidatedPlanTarget] guarantees about the target it
    returns for a candidate. *)
Record Registered (registry : list CompiledTargetRegistryEntry)
    (c : PlanTargetCandidate) (resolved : ResolvedPlanTarget) : Prop := {
  registered_entry : resolvedEntry resolved ∈ registry;
  registered_in_plan : includeInPlan (entry (resolvedEntry resolved)) = true;
  registered_type :
    exists type, c_type c = Some type
      /\ (targetType (entry (resolvedEntry resolved)) = type
          \/ type ∈ targetTypeAliases (entry (resolvedEntry resolved)));
  registered_segments : pathSegments resolved = planSegments c;
  registered_nonempty : pathSegments resolved <> [];
  registered_safe :
    Forall (fun segment =>
              segment <> "__proto__" /\ segment <> "prototype" /\ segment <> "constructor")
      (pathSegments resolved);
  registered_path : toDotPath (pathSegments resolved) = planPath c;
  registered_match :
    exists captures,
      matchPathTokens (pathSegments resolved) (pathTokens (resolvedEntry resolved))
      = Some captures
      /\ refPathSegments resolved
         = (refPathTokens (resolvedEntry resolved)
              ≫= fun tokens => materializePathTokens tokens captures);
  registered_provider :
    forall wanted, suppliedId (c_providerId c) = inr (Some wanted) ->
      providerId resolved = Some wanted;
  registered_account :
    forall wanted, suppliedId (c_accountId c) = inr (Some wanted) ->
      accountId resolved = Some wanted
}.

Lemma entriesForType_elem registry type e :
  e ∈ entriesForType registry type ->
  e ∈ registry
  /\ (targetType (entry e) = type \/ type ∈ targetTypeAliases (entry e)).
Proof.
  unfold entriesForType. intros Hin.
  apply list_elem_of_In, in_flat_map in Hin as (e' & He' & Hin).
  apply list_elem_of_In in He'. apply in_app_or in Hin as [Hin|Hin].
  - destruct (String.eqb (targetType (entry e')) type) eqn:Htype; [|destruct Hin].
    destruct Hin as [<-|[]]. apply String.eqb_eq in Htype. auto.
  - apply in_flat_map in Hin as (alias & Halias & Hin).
    destruct (String.eqb alias type) eqn:Htype; [|destruct Hin].
    destruct Hin as [<-|[]]. apply String.eqb_eq in Htype as <-.
    apply list_elem_of_In in Halias. auto.
Qed.

Lemma idAgrees_supplied supplied resolved wanted :
  idAgrees supplied resolved = true -> supplied = Some wanted -> resolved = Some wanted.
Proof.
  intros Hagrees ->. cbn in Hagrees. destruct resolved as [found|]; [|discriminate Hagrees].
  apply String.eqb_eq in Hagrees as ->. reflexivity.
Qed.

Lemma toResolvedPlanTarget_fields e segments captures resolved :
  toResolvedPlanTarget e segments captures = Some resolved ->
  resolvedEntry resolved = e /\ pathSegments resolved = segments
  /\ refPathSegments resolved
     = (refPathTokens e ≫= fun tokens => materializePathTokens tokens captures).
Proof.
  unfold toResolvedPlanTarget. intros Hresolved.
  destruct (refPathTokens e) as [tokens|]; cbn [mbind option_bind].
  - destruct (materializePathTokens tokens captures) as [refSegments|];
      [|discriminate Hresolved].
    injection Hresolved as <-. done.
  - injection Hresolved as <-. done.
Qed.

Lemma resolveAmong_sound entries segments pid aid resolved :
  resolveAmong entries segments pid aid = inr (Some resolved) ->
  exists captures,
    resolvedEntry resolved ∈ entries
    /\ includeInPlan (entry (resolvedEntry resolved)) = true
    /\ matchPathTokens segments (pathTokens (resolvedEntry resolved)) = Some captures
    /\ toResolvedPlanTarget (resolvedEntry resolved) segments captures = Some resolved
    /\ idCheck pid (providerId resolved) = inr true
    /\ idCheck aid (accountId resolved) = inr true.
Proof.
  induction entries as [|e rest IH]; cbn [resolveAmong]; [discriminate|]. intros Hresolved.
  assert (Hlater : resolveAmong rest segments pid aid = inr (Some resolved) ->
                   exists captures,
                     resolvedEntry resolved ∈ e :: rest
                     /\ includeInPlan (entry (resolvedEntry resolved)) = true
                     /\ matchPathTokens segments (pathTokens (resolvedEntry resolved))
                        = Some captures
                     /\ toResolvedPlanTarget (resolvedEntry resolved) segments captures
                        = Some resolved
                     /\ idCheck pid (providerId resolved) = inr true
                     /\ idCheck aid (accountId resolved) = inr true).
  { intros Hrest. destruct (IH Hrest) as (captures & Hin & Hrest').
    exists captures. split; [by apply elem_of_cons; right|exact Hrest']. }
  destruct (includeInPlan (entry e)) eqn:Hplan; [|by apply Hlater].
  destruct (matchPathTokens segments (pathTokens e)) as [captures|] eqn:Hmatch;
    [|by apply Hlater].
  destruct (toResolvedPlanTarget e segments captures) as [found|] eqn:Hfound;
    [|by apply Hlater].
  destruct (idCheck pid (providerId found)) as [err|[|]] eqn:Hprovider;
    [discriminate Hresolved| |by apply Hlater].
  destruct (idCheck aid (accountId found)) as [err|[|]] eqn:Haccount;
    [discriminate Hresolved| |by apply Hlater].
  injection Hresolved as ->.
  destruct (toResolvedPlanTarget_fields _ _ _ _ Hfound) as (He & _ & _).
  exists captures. rewrite He. repeat split; try done. apply elem_of_cons. by left.
Qed.

Lemma idCheck_supplied candidateId resolved wanted :
  idCheck candidateId resolved = inr true ->
  suppliedId candidateId = inr (Some wanted) -> resolved = Some wanted.
Proof.
  unfold idCheck. intros Hcheck Hsupplied. rewrite Hsupplied in Hcheck.
  injection Hcheck as Hagrees. exact (idAgrees_supplied (Some wanted) _ _ Hagrees eq_refl).
Qed.

Lemma no_forbidden_segment segments :
  hasForbiddenPathSegment segments = false ->
  Forall (fun segment =>
            segment <> "__proto__" /\ segment <> "prototype" /\ segment <> "constructor")
    segments.
Proof.
  unfold hasForbiddenPathSegment. induction segments as [|segment rest IH]; [constructor|].
  cbn [existsb]. intros Hnone. apply orb_false_iff in Hnone as [Hsegment Hrest].
  constructor; [|by apply IH].
  cbn in Hsegment. rewrite !orb_false_iff in Hsegment.
  destruct Hsegment as (H1 & H2 & H3 & _).
  apply String.eqb_neq in H1, H2, H3. done.
Qed.

Lemma resolved_is_registered registry c resolved :
  resolveValidatedPlanTarget registry c = inr (Some resolved) ->
  Registered registry c resolved.
Proof.
  unfold resolveValidatedPlanTarget. intros Hresolved.
  destruct (isKnownSecretTargetType registry (c_type c)) eqn:Hknown;
    [|discriminate Hresolved].
  destruct (c_type c) as [type|] eqn:Htype; [|discriminate Hknown].
  destruct (truthy (planPath c)) eqn:Hpath; [|discriminate Hresolved].
  destruct (bool_decide (planSegments c = []) || hasForbiddenPathSegment (planSegments c)
            || negb (String.eqb (planPath c) (toDotPath (planSegments c)))) eqn:Hchecks;
    [discriminate Hresolved|].
  rewrite !orb_false_iff in Hchecks. destruct Hchecks as [[Hnonempty Hforbidden] Hdot].
  apply bool_decide_eq_false in Hnonempty.
  apply negb_false_iff, String.eqb_eq in Hdot.
  cbn [default] in Hresolved. unfold resolvePlanTargetAgainstRegistry in Hresolved.
  apply resolveAmong_sound in Hresolved
    as (captures & Hin & Hplan & Hmatch & Hfields & Hprovider & Haccount).
  apply entriesForType_elem in Hin as [Hin Htypes].
  destruct (toResolvedPlanTarget_fields _ _ _ _ Hfields) as (_ & Hsegments & Href).
  split.
  - exact Hin.
  - exact Hplan.
  - exists type. split; [exact Htype|exact Htypes].
  - exact Hsegments.
  - by rewrite Hsegments.
  - rewrite Hsegments. by apply no_forbidden_segment.
  - by rewrite Hsegments.
  - exists captures. rewrite Hsegments. split; [exact Hmatch|exact Href].
  - intros wanted. by apply idCheck_supplied.
  - intros wanted. by apply idCheck_supplied.
Qed.

(** A target that [resolveValidatedPlanTarget] accepts lies on a
    registered plan pattern: the entry returned belongs to the registry,
    is included in plans and is registered for the candidate's type
    (possibly as an alias); the returned segments are the candidate's
    normalised segments, are not empty, contain none of [__proto__],
    [prototype], [constructor], serialise to the trimmed path and are
    matched by the entry's pattern, whose captures rebuild the sibling
    ref path; a non-blank provider or account id supplied by the caller
    is the one extracted from the path. *)
Theorem accepted_target_is_registered (registry : list CompiledTargetRegistryEntry)
    (c : PlanTargetCandidate) (resolved : ResolvedPlanTarget) :
  resolveValidatedPlanTarget registry c = inr (Some resolved) ->
  Registered registry c resolved.
Proof. apply resolved_is_registered. Qed.

Definition providerApiKey : SecretTargetRegistryEntry :=
  {| id := "models.providers.*.apiKey";
     targetType := "models.providers.apiKey";
     targetTypeAliases := [];
     configFile := OpenclawJson;
     pathPattern := "models.providers.*.apiKey";
     refPathPattern := None;
     secretShape := SecretInput;
     expectedResolvedValue := ExpectString;
     includeInPlan := true;
     includeInConfigure := true;
     includeInAudit := true;
     providerIdPathSegmentIndex := Some 2;
     accountIdPathSegmentIndex := None;
     authProfileType := None;
     trackProviderShadowing := true |}.

Definition providerRegistry : list CompiledTargetRegistryEntry :=
  omap compileTargetRegistryEntry [providerApiKey].

Definition openaiTarget : PlanTargetCandidate :=
  {| c_type := Some "models.providers.apiKey";
     c_path := Some "models.providers.openai.apiKey";
     c_pathSegments := None;
     c_agentId := None; c_providerId := VStr "openai"; c_accountId := VUndefined;
     c_authProfileProvider := None |}.

Lemma accepted_target_is_registered_witness :
  exists resolved,
    resolveValidatedPlanTarget providerRegistry openaiTarget = inr (Some resolved)
    /\ Registered providerRegistry openaiTarget resolved.
Proof.
  destruct (resolveValidatedPlanTarget providerRegistry openaiTarget)
    as [err|[resolved|]] eqn:H.
  - vm_compute in H. discriminate H.
  - exists resolved. split; [reflexivity|].
    apply (accepted_target_is_registered providerRegistry openaiTarget resolved H).
  - vm_compute in H. discriminate H.
Defined.

(** Every target of a plan that [isSecretsApplyPlan] accepts is an object
    whose candidate [resolveValidatedPlanTarget] accepts: it lies on a
    registered plan pattern and none of its segments is [__proto__],
    [prototype] or [constructor]. The plan has version 1 and protocol
    version 1. *)
Theorem accepted_plan_targets_are_registered
    (registry : list CompiledTargetRegistryEntry)
    (isValidSecretProviderAlias : string -> bool)
    (isSecretProviderConfigShape : Value -> bool) (plan : Value) :
  isSecretsApplyPlan registry isValidSecretProviderAlias isSecretProviderConfigShape plan
  = inr true ->
  exists typed targets,
    plan = VObj typed
    /\ getProp typed "version" = VNum 1 /\ getProp typed "protocolVersion" = VNum 1
    /\ getProp typed "targets" = VArr targets
    /\ forall target, target ∈ targets ->
         exists fields resolved,
           target = VObj fields
           /\ resolveValidatedPlanTarget registry (candidateOf fields)
              = inr (Some resolved)
           /\ Registered registry (candidateOf fields) resolved.
Proof.
  unfold isSecretsApplyPlan. intros Hplan.
  destruct plan as [| | | | | |typed]; try discriminate Hplan.
  destruct (isOne (getProp typed "version") && isOne (getProp typed "protocolVersion"))
    eqn:Hversions; [|discriminate Hplan].
  apply andb_true_iff in Hversions as [Hversion Hprotocol].
  destruct (getProp typed "targets") as [| | | | |targets|] eqn:Hlist;
    try discriminate Hplan.
  assert (Htargets : targetsPass registry targets = inr true).
  { destruct (targetsPass registry targets) as [err|[|]]; done. }
  clear Hplan.
  exists typed, targets. split; [reflexivity|].
  split. { destruct (getProp typed "version") as [| | |[|[]|]| | |]; done. }
  split. { destruct (getProp typed "protocolVersion") as [| | |[|[]|]| | |]; done. }
  split; [exact Hlist|].
  intros target Hin. assert (Hpasses : targetPasses registry target = inr true).
  { clear Hlist. induction targets as [|first rest IH]; [by apply elem_of_nil in Hin|].
    cbn [targetsPass] in Htargets.
    destruct (targetPasses registry first) as [err|[|]] eqn:Hfirst; try discriminate Htargets.
    apply elem_of_cons in Hin as [-> | Hin]; [exact Hfirst|by apply IH]. }
  unfold targetPasses in Hpasses.
  destruct target as [| | | | | |fields]; try discriminate Hpasses.
  destruct (resolveValidatedPlanTarget registry (candidateOf fields)) as [err|[resolved|]]
    eqn:Hresolved; try discriminate Hpasses.
  exists fields, resolved. split; [reflexivity|]. split; [exact Hresolved|].
  by apply resolved_is_registered.
Qed.

Lemma accepted_plan_targets_are_registered_witness :
  exists typed targets,
    VObj [("version", VNum 1); ("protocolVersion", VNum 1);
          ("targets", VArr [VObj [("type", VStr "models.providers.apiKey");
                                  ("path", VStr "models.providers.openai.apiKey");
                                  ("ref", VObj [("source", VStr "env");
                                                ("provider", VStr "default");
                                                ("id", VStr "OPENAI_API_KEY")])]])]
    = VObj typed
    /\ getProp typed "version" = VNum 1 /\ getProp typed "protocolVersion" = VNum 1
    /\ getProp typed "targets" = VArr targets
    /\ forall target, target ∈ targets ->
         exists fields resolved,
           target = VObj fields
           /\ resolveValidatedPlanTarget providerRegistry (candidateOf fields)
              = inr (Some resolved)
           /\ Registered providerRegistry (candidateOf fields) resolved.
Proof.
  apply (accepted_plan_targets_are_registered providerRegistry
           (fun _ => true) (fun _ => true)).
  reflexivity.
Defined.

End PlanAcceptanceFacts.

(** ** The audit report: summary, status and exit code *)

Module AuditReportFacts.
Import Audit.

Lemma counts_partition entries :
  countCode PLAINTEXT_FOUND entries + countCode REF_UNRESOLVED entries
  + countCode REF_SHADOWED entries + countCode LEGACY_RESIDUE entries
  = length entries.
Proof.
  induction entries as [|entry rest IH]; [reflexivity|]. cbn [countCode length].
  destruct (code entry); cbn [codeEqb]; lia.
Qed.

(** The four counts of the summary partition the findings: every finding
    is counted once, so the counts add up to the number of findings. *)
Theorem summary_counts_every_finding_once (entries : list SecretsAuditFinding) :
  let counts := summarizeFindings entries in
  plaintextCount counts + unresolvedRefCount counts + shadowedRefCount counts
  + legacyResidueCount counts = length entries.
Proof. apply counts_partition. Qed.

(** The status of the report that [runSecretsAudit] builds and the exit
    code agree: the code is 2 exactly when the status is "unresolved";
    under [--check] it is 1 exactly when the status is "findings" and 0
    exactly when the status is "clean", which is the case exactly when
    there is no finding; without [--check] it is 0 unless the status is
    "unresolved". *)
Theorem audit_status_agrees_with_exit_code (sortedFiles : list string)
    (entries : list SecretsAuditFinding) (check : bool) :
  let report := buildAuditReport sortedFiles entries in
  (resolveSecretsAuditExitCode report check = 2%Z <-> status report = StatusUnresolved)
  /\ (resolveSecretsAuditExitCode report true = 1%Z <-> status report = StatusFindings)
  /\ (resolveSecretsAuditExitCode report true = 0%Z <-> status report = StatusClean)
  /\ (status report = StatusClean <-> entries = [])
  /\ (resolveSecretsAuditExitCode report false = 0%Z
      <-> status report <> StatusUnresolved).
Proof.
  cbn zeta. unfold resolveSecretsAuditExitCode, buildAuditReport.
  cbn [summary findings status summarizeFindings unresolvedRefCount].
  pose proof (counts_partition entries) as Hsum.
  destruct (0 <? countCode REF_UNRESOLVED entries)%nat eqn:Hunresolved.
  - apply Nat.ltb_lt in Hunresolved.
    repeat split; try discriminate; try done.
    + intros ->. cbn in Hunresolved. lia.
  - destruct entries as [|entry rest]; cbn [length Nat.ltb Nat.leb andb].
    + destruct check; repeat split; try discriminate; done.
    + destruct check; repeat split; try discriminate; done.
Qed.

End AuditReportFacts.

(** ** Tlon ship names *)

Module TlonShipFacts.
Import JsString Tlon StringFacts.

Lemma trim_tilde (t : string) :
  truthy t = true -> trimEnd t = t -> trim ("~" +:+ t) = "~" +:+ t.
Proof.
  intros Htruthy Htrimmed. rewrite app_cons, app_nil_l. unfold trim.
  cbn [trimStart]. change (isWhite "~") with false. cbn [trimEnd]. rewrite Htrimmed.
  destruct t; [discriminate Htruthy|reflexivity].
Qed.

(** [normalizeTlonShip] is idempotent, and the name it returns is empty
    (for a blank input) or begins with [~]; it never has white space at
    either end. *)
Theorem normalizeTlonShip_idempotent (raw : string) :
  normalizeTlonShip (normalizeTlonShip raw) = normalizeTlonShip raw
  /\ (normalizeTlonShip raw = "" \/ startsWith (normalizeTlonShip raw) "~" = true)
  /\ (normalizeTlonShip raw = "" <-> isBlank raw = true)
  /\ trim (normalizeTlonShip raw) = normalizeTlonShip raw.
Proof.
  assert (Hidem : trim (trim raw) = trim raw) by apply DotPathFacts.trim_idem.
  assert (Hend : trimEnd (trim raw) = trim raw) by apply DotPathFacts.trimEnd_idem.
  unfold isBlank.
  destruct (truthy (trim raw)) eqn:Htruthy.
  - destruct (startsWith (trim raw) "~") eqn:Htilde.
    + assert (Hship : normalizeTlonShip raw = trim raw).
      { unfold normalizeTlonShip. by rewrite Htruthy, Htilde. }
      rewrite Hship. split; [|split; [|split]].
      * unfold normalizeTlonShip. by rewrite Hidem, Htruthy, Htilde.
      * right. exact Htilde.
      * split; [|discriminate]. intros Hempty. rewrite Hempty in Htruthy.
        discriminate Htruthy.
      * exact Hidem.
    + assert (Hship : normalizeTlonShip raw = String "~" (trim raw)).
      { unfold normalizeTlonShip. by rewrite Htruthy, Htilde. }
      assert (Htrim : trim (String "~" (trim raw)) = String "~" (trim raw)).
      { apply (trim_tilde _ Htruthy Hend). }
      rewrite Hship. split; [|split; [|split]].
      * unfold normalizeTlonShip. rewrite Htrim. clear. by destruct (trim raw).
      * right. clear. by destruct (trim raw).
      * split; discriminate.
      * exact Htrim.
  - assert (Hship : normalizeTlonShip raw = "").
    { unfold normalizeTlonShip. rewrite Htruthy. by destruct (trim raw). }
    rewrite Hship. split; [reflexivity|]. split; [by left|]. split; [|reflexivity].
    split; reflexivity.
Qed.

End TlonShipFacts.

(** ** Atomic writes, snapshots and the commit of an apply *)

Module AtomicWriteFacts.
Import JsString Json Apply ApplyFacts.

Lemma tempPath_longer (pid : nat) (target : string) (time : nat) :
  tempPathFor pid target time <> target.
Proof.
  unfold tempPathFor. intros Hsame. apply (f_equal String.length) in Hsame.
  rewrite !StringFacts.app_length in Hsame. cbn [String.length] in Hsame. lia.
Qed.

Lemma toSorted_keeps_items (items : list string) : toSorted items = [] -> items = [].
Proof.
  destruct items as [|item rest]; [reflexivity|]. cbn [toSorted foldr].
  destruct (foldr insertSorted [] rest) as [|t sorted]; cbn [insertSorted];
    [discriminate|]. destruct (String.leb item t); discriminate.
Qed.

Section Machine.
Variable fault : nat -> option Fault.
Variable pid : nat.
Variable now : nat -> nat.
Variable createMode : Z.
Variable writeConfigFile : Value -> Value -> Files -> Files * option JsError.
Variable stringifyJson : Value -> string.
Variable projectPlanState : Value -> Files -> JsError + ProjectedState.

Lemma perform_fails {A : Type} call (run : Files -> option (A * Files)) w err w' :
  perform fault call run untouched w = (inl err, w') -> files w' = files w.
Proof.
  intros Hrun.
  apply perform_inv in Hrun as [_ [(f & _ & _ & Hfiles)|[(a & _ & Hr)|(_ & _ & Hfiles)]]];
    [exact Hfiles|discriminate Hr|exact Hfiles].
Qed.

Lemma perform_reads {A : Type} call (run : Files -> option (A * Files)) w r w' :
  (forall fs a fs', run fs = Some (a, fs') -> fs' = fs) ->
  perform fault call run untouched w = (r, w') -> files w' = files w.
Proof.
  intros Hreads Hrun.
  apply perform_inv in Hrun as [_ [(f & _ & _ & Hfiles)|[(a & Hok & _)|(_ & _ & Hfiles)]]];
    [exact Hfiles| |exact Hfiles].
  by apply Hreads in Hok.
Qed.

(** What an atomic write leaves at its target. *)
Definition AtomicOutcome (target text : string) (mode : Z) (before : Files)
    (r : JsError + unit) (after : Files) : Prop :=
  match r with
  | inr _ => after !! target = Some {| fileContent := text; fileMode := mode |}
  | inl _ => after !! target = before !! target
  end.

Lemma atomic_write_outcome target text mode w r w' :
  writeTextFileAtomic fault pid now createMode target text mode w = (r, w') ->
  AtomicOutcome target text mode (files w) r (files w').
Proof.
  unfold writeTextFileAtomic, AtomicOutcome. intros Hrun.
  apply bind_inv in Hrun as [(err & Hfail & ->)|(u & w1 & Hmkdir & Hrun)].
  { apply perform_fails in Hfail. by rewrite Hfail. }
  assert (Hw1 : files w1 = files w).
  { unfold ensureDirForFile in Hmkdir. eapply perform_reads; [|exact Hmkdir].
    intros fs a fs' Hok. cbn in Hok. congruence. }
  apply bind_inv in Hrun as [(err & Hfail & ->)|(time & w2 & Hnow & Hrun)].
  { unfold dateNow in Hfail. discriminate Hfail. }
  unfold dateNow in Hnow. injection Hnow as <- <-.
  set (tempPath := tempPathFor pid target (now (length (calls w1)))) in *.
  assert (Hne : target <> tempPath).
  { intros Hsame. symmetry in Hsame. by apply tempPath_longer in Hsame. }
  apply bind_inv in Hrun as [(err & Hfail & ->)|(u2 & w3 & Hwrite & Hrun)].
  { rewrite <- Hw1. apply (frames_writeFileSync fault createMode tempPath text _ _ _ Hfail).
    exact Hne. }
  apply writeFileSync_ok in Hwrite.
  apply bind_inv in Hrun as [(err & Hfail & ->)|(u3 & w4 & Hchmod & Hrun)].
  { apply perform_fails in Hfail. rewrite Hfail, Hwrite, <- Hw1.
    by apply written_other. }
  apply chmodSync_ok in Hchmod as (f & Htemp & Hmode).
  rewrite Hwrite in Htemp. unfold written in Htemp. rewrite lookup_insert_eq in Htemp.
  injection Htemp as <-. cbn [fileContent] in Hmode.
  destruct r as [err|u4].
  - apply perform_fails in Hrun. rewrite Hrun, Hmode, lookup_insert_ne by congruence.
    rewrite Hwrite, <- Hw1. by apply written_other.
  - apply renameSync_ok in Hrun as (f' & Htemp' & ->).
    rewrite Hmode, lookup_insert_eq in Htemp'. injection Htemp' as <-.
    by rewrite lookup_insert_eq.
Qed.

(** [writeTextFileAtomic] replaces its target in one step: when it
    returns, the target holds exactly the text, with the mode asked for;
    when any of its calls throws, the target is as it was before the
    call, whatever a failed write left in the temporary file. In both
    cases no file other than the target and its temporary file is
    touched. *)
Theorem atomic_write_replaces_or_leaves_target (target text : string) (mode : Z)
    (w : World) :
  let run := writeTextFileAtomic fault pid now createMode target text mode w in
  match run.1 with
  | inr _ => files run.2 !! target = Some {| fileContent := text; fileMode := mode |}
  | inl _ => files run.2 !! target = files w !! target
  end
  /\ forall pathname,
       pathname <> target /\ (forall time, pathname <> tempPathFor pid target time) ->
       files run.2 !! pathname = files w !! pathname.
Proof.
  cbn zeta.
  destruct (writeTextFileAtomic fault pid now createMode target text mode w)
    as [r w'] eqn:Hrun.
  cbn [fst snd]. split.
  - apply (atomic_write_outcome _ _ _ _ _ _ Hrun).
  - intros pathname [Htarget Htemp].
    apply (frames_writeTextFileAtomic fault pid now createMode target text mode _ _ _ Hrun).
    intros [Hsame|[time Hsame]]; [by apply Htarget|by apply (Htemp time)].
Qed.

(** The mode [restoreFileSnapshot] gives back to a file whose mode was
    [fileMode]: the permission bits, or 0o600 when there is none. *)
Definition restoredMode (fileMode : Z) : Z :=
  if Z.eqb (Z.land fileMode 511) 0 then 384 else Z.land fileMode 511.

(** A snapshot taken by [captureFileSnapshot] and given back by
    [restoreFileSnapshot] brings the file back, whatever happened to it
    in between: a file that did not exist is absent again, a file that
    existed has its content again and its permission bits (0o600 when it
    had none). *)
Theorem snapshot_restore_round_trip (pathname : string) (w w1 w2 w3 : World)
    (snapshot : FileSnapshot) (u : unit) :
  captureFileSnapshot fault pathname w = (inr snapshot, w1) ->
  restoreFileSnapshot fault pid now createMode pathname snapshot w2 = (inr u, w3) ->
  files w3 !! pathname
  = (fun f => {| fileContent := fileContent f; fileMode := restoredMode (fileMode f) |})
      <$> files w !! pathname.
Proof.
  unfold captureFileSnapshot, restoreFileSnapshot. intros Hcapture Hrestore.
  apply bind_inv in Hcapture as [(err & _ & Hr)|(present & w0 & Hexists & Hcapture)];
    [discriminate Hr|].
  apply existsSync_inv in Hexists as [-> Hpresent]. injection Hpresent as ->.
  case_bool_decide as Hfile; cbn [negb] in Hcapture.
  - apply bind_inv in Hcapture as [(err & _ & Hr)|(statMode & w4 & Hstat & Hcapture)];
      [discriminate Hr|].
    apply bind_inv in Hcapture as [(err & _ & Hr)|(text & w5 & Hread & Hcapture)];
      [discriminate Hr|].
    apply statSync_ok in Hstat as (Hsame & f & Hlookup & ->).
    apply readFileSync_ok in Hread as (_ & f' & Hlookup' & ->).
    apply ret_inv in Hcapture as [_ Hresult]. injection Hresult as ->.
    rewrite Hsame, Hlookup in Hlookup'. injection Hlookup' as <-.
    cbn [existed negb content mode] in Hrestore.
    apply atomic_write_outcome in Hrestore. unfold AtomicOutcome in Hrestore.
    rewrite Hrestore, Hlookup. reflexivity.
  - apply ret_inv in Hcapture as [_ Hresult]. injection Hresult as ->.
    cbn [existed negb] in Hrestore.
    assert (Habsent : files w !! pathname = None).
    { destruct (files w !! pathname) eqn:Hlookup; [|reflexivity]. destruct Hfile. eauto. }
    rewrite Habsent. cbn [fmap option_fmap option_map].
    apply bind_inv in Hrestore as [(err & _ & Hr)|(present & w4 & Hexists & Hrestore)];
      [discriminate Hr|].
    apply existsSync_inv in Hexists as [-> Hpresent]. injection Hpresent as ->.
    case_bool_decide as Hthere.
    + apply rmSync_ok in Hrestore as ->. by rewrite lookup_delete_eq.
    + apply ret_inv in Hrestore as [-> _].
      destruct (files w2 !! pathname) eqn:Hlookup; [|reflexivity]. destruct Hthere. eauto.
Qed.

Lemma writeEach_frames writes : forall w r w' pathname,
  writeEach fault pid now createMode writes w = (r, w') ->
  (forall item, item ∈ writes -> ~ OwnedBy pid (writePath item) pathname) ->
  files w' !! pathname = files w !! pathname.
Proof.
  induction writes as [|first rest IH]; intros w r w' pathname Hrun Hout;
    cbn [writeEach] in Hrun.
  - apply ret_inv in Hrun as [-> _]. reflexivity.
  - assert (Hfirst : ~ OwnedBy pid (writePath first) pathname).
    { apply Hout. apply elem_of_cons. by left. }
    apply bind_inv in Hrun as [(err & Hfail & _)|(u1 & w1 & Hwrite & Hrun)].
    + by apply (frames_writeTextFileAtomic fault pid now createMode _ _ _ _ _ _ Hfail).
    + rewrite (IH _ _ _ pathname Hrun).
      * by apply (frames_writeTextFileAtomic fault pid now createMode _ _ _ _ _ _ Hwrite).
      * intros item Hin. apply Hout. apply elem_of_cons. by right.
Qed.

Lemma writeEach_ok writes : forall w u w',
  writeEach fault pid now createMode writes w = (inr u, w') ->
  NoDup (map writePath writes) ->
  TempFree pid (map writePath writes) ->
  forall item, item ∈ writes ->
    files w' !! writePath item
    = Some {| fileContent := writeContent item; fileMode := writeMode item |}.
Proof.
  induction writes as [|first rest IH]; intros w u w' Hrun Hnodup Hfree item Hin.
  - by apply elem_of_nil in Hin.
  - cbn [writeEach] in Hrun. cbn [map] in Hnodup, Hfree.
    apply NoDup_cons in Hnodup as [Hfresh Hnodup].
    apply bind_inv in Hrun as [(err & _ & Hr)|(u1 & w1 & Hfirst & Hrun)];
      [discriminate Hr|].
    apply elem_of_cons in Hin as [->|Hin].
    + apply atomic_write_outcome in Hfirst. unfold AtomicOutcome in Hfirst.
      rewrite <- Hfirst. apply (writeEach_frames _ _ _ _ _ Hrun).
      intros item Hin [Hsame|[time Hsame]].
      * apply Hfresh. rewrite Hsame. apply list_elem_of_fmap. by exists item.
      * apply (Hfree (writePath first) (writePath item) time).
        -- apply elem_of_cons. by left.
        -- apply elem_of_cons. right. apply list_elem_of_fmap. by exists item.
        -- by rewrite Hsame.
    + apply (IH _ _ _ Hrun Hnodup); [|exact Hin].
      intros p q time Hp Hq. apply Hfree; apply elem_of_cons; by right.
Qed.

Lemma plannedWrites_mode projected item :
  item ∈ plannedWrites stringifyJson projected -> writeMode item = 384%Z.
Proof.
  unfold plannedWrites. rewrite !elem_of_app, !list_elem_of_fmap.
  intros [(x & -> & _)|[(x & -> & _)|(x & -> & _)]]; reflexivity.
Qed.

(** When [runSecretsApply] returns in write mode for a plan that changes
    files, every planned write (auth-profile stores, legacy auth stores,
    .env files) is in place: the file holds exactly the planned content
    with mode 0o600, provided the planned paths are distinct and none is
    the temporary file of another. The result reports the sorted changed
    files. *)
Theorem apply_success_writes_planned_files (params : ApplyParams) (w w' : World)
    (projected : ProjectedState) (result : SecretsApplyResult) :
  projectPlanState (plan params) (files w) = inr projected ->
  write params = true ->
  changedFiles projected <> [] ->
  NoDup (map writePath (plannedWrites stringifyJson projected)) ->
  TempFree pid (map writePath (plannedWrites stringifyJson projected)) ->
  runSecretsApply fault pid now createMode writeConfigFile stringifyJson projectPlanState
    params w = (inr result, w') ->
  result = applyResult WriteMode (toSorted (changedFiles projected)) projected
  /\ changed result = true
  /\ forall item, item ∈ plannedWrites stringifyJson projected ->
       files w' !! writePath item
       = Some {| fileContent := writeContent item; fileMode := 384 |}.
Proof.
  intros Hprojected Hwrite Hchanged Hnodup Hfree. unfold runSecretsApply.
  rewrite Hprojected, Hwrite. cbn [negb].
  destruct (Nat.eqb (length (toSorted (changedFiles projected))) 0) eqn:Hnone.
  { exfalso. apply Hchanged, toSorted_keeps_items.
    destruct (toSorted (changedFiles projected)); [reflexivity|discriminate Hnone]. }
  destruct (captureAll fault (capturedPaths projected) [] w) as [[err|snapshots] w1];
    [discriminate|].
  destruct (commit fault pid now createMode writeConfigFile stringifyJson projected w1)
    as [[err|u] w2] eqn:Hcommit; [discriminate|].
  intros Hresult. injection Hresult as <- <-. split; [reflexivity|]. split.
  { cbn. by rewrite Hnone. }
  intros item Hin. unfold commit in Hcommit.
  apply bind_inv in Hcommit as [(err & _ & Hr)|(u1 & w3 & _ & Hwrites)];
    [discriminate Hr|].
  rewrite <- (plannedWrites_mode projected item Hin).
  by apply (writeEach_ok _ _ _ _ Hwrites Hnodup Hfree).
Qed.

End Machine.

Definition quietDisk (n : nat) : option Fault := None.

Definition envPath : string := "/home/u/.openclaw/.env".
Definition storePath : string := "/home/u/.openclaw/agents/main/agent/auth-profiles.json".
Definition mainConfigPath : string := "/home/u/.openclaw/openclaw.json".

Definition envFiles : Files :=
  <[envPath := {| fileContent := "OPENAI_API_KEY=sk-old"; fileMode := 33188 |}]> ∅.

Definition editedFiles : Files :=
  <[envPath := {| fileContent := ""; fileMode := 384 |}]> ∅.

Lemma snapshot_restore_round_trip_witness :
  files (restoreFileSnapshot quietDisk 4242 (fun n => n) 420 envPath
           {| existed := true; content := "OPENAI_API_KEY=sk-old"; mode := 420 |}
           {| files := editedFiles; calls := [] |}).2 !! envPath
  = Some {| fileContent := "OPENAI_API_KEY=sk-old"; fileMode := 420 |}.
Proof.
  assert (Hcapture : captureFileSnapshot quietDisk envPath {| files := envFiles; calls := [] |}
                     = (inr {| existed := true; content := "OPENAI_API_KEY=sk-old";
                               mode := 420 |},
                        {| files := envFiles;
                           calls := [StatSync envPath; ReadFileSync envPath] |}))
    by (vm_compute; reflexivity).
  destruct (restoreFileSnapshot quietDisk 4242 (fun n => n) 420 envPath
              {| existed := true; content := "OPENAI_API_KEY=sk-old"; mode := 420 |}
              {| files := editedFiles; calls := [] |}) as [[err|u] w3] eqn:Hrestore.
  - vm_compute in Hrestore. discriminate Hrestore.
  - cbn [snd]. rewrite (snapshot_restore_round_trip quietDisk 4242 (fun n => n) 420 envPath
               _ _ _ _ _ _ Hcapture Hrestore).
    vm_compute. reflexivity.
Defined.

Definition quietWriter (config options : Value) (fs : Files) : Files * option JsError :=
  (<[mainConfigPath := {| fileContent := "{new config}"; fileMode := 384 |}]> fs, None).

Definition emptyJson (value : Value) : string := "{}".

Definition scrubProjected : ProjectedState :=
  {| nextConfig := VObj [];
     configPath := mainConfigPath;
     configWriteOptions := VObj [];
     authStoreByPath := [(storePath, VObj [])];
     authJsonByPath := [];
     envRawByPath := [(envPath, "")];
     changedFiles := [envPath; mainConfigPath; storePath];
     warnings := [] |}.

Definition scrubProjection (plan : Value) (fs : Files) : JsError + ProjectedState :=
  inr scrubProjected.

Lemma apply_success_writes_planned_files_witness :
  let run := runSecretsApply quietDisk 4242 (fun n => n) 420 quietWriter emptyJson
               scrubProjection {| plan := VObj []; write := true |}
               {| files := envFiles; calls := [] |} in
  files run.2 !! storePath
    = Some {| fileContent := String "{" (String "}" (String "010" "")); fileMode := 384 |}
  /\ files run.2 !! envPath = Some {| fileContent := ""; fileMode := 384 |}.
Proof.
  cbn zeta.
  destruct (runSecretsApply quietDisk 4242 (fun n => n) 420 quietWriter emptyJson
              scrubProjection {| plan := VObj []; write := true |}
              {| files := envFiles; calls := [] |}) as [[err|result] w'] eqn:Hrun.
  - vm_compute in Hrun. discriminate Hrun.
  - cbn [snd].
    assert (Hnodup : NoDup (map writePath (plannedWrites emptyJson scrubProjected))).
    { cbn. apply NoDup_cons. split.
      - intros Hin. apply list_elem_of_singleton in Hin. discriminate Hin.
      - apply NoDup_singleton. }
    assert (Hfree : TempFree 4242 (map writePath (plannedWrites emptyJson scrubProjected))).
    { intros p q time Hp Hq. apply list_elem_of_In in Hp, Hq. cbn in Hp, Hq.
      destruct Hp as [<-|[<-|[]]], Hq as [<-|[<-|[]]];
        cbv [tempPathFor storePath envPath String.append]; discriminate. }
    assert (Hchanged : changedFiles scrubProjected <> []) by discriminate.
    destruct (apply_success_writes_planned_files quietDisk 4242 (fun n => n) 420 quietWriter
                emptyJson scrubProjection {| plan := VObj []; write := true |}
                {| files := envFiles; calls := [] |} w' scrubProjected result
                eq_refl eq_refl Hchanged Hnodup Hfree Hrun) as (_ & _ & Hwritten).
    split.
    + apply (Hwritten {| writePath := storePath;
                         writeContent := String "{" (String "}" (String "010" ""));
                         writeMode := 384 |}).
      apply list_elem_of_In. left. reflexivity.
    + apply (Hwritten {| writePath := envPath; writeContent := ""; writeMode := 384 |}).
      apply list_elem_of_In. right. left. reflexivity.
Defined.

End AtomicWriteFacts.

(** ** What the configuration collectors record *)

Module CollectorPathFacts.
Import JsString Json PathUtils RuntimeShared CoreCollectors ChannelCollectors AuthCollectors.
Import CommandSecrets RuntimeSnapshot StringFacts ContextFacts CollectFacts SnapshotFacts.

(** The closure of the assignment writes into the configuration, at the
    place that the path of the assignment names. *)
Definition WritesAtPath (a : SecretAssignment) : Prop :=
  exists location, apply a = ConfigField location /\ assignmentPath a = toDotPath location.

Lemma join_app (location rest : list string) :
  location <> [] -> rest <> [] ->
  join "." (location ++ rest) = join "." location +:+ "." +:+ join "." rest.
Proof.
  intros Hlocation Hrest. induction location as [|segment location' IH]; [done|].
  destruct location' as [|next location''].
  - destruct rest; [done|reflexivity].
  - change (join "." ((segment :: next :: location'') ++ rest))
      with (segment +:+ "." +:+ join "." ((next :: location'') ++ rest)).
    rewrite IH by discriminate.
    change (join "." (segment :: next :: location''))
      with (segment +:+ "." +:+ join "." (next :: location'')).
    by rewrite !app_assoc.
Qed.

Lemma writes_at_suffix ref pathPrefix location suffixPath suffix expected :
  pathPrefix = toDotPath location -> location <> [] -> suffix <> [] ->
  suffixPath = "." +:+ join "." suffix ->
  WritesAtPath (mkAssignment ref (pathPrefix +:+ suffixPath) expected
                  (ConfigField (location ++ suffix))).
Proof.
  intros -> Hlocation Hsuffix ->. exists (location ++ suffix). split; [reflexivity|].
  cbn [assignmentPath]. unfold toDotPath. by rewrite join_app.
Qed.

Section Collectors.
Variable coerceSecretRef : Value -> Value -> option SecretRef.
Variable hasConfiguredSecretInput : Value -> Value -> bool.

Ltac plain :=
  first [ exact I | reflexivity | assumption
        | apply GatewayFacts.remoteInactiveReason_plain; auto
        | match goal with
          | |- PlainReason (if ?b then _ else _) => destruct b; first [exact I | reflexivity]
          end ].

Ltac at_path := intros; eexists; split; reflexivity.

Ltac collects_step :=
  match goal with
  | |- Extends _ ?c ?c => apply Extends_refl
  | |- Extends _ ?c (collectSecretInputAssignment _ _ _ _ _ _ _ _ ?c') =>
      apply (Extends_trans _ c c'); [|apply extends_collect; [plain|try at_path]]
  | |- Extends _ ?c (fold_left _ _ ?c') =>
      apply (Extends_trans _ c c'); [|apply extends_fold_left; intros]
  | |- Extends _ _ (match ?x with _ => _ end) => destruct x eqn:?
  | |- Extends _ _ (if ?b then _ else _) => destruct b eqn:?
  end.

Ltac collects := cbv zeta; repeat collects_step.

Lemma tts_at_path tts pathPrefix location defaults active reason ctx :
  PlainReason reason -> pathPrefix = toDotPath location -> location <> [] ->
  Extends WritesAtPath ctx
    (collectTtsApiKeyAssignments coerceSecretRef tts pathPrefix location defaults active
       reason ctx).
Proof.
  intros Hplain Hprefix Hlocation. unfold collectTtsApiKeyAssignments. collects;
    intros; by apply writes_at_suffix.
Qed.

Lemma models_at_path providers defaults ctx :
  Extends WritesAtPath ctx
    (collectModelProviderAssignments coerceSecretRef providers defaults ctx).
Proof. unfold collectModelProviderAssignments. collects. Qed.

Lemma skills_at_path entries defaults ctx :
  Extends WritesAtPath ctx (collectSkillAssignments coerceSecretRef entries defaults ctx).
Proof. unfold collectSkillAssignments. collects. Qed.

Lemma agent_override_at_path defaults ctx item :
  Extends WritesAtPath ctx (collectAgentOverride coerceSecretRef defaults ctx item).
Proof. unfold collectAgentOverride. collects. Qed.

Lemma agents_at_path config defaults ctx :
  Extends WritesAtPath ctx
    (collectAgentMemorySearchAssignments coerceSecretRef config defaults ctx).
Proof.
  unfold collectAgentMemorySearchAssignments. collects; apply agent_override_at_path.
Qed.

Lemma talk_at_path config defaults ctx :
  Extends WritesAtPath ctx (collectTalkAssignments coerceSecretRef config defaults ctx).
Proof. unfold collectTalkAssignments. collects. Qed.

Lemma gateway_at_path config defaults ctx :
  Extends WritesAtPath ctx
    (collectGatewayAssignments coerceSecretRef hasConfiguredSecretInput config defaults ctx).
Proof. unfold collectGatewayAssignments. collects. Qed.

Lemma messages_at_path config defaults ctx :
  Extends WritesAtPath ctx
    (collectMessagesTtsAssignments coerceSecretRef config defaults ctx).
Proof.
  unfold collectMessagesTtsAssignments. collects.
  apply tts_at_path; [exact I|reflexivity|discriminate].
Qed.

Lemma web_search_at_path search defaults ctx item :
  item ∈ webSearchPaths ->
  Extends WritesAtPath ctx (collectWebSearchPath coerceSecretRef search defaults ctx item).
Proof.
  intros Hitem. unfold webSearchPaths in Hitem.
  repeat (apply elem_of_cons in Hitem as [->|Hitem]);
    [..|by apply elem_of_nil in Hitem]; unfold collectWebSearchPath; cbn [fst snd];
    collects.
Qed.

Lemma tools_at_path config defaults ctx :
  Extends WritesAtPath ctx
    (collectToolsWebSearchAssignments coerceSecretRef config defaults ctx).
Proof.
  unfold collectToolsWebSearchAssignments.
  destruct (prop _ "search"); try apply Extends_refl.
  apply extends_fold_left_elem. intros. by apply web_search_at_path.
Qed.

Lemma cron_at_path config defaults ctx :
  Extends WritesAtPath ctx (collectCronAssignments coerceSecretRef config defaults ctx).
Proof. unfold collectCronAssignments. collects. Qed.

Lemma core_at_path config defaults ctx :
  Extends WritesAtPath ctx
    (collectCoreConfigAssignments coerceSecretRef hasConfiguredSecretInput config defaults
       ctx).
Proof.
  unfold collectCoreConfigAssignments. cbv zeta.
  repeat (eapply Extends_trans;
          [|first [apply cron_at_path | apply tools_at_path | apply messages_at_path
                  | apply gateway_at_path | apply talk_at_path | apply agents_at_path]]).
  eapply Extends_trans; [|destruct (prop _ "entries");
                           first [apply skills_at_path | apply Extends_refl]].
  destruct (prop _ "providers"); first [apply models_at_path | apply Extends_refl].
Qed.

Lemma simple_channel_at_path channelKey field channel surface defaults topReason
    accountReason ctx :
  noColon topReason = true -> noColon accountReason = true ->
  Extends WritesAtPath ctx
    (collectSimpleChannelFieldAssignments coerceSecretRef channelKey field channel surface
       defaults topReason accountReason ctx).
Proof. intros Htop Haccount. unfold collectSimpleChannelFieldAssignments. collects. Qed.

Ltac collects_channel :=
  cbv zeta;
  repeat first
    [ collects_step
    | match goal with
      | |- Extends _ ?c (collectTtsApiKeyAssignments _ _ _ _ _ _ _ ?c') =>
          apply (Extends_trans _ c c');
          [|apply tts_at_path; [plain|reflexivity|discriminate]]
      | |- Extends _ ?c (collectSimpleChannelFieldAssignments _ _ _ _ _ _ _ _ ?c') =>
          apply (Extends_trans _ c c'); [|by apply simple_channel_at_path]
      end ].

Lemma telegram_at_path config defaults ctx :
  Extends WritesAtPath ctx (collectTelegramAssignments coerceSecretRef config defaults ctx).
Proof. unfold collectTelegramAssignments. collects_channel. Qed.

Lemma slack_at_path config defaults ctx :
  Extends WritesAtPath ctx (collectSlackAssignments coerceSecretRef config defaults ctx).
Proof.
  unfold collectSlackAssignments.
  destruct (prop _ "slack"); try apply Extends_refl.
  apply extends_fold_left_elem. intros ctx' field Hfield.
  repeat (apply elem_of_cons in Hfield as [->|Hfield]);
    [..|by apply elem_of_nil in Hfield]; by apply simple_channel_at_path.
Qed.

Lemma discord_account_at_path defaults ctx entry :
  Extends WritesAtPath ctx (collectDiscordAccount coerceSecretRef defaults ctx entry).
Proof. unfold collectDiscordAccount. collects_channel. Qed.

Lemma discord_at_path config defaults ctx :
  Extends WritesAtPath ctx (collectDiscordAssignments coerceSecretRef config defaults ctx).
Proof.
  unfold collectDiscordAssignments. collects_channel; apply discord_account_at_path.
Qed.

Lemma irc_at_path config defaults ctx :
  Extends WritesAtPath ctx (collectIrcAssignments coerceSecretRef config defaults ctx).
Proof. unfold collectIrcAssignments. collects_channel. Qed.

Lemma bluebubbles_at_path config defaults ctx :
  Extends WritesAtPath ctx
    (collectBlueBubblesAssignments coerceSecretRef config defaults ctx).
Proof. unfold collectBlueBubblesAssignments. collects_channel. Qed.

Lemma msteams_at_path config defaults ctx :
  Extends WritesAtPath ctx (collectMSTeamsAssignments coerceSecretRef config defaults ctx).
Proof. unfold collectMSTeamsAssignments. collects_channel. Qed.

Lemma googlechat_account_at_path target p location defaults active reason ctx :
  PlainReason reason -> p = toDotPath location -> location <> [] ->
  Extends WritesAtPath ctx
    (collectGoogleChatAccountAssignment coerceSecretRef target p location defaults active
       reason ctx).
Proof.
  intros Hplain Hp Hlocation. apply extends_googlechat_account; [exact Hplain|].
  intros ref. by apply writes_at_suffix.
Qed.

Lemma googlechat_at_path googleChat defaults ctx :
  Extends WritesAtPath ctx
    (collectGoogleChatAssignments coerceSecretRef googleChat defaults ctx).
Proof.
  unfold collectGoogleChatAssignments. cbv zeta.
  repeat first
    [ collects_step
    | match goal with
      | |- Extends _ ?c (collectGoogleChatAccountAssignment _ _ _ _ _ _ _ ?c') =>
          apply (Extends_trans _ c c');
          [|apply googlechat_account_at_path; [plain|reflexivity|discriminate]]
      end ].
Qed.

Lemma channels_at_path config defaults ctx :
  Extends WritesAtPath ctx
    (collectChannelConfigAssignments coerceSecretRef config defaults ctx).
Proof.
  unfold collectChannelConfigAssignments. cbv zeta.
  repeat (eapply Extends_trans;
          [|first [apply msteams_at_path | apply bluebubbles_at_path | apply irc_at_path
                  | apply discord_at_path | apply slack_at_path | apply telegram_at_path]]).
  destruct (prop _ "googlechat"); first [apply googlechat_at_path | apply Extends_refl].
Qed.

Lemma config_at_path config ctx :
  Extends WritesAtPath ctx
    (collectConfigAssignments coerceSecretRef hasConfiguredSecretInput config ctx).
Proof.
  unfold collectConfigAssignments. cbv zeta.
  eapply Extends_trans; [apply core_at_path|apply channels_at_path].
Qed.

(** Every assignment that the configuration collectors record writes
    into the resolved configuration at the very place its path names:
    the path is the dot path of the location of the property that the
    closure of the assignment sets. *)
Theorem config_assignments_write_at_their_path (config sourceConfig : Value) :
  Forall (fun assignment =>
            exists location,
              apply assignment = ConfigField location
              /\ assignmentPath assignment = toDotPath location)
    (assignments
       (collectConfigAssignments coerceSecretRef hasConfiguredSecretInput config
          (createResolverContext sourceConfig))).
Proof.
  destruct (config_at_path config (createResolverContext sourceConfig))
    as [_ (added & -> & Hadded) _ _].
  exact Hadded.
Qed.

Variable resolveSecretRefValues : list SecretRef -> Value -> string + gmap string Value.
Variable loadAuthStore : string -> Value.
Variable resolveUserPath : string -> string.
Variable resolveOpenClawAgentDir : string.
Variable listAgentIds : Value -> list string.
Variable resolveAgentDir : Value -> string -> string.

(** The warnings of a prepared snapshot are pairwise distinct, and so
    are their keys [code:path:message]: whatever the configuration and
    the auth-profile stores, no collector records a warning twice. *)
Theorem snapshot_warnings_are_distinct (config : Value)
    (agentDirs : option (list string)) (snapshot : PreparedSecretsRuntimeSnapshot) :
  prepareSecretsRuntimeSnapshot coerceSecretRef hasConfiguredSecretInput
    resolveSecretRefValues loadAuthStore resolveUserPath resolveOpenClawAgentDir
    listAgentIds resolveAgentDir config agentDirs = inr snapshot ->
  NoDup (snapshotWarnings snapshot)
  /\ NoDup (map warningKey (snapshotWarnings snapshot)).
Proof.
  unfold prepareSecretsRuntimeSnapshot. cbv zeta. intros Hprepare.
  set (ctx1 := collectConfigAssignments coerceSecretRef hasConfiguredSecretInput config
                 (createResolverContext config)) in *.
  set (candidateDirs := match agentDirs with
                        | Some (first :: rest) => _
                        | _ => _
                        end) in *.
  assert (Hinv1 : Inv ctx1).
  { apply (config_at_path config (createResolverContext config)), inv_fresh. }
  pose proof (extends_auth_stores coerceSecretRef loadAuthStore candidateDirs (ctx1, []))
    as [Hauth _ _ _].
  destruct (fold_left _ candidateDirs (ctx1, [])) as [ctx2 authStores]. cbn [fst] in Hauth.
  specialize (Hauth Hinv1).
  assert (Hwarnings : snapshotWarnings snapshot = warnings ctx2).
  { destruct (assignments ctx2) as [|a rest].
    - by injection Hprepare as <-.
    - destruct (resolveSecretRefValues _ config); [discriminate Hprepare|].
      destruct (applyResolvedAssignments _ _ _); [discriminate Hprepare|].
      by injection Hprepare as <-. }
  rewrite Hwarnings. split; [by apply inv_warnings_nodup|apply Hauth].
Qed.

End Collectors.

(** Every object is read as the same ref. *)
Definition anyObjectRef (value defaults : Value) : option SecretRef :=
  match value with
  | VObj _ => Some (mkSecretRef "env" "default" "OPENAI_API_KEY")
  | _ => None
  end.

(** Two disabled providers, each with a ref as its key. *)
Definition disabledProviders : Value :=
  VObj [("models", VObj [("providers", VObj [
    ("openai", VObj [("enabled", VBool false); ("apiKey", VObj [])]);
    ("groq", VObj [("enabled", VBool false); ("apiKey", VObj [])])])])].

Lemma snapshot_warnings_are_distinct_witness :
  exists snapshot,
    prepareSecretsRuntimeSnapshot anyObjectRef (fun _ _ => false) (fun _ _ => inr ∅)
      (fun _ => VObj []) (fun dir => dir) "/home/u/.openclaw/agent" (fun _ => [])
      (fun _ agentId => agentId) disabledProviders None = inr snapshot
    /\ length (snapshotWarnings snapshot) = 2
    /\ NoDup (snapshotWarnings snapshot)
    /\ NoDup (map warningKey (snapshotWarnings snapshot)).
Proof.
  destruct (prepareSecretsRuntimeSnapshot anyObjectRef (fun _ _ => false)
              (fun _ _ => inr ∅) (fun _ => VObj []) (fun dir => dir)
              "/home/u/.openclaw/agent" (fun _ => []) (fun _ agentId => agentId)
              disabledProviders None) as [err|snapshot] eqn:Hprepare.
  - vm_compute in Hprepare. discriminate Hprepare.
  - exists snapshot. split; [reflexivity|]. split.
    + vm_compute in Hprepare. injection Hprepare as <-. reflexivity.
    + apply (snapshot_warnings_are_distinct anyObjectRef (fun _ _ => false)
               (fun _ _ => inr ∅) (fun _ => VObj []) (fun dir => dir)
               "/home/u/.openclaw/agent" (fun _ => []) (fun _ agentId => agentId)
               disabledProviders None snapshot Hprepare).
Defined.

End CollectorPathFacts.

(** ** When the resolved values can be applied *)

Module ResolvedAssignmentFacts.
Import JsString Json RuntimeShared RuntimeSnapshot.

(** The value the assignment is given: the one its ref resolved to, of
    the kind the assignment expects. *)
Definition Resolvable (resolved : gmap string Value) (assignment : SecretAssignment)
  : Prop :=
  exists value,
    resolved !! secretRefKey (ref assignment) = Some value
    /\ isExpectedResolvedSecretValue value (expected assignment) = true.

Lemma apply_returns assignments resolved : forall trees,
  Forall (Resolvable resolved) assignments ->
  exists trees', applyResolvedAssignments assignments resolved trees = inr trees'.
Proof.
  induction assignments as [|assignment rest IH]; intros trees Hall;
    cbn [applyResolvedAssignments]; [by eexists|].
  apply Forall_cons in Hall as [(value & Hvalue & Hexpected) Hrest].
  rewrite Hvalue, Hexpected. by apply IH.
Qed.

Lemma apply_returned assignments resolved : forall trees trees',
  applyResolvedAssignments assignments resolved trees = inr trees' ->
  Forall (Resolvable resolved) assignments.
Proof.
  induction assignments as [|assignment rest IH]; intros trees trees' Hrun;
    cbn [applyResolvedAssignments] in Hrun; [constructor|].
  destruct (resolved !! secretRefKey (ref assignment)) as [value|] eqn:Hvalue;
    [|discriminate Hrun].
  destruct (isExpectedResolvedSecretValue value (expected assignment)) eqn:Hexpected;
    [|discriminate Hrun].
  constructor; [by exists value|by eapply IH].
Qed.

Lemma apply_throws assignments resolved : forall trees message,
  applyResolvedAssignments assignments resolved trees = inl message ->
  exists before assignment after,
    assignments = before ++ assignment :: after
    /\ Forall (Resolvable resolved) before
    /\ ((resolved !! secretRefKey (ref assignment) = None
         /\ message = noValueMessage (secretRefKey (ref assignment)))
        \/ (exists value,
              resolved !! secretRefKey (ref assignment) = Some value
              /\ isExpectedResolvedSecretValue value (expected assignment) = false
              /\ message = unexpectedValueMessage assignment)).
Proof.
  induction assignments as [|assignment rest IH]; intros trees message Hrun;
    cbn [applyResolvedAssignments] in Hrun; [discriminate Hrun|].
  destruct (resolved !! secretRefKey (ref assignment)) as [value|] eqn:Hvalue.
  - destruct (isExpectedResolvedSecretValue value (expected assignment)) eqn:Hexpected.
    + apply IH in Hrun as (before & failing & after & -> & Hbefore & Hfailing).
      exists (assignment :: before), failing, after. split; [reflexivity|].
      split; [|exact Hfailing]. constructor; [by exists value|exact Hbefore].
    + injection Hrun as <-. exists [], assignment, rest. split; [reflexivity|].
      split; [constructor|]. right. by exists value.
  - injection Hrun as <-. exists [], assignment, rest. split; [reflexivity|].
    split; [constructor|]. by left.
Qed.

(** [applyResolvedAssignments] returns exactly when every assignment has
    a resolved value of the kind it expects (a non-blank string, or for
    "string-or-object" also a record). Otherwise it throws for the first
    assignment that has none: "resolved to no value" when the key of its
    ref is not among the resolved values, the message of its path when
    the value is of another kind. *)
Theorem resolved_assignments_apply_iff_all_expected
    (assignments : list SecretAssignment) (resolved : gmap string Value)
    (trees : RuntimeTrees) :
  ((exists trees', applyResolvedAssignments assignments resolved trees = inr trees')
   <-> Forall (fun assignment =>
                 exists value,
                   resolved !! secretRefKey (ref assignment) = Some value
                   /\ isExpectedResolvedSecretValue value (expected assignment) = true)
         assignments)
  /\ forall message,
       applyResolvedAssignments assignments resolved trees = inl message ->
       exists before assignment after,
         assignments = before ++ assignment :: after
         /\ Forall (fun earlier =>
                      exists value,
                        resolved !! secretRefKey (ref earlier) = Some value
                        /\ isExpectedResolvedSecretValue value (expected earlier) = true)
              before
         /\ ((resolved !! secretRefKey (ref assignment) = None
              /\ message = noValueMessage (secretRefKey (ref assignment)))
             \/ (exists value,
                   resolved !! secretRefKey (ref assignment) = Some value
                   /\ isExpectedResolvedSecretValue value (expected assignment) = false
                   /\ message = unexpectedValueMessage assignment)).
Proof.
  split.
  - split.
    + intros [trees' Hrun]. by eapply apply_returned.
    + apply apply_returns.
  - intros message Hrun. by eapply apply_throws.
Qed.

End ResolvedAssignmentFacts.

(** ** Command secrets: what is discovered and what is assigned *)

Module CommandSecretFacts.
Import JsString Json PathUtils TargetRegistryPattern TargetRegistry RuntimeShared.
Import CommandSecrets.

Lemma uniqueStrings_elem values : forall seen v,
  v ∈ uniqueStrings seen values -> v ∈ values.
Proof.
  induction values as [|first rest IH]; intros seen v Hin; cbn [uniqueStrings] in Hin.
  - by apply elem_of_nil in Hin.
  - case_bool_decide.
    + apply elem_of_cons. right. by eapply IH.
    + apply elem_of_cons in Hin as [->|Hin]; apply elem_of_cons; [by left|].
      right. by eapply IH.
Qed.

Section Registry.
Variable registry : list CompiledTargetRegistryEntry.
Variable coerceSecretRef : Value -> Value -> option SecretRef.

Lemma dropSeen_elem targets : forall seen target,
  target ∈ dropSeen seen targets -> target ∈ targets.
Proof.
  induction targets as [|first rest IH]; intros seen target Hin; cbn [dropSeen] in Hin.
  - by apply elem_of_nil in Hin.
  - case_bool_decide.
    + apply elem_of_cons. right. by eapply IH.
    + apply elem_of_cons in Hin as [->|Hin]; apply elem_of_cons; [by left|].
      right. by eapply IH.
Qed.

Lemma dropSeen_fresh targets : forall seen target,
  target ∈ dropSeen seen targets -> discoveryKey target ∉ seen.
Proof.
  induction targets as [|first rest IH]; intros seen target Hin; cbn [dropSeen] in Hin.
  - by apply elem_of_nil in Hin.
  - case_bool_decide as Hseen; [by eapply IH|].
    apply elem_of_cons in Hin as [->|Hin]; [exact Hseen|].
    apply IH in Hin. intros Hold. apply Hin. apply elem_of_cons. by right.
Qed.

Lemma dropSeen_nodup targets : forall seen,
  NoDup (map discoveryKey (dropSeen seen targets)).
Proof.
  induction targets as [|first rest IH]; intros seen; cbn [dropSeen]; [constructor|].
  case_bool_decide; [apply IH|]. cbn [map]. apply NoDup_cons. split; [|apply IH].
  intros Hin. apply list_elem_of_fmap in Hin as (target & Hkey & Hin).
  apply dropSeen_fresh in Hin. apply Hin. rewrite <- Hkey. apply elem_of_cons. by left.
Qed.

(** What a discovered target is made of. *)
Record Discovered (config : Value) (targetIds : list string)
    (target : DiscoveredConfigSecretTarget) : Prop := {
  discovered_registered : discoveredEntry target ∈ registry;
  discovered_file : configFile (entry (discoveredEntry target)) = OpenclawJson;
  discovered_requested :
    exists requested,
      requested ∈ targetIds
      /\ trim requested = TargetRegistry.id (entry (discoveredEntry target));
  discovered_path : discoveredPath target = toDotPath (discoveredSegments target);
  discovered_match :
    exists m,
      m ∈ expandPathTokens config (pathTokens (discoveredEntry target))
      /\ segments m = discoveredSegments target
      /\ value m = discoveredValue target;
  discovered_ref :
    discoveredRefValue target
    = match discoveredRefSegments target with
      | Some refSegments => getPath config refSegments
      | None => VUndefined
      end
}.

Lemma discoverEntry_elem config e target :
  target ∈ discoverEntry config e ->
  discoveredEntry target = e
  /\ discoveredPath target = toDotPath (discoveredSegments target)
  /\ (exists m, m ∈ expandPathTokens config (pathTokens e)
                /\ segments m = discoveredSegments target
                /\ value m = discoveredValue target)
  /\ discoveredRefValue target
     = match discoveredRefSegments target with
       | Some refSegments => getPath config refSegments
       | None => VUndefined
       end.
Proof.
  unfold discoverEntry. intros Hin.
  apply list_elem_of_In, in_flat_map in Hin as (m & Hm & Hin).
  apply list_elem_of_In in Hm.
  destruct (toResolvedPlanTarget e (segments m) (captures m)) as [resolved|] eqn:Hresolved;
    [|destruct Hin].
  destruct Hin as [<-|[]]. cbn.
  assert (Hsegments : pathSegments resolved = segments m).
  { unfold toResolvedPlanTarget in Hresolved.
    destruct (refPathTokens e); [destruct (materializePathTokens _ _)|];
      simplify_eq; reflexivity. }
  repeat split. exists m. by rewrite Hsegments.
Qed.

Lemma discovered_elem config targetIds target :
  target ∈ discoverConfigSecretTargetsByIds registry config targetIds ->
  Discovered config targetIds target.
Proof.
  unfold discoverConfigSecretTargetsByIds. intros Hin. apply dropSeen_elem in Hin.
  apply list_elem_of_In, in_flat_map in Hin as (e & He & Hin).
  apply in_flat_map in He as (targetId & Hid & He).
  apply list_elem_of_In in Hid, He, Hin.
  apply uniqueStrings_elem in Hid. apply list_elem_of_filter in Hid as [_ Hid].
  apply list_elem_of_fmap in Hid as (requested & -> & Hrequested).
  unfold openclawTargetsById in He. apply list_elem_of_filter in He as [[Hfile Hsame] He].
  apply discoverEntry_elem in Hin as (Hentry & Hpath & Hmatch & Href).
  split; rewrite ?Hentry; try done.
  - by destruct (configFile (entry e)).
  - by exists requested.
Qed.

(** Every target that [discoverConfigSecretTargetsByIds] returns comes
    from an openclaw.json entry of the registry whose id is one of the
    requested ids (trimmed); its path is the dot path of its segments,
    which the expansion of the entry's pattern found in the tree with
    the value reported. No target is returned twice: the keys [id:path]
    of the targets are pairwise distinct. *)
Theorem discovered_targets_are_requested_once (config : Value) (targetIds : list string) :
  Forall (Discovered config targetIds)
    (discoverConfigSecretTargetsByIds registry config targetIds)
  /\ NoDup (map discoveryKey (discoverConfigSecretTargetsByIds registry config targetIds)).
Proof.
  split.
  - apply Forall_forall. intros target. apply discovered_elem.
  - apply dropSeen_nodup.
Qed.

(** The target has a ref: inline, or as its sibling. *)
Definition hasRef (defaults : Value) (target : DiscoveredConfigSecretTarget) : Prop :=
  is_Some (resolveSecretInputRef coerceSecretRef (discoveredValue target)
             (discoveredRefValue target) defaults).2.

(** What an assignment returned for a command is made of. *)
Definition Assigned (defaults resolvedConfig : Value)
    (targets : list DiscoveredConfigSecretTarget) (a : CommandSecretAssignment) : Prop :=
  exists target,
    target ∈ targets
    /\ hasRef defaults target
    /\ commandPath a = discoveredPath target
    /\ commandSegments a = discoveredSegments target
    /\ commandValue a = getPath resolvedConfig (discoveredSegments target)
    /\ isExpectedResolvedSecretValue (commandValue a)
         (toExpected (expectedResolvedValue (entry (discoveredEntry target)))) = true.

Definition unresolvedMessage (commandName : string)
    (target : DiscoveredConfigSecretTarget) : string :=
  commandName +:+ ": " +:+ discoveredPath target
    +:+ " is unresolved in the active runtime snapshot.".

Lemma collectCommandTarget_returns defaults resolvedConfig commandName inactive acc target
    acc' :
  collectCommandTarget coerceSecretRef defaults resolvedConfig commandName inactive acc
    target = inr acc' ->
  resultAssignments acc' = resultAssignments acc
  \/ exists a, resultAssignments acc' = resultAssignments acc ++ [a]
               /\ Assigned defaults resolvedConfig [target] a.
Proof.
  unfold collectCommandTarget, Assigned, hasRef.
  destruct (resolveSecretInputRef _ _ _ _) as [explicitRef [ref|]] eqn:Href; cbn [snd].
  - destruct (isExpectedResolvedSecretValue _ _) eqn:Hexpected.
    + intros Hrun. injection Hrun as <-. right. eexists. split; [reflexivity|].
      exists target. split; [apply list_elem_of_singleton; reflexivity|].
      split; [rewrite Href; by eexists|]. cbn [commandPath commandSegments commandValue].
      split; [reflexivity|]. split; [reflexivity|]. split; [reflexivity|exact Hexpected].
    + case_bool_decide; [|discriminate]. intros Hrun. injection Hrun as <-. by left.
  - intros Hrun. injection Hrun as <-. by left.
Qed.

Lemma collectCommandTarget_throws defaults resolvedConfig commandName inactive acc target
    message :
  collectCommandTarget coerceSecretRef defaults resolvedConfig commandName inactive acc
    target = inl message ->
  message = unresolvedMessage commandName target
  /\ hasRef defaults target
  /\ (discoveredPath target ∉ inactive)
  /\ isExpectedResolvedSecretValue (getPath resolvedConfig (discoveredSegments target))
       (toExpected (expectedResolvedValue (entry (discoveredEntry target)))) = false.
Proof.
  unfold collectCommandTarget, hasRef.
  destruct (resolveSecretInputRef _ _ _ _) as [explicitRef [ref|]] eqn:Href; cbn [snd];
    [|discriminate].
  destruct (isExpectedResolvedSecretValue _ _) eqn:Hexpected; [discriminate|].
  case_bool_decide as Hinactive; [discriminate|]. intros Hrun. injection Hrun as <-.
  split; [reflexivity|]. split; [by eexists|]. split; [exact Hinactive|].
  reflexivity.
Qed.

Lemma assigned_mono defaults resolvedConfig targets targets' a :
  (forall target, target ∈ targets -> target ∈ targets') ->
  Assigned defaults resolvedConfig targets a -> Assigned defaults resolvedConfig targets' a.
Proof. intros Hsub (target & Hin & Hrest). exists target. split; [by apply Hsub|exact Hrest]. Qed.

Lemma collectCommandTargets_returns defaults resolvedConfig commandName inactive targets :
  forall acc result,
    collectCommandTargets coerceSecretRef defaults resolvedConfig commandName inactive acc
      targets = inr result ->
    exists added,
      resultAssignments result = resultAssignments acc ++ added
      /\ Forall (Assigned defaults resolvedConfig targets) added.
Proof.
  induction targets as [|target rest IH]; intros acc result Hrun;
    cbn [collectCommandTargets] in Hrun.
  - injection Hrun as <-. exists []. by rewrite app_nil_r.
  - destruct (collectCommandTarget _ _ _ _ _ _ _) as [message|acc'] eqn:Hstep;
      [discriminate Hrun|].
    apply IH in Hrun as (added & Hadded & Hall).
    assert (Hrest : Forall (Assigned defaults resolvedConfig (target :: rest)) added).
    { eapply Forall_impl; [exact Hall|]. intros a. apply assigned_mono.
      intros t Ht. apply elem_of_cons. by right. }
    apply collectCommandTarget_returns in Hstep as [Hsame|(a & Hone & Ha)].
    + exists added. by rewrite Hadded, Hsame.
    + exists (a :: added). rewrite Hadded, Hone, <- List.app_assoc. split; [reflexivity|].
      constructor; [|exact Hrest]. eapply assigned_mono; [|exact Ha].
      intros t Ht. apply list_elem_of_singleton in Ht as ->. apply elem_of_cons. by left.
Qed.

Lemma collectCommandTargets_throws defaults resolvedConfig commandName inactive targets :
  forall acc message,
    collectCommandTargets coerceSecretRef defaults resolvedConfig commandName inactive acc
      targets = inl message ->
    exists target,
      target ∈ targets
      /\ message = unresolvedMessage commandName target
      /\ hasRef defaults target
      /\ (discoveredPath target ∉ inactive)
      /\ isExpectedResolvedSecretValue (getPath resolvedConfig (discoveredSegments target))
           (toExpected (expectedResolvedValue (entry (discoveredEntry target)))) = false.
Proof.
  induction targets as [|target rest IH]; intros acc message Hrun;
    cbn [collectCommandTargets] in Hrun; [discriminate Hrun|].
  destruct (collectCommandTarget _ _ _ _ _ _ _) as [failure|acc'] eqn:Hstep.
  - injection Hrun as <-. apply collectCommandTarget_throws in Hstep.
    exists target. split; [apply elem_of_cons; by left|exact Hstep].
  - apply IH in Hrun as (failing & Hin & Hrest). exists failing.
    split; [apply elem_of_cons; by right|exact Hrest].
Qed.

(** Every assignment that [collectCommandSecretAssignmentsFromSnapshot]
    returns belongs to a discovered target of a requested id that has a
    ref in the source configuration: its path and segments are the
    target's, and its value is what [getPath] reads at these segments in
    the resolved configuration, of the kind the registry entry expects.
    When the call throws, some discovered target with a ref has no value
    of the expected kind in the resolved configuration and its path is
    not among the inactive ref paths; the message names the command and
    that path. *)
Theorem command_assignments_come_from_the_snapshot
    (sourceConfig resolvedConfig : Value) (commandName : string)
    (targetIds inactiveRefPaths : list string) :
  let defaults := prop (prop sourceConfig "secrets") "defaults" in
  let targets := discoverConfigSecretTargetsByIds registry sourceConfig targetIds in
  match collectCommandSecretAssignmentsFromSnapshot registry coerceSecretRef sourceConfig
          resolvedConfig commandName targetIds inactiveRefPaths with
  | inr result =>
      Forall (fun a =>
                exists target,
                  target ∈ targets
                  /\ Discovered sourceConfig targetIds target
                  /\ hasRef defaults target
                  /\ commandPath a = discoveredPath target
                  /\ commandSegments a = discoveredSegments target
                  /\ commandValue a = getPath resolvedConfig (commandSegments a)
                  /\ isExpectedResolvedSecretValue (commandValue a)
                       (toExpected (expectedResolvedValue (entry (discoveredEntry target))))
                     = true)
        (resultAssignments result)
  | inl message =>
      exists target,
        target ∈ targets
        /\ message = commandName +:+ ": " +:+ discoveredPath target
                       +:+ " is unresolved in the active runtime snapshot."
        /\ hasRef defaults target
        /\ (discoveredPath target ∉ inactiveRefPaths)
        /\ isExpectedResolvedSecretValue
             (getPath resolvedConfig (discoveredSegments target))
             (toExpected (expectedResolvedValue (entry (discoveredEntry target)))) = false
  end.
Proof.
  cbv zeta. unfold collectCommandSecretAssignmentsFromSnapshot. cbv zeta.
  destruct (collectCommandTargets _ _ _ _ _ _ _) as [message|result] eqn:Hrun.
  - by apply collectCommandTargets_throws in Hrun.
  - apply collectCommandTargets_returns in Hrun as (added & Hadded & Hall).
    cbn [resultAssignments app] in Hadded. rewrite Hadded.
    eapply Forall_impl; [exact Hall|].
    intros a (target & Hin & Href & Hpath & Hsegments & Hvalue & Hexpected).
    exists target. rewrite Hsegments.
    split; [exact Hin|]. split; [by apply discovered_elem|]. split; [exact Href|].
    split; [exact Hpath|]. split; [reflexivity|]. split; [exact Hvalue|exact Hexpected].
Qed.

End Registry.

End CommandSecretFacts.

(** ** What the mutations of a plan leave behind *)

Module PlanMutationFacts.
Import JsString Json PathUtils TargetRegistryPattern TargetRegistry Plan PlanMutations.

Lemma assoc_deleteProp_same fields key : assoc key (deleteProp fields key) = None.
Proof.
  induction fields as [|[k v] rest IH]; [reflexivity|]. cbn [deleteProp].
  destruct (String.eqb k key) eqn:Hk; [exact IH|]. cbn [assoc]. by rewrite Hk.
Qed.

Lemma assoc_deleteProp_other fields key other :
  key <> other -> assoc other (deleteProp fields key) = assoc other fields.
Proof.
  intros Hne. induction fields as [|[k v] rest IH]; [reflexivity|]. cbn [deleteProp assoc].
  destruct (String.eqb k key) eqn:Hk.
  - apply String.eqb_eq in Hk as ->.
    destruct (String.eqb key other) eqn:Hother; [|exact IH].
    apply String.eqb_eq in Hother. contradiction.
  - cbn [assoc]. by rewrite IH.
Qed.

Lemma assoc_setProp_hit fields key value : assoc key (setProp fields key value) = Some value.
Proof.
  induction fields as [|[k v] rest IH]; cbn [setProp assoc].
  - by rewrite String.eqb_refl.
  - destruct (String.eqb k key) eqn:Hk; cbn [assoc]; by rewrite Hk.
Qed.

Lemma assoc_setProp_miss fields key other value :
  key <> other -> assoc other (setProp fields key value) = assoc other fields.
Proof.
  intros Hne. induction fields as [|[k v] rest IH]; cbn [setProp assoc].
  - destruct (String.eqb key other) eqn:Hother; [|reflexivity].
    apply String.eqb_eq in Hother. contradiction.
  - destruct (String.eqb k key) eqn:Hk; cbn [assoc].
    + apply String.eqb_eq in Hk as ->.
      destruct (String.eqb key other) eqn:Hother; [|reflexivity].
      apply String.eqb_eq in Hother. contradiction.
    + by rewrite IH.
Qed.

(** *** [applyProviderPlanMutations] *)

Lemma deleteProvider_step providers changed providerAlias :
  deleteProvider (providers, changed) providerAlias
  = if hasOwn providers providerAlias then (deleteProp providers providerAlias, true)
    else (providers, changed).
Proof. reflexivity. Qed.

Lemma upsertProvider_step providers changed providerAlias providerConfig :
  upsertProvider (providers, changed) (providerAlias, providerConfig)
  = if deepEq (getProp providers providerAlias) providerConfig then (providers, changed)
    else (setProp providers providerAlias providerConfig, true).
Proof. reflexivity. Qed.

Lemma deletes_flag deletes : forall providers,
  (fold_left deleteProvider deletes (providers, true)).2 = true.
Proof.
  induction deletes as [|first rest IH]; intros providers; cbn [fold_left]; [reflexivity|].
  rewrite deleteProvider_step. destruct (hasOwn providers first); apply IH.
Qed.

Lemma upserts_flag upserts : forall providers,
  (fold_left upsertProvider upserts (providers, true)).2 = true.
Proof.
  induction upserts as [|[providerAlias providerConfig] rest IH]; intros providers;
    cbn [fold_left]; [reflexivity|].
  rewrite upsertProvider_step. destruct (deepEq _ _); apply IH.
Qed.

Lemma deletes_effect deletes : forall providers changed,
  let result := fold_left deleteProvider deletes (providers, changed) in
  (forall providerAlias, providerAlias ∈ deletes -> assoc providerAlias result.1 = None)
  /\ (forall providerAlias, providerAlias ∉ deletes ->
        assoc providerAlias result.1 = assoc providerAlias providers)
  /\ (result.2 = false -> result.1 = providers).
Proof.
  cbv zeta. induction deletes as [|first rest IH]; intros providers changed; cbn [fold_left].
  - split; [|done]. intros providerAlias Hin. by apply elem_of_nil in Hin.
  - rewrite deleteProvider_step.
    destruct (hasOwn providers first) eqn:Hown.
    + destruct (IH (deleteProp providers first) true) as (Hgone & Hkept & Hsame).
      split; [|split].
      * intros providerAlias Hin. apply elem_of_cons in Hin as [->|Hin]; [|by apply Hgone].
        destruct (decide (first ∈ rest)) as [Hlater|Hlater]; [by apply Hgone|].
        rewrite (Hkept _ Hlater). apply assoc_deleteProp_same.
      * intros providerAlias Hout. apply not_elem_of_cons in Hout as [Hne Hout].
        rewrite (Hkept _ Hout). apply assoc_deleteProp_other. congruence.
      * intros Hflag. rewrite deletes_flag in Hflag. discriminate Hflag.
    + destruct (IH providers changed) as (Hgone & Hkept & Hsame).
      split; [|split].
      * intros providerAlias Hin. apply elem_of_cons in Hin as [->|Hin]; [|by apply Hgone].
        destruct (decide (first ∈ rest)) as [Hlater|Hlater]; [by apply Hgone|].
        rewrite (Hkept _ Hlater). unfold hasOwn in Hown.
        by destruct (assoc first providers).
      * intros providerAlias Hout. apply not_elem_of_cons in Hout as [_ Hout].
        by apply Hkept.
      * exact Hsame.
Qed.

(** The provider reads as the configuration given for it. *)
Definition Upserted (providers : list (string * Value)) (item : string * Value) : Prop :=
  getProp providers item.1 = item.2 \/ deepEq (getProp providers item.1) item.2 = true.

Lemma upserts_effect upserts : forall providers changed,
  NoDup upserts.*1 ->
  let result := fold_left upsertProvider upserts (providers, changed) in
  (forall item, item ∈ upserts -> Upserted result.1 item)
  /\ (forall providerAlias, providerAlias ∉ upserts.*1 ->
        assoc providerAlias result.1 = assoc providerAlias providers)
  /\ (result.2 = false -> result.1 = providers).
Proof.
  cbv zeta. induction upserts as [|[providerAlias providerConfig] rest IH];
    intros providers changed Hnodup; cbn [fold_left].
  - split; [|done]. intros item Hin. by apply elem_of_nil in Hin.
  - cbn [fmap list_fmap fst] in Hnodup. apply NoDup_cons in Hnodup as [Hfresh Hnodup].
    rewrite upsertProvider_step.
    destruct (deepEq (getProp providers providerAlias) providerConfig) eqn:Hequal.
    + destruct (IH providers changed Hnodup) as (Hdone & Hkept & Hsame).
      split; [|split].
      * intros item Hin. apply elem_of_cons in Hin as [->|Hin]; [|by apply Hdone].
        right. cbn [fst snd]. unfold getProp. rewrite (Hkept _ Hfresh). exact Hequal.
      * intros other Hout. cbn [fmap list_fmap fst] in Hout.
        apply not_elem_of_cons in Hout as [_ Hout]. by apply Hkept.
      * exact Hsame.
    + destruct (IH (setProp providers providerAlias providerConfig) true Hnodup)
        as (Hdone & Hkept & Hsame).
      split; [|split].
      * intros item Hin. apply elem_of_cons in Hin as [->|Hin]; [|by apply Hdone].
        left. cbn [fst snd]. unfold getProp. rewrite (Hkept _ Hfresh), assoc_setProp_hit.
        reflexivity.
      * intros other Hout. cbn [fmap list_fmap fst] in Hout.
        apply not_elem_of_cons in Hout as [Hne Hout].
        rewrite (Hkept _ Hout). apply assoc_setProp_miss. congruence.
      * intros Hflag. rewrite upserts_flag in Hflag. discriminate Hflag.
Qed.

Lemma currentProviders_written config secrets providers :
  providers <> [] ->
  currentProviders
    (setProp config "secrets" (VObj (setProp secrets "providers" (VObj providers))))
  = providers.
Proof.
  intros Hproviders. unfold currentProviders.
  rewrite PathMutationFacts.getProp_setProp. cbn [RuntimeShared.prop].
  rewrite PathMutationFacts.getProp_setProp. reflexivity.
Qed.

Lemma currentProviders_removed config secrets :
  currentProviders
    (setProp config "secrets"
       (VObj (if hasOwn secrets "providers" then deleteProp secrets "providers"
              else secrets)))
  = [].
Proof.
  unfold currentProviders. rewrite PathMutationFacts.getProp_setProp.
  cbn [RuntimeShared.prop]. unfold getProp.
  destruct (hasOwn secrets "providers") eqn:Hown.
  - by rewrite assoc_deleteProp_same.
  - unfold hasOwn in Hown. by destruct (assoc "providers" secrets).
Qed.

(** When [applyProviderPlanMutations] returns for upserts none of whose
    aliases is the name of an inherited property, the providers of the
    configuration are those the plan asks for: every upserted alias reads
    as its configuration (or as the deep-equal one it had), every deleted
    alias that is not upserted again is absent, and every other alias
    is as before. When it returns [false] the configuration is untouched. *)
Theorem provider_mutations_take_effect (config config' : list (string * Value))
    (upserts : option (list (string * Value))) (deletes : option (list string))
    (changed : bool) :
  NoDup (default [] upserts).*1 ->
  ownKeysOnly (default [] upserts).*1 = true ->
  applyProviderPlanMutations config upserts deletes = inr (config', changed) ->
  (changed = false -> config' = config)
  /\ (forall providerAlias providerConfig,
        (providerAlias, providerConfig) ∈ default [] upserts ->
        getProp (currentProviders config') providerAlias = providerConfig
        \/ deepEq (getProp (currentProviders config') providerAlias) providerConfig = true)
  /\ (forall providerAlias,
        providerAlias ∈ default [] deletes -> providerAlias ∉ (default [] upserts).*1 ->
        hasOwn (currentProviders config') providerAlias = false)
  /\ (forall providerAlias,
        providerAlias ∉ default [] deletes -> providerAlias ∉ (default [] upserts).*1 ->
        assoc providerAlias (currentProviders config')
        = assoc providerAlias (currentProviders config)).
Proof.
  intros Hnodup _. unfold applyProviderPlanMutations.
  pose proof (deletes_effect (default [] deletes) (currentProviders config) false)
    as (Hgone & Hkept & Hsame). cbv zeta in Hgone, Hkept, Hsame.
  destruct (fold_left deleteProvider (default [] deletes) (currentProviders config, false))
    as [deleted flag] eqn:Hdeletes. cbn [fst snd] in Hgone, Hkept, Hsame.
  pose proof (upserts_effect (default [] upserts) deleted flag Hnodup)
    as (Hdone & Hkept' & Hsame'). cbv zeta in Hdone, Hkept', Hsame'.
  destruct (fold_left upsertProvider (default [] upserts) (deleted, flag))
    as [providers flag'] eqn:Hupserts. cbn [fst snd] in Hdone, Hkept', Hsame'.
  assert (Hfinal : forall current,
            current = providers ->
            (forall providerAlias providerConfig,
               (providerAlias, providerConfig) ∈ default [] upserts ->
               getProp current providerAlias = providerConfig
               \/ deepEq (getProp current providerAlias) providerConfig = true)
            /\ (forall providerAlias,
                  providerAlias ∈ default [] deletes ->
                  providerAlias ∉ (default [] upserts).*1 ->
                  hasOwn current providerAlias = false)
            /\ (forall providerAlias,
                  providerAlias ∉ default [] deletes ->
                  providerAlias ∉ (default [] upserts).*1 ->
                  assoc providerAlias current
                  = assoc providerAlias (currentProviders config))).
  { intros current ->. split; [|split].
    - intros providerAlias providerConfig Hin. apply (Hdone _ Hin).
    - intros providerAlias Hin Hout. unfold hasOwn.
      by rewrite (Hkept' _ Hout), (Hgone _ Hin).
    - intros providerAlias Hout Hout'. by rewrite (Hkept' _ Hout'), (Hkept _ Hout). }
  destruct flag'; cbn [negb].
  - destruct (isNullish (getProp config "secrets")) eqn:Hnullish.
    + rewrite PathMutationFacts.getProp_setProp.
      destruct providers as [|provider rest]; intros Hrun; injection Hrun as <- <-.
      * split; [discriminate|]. apply Hfinal. apply (currentProviders_removed _ []).
      * split; [discriminate|]. apply Hfinal.
        by apply (currentProviders_written _ [] (provider :: rest)).
    + destruct (getProp config "secrets") as [| | | | | |secrets]; try discriminate.
      destruct providers as [|provider rest]; intros Hrun; injection Hrun as <- <-.
      * split; [discriminate|]. apply Hfinal. apply currentProviders_removed.
      * split; [discriminate|]. apply Hfinal. by apply currentProviders_written.
  - intros Hrun. injection Hrun as <- <-. split; [reflexivity|]. apply Hfinal.
    rewrite (Hsame' eq_refl).
    assert (Hflag : flag = false).
    { destruct flag; [|reflexivity].
      pose proof (upserts_flag (default [] upserts) deleted) as Hraised.
      rewrite Hupserts in Hraised. discriminate Hraised. }
    symmetry. by apply Hsame.
Qed.

Lemma provider_mutations_take_effect_witness :
  let config' :=
    [("secrets", VObj [("providers",
        VObj [("vault", VObj [("source", VStr "exec")])])])] in
  getProp (currentProviders config') "vault" = VObj [("source", VStr "exec")]
  /\ hasOwn (currentProviders config') "legacy" = false.
Proof.
  cbn zeta.
  destruct (provider_mutations_take_effect
              [("secrets", VObj [("providers",
                  VObj [("legacy", VObj [("source", VStr "env")])])])]
              [("secrets", VObj [("providers",
                  VObj [("vault", VObj [("source", VStr "exec")])])])]
              (Some [("vault", VObj [("source", VStr "exec")])]) (Some ["legacy"]) true)
    as (_ & Hupserted & Hdeleted & _).
  - cbn. apply NoDup_singleton.
  - reflexivity.
  - reflexivity.
  - split.
    + destruct (Hupserted "vault" (VObj [("source", VStr "exec")])) as [Hsame|Hequal].
      * apply list_elem_of_singleton. reflexivity.
      * exact Hsame.
      * reflexivity.
    + apply Hdeleted.
      * apply list_elem_of_singleton. reflexivity.
      * cbn. intros Hin. apply list_elem_of_singleton in Hin. discriminate Hin.
Defined.

(** *** [applyConfigTargetMutations] *)

Lemma andThen_inv {A B : Type} (m : ApplyError + A) (f : A -> ApplyError + B) b :
  andThen m f = inr b -> exists a, m = inr a /\ f a = inr b.
Proof. destruct m as [e|a]; [discriminate|]. intros Hrun. by exists a. Qed.

Lemma strict_inv outcome root changed :
  strict outcome = inr (root, changed) -> outcome = (root, inr changed).
Proof.
  destruct outcome as [root' [e|changed']]; [discriminate|]. intros Hrun.
  by injection Hrun as -> ->.
Qed.

Lemma setAdd_elem values value other :
  other ∈ setAdd values value <-> other ∈ values \/ other = value.
Proof.
  unfold setAdd. case_bool_decide as Hin.
  - split; [by left|]. intros [Hold| ->]; done.
  - rewrite elem_of_app, list_elem_of_singleton. tauto.
Qed.

(** A scrubbed value is a non-empty string without white space at
    either end. *)
Definition Scrubbed (value : string) : Prop := truthy value = true /\ trim value = value.

Lemma scrubPrevious_clean previous values :
  Forall Scrubbed values -> Forall Scrubbed (scrubPrevious previous values).
Proof.
  intros Hall. unfold scrubPrevious.
  destruct (RuntimeShared.isNonEmptyString previous) eqn:Hstring; [|exact Hall].
  unfold setAdd. case_bool_decide; [exact Hall|]. apply Forall_app. split; [exact Hall|].
  constructor; [|constructor]. destruct previous; try discriminate Hstring.
  cbn in Hstring |- *. unfold isBlank in Hstring. apply negb_true_iff, negb_false_iff in Hstring.
  split; [exact Hstring|apply DotPathFacts.trim_idem].
Qed.

Lemma scrubPrevious_keeps previous values value :
  value ∈ values -> value ∈ scrubPrevious previous values.
Proof.
  intros Hin. unfold scrubPrevious. destruct (RuntimeShared.isNonEmptyString previous);
    [|exact Hin]. apply setAdd_elem. by left.
Qed.

Lemma scrubPrevious_adds s values :
  isBlank s = false -> trim s ∈ scrubPrevious (VStr s) values.
Proof.
  intros Hs. unfold scrubPrevious. cbn. rewrite Hs. cbn. apply setAdd_elem. by right.
Qed.

Lemma hasOwn_setProp_same fields key value : hasOwn (setProp fields key value) key = true.
Proof. unfold hasOwn. by rewrite assoc_setProp_hit. Qed.

Lemma hasOwn_setProp_keeps fields key value other :
  hasOwn fields other = true -> hasOwn (setProp fields key value) other = true.
Proof.
  intros Hown. destruct (decide (key = other)) as [->|Hne].
  - apply hasOwn_setProp_same.
  - unfold hasOwn in *. by rewrite assoc_setProp_miss.
Qed.

(** The last segment of a path and its sibling: deleting the one leaves
    the other. *)
Lemma deleteFrom_sibling parent leaf sibling :
  leaf <> sibling -> isArrayIndexSegment leaf = false ->
  forall segments index cursor cursor' changed,
    deleteFrom segments index cursor (List.hd "" (parent ++ [leaf]))
      (List.tl (parent ++ [leaf])) = (cursor', inr changed) ->
    getPathFrom cursor' (parent ++ [sibling]) = getPathFrom cursor (parent ++ [sibling]).
Proof.
  intros Hne Hleaf. induction parent as [|segment parent' IH];
    intros segments index cursor cursor' changed Hrun.
  - cbn [app List.hd List.tl deleteFrom] in Hrun. cbn [app getPathFrom].
    destruct cursor as [| | | | |items|fields]; try (by simplify_eq).
    + rewrite Hleaf in Hrun. discriminate Hrun.
    + destruct (hasOwn fields leaf); simplify_eq; [|reflexivity].
      unfold getProp. by rewrite assoc_deleteProp_other.
  - cbn [app List.hd List.tl] in Hrun.
    assert (Hrest : parent' ++ [leaf]
                    = List.hd "" (parent' ++ [leaf]) :: List.tl (parent' ++ [leaf])).
    { by destruct parent'. }
    rewrite Hrest in Hrun. cbn [deleteFrom] in Hrun.
    change ((segment :: parent') ++ [sibling]) with (segment :: (parent' ++ [sibling])).
    cbn [getPathFrom].
    destruct cursor as [| | | | |items|fields]; try (by simplify_eq).
    + destruct (isArrayIndexSegment segment); [|discriminate Hrun].
      destruct (deleteFrom _ _ _ _ _) as [child result] eqn:Hchild.
      destruct (_ <? _)%nat; simplify_eq; [|reflexivity].
      rewrite PathMutationFacts.arrGet_arrSet. by eapply IH.
    + destruct (deleteFrom _ _ _ _ _) as [child result] eqn:Hchild.
      destruct (hasOwn fields segment); simplify_eq; [|reflexivity].
      rewrite PathMutationFacts.getProp_setProp. by eapply IH.
Qed.

Lemma deletePathStrict_sibling root root' parent leaf sibling changed :
  leaf <> sibling -> isArrayIndexSegment leaf = false ->
  deletePathStrict root (parent ++ [leaf]) = (root', inr changed) ->
  getPath root' (parent ++ [sibling]) = getPath root (parent ++ [sibling]).
Proof.
  intros Hne Hleaf Hrun.
  assert (Hpath : forall last, parent ++ [last]
                     = List.hd "" (parent ++ [last]) :: List.tl (parent ++ [last])).
  { intros last. by destruct parent. }
  unfold deletePathStrict in Hrun. rewrite (Hpath leaf) in Hrun.
  unfold getPath. rewrite (Hpath sibling), <- (Hpath sibling).
  by eapply deleteFrom_sibling.
Qed.

Lemma created_unchanged root segments value root' :
  setPathCreateStrict root segments value = (root', inr false) -> root' = root.
Proof.
  destruct segments as [|segment rest]; cbn [setPathCreateStrict]; [discriminate|].
  intros Hrun. eapply PathMutationFacts.createFrom_unchanged; [exact Hrun|discriminate].
Qed.

Lemma created_reads root segments value root' changed :
  setPathCreateStrict root segments value = (root', inr changed) ->
  getPath root' segments = value \/ deepEq (getPath root' segments) value = true.
Proof.
  destruct segments as [|segment rest]; cbn [setPathCreateStrict getPath]; [discriminate|].
  apply PathMutationFacts.createFrom_reads.
Qed.

Lemma deleted_unchanged root segments root' :
  deletePathStrict root segments = (root', inr false) -> root' = root.
Proof.
  destruct segments as [|segment rest]; cbn [deletePathStrict]; [discriminate|].
  intros Hrun. eapply PathMutationFacts.deleteFrom_unchanged; [exact Hrun|discriminate].
Qed.

Lemma deleteFrom_gone rest : forall segments index cursor segment cursor' changed,
  deleteFrom segments index cursor segment rest = (cursor', inr changed) ->
  isArrayIndexSegment (List.last (segment :: rest) "") = false ->
  getPathFrom cursor' (segment :: rest) = VUndefined.
Proof.
  induction rest as [|nextSegment rest' IH];
    intros segments index cursor segment cursor' changed Hrun Hlast;
    cbn [deleteFrom] in Hrun.
  - cbn in Hlast. destruct cursor as [| | | | |items|fields]; try (by simplify_eq).
    + rewrite Hlast in Hrun. discriminate Hrun.
    + cbn [getPathFrom]. destruct (hasOwn fields segment) eqn:Hown; simplify_eq.
      * unfold getProp. by rewrite assoc_deleteProp_same.
      * unfold hasOwn, getProp in *. by destruct (assoc segment fields).
  - change (List.last (segment :: nextSegment :: rest') "")
      with (List.last (nextSegment :: rest') "") in Hlast.
    destruct cursor as [| | | | |items|fields]; try (by simplify_eq).
    + destruct (isArrayIndexSegment segment) eqn:Hindex; [|discriminate Hrun].
      destruct (deleteFrom _ _ _ _ _) as [child result] eqn:Hchild.
      destruct (_ <? _)%nat eqn:Hrange; simplify_eq.
      * cbn [getPathFrom]. rewrite Hindex, PathMutationFacts.arrGet_arrSet. by eapply IH.
      * apply Nat.ltb_ge in Hrange.
        assert (Hmissing : arrGet items (parseInt segment) = VUndefined).
        { unfold arrGet. by rewrite lookup_ge_None_2. }
        rewrite Hmissing in Hchild.
        destruct (PathMutationFacts.deleteFrom_undefined rest' segments (S index)
                    nextSegment) as [e He].
        congruence.
    + destruct (deleteFrom _ _ _ _ _) as [child result] eqn:Hchild.
      destruct (hasOwn fields segment) eqn:Hown; simplify_eq.
      * cbn [getPathFrom]. rewrite PathMutationFacts.getProp_setProp. by eapply IH.
      * assert (Hmissing : getProp fields segment = VUndefined).
        { unfold getProp, hasOwn in *. by destruct (assoc segment fields). }
        rewrite Hmissing in Hchild.
        destruct (PathMutationFacts.deleteFrom_undefined rest' segments (S index)
                    nextSegment) as [e He].
        congruence.
Qed.

Lemma deleted_gone root segments root' changed :
  isArrayIndexSegment (List.last segments "") = false ->
  deletePathStrict root segments = (root', inr changed) ->
  getPath root' segments = VUndefined.
Proof.
  intros Hlast Hrun. destruct segments as [|segment rest]; [reflexivity|].
  by eapply deleteFrom_gone.
Qed.

Section Mutations.
Variable registry : list CompiledTargetRegistryEntry.
Variable AUTH_STORE_VERSION : Z.
Variable resolveAuthStorePathForAgent : Value -> string -> string.
Variable readJsonObjectIfExists : string -> Value.
Variable normalizeProviderId : string -> string.

Local Abbreviation authMutation :=
  (applyAuthProfileTargetMutation AUTH_STORE_VERSION resolveAuthStorePathForAgent
     readJsonObjectIfExists).
Local Abbreviation step :=
  (mutateTarget AUTH_STORE_VERSION resolveAuthStorePathForAgent readJsonObjectIfExists
     normalizeProviderId).
Local Abbreviation steps :=
  (mutateTargets AUTH_STORE_VERSION resolveAuthStorePathForAgent readJsonObjectIfExists
     normalizeProviderId).

(** What every step of the loop keeps. *)
Record Keeps (state state' : ConfigTargetMutationResult) : Prop := {
  keeps_config :
    configChanged state' = false ->
    configChanged state = false /\ nextConfig state' = nextConfig state;
  keeps_targets : resolvedTargets state' = resolvedTargets state;
  keeps_changed : forall pathname,
    pathname ∈ changedFiles state -> pathname ∈ changedFiles state';
  keeps_stores : forall pathname,
    hasOwn (authStoreByPath state) pathname = true ->
    hasOwn (authStoreByPath state') pathname = true;
  keeps_projected : forall pathname,
    pathname ∈ changedFiles state' ->
    pathname ∈ changedFiles state \/ hasOwn (authStoreByPath state') pathname = true;
  keeps_scrubbed : forall value,
    value ∈ scrubbedValues state -> value ∈ scrubbedValues state';
  keeps_clean :
    Forall Scrubbed (scrubbedValues state) -> Forall Scrubbed (scrubbedValues state')
}.

Lemma Keeps_refl state : Keeps state state.
Proof. split; auto. Qed.

Lemma Keeps_trans state state' state'' :
  Keeps state state' -> Keeps state' state'' -> Keeps state state''.
Proof.
  intros [Hconfig Htargets Hchanged Hstores Hprojected Hscrubbed Hclean]
         [Hconfig' Htargets' Hchanged' Hstores' Hprojected' Hscrubbed' Hclean'].
  split; auto.
  - intros Hflag. destruct (Hconfig' Hflag) as [Hflag' Hsame].
    destruct (Hconfig Hflag') as [Hflag0 Hsame0]. split; [exact Hflag0|congruence].
  - congruence.
  - intros pathname Hin. destruct (Hprojected' _ Hin) as [Hold|Hown]; [|by right].
    destruct (Hprojected _ Hold) as [Hfirst|Hown]; [by left|right; auto].
Qed.

Lemma authMutation_keeps target resolved config stores scrubbed stores' scrubbed' changed :
  authMutation target resolved config stores scrubbed = inr (stores', scrubbed', changed) ->
  (forall pathname, hasOwn stores pathname = true -> hasOwn stores' pathname = true)
  /\ (forall value, value ∈ scrubbed -> value ∈ scrubbed')
  /\ (isAuthProfilesFile (configFile (entry (resolvedEntry resolved))) = true ->
      hasOwn stores' (resolveAuthStorePathForAgent config (targetAgentId target)) = true)
  /\ (Forall Scrubbed scrubbed -> Forall Scrubbed scrubbed').
Proof.
  unfold applyAuthProfileTargetMutation.
  destruct (isAuthProfilesFile _); cbn [negb];
    [|intros Hrun; injection Hrun as <- <- <-; repeat split; auto; discriminate].
  intros Hrun. apply andThen_inv in Hrun as ([authStorePath store] & Hstore & Hrun).
  apply andThen_inv in Hrun as ([store1 changed1] & Hcontainer & Hrun).
  assert (Hpath : authStorePath
                  = resolveAuthStorePathForAgent config (targetAgentId target)).
  { unfold resolveAuthStoreForTarget in Hstore. destruct (truthy _); [|discriminate Hstore].
    by injection Hstore as <- _. }
  assert (Hresult : exists store', stores' = setProp stores authStorePath store'
                                   /\ scrubbed' = scrubPrevious
                                        (getPath store1 (pathSegments resolved)) scrubbed).
  { destruct (isSiblingRef _).
    - destruct (refPathSegments resolved) as [refSegments|]; [|discriminate Hrun].
      apply andThen_inv in Hrun as ([store2 wroteRef] & _ & Hrun).
      apply andThen_inv in Hrun as ([store3 deleted] & _ & Hrun).
      injection Hrun as <- <- _. by eexists.
    - apply andThen_inv in Hrun as ([store2 wroteRef] & _ & Hrun).
      injection Hrun as <- <- _. by eexists. }
  destruct Hresult as (store' & -> & ->). split; [|split; [|split]].
  - intros pathname. apply hasOwn_setProp_keeps.
  - intros value. apply scrubPrevious_keeps.
  - intros _. rewrite <- Hpath. apply hasOwn_setProp_same.
  - apply scrubPrevious_clean.
Qed.

Lemma step_keeps state item state' : step state item = inr state' -> Keeps state state'.
Proof.
  unfold mutateTarget. cbv zeta.
  destruct (isAuthProfilesFile _) eqn:Hfile.
  - intros Hrun. apply andThen_inv in Hrun as ([[stores scrubbed] changed] & Hauth & Hrun).
    apply authMutation_keeps in Hauth as (Hstores & Hscrubbed & Hown & Hclean).
    specialize (Hown Hfile). destruct changed.
    + destruct (truthy _); [|discriminate Hrun]. injection Hrun as <-.
      split; cbn; auto.
      * intros pathname Hin. apply setAdd_elem. by left.
      * intros pathname Hin. apply setAdd_elem in Hin as [Hold| ->]; [by left|by right].
    + injection Hrun as <-. split; cbn; auto.
  - destruct (isSiblingRef _).
    + destruct (refPathSegments _) as [refSegments|]; [|discriminate].
      intros Hrun. apply andThen_inv in Hrun as ([config1 wroteRef] & Hwrite & Hrun).
      apply andThen_inv in Hrun as ([config2 deleted] & Hdelete & Hrun).
      injection Hrun as <-. apply strict_inv in Hwrite, Hdelete.
      split; cbn; auto using scrubPrevious_keeps, scrubPrevious_clean.
      intros Hflag. apply orb_false_iff in Hflag as [Hflag Hnone].
      apply orb_false_iff in Hnone as [-> ->]. split; [exact Hflag|].
      apply created_unchanged in Hwrite. apply deleted_unchanged in Hdelete. congruence.
    + intros Hrun. apply andThen_inv in Hrun as ([config1 wroteRef] & Hwrite & Hrun).
      injection Hrun as <-. apply strict_inv in Hwrite.
      split; cbn; auto using scrubPrevious_keeps, scrubPrevious_clean.
      intros Hflag. apply orb_false_iff in Hflag as [Hflag ->]. split; [exact Hflag|].
      by apply created_unchanged in Hwrite.
Qed.

Lemma steps_keeps items : forall state state',
  steps state items = inr state' -> Keeps state state'.
Proof.
  induction items as [|item rest IH]; intros state state' Hrun; cbn [mutateTargets] in Hrun.
  - injection Hrun as <-. apply Keeps_refl.
  - apply andThen_inv in Hrun as (state1 & Hstep & Hrun).
    eapply Keeps_trans; [by eapply step_keeps|by eapply IH].
Qed.

Lemma resolveTargets_resolved planTargets : forall entries,
  resolveTargets registry planTargets = inr entries ->
  map entryTarget entries = planTargets
  /\ Forall (fun item =>
               resolveValidatedPlanTarget registry (targetCandidate (entryTarget item))
               = inr (Some (entryResolved item))) entries.
Proof.
  induction planTargets as [|target rest IH]; intros entries Hrun;
    cbn [resolveTargets] in Hrun.
  - injection Hrun as <-. split; [reflexivity|constructor].
  - apply andThen_inv in Hrun as (resolved & Hresolved & Hrun).
    apply andThen_inv in Hrun as (others & Hothers & Hrun). injection Hrun as <-.
    destruct (IH _ Hothers) as [Hmap Hall]. cbn [map entryTarget]. rewrite Hmap.
    split; [reflexivity|]. constructor; [|exact Hall]. cbn.
    unfold resolveTarget in Hresolved.
    destruct (resolveValidatedPlanTarget registry (targetCandidate target)) as [err|[found|]];
      by simplify_eq.
Qed.

Local Abbreviation run :=
  (applyConfigTargetMutations registry AUTH_STORE_VERSION resolveAuthStorePathForAgent
     readJsonObjectIfExists normalizeProviderId).

(** When [applyConfigTargetMutations] returns, every target of the plan
    has passed [resolveValidatedPlanTarget]; if [configChanged] is
    [false] the configuration is untouched; the changed files it was
    given are still listed, and every file it added has its projected
    store in [authStoreByPath]; every scrubbed value is a non-empty
    string without white space at either end. *)
Theorem config_target_mutations_are_accounted_for
    (planTargets : list SecretsPlanTarget) (config : Value)
    (stores : list (string * Value)) (changed : list string)
    (result : ConfigTargetMutationResult) :
  run planTargets config stores changed = inr result ->
  map entryTarget (resolvedTargets result) = planTargets
  /\ Forall (fun item =>
               resolveValidatedPlanTarget registry (targetCandidate (entryTarget item))
               = inr (Some (entryResolved item))) (resolvedTargets result)
  /\ (configChanged result = false -> nextConfig result = config)
  /\ (forall pathname, pathname ∈ changed -> pathname ∈ changedFiles result)
  /\ (forall pathname,
        pathname ∈ changedFiles result ->
        pathname ∈ changed \/ hasOwn (authStoreByPath result) pathname = true)
  /\ Forall (fun value => truthy value = true /\ trim value = value)
       (scrubbedValues result).
Proof.
  unfold applyConfigTargetMutations. intros Hrun.
  apply andThen_inv in Hrun as (entries & Hentries & Hrun).
  apply resolveTargets_resolved in Hentries as [Hmap Hall].
  apply steps_keeps in Hrun
    as [Hconfig Htargets Hchanged _ Hprojected _ Hclean].
  cbn in Hconfig, Htargets, Hchanged, Hprojected, Hclean. rewrite Htargets.
  split; [exact Hmap|]. split; [exact Hall|].
  split; [intros Hflag; by apply Hconfig|].
  split; [exact Hchanged|]. split; [exact Hprojected|]. apply Hclean. constructor.
Qed.

Lemma resolveTargets_app before : forall target entries,
  resolveTargets registry (before ++ [target]) = inr entries ->
  exists earlier resolved,
    entries = earlier ++ [{| entryTarget := target; entryResolved := resolved |}]
    /\ resolveValidatedPlanTarget registry (targetCandidate target) = inr (Some resolved).
Proof.
  induction before as [|first rest IH]; intros target entries Hrun;
    cbn [app resolveTargets] in Hrun.
  - apply andThen_inv in Hrun as (resolved & Hresolved & Hrun). cbn in Hrun.
    injection Hrun as <-. exists [], resolved. split; [reflexivity|].
    unfold resolveTarget in Hresolved.
    destruct (resolveValidatedPlanTarget registry (targetCandidate target)) as [err|[found|]];
      by simplify_eq.
  - apply andThen_inv in Hrun as (resolved & _ & Hrun).
    apply andThen_inv in Hrun as (others & Hothers & Hrun). injection Hrun as <-.
    destruct (IH _ _ Hothers) as (earlier & last & -> & Hlast).
    by exists ({| entryTarget := first; entryResolved := resolved |} :: earlier), last.
Qed.

Lemma steps_app earlier : forall state item state',
  steps state (earlier ++ [item]) = inr state' ->
  exists state1, steps state earlier = inr state1 /\ step state1 item = inr state'.
Proof.
  induction earlier as [|first rest IH]; intros state item state' Hrun;
    cbn [app mutateTargets] in Hrun.
  - apply andThen_inv in Hrun as (state1 & Hstep & Hrun). cbn in Hrun.
    injection Hrun as <-. by exists state.
  - apply andThen_inv in Hrun as (state0 & Hfirst & Hrun).
    destruct (IH _ _ _ Hrun) as (state1 & Hrest & Hlast).
    exists state1. split; [|exact Hlast]. cbn [mutateTargets]. by rewrite Hfirst.
Qed.

Lemma run_last before target config stores changed result resolved :
  run (before ++ [target]) config stores changed = inr result ->
  resolveValidatedPlanTarget registry (targetCandidate target) = inr (Some resolved) ->
  exists state,
    step state {| entryTarget := target; entryResolved := resolved |} = inr result.
Proof.
  unfold applyConfigTargetMutations. intros Hrun Hresolved.
  apply andThen_inv in Hrun as (entries & Hentries & Hrun).
  apply resolveTargets_app in Hentries as (earlier & resolved' & -> & Hresolved').
  assert (resolved' = resolved) as -> by congruence.
  apply steps_app in Hrun as (state & _ & Hlast). by exists state.
Qed.

(** What the mutation for a target leaves in the tree it writes to:
    the ref at the path of a secret input; for a sibling ref, whose
    path and ref path differ in their last segment only, the ref at the
    ref path and nothing at the path. *)
Definition InPlace (tree : Value) (target : SecretsPlanTarget)
    (resolved : ResolvedPlanTarget) : Prop :=
  match secretShape (entry (resolvedEntry resolved)) with
  | SecretInput =>
      getPath tree (pathSegments resolved) = targetRef target
      \/ deepEq (getPath tree (pathSegments resolved)) (targetRef target) = true
  | SiblingRef =>
      forall parent leaf refLeaf,
        pathSegments resolved = parent ++ [leaf] ->
        refPathSegments resolved = Some (parent ++ [refLeaf]) ->
        leaf <> refLeaf -> isArrayIndexSegment leaf = false ->
        (getPath tree (parent ++ [refLeaf]) = targetRef target
         \/ deepEq (getPath tree (parent ++ [refLeaf])) (targetRef target) = true)
        /\ getPath tree (parent ++ [leaf]) = VUndefined
  end.

Lemma sibling_in_place tree tree1 tree2 target resolved wroteRef deleted refSegments :
  secretShape (entry (resolvedEntry resolved)) = SiblingRef ->
  refPathSegments resolved = Some refSegments ->
  setPathCreateStrict tree refSegments (targetRef target) = (tree1, inr wroteRef) ->
  deletePathStrict tree1 (pathSegments resolved) = (tree2, inr deleted) ->
  InPlace tree2 target resolved.
Proof.
  intros Hshape Href Hwrite Hdelete. unfold InPlace. rewrite Hshape.
  intros parent leaf refLeaf Hpath Hrefpath Hne Hleaf.
  rewrite Href in Hrefpath. injection Hrefpath as ->. rewrite Hpath in Hdelete.
  split.
  - rewrite (deletePathStrict_sibling _ _ _ _ _ _ Hne Hleaf Hdelete).
    by eapply created_reads.
  - eapply deleted_gone; [|exact Hdelete]. by rewrite List.last_last.
Qed.

Lemma input_in_place tree tree1 target resolved wroteRef :
  secretShape (entry (resolvedEntry resolved)) = SecretInput ->
  setPathCreateStrict tree (pathSegments resolved) (targetRef target)
  = (tree1, inr wroteRef) ->
  InPlace tree1 target resolved.
Proof.
  intros Hshape Hwrite. unfold InPlace. rewrite Hshape. by eapply created_reads.
Qed.

(** After [applyConfigTargetMutations] has returned, the last target of
    the plan, when it is a target of openclaw.json, is in place in the
    configuration: [getPath] reads its ref at its path; for a sibling
    ref it reads the ref at the ref path and [undefined] at the path of
    the plaintext. *)
Theorem last_config_target_is_in_place (before : list SecretsPlanTarget)
    (target : SecretsPlanTarget) (resolved : ResolvedPlanTarget) (config : Value)
    (stores : list (string * Value)) (changed : list string)
    (result : ConfigTargetMutationResult) :
  run (before ++ [target]) config stores changed = inr result ->
  resolveValidatedPlanTarget registry (targetCandidate target) = inr (Some resolved) ->
  configFile (entry (resolvedEntry resolved)) = OpenclawJson ->
  InPlace (nextConfig result) target resolved.
Proof.
  intros Hrun Hresolved Hfile.
  destruct (run_last _ _ _ _ _ _ _ Hrun Hresolved) as (state & Hstep).
  unfold mutateTarget in Hstep. cbv zeta in Hstep. cbn [entryTarget entryResolved] in Hstep.
  rewrite Hfile in Hstep. cbn [isAuthProfilesFile] in Hstep.
  destruct (secretShape (entry (resolvedEntry resolved))) eqn:Hshape;
    cbn [isSiblingRef] in Hstep.
  - apply andThen_inv in Hstep as ([config1 wroteRef] & Hwrite & Hstep).
    injection Hstep as <-. apply strict_inv in Hwrite. cbn [nextConfig].
    by eapply input_in_place.
  - destruct (refPathSegments resolved) as [refSegments|] eqn:Href; [|discriminate Hstep].
    apply andThen_inv in Hstep as ([config1 wroteRef] & Hwrite & Hstep).
    apply andThen_inv in Hstep as ([config2 deleted] & Hdelete & Hstep).
    injection Hstep as <-. apply strict_inv in Hwrite, Hdelete. cbn [nextConfig].
    by eapply sibling_in_place.
Qed.

(** After [applyConfigTargetMutations] has returned, the last target of
    the plan, when it is a target of auth-profiles.json, has an agent id
    and is in place in the store that [authStoreByPath] holds for the
    auth store path of that agent: [getPath] reads its ref at its path;
    for a sibling ref it reads the ref at the ref path and [undefined]
    at the path of the plaintext. *)
Theorem last_auth_profile_target_is_in_place (before : list SecretsPlanTarget)
    (target : SecretsPlanTarget) (resolved : ResolvedPlanTarget) (config : Value)
    (stores : list (string * Value)) (changed : list string)
    (result : ConfigTargetMutationResult) :
  run (before ++ [target]) config stores changed = inr result ->
  resolveValidatedPlanTarget registry (targetCandidate target) = inr (Some resolved) ->
  configFile (entry (resolvedEntry resolved)) = AuthProfilesJson ->
  truthy (targetAgentId target) = true
  /\ exists store,
       assoc (resolveAuthStorePathForAgent (nextConfig result) (targetAgentId target))
         (authStoreByPath result) = Some store
       /\ InPlace store target resolved.
Proof.
  intros Hrun Hresolved Hfile.
  destruct (run_last _ _ _ _ _ _ _ Hrun Hresolved) as (state & Hstep).
  unfold mutateTarget in Hstep. cbv zeta in Hstep. cbn [entryTarget entryResolved] in Hstep.
  rewrite Hfile in Hstep. cbn [isAuthProfilesFile] in Hstep.
  apply andThen_inv in Hstep as ([[stores' scrubbed] authStoreChanged] & Hauth & Hstep).
  assert (Hstate : authStoreByPath result = stores'
                   /\ nextConfig result = nextConfig state).
  { destruct authStoreChanged; [destruct (truthy _); [|discriminate Hstep]|];
      by injection Hstep as <-. }
  destruct Hstate as [-> ->]. clear Hstep.
  unfold applyAuthProfileTargetMutation in Hauth. rewrite Hfile in Hauth.
  cbn [isAuthProfilesFile negb] in Hauth.
  apply andThen_inv in Hauth as ([authStorePath store] & Hstore & Hauth).
  apply andThen_inv in Hauth as ([store1 changed1] & _ & Hauth).
  unfold resolveAuthStoreForTarget in Hstore.
  destruct (truthy (targetAgentId target)) eqn:Hagent; [|discriminate Hstore].
  injection Hstore as <- _. split; [reflexivity|].
  destruct (secretShape (entry (resolvedEntry resolved))) eqn:Hshape;
    cbn [isSiblingRef] in Hauth.
  - apply andThen_inv in Hauth as ([store2 wroteRef] & Hwrite & Hauth).
    injection Hauth as <- _ _. apply strict_inv in Hwrite.
    exists store2. split; [apply assoc_setProp_hit|]. by eapply input_in_place.
  - destruct (refPathSegments resolved) as [refSegments|] eqn:Href; [|discriminate Hauth].
    apply andThen_inv in Hauth as ([store2 wroteRef] & Hwrite & Hauth).
    apply andThen_inv in Hauth as ([store3 deleted] & Hdelete & Hauth).
    injection Hauth as <- _ _. apply strict_inv in Hwrite, Hdelete.
    exists store3. split; [apply assoc_setProp_hit|]. by eapply sibling_in_place.
Qed.

End Mutations.

(** A registry with a secret input and a sibling ref of openclaw.json and
    a sibling ref of auth-profiles.json. *)
Definition sampleEntry (id pattern : string) (refPattern : option string)
    (file : SecretTargetConfigFile) (profileType : option AuthProfileType)
  : SecretTargetRegistryEntry :=
  {| TargetRegistry.id := id;
     targetType := id;
     targetTypeAliases := [];
     configFile := file;
     pathPattern := pattern;
     refPathPattern := refPattern;
     secretShape := match refPattern with Some _ => SiblingRef | None => SecretInput end;
     expectedResolvedValue := ExpectString;
     includeInPlan := true;
     includeInConfigure := true;
     includeInAudit := true;
     providerIdPathSegmentIndex := None;
     accountIdPathSegmentIndex := None;
     authProfileType := profileType;
     trackProviderShadowing := false |}.

Definition sampleTargets : list CompiledTargetRegistryEntry :=
  omap compileTargetRegistryEntry
    [sampleEntry "talk.apiKey" "talk.apiKey" None OpenclawJson None;
     sampleEntry "channels.googlechat.serviceAccount" "channels.googlechat.serviceAccount"
       (Some "channels.googlechat.serviceAccountRef") OpenclawJson None;
     sampleEntry "auth-profiles.api_key.key" "profiles.*.key" (Some "profiles.*.keyRef")
       AuthProfilesJson (Some ApiKeyProfile)].

Definition sampleRef (name : string) : Value :=
  VObj [("source", VStr "env"); ("provider", VStr "default"); ("id", VStr name)].

Definition sampleTarget (type path : string) (agentId provider : option string)
    (name : string) : SecretsPlanTarget :=
  {| targetCandidate :=
       {| c_type := Some type; c_path := Some path; c_pathSegments := None;
          c_agentId := agentId; c_providerId := VUndefined; c_accountId := VUndefined;
          c_authProfileProvider := provider |};
     targetRef := sampleRef name |}.

Definition talkTarget : SecretsPlanTarget :=
  sampleTarget "talk.apiKey" "talk.apiKey" None None "TALK_API_KEY".

Definition googleChatTarget : SecretsPlanTarget :=
  sampleTarget "channels.googlechat.serviceAccount" "channels.googlechat.serviceAccount"
    None None "GOOGLECHAT_SERVICE_ACCOUNT".

Definition authProfileTarget : SecretsPlanTarget :=
  sampleTarget "auth-profiles.api_key.key" "profiles.openai:default.key" (Some "main")
    (Some "openai") "OPENAI_API_KEY".

Definition plaintextConfig : Value :=
  VObj [("talk", VObj [("apiKey", VStr " sk-talk ")]);
        ("channels", VObj [("googlechat", VObj [("serviceAccount", VStr "{json}")])])].

Definition sampleStorePath (config : Value) (agentId : string) : string :=
  "/home/u/.openclaw/agents/" +:+ agentId +:+ "/agent/auth-profiles.json".

Definition sampleMutations (planTargets : list SecretsPlanTarget)
  : ApplyError + ConfigTargetMutationResult :=
  applyConfigTargetMutations sampleTargets 1 sampleStorePath (fun _ => VNull)
    (fun provider => provider) planTargets plaintextConfig [] [].

Lemma config_target_mutations_are_accounted_for_witness :
  exists result,
    sampleMutations [talkTarget; authProfileTarget] = inr result
    /\ map entryTarget (resolvedTargets result) = [talkTarget; authProfileTarget]
    /\ changedFiles result = [sampleStorePath plaintextConfig "main"]
    /\ hasOwn (authStoreByPath result) (sampleStorePath plaintextConfig "main") = true
    /\ scrubbedValues result = ["sk-talk"].
Proof.
  destruct (sampleMutations [talkTarget; authProfileTarget]) as [e|result] eqn:Hrun.
  - vm_compute in Hrun. discriminate Hrun.
  - exists result. split; [reflexivity|].
    destruct (config_target_mutations_are_accounted_for sampleTargets 1 sampleStorePath
                (fun _ => VNull) (fun provider => provider)
                [talkTarget; authProfileTarget] plaintextConfig [] [] result Hrun)
      as (Htargets & _ & _ & _ & Hprojected & _).
    split; [exact Htargets|].
    assert (Hfiles : changedFiles result = [sampleStorePath plaintextConfig "main"]).
    { vm_compute in Hrun. injection Hrun as <-. reflexivity. }
    split; [exact Hfiles|]. split.
    + destruct (Hprojected (sampleStorePath plaintextConfig "main")) as [Hgiven|Hown].
      * rewrite Hfiles. apply list_elem_of_singleton. reflexivity.
      * by apply elem_of_nil in Hgiven.
      * exact Hown.
    + vm_compute in Hrun. injection Hrun as <-. reflexivity.
Defined.

Lemma last_config_target_is_in_place_witness :
  exists result,
    sampleMutations [talkTarget; googleChatTarget] = inr result
    /\ getPath (nextConfig result) ["channels"; "googlechat"; "serviceAccountRef"]
       = sampleRef "GOOGLECHAT_SERVICE_ACCOUNT"
    /\ getPath (nextConfig result) ["channels"; "googlechat"; "serviceAccount"]
       = VUndefined.
Proof.
  destruct (sampleMutations [talkTarget; googleChatTarget]) as [e|result] eqn:Hrun.
  - vm_compute in Hrun. discriminate Hrun.
  - exists result. split; [reflexivity|].
    destruct (resolveValidatedPlanTarget sampleTargets (targetCandidate googleChatTarget))
      as [err|[resolved|]] eqn:Hresolved.
    + vm_compute in Hresolved. discriminate Hresolved.
    + pose proof (last_config_target_is_in_place sampleTargets 1 sampleStorePath
                    (fun _ => VNull) (fun provider => provider) [talkTarget]
                    googleChatTarget resolved plaintextConfig [] [] result Hrun Hresolved)
        as Hplace.
      vm_compute in Hresolved. injection Hresolved as <-.
      destruct (Hplace eq_refl ["channels"; "googlechat"] "serviceAccount"
                  "serviceAccountRef" eq_refl eq_refl) as [Href Hgone].
      * discriminate.
      * reflexivity.
      * split; [|exact Hgone]. destruct Href as [Hsame|Hequal]; [exact Hsame|].
        vm_compute in Hrun. injection Hrun as <-. reflexivity.
    + vm_compute in Hresolved. discriminate Hresolved.
Defined.

Lemma last_auth_profile_target_is_in_place_witness :
  exists result store,
    sampleMutations [talkTarget; authProfileTarget] = inr result
    /\ assoc (sampleStorePath plaintextConfig "main") (authStoreByPath result) = Some store
    /\ getPath store ["profiles"; "openai:default"; "keyRef"] = sampleRef "OPENAI_API_KEY"
    /\ getPath store ["profiles"; "openai:default"; "key"] = VUndefined.
Proof.
  destruct (sampleMutations [talkTarget; authProfileTarget]) as [e|result] eqn:Hrun.
  - vm_compute in Hrun. discriminate Hrun.
  - destruct (resolveValidatedPlanTarget sampleTargets (targetCandidate authProfileTarget))
      as [err|[resolved|]] eqn:Hresolved.
    + vm_compute in Hresolved. discriminate Hresolved.
    + pose proof (last_auth_profile_target_is_in_place sampleTargets 1 sampleStorePath
                    (fun _ => VNull) (fun provider => provider) [talkTarget]
                    authProfileTarget resolved plaintextConfig [] [] result Hrun Hresolved)
        as Hplace.
      vm_compute in Hresolved. injection Hresolved as <-.
      destruct (Hplace eq_refl) as (_ & store & Hstore & Hin).
      exists result, store. split; [reflexivity|]. split; [exact Hstore|].
      destruct (Hin ["profiles"; "openai:default"] "key" "keyRef" eq_refl eq_refl)
        as [Href Hgone].
      * discriminate.
      * reflexivity.
      * split; [|exact Hgone]. destruct Href as [Hsame|Hequal]; [exact Hsame|].
        vm_compute in Hrun. injection Hrun as <-. vm_compute in Hstore.
        injection Hstore as <-. reflexivity.
    + vm_compute in Hresolved. discriminate Hresolved.
Defined.

End PlanMutationFacts.

(** ** Scrubbing .env files *)

Module EnvScrubFacts.
Import JsString EnvScrub.

(** The lines that [scrubEnvRaw] drops: an assignment to an allowed key
    whose parsed value was migrated. *)
Definition migratedAssignment (migratedValues allowedEnvKeys : list string) (line : string)
  : bool :=
  match matchEnvLine line with
  | Some (envKey, rawValue) =>
      bool_decide (envKey ∈ allowedEnvKeys)
      && bool_decide (parseEnvAssignmentValue rawValue ∈ migratedValues)
  | None => false
  end.

Definition keptLine (migratedValues allowedEnvKeys : list string) (line : string) : bool :=
  negb (migratedAssignment migratedValues allowedEnvKeys line).

Fixpoint allNameChars (s : string) : bool :=
  match s with
  | EmptyString => true
  | String c rest => isNameChar c && allNameChars rest
  end.

(** The names that the expression of [scrubEnvRaw] takes as a key. *)
Definition isEnvName (s : string) : bool :=
  match s with
  | EmptyString => false
  | String c _ => isNameStart c && allNameChars s
  end.

Definition isQuote (c : ascii) : bool := Ascii.eqb c "034" || Ascii.eqb c "'".

(** [KEY=<quote>value<quote>], after [prefix]. *)
Definition quotedAssignment (prefix key : string) (quote : ascii) (value : string) : string :=
  prefix +:+ key +:+ String "=" (String quote (value +:+ String quote "")).

Definition lineFeed : string := String "010" "".

Definition sampleEnv : string :=
  "A=1" +:+ lineFeed +:+ "export TOKEN='sk-1'" +:+ lineFeed +:+ "B=2" +:+ lineFeed.

Lemma scrubLines_spec migrated allowed lines :
  scrubLines migrated allowed lines
  = (List.filter (keptLine migrated allowed) lines,
     length (List.filter (migratedAssignment migrated allowed) lines)).
Proof.
induction lines as [|line rest IH]; [reflexivity|].
cbn [scrubLines List.filter]. rewrite IH.
unfold keptLine, migratedAssignment.
destruct (matchEnvLine line) as [[envKey rawValue]|]; [|reflexivity].
destruct (bool_decide (envKey ∈ allowed)); [|reflexivity].
by destruct (bool_decide (parseEnvAssignmentValue rawValue ∈ migrated)).
Qed.

Lemma splitLines_step cur c rest :
  isLineTerminator c = false -> splitLines cur (String c rest) = splitLines (c :: cur) rest.
Proof.
unfold isLineTerminator. intros [Hlf Hcr]%orb_false_iff.
cbn [splitLines]. rewrite Hlf, Hcr. by destruct rest.
Qed.

Lemma splitLines_line l : forall cur rest,
  noLineTerminator l = true ->
  splitLines cur (l +:+ String "010" rest)
  = string_of_list_ascii (rev cur ++ list_ascii_of_string l) :: splitLines [] rest.
Proof.
induction l as [|c l IH]; intros cur rest Hclean.
- rewrite StringFacts.app_nil_l. cbn [splitLines list_ascii_of_string].
  by rewrite List.app_nil_r.
- cbn [noLineTerminator] in Hclean. apply andb_true_iff in Hclean as [Hc Hl].
  apply negb_true_iff in Hc.
  rewrite StringFacts.app_cons, splitLines_step by done.
  rewrite IH by done. cbn [rev list_ascii_of_string].
  by rewrite <- List.app_assoc.
Qed.

Lemma splitLines_last l : forall cur,
  noLineTerminator l = true ->
  splitLines cur l = [string_of_list_ascii (rev cur ++ list_ascii_of_string l)].
Proof.
induction l as [|c l IH]; intros cur Hclean.
- cbn [splitLines list_ascii_of_string]. by rewrite List.app_nil_r.
- cbn [noLineTerminator] in Hclean. apply andb_true_iff in Hclean as [Hc Hl].
  apply negb_true_iff in Hc.
  rewrite splitLines_step by done.
  rewrite IH by done. cbn [rev list_ascii_of_string].
  by rewrite <- List.app_assoc.
Qed.

Lemma join_cons sep p q rest :
  join sep (p :: q :: rest) = p +:+ sep +:+ join sep (q :: rest).
Proof. reflexivity. Qed.

Lemma lineFeed_app s : lineFeed +:+ s = String "010" s.
Proof. unfold lineFeed. by rewrite StringFacts.app_cons, StringFacts.app_nil_l. Qed.

Lemma splitLines_join lines :
  lines <> [] ->
  Forall (fun l => noLineTerminator l = true) lines ->
  splitLines [] (join lineFeed lines) = lines.
Proof.
induction lines as [|p [|q rest] IH]; intros Hne Hclean; [done| |].
- cbn [join]. rewrite splitLines_last by by inversion Hclean.
  cbn [rev app]. by rewrite string_of_list_ascii_of_string.
- inversion Hclean as [|? ? Hp Hrest]; subst.
  rewrite join_cons, lineFeed_app, splitLines_line by done.
  cbn [rev app]. rewrite string_of_list_ascii_of_string.
  f_equal. by apply IH.
Qed.

Lemma splitLines_join_newline lines :
  lines <> [] ->
  Forall (fun l => noLineTerminator l = true) lines ->
  splitLines [] (join lineFeed lines +:+ lineFeed) = lines ++ [""].
Proof.
induction lines as [|p [|q rest] IH]; intros Hne Hclean; [done| |].
- cbn [join]. unfold lineFeed at 1. rewrite splitLines_line by by inversion Hclean.
  cbn [rev app]. by rewrite string_of_list_ascii_of_string.
- inversion Hclean as [|? ? Hp Hrest]; subst.
  rewrite join_cons, !StringFacts.app_assoc, lineFeed_app, splitLines_line by done.
  cbn [rev app]. rewrite string_of_list_ascii_of_string.
  cbn [app]. f_equal. by apply IH.
Qed.


Lemma app_empty_r (s : string) : s +:+ "" = s.
Proof.
induction s as [|c s IH]; [reflexivity|].
by rewrite StringFacts.app_cons, IH.
Qed.

Lemma filter_all {A} (f : A -> bool) (l : list A) :
  (forall x, f x = true) -> List.filter f l = l.
Proof.
intros Hall. induction l as [|x l IH]; [done|].
cbn [List.filter]. by rewrite Hall, IH.
Qed.

Lemma filter_none {A} (f : A -> bool) (l : list A) :
  (forall x, f x = false) -> List.filter f l = [].
Proof.
intros Hnone. induction l as [|x l IH]; [done|].
cbn [List.filter]. by rewrite Hnone, IH.
Qed.

Lemma nothing_migrated allowed line : migratedAssignment [] allowed line = false.
Proof.
unfold migratedAssignment. destruct (matchEnvLine line) as [[envKey rawValue]|]; [|done].
apply andb_false_iff. right. apply bool_decide_eq_false. by intros ?%elem_of_nil.
Qed.

Lemma nothing_allowed migrated line : migratedAssignment migrated [] line = false.
Proof.
unfold migratedAssignment. destruct (matchEnvLine line) as [[envKey rawValue]|]; [|done].
apply andb_false_iff. left. apply bool_decide_eq_false. by intros ?%elem_of_nil.
Qed.

Lemma kept_lines_clean migrated allowed lines :
  Forall (fun l => noLineTerminator l = true) lines ->
  Forall (fun l => noLineTerminator l = true) (List.filter (keptLine migrated allowed) lines).
Proof.
rewrite !List.Forall_forall. intros Hclean line [Hin _]%List.filter_In. by apply Hclean.
Qed.

(** What the guard of [scrubEnvRaw] returns agrees with the general
    case: without migrated values or allowed keys no line is dropped. *)
Lemma unguarded_scrub raw migrated allowed :
  migrated = [] \/ allowed = [] ->
  List.filter (keptLine migrated allowed) (splitLines [] raw) = splitLines [] raw
  /\ List.filter (migratedAssignment migrated allowed) (splitLines [] raw) = [].
Proof.
intros [-> | ->]; (split; [apply filter_all | apply filter_none]); intros line;
  unfold keptLine; rewrite ?nothing_migrated, ?nothing_allowed; done.
Qed.

(** The lines of the text that [scrubEnvRaw] returns, for the lines
    [nextLines] that its loop kept. *)
Lemma lines_of_next_raw (hadTrailingNewline : bool) nextLines :
  Forall (fun l => noLineTerminator l = true) nextLines ->
  let joined := join lineFeed nextLines in
  exists tail,
    splitLines []
      (if hadTrailingNewline || (String.length joined =? 0)%nat
       then joined +:+ (if endsWith joined lineFeed then "" else lineFeed)
       else joined)
    = nextLines ++ tail
    /\ Forall (fun l => l = "") tail.
Proof.
intros Hclean joined.
destruct nextLines as [|p rest].
- exists [""; ""]. rewrite orb_true_r. split; [reflexivity|]. by repeat constructor.
- assert (Hne : p :: rest <> []) by done.
  destruct (hadTrailingNewline || (String.length joined =? 0)%nat).
  + destruct (endsWith joined lineFeed).
    * exists []. rewrite app_empty_r, List.app_nil_r.
      split; [by apply splitLines_join | constructor].
    * exists [""]. split; [by apply splitLines_join_newline | by repeat constructor].
  + exists []. rewrite List.app_nil_r. split; [by apply splitLines_join | constructor].
Qed.

(** Scrubbing a text whose lines hold no carriage return (each line
    ends with LF or CRLF) keeps the lines in order and drops exactly the
    migrated assignments: the lines of the result are the other lines of
    the input, followed at most by empty lines; [removed] counts the
    dropped lines; and no line of the result is a migrated assignment. *)
Theorem scrub_drops_exactly_the_migrated_assignments raw migrated allowed :
  Forall (fun l => noLineTerminator l = true) (splitLines [] raw) ->
  let '(nextRaw, removed) := scrubEnvRaw raw migrated allowed in
  (exists tail,
     splitLines [] nextRaw
     = List.filter (keptLine migrated allowed) (splitLines [] raw) ++ tail
     /\ Forall (fun l => l = "") tail)
  /\ removed = length (List.filter (migratedAssignment migrated allowed) (splitLines [] raw))
  /\ (forall line, line ∈ splitLines [] nextRaw ->
        migratedAssignment migrated allowed line = false).
Proof.
intros Hclean.
destruct (scrubEnvRaw raw migrated allowed) as [nextRaw removed] eqn:Hrun.
assert (Hmain :
  (exists tail,
     splitLines [] nextRaw
     = List.filter (keptLine migrated allowed) (splitLines [] raw) ++ tail
     /\ Forall (fun l => l = "") tail)
  /\ removed = length (List.filter (migratedAssignment migrated allowed) (splitLines [] raw))).
{ assert (Hguard : migrated = [] \/ allowed = [] -> scrubEnvRaw raw migrated allowed = (raw, 0%nat)).
  { intros [-> | ->]; [done | by destruct migrated]. }
  destruct migrated as [|m ms]; [|destruct allowed as [|a als]].
  - rewrite Hguard in Hrun by by left. injection Hrun as <- <-.
    destruct (unguarded_scrub raw [] allowed) as [-> ->]; [by left|].
    split; [|done]. exists []. by rewrite List.app_nil_r.
  - rewrite Hguard in Hrun by by right. injection Hrun as <- <-.
    destruct (unguarded_scrub raw (m :: ms) []) as [-> ->]; [by right|].
    split; [|done]. exists []. by rewrite List.app_nil_r.
  - clear Hguard. unfold scrubEnvRaw in Hrun. rewrite scrubLines_spec in Hrun.
    injection Hrun as <- <-. split; [|done].
    apply (lines_of_next_raw (endsWith raw (String "010" ""))).
    by apply kept_lines_clean. }
destruct Hmain as [(tail & Hlines & Htail) Hremoved].
split; [by exists tail|]. split; [done|].
intros line Hin. rewrite Hlines in Hin. apply elem_of_app in Hin as [Hin | Hin].
- apply list_elem_of_In, List.filter_In in Hin as [_ Hkept].
  unfold keptLine in Hkept. by apply negb_true_iff in Hkept.
- rewrite List.Forall_forall in Htail. apply list_elem_of_In, Htail in Hin as ->.
  reflexivity.
Qed.

Lemma scrub_drops_exactly_the_migrated_assignments_witness :
  let '(nextRaw, removed) := scrubEnvRaw sampleEnv ["sk-1"] ["TOKEN"] in
  (exists tail,
     splitLines [] nextRaw
     = List.filter (keptLine ["sk-1"] ["TOKEN"]) (splitLines [] sampleEnv) ++ tail
     /\ Forall (fun l => l = "") tail)
  /\ removed
     = length (List.filter (migratedAssignment ["sk-1"] ["TOKEN"]) (splitLines [] sampleEnv))
  /\ (forall line, line ∈ splitLines [] nextRaw ->
        migratedAssignment ["sk-1"] ["TOKEN"] line = false).
Proof.
apply (scrub_drops_exactly_the_migrated_assignments sampleEnv ["sk-1"] ["TOKEN"]).
vm_compute. repeat constructor.
Defined.

Lemma nameChar_not_white c : isNameChar c = true -> isWhite c = false.
Proof. destruct c as [[] [] [] [] [] [] [] []]; vm_compute; congruence. Qed.

Lemma quote_not_white c : isQuote c = true -> isWhite c = false.
Proof. destruct c as [[] [] [] [] [] [] [] []]; vm_compute; congruence. Qed.

Lemma quote_not_terminator c : isQuote c = true -> isLineTerminator c = false.
Proof. destruct c as [[] [] [] [] [] [] [] []]; vm_compute; congruence. Qed.

Lemma spanName_key key rest :
  allNameChars key = true -> spanName (key +:+ String "=" rest) = (key, String "=" rest).
Proof.
induction key as [|c key IH]; intros Hname.
- by rewrite StringFacts.app_nil_l.
- cbn [allNameChars] in Hname. apply andb_true_iff in Hname as [Hc Hkey].
  rewrite StringFacts.app_cons. cbn [spanName]. by rewrite Hc, IH.
Qed.

Lemma noLineTerminator_app a b :
  noLineTerminator a = true -> noLineTerminator b = true -> noLineTerminator (a +:+ b) = true.
Proof.
intros Ha Hb. induction a as [|c a IH]; [by rewrite StringFacts.app_nil_l|].
cbn [noLineTerminator] in Ha. apply andb_true_iff in Ha as [Hc Ha].
rewrite StringFacts.app_cons. cbn [noLineTerminator]. by rewrite Hc, IH.
Qed.

Lemma trimEnd_kept s c : isWhite c = false -> trimEnd (s +:+ String c "") = s +:+ String c "".
Proof.
intros Hc. induction s as [|d s IH].
- rewrite StringFacts.app_nil_l. cbn [trimEnd]. by rewrite Hc.
- rewrite StringFacts.app_cons. cbn [trimEnd]. rewrite IH.
  destruct s; [by rewrite StringFacts.app_nil_l | by rewrite StringFacts.app_cons].
Qed.

Lemma dropChars_app a b : dropChars (String.length a) (a +:+ b) = b.
Proof.
induction a as [|c a IH]; [by rewrite StringFacts.app_nil_l|].
by rewrite StringFacts.app_cons.
Qed.

Lemma takeChars_app a b : takeChars (String.length a) (a +:+ b) = a.
Proof.
induction a as [|c a IH]; [by destruct b|].
rewrite StringFacts.app_cons. cbn [String.length takeChars]. by rewrite IH.
Qed.

Lemma startsWith_empty s : startsWith s "" = true.
Proof. by destruct s. Qed.

(** A value between two quotes of the same kind parses to the value. *)
Lemma parse_quoted quote value :
  isQuote quote = true ->
  parseEnvAssignmentValue (String quote (value +:+ String quote "")) = value.
Proof.
intros Hquote. unfold parseEnvAssignmentValue.
pose proof (quote_not_white _ Hquote) as Hwhite.
assert (Htrim : trim (String quote (value +:+ String quote ""))
                = String quote (value +:+ String quote "")).
{ unfold trim. cbn [trimStart]. rewrite Hwhite.
  rewrite <- StringFacts.app_cons. by apply trimEnd_kept. }
rewrite Htrim. cbv zeta.
assert (Hends : forall q, endsWith (String quote (value +:+ String quote "")) (String q "")
                          = Ascii.eqb quote q).
{ intros q. unfold endsWith. rewrite <- StringFacts.app_cons, StringFacts.app_length.
  cbn [String.length].
  replace (S (String.length value) + 1 - 1)%nat with (String.length (String quote value))
    by (cbn [String.length]; lia).
  rewrite dropChars_app.
  replace (1 <=? String.length (String quote value) + 1)%nat with true
    by (symmetry; apply Nat.leb_le; lia).
  cbn [andb String.eqb]. by destruct (Ascii.eqb quote q). }
rewrite !Hends. cbn [startsWith]. rewrite !startsWith_empty, !andb_true_r.
assert (Hcond : Ascii.eqb "034" quote && Ascii.eqb quote "034"
                || Ascii.eqb "'" quote && Ascii.eqb quote "'" = true).
{ unfold isQuote in Hquote. apply orb_true_iff in Hquote as [Hq | Hq].
  - rewrite Hq. apply Ascii.eqb_eq in Hq as ->. reflexivity.
  - rewrite Hq. apply Ascii.eqb_eq in Hq as ->. reflexivity. }
rewrite Hcond. cbn [dropChars].
replace (String.length (String quote (value +:+ String quote "")) - 2)%nat
  with (String.length value)
  by (cbn [String.length]; rewrite StringFacts.app_length; cbn [String.length]; lia).
apply takeChars_app.
Qed.

(** The assignment part of the expression reads the key and the quoted
    value. *)
Lemma matchAssignment_quoted key quote value :
  isEnvName key = true ->
  isQuote quote = true ->
  noLineTerminator value = true ->
  matchAssignment (quotedAssignment "" key quote value)
  = Some (key, String quote (value +:+ String quote "")).
Proof.
intros Hname Hquote Hvalue. unfold quotedAssignment. rewrite StringFacts.app_nil_l.
destruct key as [|c key]; [done|].
cbn [isEnvName] in Hname. apply andb_true_iff in Hname as [Hstart Hall].
unfold matchAssignment. rewrite StringFacts.app_cons, Hstart.
rewrite <- StringFacts.app_cons, spanName_key by done.
cbn [trimStart]. rewrite (quote_not_white _ Hquote).
replace (isWhite "=") with false by reflexivity.
replace (Ascii.eqb "=" "=") with true by reflexivity.
assert (Hclean : noLineTerminator (String quote (value +:+ String quote "")) = true).
{ cbn [noLineTerminator]. rewrite (quote_not_terminator _ Hquote). cbn [negb andb].
  apply noLineTerminator_app; [done|].
  cbn [noLineTerminator]. by rewrite (quote_not_terminator _ Hquote). }
cbn [trimStart]. by rewrite (quote_not_white _ Hquote), Hclean.
Qed.

(** A key is not mistaken for the keyword [export]: after its first six
    characters comes a character of the name or the equals sign. *)
Lemma export_group_skipped {A} key rest (found : string -> option A) :
  allNameChars key = true ->
  (if startsWith (key +:+ String "=" rest) "export" then
     match dropChars 6 (key +:+ String "=" rest) with
     | String c after => if isWhite c then found after else None
     | EmptyString => None
     end
   else None) = None.
Proof.
intros Hname.
destruct key as [|c1 [|c2 [|c3 [|c4 [|c5 [|c6 [|c7 key]]]]]]];
  rewrite ?StringFacts.app_cons, ?StringFacts.app_nil_l;
  cbn [startsWith]; 
  try (replace (Ascii.eqb "e" "=") with false by reflexivity);
  try (replace (Ascii.eqb "x" "=") with false by reflexivity);
  try (replace (Ascii.eqb "p" "=") with false by reflexivity);
  try (replace (Ascii.eqb "o" "=") with false by reflexivity);
  try (replace (Ascii.eqb "r" "=") with false by reflexivity);
  try (replace (Ascii.eqb "t" "=") with false by reflexivity);
  cbn [andb]; rewrite ?andb_false_r; try reflexivity.
- cbn [dropChars]. replace (isWhite "=") with false by reflexivity.
  by destruct (_ && _).
- cbn [dropChars].
  cbn [allNameChars] in Hname.
  do 6 (apply andb_true_iff in Hname as [_ Hname]).
  apply andb_true_iff in Hname as [Hc7 _].
  rewrite (nameChar_not_white _ Hc7). by destruct (_ && _).
Qed.

(** A line [KEY='value'] or [KEY=<double quote>value<double quote>],
    alone or after [export], is read as the assignment of exactly
    [value] to [KEY], whatever the value holds besides line
    terminators: spaces, equals signs and quotes included. *)
Theorem quoted_assignment_is_read_back (exported : bool) key quote value :
  isEnvName key = true ->
  isQuote quote = true ->
  noLineTerminator value = true ->
  exists rawValue,
    matchEnvLine (quotedAssignment (if exported then "export " else "") key quote value)
    = Some (key, rawValue)
    /\ parseEnvAssignmentValue rawValue = value.
Proof.
intros Hname Hquote Hvalue.
exists (String quote (value +:+ String quote "")).
split; [|by apply parse_quoted].
pose proof (matchAssignment_quoted key quote value Hname Hquote Hvalue) as Hmatch.
assert (Hstart : trimStart (quotedAssignment "" key quote value)
                 = quotedAssignment "" key quote value).
{ unfold quotedAssignment. rewrite StringFacts.app_nil_l.
  destruct key as [|c key]; [done|].
  cbn [isEnvName allNameChars] in Hname.
  apply andb_true_iff in Hname as [_ [Hc _]%andb_true_iff].
  rewrite StringFacts.app_cons. cbn [trimStart]. by rewrite (nameChar_not_white _ Hc). }
destruct exported.
- unfold matchEnvLine, quotedAssignment.
  rewrite !StringFacts.app_cons, StringFacts.app_nil_l.
  cbn [trimStart]. replace (isWhite "e") with false by reflexivity.
  cbn [startsWith dropChars].
  replace (isWhite " ") with true by reflexivity.
  cbv zeta. cbn [Ascii.eqb Bool.eqb andb].
  unfold quotedAssignment in Hstart, Hmatch. rewrite StringFacts.app_nil_l in Hstart, Hmatch.
  by rewrite Hstart, Hmatch.
- unfold matchEnvLine. rewrite Hstart. cbv zeta.
  unfold quotedAssignment at 1 2. rewrite StringFacts.app_nil_l.
  rewrite export_group_skipped; [exact Hmatch|].
  destruct key as [|c key]; [done|].
  cbn [isEnvName] in Hname. by apply andb_true_iff in Hname as [_ Hall].
Qed.

Lemma quoted_assignment_is_read_back_witness :
  exists rawValue,
    matchEnvLine (quotedAssignment "export " "API_KEY" "'" "sk = 'quoted' # 1")
    = Some ("API_KEY", rawValue)
    /\ parseEnvAssignmentValue rawValue = "sk = 'quoted' # 1".
Proof.
apply (quoted_assignment_is_read_back true "API_KEY" "'" "sk = 'quoted' # 1");
  reflexivity.
Defined.

End EnvScrubFacts.

(** ** Sibling refs override plaintext *)

Module SiblingRefFacts.
Import JsString Json RuntimeShared CoreCollectors ChannelCollectors AuthCollectors.
Import CommandSecrets RuntimeSnapshot StringFacts ContextFacts CollectFacts SnapshotFacts.
Import CollectorPathFacts.

(** *** The sibling-ref targets of the auth-profile stores *)

(** The field of a profile that holds the plaintext: [key] of an
    [api_key] profile, [token] of a [token] profile; the ref is in
    [keyRef] or [tokenRef]. *)
Inductive ProfileField := KeyField | TokenField.




(** A profile of the store of an agent directory. *)
Record AuthProfileTarget := {
  authAgentDir : string;
  authProfileId : string;
  authField : ProfileField
}.



Definition authPath (target : AuthProfileTarget) : string :=
  authAgentDir target +:+ ".auth-profiles." +:+ authProfileId target
    +:+ match authField target with KeyField => ".key" | TokenField => ".token" end.


Definition authWarning (target : AuthProfileTarget) : SecretResolverWarning :=
  {| code := SECRETS_REF_OVERRIDES_PLAINTEXT;
     path := authPath target;
     message :=
       "auth-profiles " +:+ authProfileId target
         +:+ match authField target with
             | KeyField => ": keyRef is set; runtime will ignore plaintext key."
             | TokenField => ": tokenRef is set; runtime will ignore plaintext token."
             end |}.







(** *** Reading a store after an assignment *)








(** *** What the auth-profile collectors add *)


Section Collectors.
Variable coerceSecretRef : Value -> Value -> option SecretRef.
Variable hasConfiguredSecretInput : Value -> Value -> bool.







Variable loadAuthStore : string -> Value.






Variable resolveSecretRefValues : list SecretRef -> Value -> string + gmap string Value.
Variable resolveUserPath : string -> string.
Variable resolveOpenClawAgentDir : string.
Variable listAgentIds : Value -> list string.
Variable resolveAgentDir : Value -> string -> string.

Local Abbreviation prepare :=
  (prepareSecretsRuntimeSnapshot coerceSecretRef hasConfiguredSecretInput
     resolveSecretRefValues loadAuthStore resolveUserPath resolveOpenClawAgentDir
     listAgentIds resolveAgentDir).

(** [candidateDirs] of [prepareSecretsRuntimeSnapshot]: the directories
    whose stores are loaded. *)
Definition candidateDirs (config : Value) (agentDirs : option (list string)) : list string :=
  match agentDirs with
  | Some (first :: rest) => uniqueStrings [] (map resolveUserPath (first :: rest))
  | _ =>
      collectCandidateAgentDirs resolveUserPath resolveOpenClawAgentDir listAgentIds
        resolveAgentDir config
  end.





End Collectors.

(** A run over the sample configuration and the store of the default
    agent directory, whose profile holds a plaintext key and a ref. *)
Definition sampleAgentDir : string := "/home/u/.openclaw/agent".

Definition sampleProfile : list (string * Value) :=
  [("type", VStr "api_key"); ("provider", VStr "openai"); ("key", VStr "sk-plaintext");
   ("keyRef", SecretInputModel.envRef "OPENAI_API_KEY")].

Definition sampleProfiles : list (string * Value) :=
  [("openai:default", VObj sampleProfile)].

Definition sampleLoadAuthStore (agentDir : string) : Value :=
  VObj [("version", VNum 1); ("profiles", VObj sampleProfiles)].

Definition sampleValues : gmap string Value :=
  {[ "env:default:GOOGLECHAT_WORK_ACCOUNT" := VStr "resolved-work-account";
     "env:default:GOOGLECHAT_SERVICE_ACCOUNT" := VStr "resolved-service-account";
     "env:default:OPENAI_API_KEY" := VStr "sk-resolved" ]}.

Definition sampleRun : string + PreparedSecretsRuntimeSnapshot :=
  prepareSecretsRuntimeSnapshot SecretInputModel.coerceSecretRef
    SecretInputModel.hasConfiguredSecretInput (fun _ _ => inr sampleValues)
    sampleLoadAuthStore (fun dir => dir) sampleAgentDir
    (fun _ => []) (fun _ agentId => agentId) sampleConfig None.

Definition sampleTarget : AuthProfileTarget :=
  {| authAgentDir := sampleAgentDir; authProfileId := "openai:default"; authField := KeyField |}.

Example sample_run_warnings :
  match sampleRun with
  | inr snapshot => map path (snapshotWarnings snapshot)
  | inl _ => []
  end = ["channels.googlechat.serviceAccount"; "channels.googlechat.accounts.work";
         "/home/u/.openclaw/agent.auth-profiles.openai:default.key"].
Proof. vm_compute. reflexivity. Qed.

(** Two profiles whose warnings differ in path and message and have the
    same key: the agent directory of the second ends with what the path
    and the message of the first hold around their colon. *)
Definition firstColliding : AuthProfileTarget :=
  {| authAgentDir := "/a";
     authProfileId := "v.auth-profiles.x.key:auth-profiles x";
     authField := KeyField |}.

Definition secondColliding : AuthProfileTarget :=
  {| authAgentDir :=
       "/a.auth-profiles.v.auth-profiles.x.key:auth-profiles x.key:auth-profiles v";
     authProfileId := "x";
     authField := KeyField |}.




Example colliding_keys :
  warningKey (authWarning firstColliding) = warningKey (authWarning secondColliding)
  /\ path (authWarning firstColliding) <> path (authWarning secondColliding).
Proof. split; [vm_compute; reflexivity|vm_compute; discriminate]. Qed.



End SiblingRefFacts.
